(** * The attribution matching engine of fbpcs/emp_games/pcf2_attribution

    A shallow embedding of [AttributionGame_impl.h].  Secret values are read in
    the clear: a [SecBit] is the boolean it shares, a batched [SecBit] is the
    vector of booleans of the rows of the shard.  The C++ template parameter
    [usingBatch] is an explicit boolean argument, and every [if constexpr
    (usingBatch)] of the source is a [match] on it. *)

From Stdlib Require Import NArith Lia.
From stdpp Require Import base option list list_numbers sorting mapset gmap strings pretty.

Open Scope string_scope.
Open Scope list_scope.
Open Scope nat_scope.

(** ** Failures

    The source fails in three ways: [throw std::invalid_argument], a failed
    glog [CHECK_*] (fatal), and [std::out_of_range] raised by [vector::at] and
    [unordered_map::at].  [runtime_error] is what the rule catalog throws. *)

Inductive error : Type :=
  | invalid_argument (what : string)
  | check_failure (msg : string)
  | out_of_range
  | runtime_error (what : string).

Inductive result (A : Type) : Type :=
  | Ok (a : A)
  | Err (e : error).
Arguments Ok {A} a.
Arguments Err {A} e.

#[global] Instance result_ret : MRet result := λ A a, Ok a.
#[global] Instance result_bind : MBind result := λ A B f m,
  match m with
  | Ok a => f a
  | Err e => Err e
  end.
#[global] Instance result_fmap : FMap result := λ A B f m,
  match m with
  | Ok a => Ok (f a)
  | Err e => Err e
  end.

Definition is_ok {A} (m : result A) : bool :=
  match m with Ok _ => true | Err _ => false end.

(** [v.at(i)] *)
Definition at_ {A} (v : list A) (i : nat) : result A :=
  match v !! i with
  | Some x => Ok x
  | None => Err out_of_range
  end.

(** [CHECK_EQ(a, b) << msg] on two sizes *)
Definition CHECK_EQ (a b : nat) (msg : string) : result unit :=
  if decide (a = b) then Ok tt else Err (check_failure msg).

(** ** Secret values

    [ConditionalVector<T, usingBatch>] is [std::vector<T>] in batch mode and
    [T] otherwise.  Each secret type of the frontend is read as the clear
    value it shares. *)

Definition ConditionalVector (T : Type) (usingBatch : bool) : Type :=
  if usingBatch then list T else T.

Definition SecBit (usingBatch : bool) : Type := ConditionalVector bool usingBatch.
Definition SecAdId (usingBatch : bool) : Type := ConditionalVector N usingBatch.
Definition SecTimestamp (usingBatch : bool) : Type := ConditionalVector N usingBatch.
Definition SecConvValue (usingBatch : bool) : Type := ConditionalVector N usingBatch.

(** [a & b], [a | b], [!a]: in batch mode the gate is applied row by row. *)
Definition bit_and {usingBatch} : SecBit usingBatch → SecBit usingBatch → SecBit usingBatch :=
  match usingBatch with
  | true => zip_with andb
  | false => andb
  end.

Definition bit_or {usingBatch} : SecBit usingBatch → SecBit usingBatch → SecBit usingBatch :=
  match usingBatch with
  | true => zip_with orb
  | false => orb
  end.

Definition bit_not {usingBatch} : SecBit usingBatch → SecBit usingBatch :=
  match usingBatch with
  | true => fmap negb
  | false => negb
  end.

(** [self.mux(choice, other)]: [other] where [choice] holds, [self] elsewhere. *)
Definition mux1 (self : N) (choice : bool) (other : N) : N :=
  if choice then other else self.

Definition adid_mux {usingBatch} :
    SecAdId usingBatch → SecBit usingBatch → SecAdId usingBatch → SecAdId usingBatch :=
  match usingBatch with
  | true => λ self choice other,
      zip_with (λ so c, mux1 so.1 c so.2) (zip self other) choice
  | false => mux1
  end.

(** The public constants built at the head of the conversion loop:
    [SecBit{std::vector<bool>(batchSize, b), PUBLISHER}] in batch mode,
    [SecBit{b, PUBLISHER}] otherwise; likewise for [SecAdId]. *)
Definition public_bit (usingBatch : bool) (batchSize : N) (b : bool) : SecBit usingBatch :=
  match usingBatch with
  | true => replicate (N.to_nat batchSize) b
  | false => b
  end.

Definition public_adid (usingBatch : bool) (batchSize : N) (v : N) : SecAdId usingBatch :=
  match usingBatch with
  | true => replicate (N.to_nat batchSize) v
  | false => v
  end.

(** Reading a secret in row [r] of the shard.  Outside batch mode there is one
    row and [r] is ignored. *)
Definition open_row {T} (usingBatch : bool) (d : T) (r : nat) :
    ConditionalVector T usingBatch → T :=
  match usingBatch with
  | true => λ v, default d (v !! r)
  | false => λ v, v
  end.

Definition bit_row {usingBatch} (r : nat) (b : SecBit usingBatch) : bool :=
  open_row usingBatch false r b.
Definition num_row {usingBatch} (r : nat) (v : ConditionalVector N usingBatch) : N :=
  open_row usingBatch 0%N r v.

(** A batched value carries one entry per row of the shard. *)
Definition sized {T} (usingBatch : bool) (batchSize : N) :
    ConditionalVector T usingBatch → Prop :=
  match usingBatch with
  | true => λ v, length v = N.to_nat batchSize
  | false => λ _, True
  end.

Definition valid_row (usingBatch : bool) (batchSize : N) (r : nat) : Prop :=
  if usingBatch then r < N.to_nat batchSize else True.

(** ** Touchpoints, conversions, rules *)

(** Modelled from the spec: the struct declarations of Touchpoint.h and
    Conversion.h are not part of the sources at hand; the fields are those of
    the data model (touchpoint: id, isClick, timestamp, adId, originalAdId;
    conversion: timestamp, value). *)
Record Touchpoint (usingBatch : bool) : Type := mkTouchpoint {
  tp_id : ConditionalVector N usingBatch;
  tp_isClick : ConditionalVector bool usingBatch;
  tp_ts : ConditionalVector N usingBatch;
  tp_originalAdId : ConditionalVector N usingBatch;
  tp_adId : ConditionalVector N usingBatch;
}.
Arguments mkTouchpoint {usingBatch}.
Arguments tp_id {usingBatch}.
Arguments tp_isClick {usingBatch}.
Arguments tp_ts {usingBatch}.
Arguments tp_originalAdId {usingBatch}.
Arguments tp_adId {usingBatch}.

Record PrivateTouchpoint (usingBatch : bool) : Type := mkPrivateTouchpoint {
  ptp_isClick : SecBit usingBatch;
  ptp_ts : SecTimestamp usingBatch;
  ptp_adId : SecAdId usingBatch;
}.
Arguments mkPrivateTouchpoint {usingBatch}.
Arguments ptp_isClick {usingBatch}.
Arguments ptp_ts {usingBatch}.
Arguments ptp_adId {usingBatch}.

Record PrivateConversion (usingBatch : bool) : Type := mkPrivateConversion {
  pc_ts : SecTimestamp usingBatch;
  pc_convValue : SecConvValue usingBatch;
}.
Arguments mkPrivateConversion {usingBatch}.
Arguments pc_ts {usingBatch}.
Arguments pc_convValue {usingBatch}.

Inductive InputEncryption : Type := Plaintext | PartnerXor | Xor.

#[global] Instance InputEncryption_eq_dec : EqDecision InputEncryption.
Proof. solve_decision. Defined.

(** An attribution rule, as the engine uses it: the identifier and the name
    that synchronise the two parties, the matching predicate and the two
    threshold computations.  The predicate and the threshold computations are
    function members of the rule; the engine only calls them. *)
Record AttributionRule (usingBatch : bool) : Type := mkAttributionRule {
  rule_id : N;
  rule_name : string;
  isAttributable :
    PrivateTouchpoint usingBatch → PrivateConversion usingBatch →
    list (SecTimestamp usingBatch) → SecBit usingBatch;
  computeThresholdsPlaintext :
    Touchpoint usingBatch → list (SecTimestamp usingBatch);
  computeThresholdsPrivate :
    PrivateTouchpoint usingBatch → SecBit usingBatch → N →
    list (SecTimestamp usingBatch);
}.
Arguments mkAttributionRule {usingBatch}.
Arguments rule_id {usingBatch}.
Arguments rule_name {usingBatch}.
Arguments isAttributable {usingBatch}.
Arguments computeThresholdsPlaintext {usingBatch}.
Arguments computeThresholdsPrivate {usingBatch}.

(** [if constexpr (usingBatch) { if (batchSize == 0) throw ... }] *)
Definition requirePositiveBatchSize (usingBatch : bool) (batchSize : N) : result unit :=
  if usingBatch then
    if (batchSize =? 0)%N
    then Err (invalid_argument "Must provide positive batch size for batch execution!")
    else Ok tt
  else Ok tt.

(** ** computeAttributionsHelper (output format V1) *)

Section Helpers.
Context {usingBatch : bool}.
Variable touchpoints : list (PrivateTouchpoint usingBatch).
Variable attributionRule : AttributionRule usingBatch.
Variable thresholds : list (list (SecTimestamp usingBatch)).
Variable batchSize : N.

(** One iteration of the touchpoint loop: the bit attributed to touchpoint
    [i - 1] and the updated [hasAttributedTouchpoint]. *)
Definition attributeStep (conv : PrivateConversion usingBatch)
    (tp : PrivateTouchpoint usingBatch) (threshold : list (SecTimestamp usingBatch))
    (hasAttributedTouchpoint : SecBit usingBatch) : SecBit usingBatch * SecBit usingBatch :=
  let isTouchpointAttributable := isAttributable attributionRule tp conv threshold in
  let isAttributed := bit_and isTouchpointAttributable (bit_not hasAttributedTouchpoint) in
  (isAttributed, bit_or isAttributed hasAttributedTouchpoint).

(** [for (size_t i = touchpoints.size(); i >= 1; --i)], entered with the
    current value of [i]; the loop is left when [i] reaches 0. *)
Fixpoint touchpointLoop (conv : PrivateConversion usingBatch) (i : nat)
    (hasAttributedTouchpoint : SecBit usingBatch) (attributions : list (SecBit usingBatch))
    : result (SecBit usingBatch * list (SecBit usingBatch)) :=
  match i with
  | O => Ok (hasAttributedTouchpoint, attributions)
  | S i' =>
      tp ← at_ touchpoints i';
      threshold ← at_ thresholds i';
      let '(isAttributed, has') := attributeStep conv tp threshold hasAttributedTouchpoint in
      touchpointLoop conv i' has' (attributions ++ [isAttributed])
  end.

(** The conversion loop, run over [conversions.rbegin() .. rend()]. *)
Fixpoint conversionLoop (reversed : list (PrivateConversion usingBatch))
    (attributions : list (SecBit usingBatch)) : result (list (SecBit usingBatch)) :=
  match reversed with
  | [] => Ok attributions
  | conv :: rest =>
      let hasAttributedTouchpoint := public_bit usingBatch batchSize false in
      _ ← CHECK_EQ (length touchpoints) (length thresholds)
            "touchpoints and thresholds are not the same length.";
      '(_, attributions') ←
        touchpointLoop conv (length touchpoints) hasAttributedTouchpoint attributions;
      conversionLoop rest attributions'
  end.

End Helpers.

Definition computeAttributionsHelper {usingBatch : bool}
    (touchpoints : list (PrivateTouchpoint usingBatch))
    (conversions : list (PrivateConversion usingBatch))
    (attributionRule : AttributionRule usingBatch)
    (thresholds : list (list (SecTimestamp usingBatch)))
    (batchSize : N) : result (list (SecBit usingBatch)) :=
  _ ← requirePositiveBatchSize usingBatch batchSize;
  attributions ←
    conversionLoop touchpoints attributionRule thresholds batchSize (reverse conversions) [];
  Ok (reverse attributions).

(** ** computeAttributionsHelperV2 (reformatted output, one record per
    conversion) *)

Record AttributionReformattedOutputFmt (usingBatch : bool) : Type :=
  mkAttributionReformattedOutputFmt {
    ad_id : SecAdId usingBatch;
    conv_value : SecConvValue usingBatch;
    is_attributed : SecBit usingBatch;
  }.
Arguments mkAttributionReformattedOutputFmt {usingBatch}.
Arguments ad_id {usingBatch}.
Arguments conv_value {usingBatch}.
Arguments is_attributed {usingBatch}.

Section HelpersV2.
Context {usingBatch : bool}.
Variable touchpoints : list (PrivateTouchpoint usingBatch).
Variable attributionRule : AttributionRule usingBatch.
Variable thresholds : list (list (SecTimestamp usingBatch)).
Variable batchSize : N.

(** The touchpoint loop of V2 carries the attributed ad id instead of
    pushing the bit. *)
Fixpoint touchpointLoopV2 (conv : PrivateConversion usingBatch) (i : nat)
    (hasAttributedTouchpoint : SecBit usingBatch) (attributedAdId : SecAdId usingBatch)
    : result (SecBit usingBatch * SecAdId usingBatch) :=
  match i with
  | O => Ok (hasAttributedTouchpoint, attributedAdId)
  | S i' =>
      tp ← at_ touchpoints i';
      threshold ← at_ thresholds i';
      let '(isAttributed, has') :=
        attributeStep attributionRule conv tp threshold hasAttributedTouchpoint in
      touchpointLoopV2 conv i' has' (adid_mux attributedAdId isAttributed (ptp_adId tp))
  end.

Fixpoint conversionLoopV2 (reversed : list (PrivateConversion usingBatch))
    (attributionsOutput : list (AttributionReformattedOutputFmt usingBatch))
    : result (list (AttributionReformattedOutputFmt usingBatch)) :=
  match reversed with
  | [] => Ok attributionsOutput
  | conv :: rest =>
      let hasAttributedTouchpoint := public_bit usingBatch batchSize false in
      _ ← CHECK_EQ (length touchpoints) (length thresholds)
            "touchpoints and thresholds are not the same length.";
      let defaultAdId := 0%N in
      let attributedAdId := public_adid usingBatch batchSize defaultAdId in
      '(has, adId) ←
        touchpointLoopV2 conv (length touchpoints) hasAttributedTouchpoint attributedAdId;
      conversionLoopV2 rest
        (attributionsOutput ++
           [{| ad_id := adId; conv_value := pc_convValue conv; is_attributed := has |}])
  end.

End HelpersV2.

Definition computeAttributionsHelperV2 {usingBatch : bool}
    (touchpoints : list (PrivateTouchpoint usingBatch))
    (conversions : list (PrivateConversion usingBatch))
    (attributionRule : AttributionRule usingBatch)
    (thresholds : list (list (SecTimestamp usingBatch)))
    (batchSize : N) : result (list (AttributionReformattedOutputFmt usingBatch)) :=
  _ ← requirePositiveBatchSize usingBatch batchSize;
  attributionsOutput ←
    conversionLoopV2 touchpoints attributionRule thresholds batchSize (reverse conversions) [];
  Ok (reverse attributionsOutput).

(** ** privatelyShareThresholds

    [TouchpointT<usingBatch>] is one batched touchpoint in batch mode and the
    row of touchpoints of one user otherwise; the thresholds follow the same
    shape. *)

Definition TouchpointT (usingBatch : bool) : Type :=
  if usingBatch then Touchpoint true else list (Touchpoint false).
Definition PrivateTouchpointT (usingBatch : bool) : Type :=
  if usingBatch then PrivateTouchpoint true else list (PrivateTouchpoint false).
Definition PrivateConversionT (usingBatch : bool) : Type :=
  if usingBatch then PrivateConversion true else list (PrivateConversion false).
Definition SecTimestampT (usingBatch : bool) : Type :=
  if usingBatch then SecTimestamp true else list (SecTimestamp false).
Definition SecBitT (usingBatch : bool) : Type :=
  if usingBatch then SecBit true else list (SecBit false).
Definition AttributionReformattedOutputFmtT (usingBatch : bool) : Type :=
  if usingBatch then AttributionReformattedOutputFmt true
  else list (AttributionReformattedOutputFmt false).

(** [for (size_t i = 0; i < n; ++i) { output.push_back(body(i)); }] *)
Definition forIndex {A} (n : nat) (body : nat → result A) : result (list A) :=
  mapM body (seq 0 n).

(** [common::privatelyShareArray<Touchpoint, PrivateIsClick>] and
    [privatelyShareArrays]: the click flag of every touchpoint, shared. *)
Definition privateIsClickArray {usingBatch} (touchpoints : list (Touchpoint usingBatch))
    : list (SecBit usingBatch) :=
  tp_isClick <$> touchpoints.

Definition privatelyShareThresholds (usingBatch : bool) (inputEncryption : InputEncryption) :
    list (TouchpointT usingBatch) → list (PrivateTouchpointT usingBatch) →
    AttributionRule usingBatch → N → result (list (list (SecTimestampT usingBatch))) :=
  match usingBatch with
  | true => λ touchpoints privateTouchpoints attributionRule batchSize,
      if decide (inputEncryption ≠ Xor) then
        forIndex (length touchpoints) (λ i,
          tp ← at_ touchpoints i;
          Ok (computeThresholdsPlaintext attributionRule tp))
      else
        _ ← requirePositiveBatchSize true batchSize;
        let privateIsClick := privateIsClickArray touchpoints in
        forIndex (length touchpoints) (λ i,
          ptp ← at_ privateTouchpoints i;
          isClick ← at_ privateIsClick i;
          Ok (computeThresholdsPrivate attributionRule ptp isClick batchSize))
  | false => λ touchpoints privateTouchpoints attributionRule batchSize,
      if decide (inputEncryption ≠ Xor) then
        forIndex (length touchpoints) (λ i,
          touchpointRow ← at_ touchpoints i;
          forIndex (length touchpointRow) (λ j,
            tp ← at_ touchpointRow j;
            Ok (computeThresholdsPlaintext attributionRule tp)))
      else
        let privateIsClick := privateIsClickArray <$> touchpoints in
        forIndex (length privateTouchpoints) (λ i,
          privateRow ← at_ privateTouchpoints i;
          forIndex (length privateRow) (λ j,
            ptp ← at_ privateRow j;
            clickRow ← at_ privateIsClick i;
            isClick ← at_ clickRow j;
            Ok (computeThresholdsPrivate attributionRule ptp isClick batchSize)))
  end.

(** ** The rule catalog and shareAttributionRules *)

Definition PUBLISHER : nat := 0.
Definition PARTNER : nat := 1.

(** [CHECK_LT(a, b)] *)
Definition CHECK_LT (a b : nat) : result unit :=
  if decide (a < b) then Ok tt else Err (check_failure "Check failed: a < b").

(** Modelled from the spec: [privatelyShareIntArrayFrom] is declared in
    common/Util.h, which is not part of the sources at hand.  The sender's
    integers cross the wire in a field of [width] bits; the receiver reads
    each of them reduced to that width. *)
Definition privatelyShareIntArrayFrom (width : N) (senderArray : list N) : list N :=
  (λ x, x mod 2 ^ width)%N <$> senderArray.

Section RuleCatalog.
Context {usingBatch : bool}.

(** The static catalog of supported rules.  Its entries are defined in
    AttributionRule_impl.h, outside the sources at hand. *)
Variable SUPPORTED_ATTRIBUTION_RULES : list (AttributionRule usingBatch).

(** Modelled from the spec: the two lookups are declared, not defined, in
    the sources at hand.  Lookup by name fails when the string matches no
    entry of the catalog; lookup by id fails when no entry carries the id. *)
Definition fromNameOrThrow (name : string) : result (AttributionRule usingBatch) :=
  match list_find (λ rule, rule_name rule = name) SUPPORTED_ATTRIBUTION_RULES with
  | Some (_, rule) => Ok rule
  | None => Err (runtime_error ("Unknown attribution rule name: " +:+ name))
  end.

Definition fromIdOrThrow (id : N) : result (AttributionRule usingBatch) :=
  match list_find (λ rule, rule_id rule = id) SUPPORTED_ATTRIBUTION_RULES with
  | Some (_, rule) => Ok rule
  | None => Err (runtime_error ("Unknown attribution rule id: " +:+ pretty id))
  end.

(** The publisher's loop over the configured names: the rules found and
    their ids, in order. *)
Fixpoint resolveRuleNames (attributionRuleNames : list string)
    (attributionRules : list (AttributionRule usingBatch)) (attributionRuleIds : list N)
    : result (list (AttributionRule usingBatch) * list N) :=
  match attributionRuleNames with
  | [] => Ok (attributionRules, attributionRuleIds)
  | attributionRuleName :: rest =>
      attributionRule ← fromNameOrThrow attributionRuleName;
      resolveRuleNames rest (attributionRules ++ [attributionRule])
        (attributionRuleIds ++ [rule_id attributionRule])
  end.

(** The partner's loop over the shared ids. *)
Fixpoint resolveRuleIds (sharedAttributionRuleIds : list N)
    (attributionRules : list (AttributionRule usingBatch))
    : result (list (AttributionRule usingBatch)) :=
  match sharedAttributionRuleIds with
  | [] => Ok attributionRules
  | sharedId :: rest =>
      attributionRule ← fromIdOrThrow sharedId;
      resolveRuleIds rest (attributionRules ++ [attributionRule])
  end.

Definition attributionRuleIdWidth : N := 3.

(** [shareAttributionRules(myRole, attributionRuleNames)].  [publisherIds]
    is what the publisher feeds into the sharing primitive; the publisher's
    own run uses the ids it has just computed and ignores the argument. *)
Definition shareAttributionRules (myRole : nat) (attributionRuleNames : list string)
    (publisherIds : list N) : result (list (AttributionRule usingBatch)) :=
  '(attributionRules, attributionRuleIds) ←
    (if decide (myRole = PUBLISHER)
     then resolveRuleNames attributionRuleNames [] []
     else Ok ([], []));
  _ ← CHECK_LT (length SUPPORTED_ATTRIBUTION_RULES)
        (N.to_nat (N.shiftl 1 attributionRuleIdWidth));
  let sharedAttributionRuleIds :=
    privatelyShareIntArrayFrom attributionRuleIdWidth
      (if decide (myRole = PUBLISHER) then attributionRuleIds else publisherIds) in
  if decide (myRole = PARTNER)
  then resolveRuleIds sharedAttributionRuleIds attributionRules
  else Ok attributionRules.

End RuleCatalog.

(** ** Ad-id compression *)

Definition set_originalAdId {usingBatch} (v : ConditionalVector N usingBatch)
    (tp : Touchpoint usingBatch) : Touchpoint usingBatch :=
  {| tp_id := tp_id tp; tp_isClick := tp_isClick tp; tp_ts := tp_ts tp;
     tp_originalAdId := v; tp_adId := tp_adId tp |}.

Definition set_adId {usingBatch} (v : ConditionalVector N usingBatch)
    (tp : Touchpoint usingBatch) : Touchpoint usingBatch :=
  {| tp_id := tp_id tp; tp_isClick := tp_isClick tp; tp_ts := tp_ts tp;
     tp_originalAdId := tp_originalAdId tp; tp_adId := v |}.

(** [uint16_t compressedAdId; compressedAdId++] *)
Definition uint16_incr (c : N) : N := ((c + 1) mod 2 ^ 16)%N.

(** [std::unordered_map::insert]: an existing key keeps its value. *)
Definition unordered_map_insert (k v : N) (m : gmap N N) : gmap N N :=
  match m !! k with
  | Some _ => m
  | None => <[k:=v]> m
  end.

(** [std::unordered_set::insert], written on the map that carries the set so
    that one insertion costs one path of the trie. *)
Definition unordered_set_insert (x : N) (s : gset N) : gset N :=
  let (m) := s in Mapset (<[x:=tt]> m).

(** [CHECK_LE(adIdSet.size(), 65536)] *)
Definition CHECK_LE_65536 (size : nat) : result unit :=
  if (N.of_nat size <=? 65536)%N then Ok tt
  else Err (check_failure "Number of ad Ids cannot be more than 65,536.").

Section AdIdCompression.
Variable inputEncryption : InputEncryption.
(** What [secAdId.openToParty(common::PUBLISHER).getValue()] hands back for
    a stored original ad id; only used when the input is XOR-shared. *)
Variable openToPublisher : N → N.

Definition revealAdId (adId : N) : N :=
  if decide (inputEncryption = Xor) then openToPublisher adId else adId.

(** [if (adId > 0) adIdSet.insert(adId)] *)
Definition insertValid (adIdSet : gset N) (adId : N) : gset N :=
  if (0 <? adId)%N then unordered_set_insert adId adIdSet else adIdSet.

(** The loop over [touchpoints] of retrieveValidOriginalAdIds: the revealed
    touchpoints (the loop writes [originalAdId] in place) and the set. *)
Fixpoint retrieveLoopBatch (touchpoints : list (Touchpoint true)) (adIdSet : gset N)
    : list (Touchpoint true) * gset N :=
  match touchpoints with
  | [] => ([], adIdSet)
  | touchpoint :: rest =>
      let touchpoint' :=
        set_originalAdId (usingBatch:=true)
          (revealAdId <$> tp_originalAdId touchpoint) touchpoint in
      let adIdSet' := foldl insertValid adIdSet (tp_originalAdId touchpoint') in
      let '(rest', final) := retrieveLoopBatch rest adIdSet' in
      (touchpoint' :: rest', final)
  end.

Fixpoint retrieveRow (row : list (Touchpoint false)) (adIdSet : gset N)
    : list (Touchpoint false) * gset N :=
  match row with
  | [] => ([], adIdSet)
  | tp :: rest =>
      let tp' := set_originalAdId (usingBatch:=false) (revealAdId (tp_originalAdId tp)) tp in
      let adIdSet' := insertValid adIdSet (tp_originalAdId tp') in
      let '(rest', final) := retrieveRow rest adIdSet' in
      (tp' :: rest', final)
  end.

Fixpoint retrieveLoopRows (touchpoints : list (list (Touchpoint false))) (adIdSet : gset N)
    : list (list (Touchpoint false)) * gset N :=
  match touchpoints with
  | [] => ([], adIdSet)
  | touchpoint :: rest =>
      let '(touchpoint', adIdSet') := retrieveRow touchpoint adIdSet in
      let '(rest', final) := retrieveLoopRows rest adIdSet' in
      (touchpoint' :: rest', final)
  end.

Definition retrieveLoop (usingBatch : bool) :
    list (TouchpointT usingBatch) → gset N → list (TouchpointT usingBatch) * gset N :=
  match usingBatch with
  | true => retrieveLoopBatch
  | false => retrieveLoopRows
  end.

(** [retrieveValidOriginalAdIds]: the sorted vector of valid ids, and the
    touchpoints as the call leaves them. *)
Definition retrieveValidOriginalAdIds (usingBatch : bool) (myRole : nat)
    (touchpoints : list (TouchpointT usingBatch))
    : result (list N * list (TouchpointT usingBatch)) :=
  let '(touchpoints', adIdSet) := retrieveLoop usingBatch touchpoints ∅ in
  _ ← CHECK_LE_65536 (size adIdSet);
  let validOriginalAdIds := elements adIdSet in
  Ok (merge_sort N.le validOriginalAdIds, touchpoints').

(** First loop of replaceAdIdWithCompressedAdId. *)
Fixpoint buildCompressionMap (validOriginalAdIds : list N) (compressedAdId : N)
    (adIdToCompressedAdIdMap : gmap N N) : gmap N N :=
  match validOriginalAdIds with
  | [] => adIdToCompressedAdIdMap
  | adId :: rest =>
      buildCompressionMap rest (uint16_incr compressedAdId)
        (unordered_map_insert adId compressedAdId adIdToCompressedAdIdMap)
  end.

(** [adIdToCompressedAdIdMap.at(originalAdId)] *)
Definition map_at (m : gmap N N) (k : N) : result N :=
  match m !! k with
  | Some v => Ok v
  | None => Err out_of_range
  end.

Definition replaceBatch (m : gmap N N) (touchpoint : Touchpoint true)
    : result (Touchpoint true) :=
  let defaultAdId := 0%N in
  adIds ← mapM (λ originalAdId,
             if (0 <? originalAdId)%N then map_at m originalAdId else Ok defaultAdId)
           (tp_originalAdId touchpoint);
  Ok (set_adId (usingBatch:=true) adIds touchpoint).

Definition replaceRowwise (m : gmap N N) (tp : Touchpoint false)
    : result (Touchpoint false) :=
  if (0 <? tp_originalAdId tp)%N then
    adId ← map_at m (tp_originalAdId tp);
    Ok (set_adId (usingBatch:=false) adId tp)
  else Ok tp.

Definition replaceAdIdWithCompressedAdId (usingBatch : bool) :
    list (TouchpointT usingBatch) → list N → result (list (TouchpointT usingBatch)) :=
  match usingBatch with
  | true => λ touchpoints validOriginalAdIds,
      let m := buildCompressionMap validOriginalAdIds 1%N ∅ in
      mapM (replaceBatch m) touchpoints
  | false => λ touchpoints validOriginalAdIds,
      let m := buildCompressionMap validOriginalAdIds 1%N ∅ in
      mapM (mapM (replaceRowwise m)) touchpoints
  end.

(** The loop of computeAttributions that fills
    [map.compressedAdIdToAdIdMap[std::to_string(compressedAdId)]]. *)
Fixpoint buildPersistedMap (validOriginalAdIds : list N) (compressedAdId : N)
    (compressedAdIdToAdIdMap : gmap string N) : gmap string N :=
  match validOriginalAdIds with
  | [] => compressedAdIdToAdIdMap
  | originalAdId :: rest =>
      buildPersistedMap rest (uint16_incr compressedAdId)
        (<[pretty compressedAdId := originalAdId]> compressedAdIdToAdIdMap)
  end.

(** The block of computeAttributions guarded by
    [FLAGS_use_new_output_format]: the rewritten touchpoints and the mapping
    written to compressionMapping.json. *)
Definition compressAdIds (usingBatch : bool) (myRole : nat)
    (touchpoints : list (TouchpointT usingBatch))
    : result (list (TouchpointT usingBatch) * gmap string N) :=
  '(validOriginalAdIds, touchpoints') ←
    retrieveValidOriginalAdIds usingBatch myRole touchpoints;
  let map := buildPersistedMap validOriginalAdIds 1%N ∅ in
  touchpoints'' ← replaceAdIdWithCompressedAdId usingBatch touchpoints' validOriginalAdIds;
  Ok (touchpoints'', map).

End AdIdCompression.

(** ** computeAttributions *)

(** Modelled from the spec: Conversion.h is not part of the sources at hand;
    a conversion carries a timestamp and a value. *)
Record Conversion (usingBatch : bool) : Type := mkConversion {
  conv_ts : ConditionalVector N usingBatch;
  conv_value_in : ConditionalVector N usingBatch;
}.
Arguments mkConversion {usingBatch}.
Arguments conv_ts {usingBatch}.
Arguments conv_value_in {usingBatch}.

Definition ConversionT (usingBatch : bool) : Type :=
  if usingBatch then Conversion true else list (Conversion false).

Record AttributionInputMetrics (usingBatch : bool) : Type := mkAttributionInputMetrics {
  getIds : list Z;
  getTouchpointArrays : list (TouchpointT usingBatch);
  getConversionArrays : list (ConversionT usingBatch);
  getAttributionRules : list string;
}.
Arguments mkAttributionInputMetrics {usingBatch}.
Arguments getIds {usingBatch}.
Arguments getTouchpointArrays {usingBatch}.
Arguments getConversionArrays {usingBatch}.
Arguments getAttributionRules {usingBatch}.

(** [uint32_t numIds = ids.size();] *)
Definition numIds_of (ids : list Z) : N := (N.of_nat (length ids) mod 2 ^ 32)%N.

(** What a rule's entry of the output holds under the format name: the ids
    and the attributions handed to [reveal()], in either output format. *)
Inductive AttributionResult (usingBatch : bool) : Type :=
  | AttributionOutput (ids : list Z) (attributions : list (SecBitT usingBatch))
  | AttributionReformattedOutput (ids : list Z)
      (attributionsReformatted : list (AttributionReformattedOutputFmtT usingBatch)).
Arguments AttributionOutput {usingBatch}.
Arguments AttributionReformattedOutput {usingBatch}.

(** The calls of computeAttributions that take a batch size are recorded, with
    the batch size they receive, in a trace that plays no part in the result. *)
Inductive Call : Type :=
  | CallShareThresholds (batchSize : N)
  | CallHelper (batchSize : N)
  | CallHelperV2 (batchSize : N).

Definition call_batchSize (c : Call) : N :=
  match c with
  | CallShareThresholds b | CallHelper b | CallHelperV2 b => b
  end.

Definition is_helper_call (c : Call) : bool :=
  match c with
  | CallShareThresholds _ => false
  | CallHelper _ | CallHelperV2 _ => true
  end.

Definition Traced (A : Type) : Type := list Call → result A * list Call.

#[global] Instance traced_ret : MRet Traced := λ A a trace, (Ok a, trace).
#[global] Instance traced_bind : MBind Traced := λ A B f m trace,
  match m trace with
  | (Ok a, trace') => f a trace'
  | (Err e, trace') => (Err e, trace')
  end.

Definition lift {A} (m : result A) : Traced A := λ trace, (m, trace).
Definition record (c : Call) : Traced unit := λ trace, (Ok tt, trace ++ [c]).

Section Game.
Variable inputEncryption : InputEncryption.
Variable openToPublisher : N → N.
Context {usingBatch : bool}.
Variable SUPPORTED_ATTRIBUTION_RULES : list (AttributionRule usingBatch).
(** The constructors of the private records, which share a touchpoint or a
    conversion field by field; they are declared outside the sources at
    hand. *)
Variable shareTouchpoint : ∀ b, Touchpoint b → PrivateTouchpoint b.
Variable shareConversion : ∀ b, Conversion b → PrivateConversion b.

Definition privatelyShareTouchpoints :
    list (TouchpointT usingBatch) → list (PrivateTouchpointT usingBatch) :=
  match usingBatch as b return list (TouchpointT b) → list (PrivateTouchpointT b) with
  | true => λ touchpoints : list (Touchpoint true),
      shareTouchpoint true <$> touchpoints
  | false => λ touchpoints : list (list (Touchpoint false)),
      (λ row : list (Touchpoint false), shareTouchpoint false <$> row) <$> touchpoints
  end.

Definition privatelyShareConversions :
    list (ConversionT usingBatch) → list (PrivateConversionT usingBatch) :=
  match usingBatch as b return list (ConversionT b) → list (PrivateConversionT b) with
  | true => λ conversions : list (Conversion true),
      shareConversion true <$> conversions
  | false => λ conversions : list (list (Conversion false)),
      (λ row : list (Conversion false), shareConversion false <$> row) <$> conversions
  end.

Definition call_privatelyShareThresholds (touchpoints : list (TouchpointT usingBatch))
    (privateTouchpoints : list (PrivateTouchpointT usingBatch))
    (attributionRule : AttributionRule usingBatch) (batchSize : N)
    : Traced (list (list (SecTimestampT usingBatch))) :=
  _ ← record (CallShareThresholds batchSize);
  lift (privatelyShareThresholds usingBatch inputEncryption
          touchpoints privateTouchpoints attributionRule batchSize).

Definition call_computeAttributionsHelper {b : bool}
    (touchpoints : list (PrivateTouchpoint b)) (conversions : list (PrivateConversion b))
    (attributionRule : AttributionRule b) (thresholds : list (list (SecTimestamp b)))
    (batchSize : N) : Traced (list (SecBit b)) :=
  _ ← record (CallHelper batchSize);
  lift (computeAttributionsHelper touchpoints conversions attributionRule thresholds batchSize).

Definition call_computeAttributionsHelperV2 {b : bool}
    (touchpoints : list (PrivateTouchpoint b)) (conversions : list (PrivateConversion b))
    (attributionRule : AttributionRule b) (thresholds : list (list (SecTimestamp b)))
    (batchSize : N) : Traced (list (AttributionReformattedOutputFmt b)) :=
  _ ← record (CallHelperV2 batchSize);
  lift (computeAttributionsHelperV2 touchpoints conversions attributionRule thresholds
          batchSize).

(** The two branches of [if constexpr (usingBatch)] around the helper:
    one call on the whole shard, or one call per row [i < numIds]. *)
Definition runHelper :
    list (PrivateTouchpointT usingBatch) → list (PrivateConversionT usingBatch) →
    AttributionRule usingBatch → list (list (SecTimestampT usingBatch)) → N →
    Traced (list (SecBitT usingBatch)) :=
  match usingBatch as b return
    list (PrivateTouchpointT b) → list (PrivateConversionT b) →
    AttributionRule b → list (list (SecTimestampT b)) → N → Traced (list (SecBitT b))
  with
  | true => λ tpArrays convArrays attributionRule thresholdArrays numIds,
      call_computeAttributionsHelper tpArrays convArrays attributionRule thresholdArrays
        numIds
  | false => λ tpArrays convArrays attributionRule thresholdArrays numIds,
      mapM (λ i,
        tpRow ← lift (at_ tpArrays i);
        convRow ← lift (at_ convArrays i);
        thresholdRow ← lift (at_ thresholdArrays i);
        call_computeAttributionsHelper tpRow convRow attributionRule thresholdRow numIds)
      (seq 0 (N.to_nat numIds))
  end.

Definition runHelperV2 :
    list (PrivateTouchpointT usingBatch) → list (PrivateConversionT usingBatch) →
    AttributionRule usingBatch → list (list (SecTimestampT usingBatch)) → N →
    Traced (list (AttributionReformattedOutputFmtT usingBatch)) :=
  match usingBatch as b return
    list (PrivateTouchpointT b) → list (PrivateConversionT b) →
    AttributionRule b → list (list (SecTimestampT b)) → N →
    Traced (list (AttributionReformattedOutputFmtT b))
  with
  | true => λ tpArrays convArrays attributionRule thresholdArrays numIds,
      call_computeAttributionsHelperV2 tpArrays convArrays attributionRule thresholdArrays
        numIds
  | false => λ tpArrays convArrays attributionRule thresholdArrays numIds,
      mapM (λ i,
        tpRow ← lift (at_ tpArrays i);
        convRow ← lift (at_ convArrays i);
        thresholdRow ← lift (at_ thresholdArrays i);
        call_computeAttributionsHelperV2 tpRow convRow attributionRule thresholdRow numIds)
      (seq 0 (N.to_nat numIds))
  end.

Definition attributionFormat : string := "default".

Section RuleLoop.
Variable use_new_output_format : bool.
Variable ids : list Z.
Variable numIds : N.
Variable touchpoints : list (TouchpointT usingBatch).
Variable tpArrays : list (PrivateTouchpointT usingBatch).
Variable convArrays : list (PrivateConversionT usingBatch).

(** [for (const auto& attributionRule : attributionRules)] *)
Fixpoint ruleLoop (attributionRules : list (AttributionRule usingBatch))
    (ruleToMetrics : gmap string (gmap string (AttributionResult usingBatch)))
    : Traced (gmap string (gmap string (AttributionResult usingBatch))) :=
  match attributionRules with
  | [] => mret ruleToMetrics
  | attributionRule :: rest =>
      thresholdArrays ←
        call_privatelyShareThresholds touchpoints tpArrays attributionRule numIds;
      _ ← lift (CHECK_EQ (length thresholdArrays) (length tpArrays)
             "threshold arrays and touchpoint arrays are not the same length.");
      revealed ←
        (if use_new_output_format then
           attributionsReformatted ←
             runHelperV2 tpArrays convArrays attributionRule thresholdArrays numIds;
           mret (AttributionReformattedOutput ids attributionsReformatted)
         else
           attributions ←
             runHelper tpArrays convArrays attributionRule thresholdArrays numIds;
           mret (AttributionOutput ids attributions));
      ruleLoop rest
        (<[rule_name attributionRule := {[attributionFormat := revealed]}]> ruleToMetrics)
  end.
End RuleLoop.

(** [computeAttributions(myRole, inputData)].  The result pairs the output
    metrics with the compression mapping written to disk, if any.
    [publisherIds] is the peer's input to the rule negotiation. *)
Definition computeAttributions (use_new_output_format : bool) (myRole : nat)
    (inputData : AttributionInputMetrics usingBatch) (publisherIds : list N)
    : Traced (gmap string (gmap string (AttributionResult usingBatch)) *
              option (gmap string N)) :=
  let ids := getIds inputData in
  let numIds := numIds_of ids in
  '(touchpoints, mapping) ←
    lift (if use_new_output_format then
            '(touchpoints', map) ←
              compressAdIds inputEncryption openToPublisher usingBatch myRole
                (getTouchpointArrays inputData);
            Ok (touchpoints', Some map)
          else Ok (getTouchpointArrays inputData, None));
  let tpArrays := privatelyShareTouchpoints touchpoints in
  let convArrays := privatelyShareConversions (getConversionArrays inputData) in
  attributionRules ←
    lift (shareAttributionRules SUPPORTED_ATTRIBUTION_RULES myRole
            (getAttributionRules inputData) publisherIds);
  out ← ruleLoop use_new_output_format ids numIds touchpoints tpArrays convArrays
          attributionRules ∅;
  mret (out, mapping).

End Game.

(** * Reading comma-separated lines: fbpcs/emp_games/common/Csv.cpp

    [split] hands its text to RE2 and collects what [RE2::Consume] captures
    until the pattern stops matching.  The two patterns of the file are
    written in the fragment of RE2's syntax below.  A character is a byte
    here; RE2 reads its input as UTF-8, which is the same thing on ASCII
    text, and the statements about this file are made for ASCII text. *)

Module RE2.
Import Stdlib.Strings.Ascii.

(** A pattern.  [Char c] is the character [c] (escaped where the syntax
    wants it), [NotChar c] the class [[^c]], [Plus] and [Opt] the greedy
    [+] and [?], [Capture] a parenthesised group. *)
Inductive regex : Type :=
  | Char (c : ascii)
  | NotChar (c : ascii)
  | Seq (r1 r2 : regex)
  | Alt (r1 r2 : regex)
  | Plus (r : regex)
  | Opt (r : regex)
  | Capture (r : regex).

(** The first of two attempts that succeeds. *)
Definition first_of {R} (a b : option R) : option R :=
  match a with
  | Some x => Some x
  | None => b
  end.

(** The text read between two positions of the input, each given by what
    remains to be read there. *)
Definition consumed (from to : string) : string :=
  String.substring 0 (String.length from - String.length to) from.

Section Matching.
Context {R : Type}.

(** What follows a match: the text of the group, if it took part, and the
    rest of the input. *)
Definition continuation : Type := option string → string → option R.

(** One or more rounds of [step], as many as possible first; a round that
    reads nothing ends the repetition. *)
Fixpoint iterate (step : string → option string → continuation → option R) (fuel : nat)
    (input : string) (group : option string) (k : continuation) : option R :=
  step input group (λ group' rest,
    match fuel with
    | S fuel' =>
        if String.length rest <? String.length input
        then first_of (iterate step fuel' rest group' k) (k group' rest)
        else k group' rest
    | O => k group' rest
    end).

(** Leftmost-first matching at the head of [input]: the alternatives are
    tried in the order RE2 prefers them, and the first way of matching the
    pattern that the continuation accepts is the answer. *)
Fixpoint mtch (r : regex) (input : string) (group : option string) (k : continuation)
    {struct r} : option R :=
  match r with
  | Char c =>
      match input with
      | String c' rest => if decide (c' = c) then k group rest else None
      | EmptyString => None
      end
  | NotChar c =>
      match input with
      | String c' rest => if decide (c' = c) then None else k group rest
      | EmptyString => None
      end
  | Seq r1 r2 => mtch r1 input group (λ group' rest, mtch r2 rest group' k)
  | Alt r1 r2 => first_of (mtch r1 input group k) (mtch r2 input group k)
  | Plus r' => iterate (mtch r') (String.length input) input group k
  | Opt r' => first_of (mtch r' input group k) (k group input)
  | Capture r' => mtch r' input group (λ _ rest, k (Some (consumed input rest)) rest)
  end.

End Matching.

(** [RE2::Consume(&input, rgx, &token)]: the pattern has to match a prefix
    of the input; on a match the input is advanced past it and the text of
    the group is stored in [token]. *)
Definition Consume (input : string) (rgx : regex) : option (string * string) :=
  mtch rgx input None (λ group rest, Some (rest, default EmptyString group)).

End RE2.

Module csv.
Import Stdlib.Strings.Ascii.

(** [str.erase(std::remove(str.begin(), str.end(), c), str.end())] *)
Fixpoint erase (c : ascii) (str : string) : string :=
  match str with
  | EmptyString => EmptyString
  | String c' rest => if decide (c' = c) then erase c rest else String c' (erase c rest)
  end.

(** [while (RE2::Consume(&input, rgx, &token)) tokens.push_back(token);]
    A match that reads nothing would be found again for ever; the loop is
    given one turn per character of the input and one more, and [None]
    says that they did not suffice. *)
Fixpoint consumeLoop (fuel : nat) (input : string) (rgx : RE2.regex) (tokens : list string)
    : option (list string) :=
  match fuel with
  | O => None
  | S fuel' =>
      match RE2.Consume input rgx with
      | Some (input', token) => consumeLoop fuel' input' rgx (tokens ++ [token])
      | None => Some tokens
      end
  end.

(** [split(str, delim)]: the text as the call leaves it, without its
    spaces, and the tokens. *)
Definition split (str : string) (delim : RE2.regex) : option (string * list string) :=
  let str := erase " "%char str in
  tokens ← consumeLoop (S (String.length str)) str delim [];
  Some (str, tokens).

(** ["([^,]+),?"] *)
Definition commaPattern : RE2.regex :=
  RE2.Seq (RE2.Capture (RE2.Plus (RE2.NotChar ","%char))) (RE2.Opt (RE2.Char ","%char)).

(** [R"((\[[^\]]+\]|[^,]+),?)"] *)
Definition bracketPattern : RE2.regex :=
  RE2.Seq
    (RE2.Capture
       (RE2.Alt
          (RE2.Seq (RE2.Char "["%char)
             (RE2.Seq (RE2.Plus (RE2.NotChar "]"%char)) (RE2.Char "]"%char)))
          (RE2.Plus (RE2.NotChar ","%char))))
    (RE2.Opt (RE2.Char ","%char)).

Definition splitByComma (str : string) (supportInnerBrackets : bool)
    : option (string * list string) :=
  if supportInnerBrackets then split str bracketPattern else split str commaPattern.

(** [readCsv(fileName, readLine, processHeader)].  The file is what its
    stream yields: nothing when the stream is not good, the lines that
    [std::getline] reads otherwise.  The two callbacks act on a state of the
    caller's. *)
Section ReadCsv.
Context {State : Type}.
Variable readLine : list string → list string → State → State.
Variable processHeader : list string → State → State.

Fixpoint readLines (header : list string) (lines : list string) (state : State) : option State :=
  match lines with
  | [] => Some state
  | line :: rest =>
      '(_, parts) ← splitByComma line true;
      readLines header rest (readLine header parts state)
  end.

Definition readCsv (infile : option (list string)) (state : State) : option (bool * State) :=
  match infile with
  | None => Some (false, state)
  | Some lines =>
      let line := hd EmptyString lines in
      '(_, header) ← splitByComma line false;
      state' ← readLines header (tl lines) (processHeader header state);
      Some (true, state')
  end.

End ReadCsv.

End csv.

(** * Parsing the lines of the input: fbpcs/emp_games/attribution/AttributionMetrics.cpp

    The callers of Csv.cpp that turn the fields of a line into touchpoints
    and conversions. *)

Module metrics.
Import Stdlib.Strings.Ascii.

(** How a call ends: it returns; it fails (a glog [CHECK_*], or an exception
    of [vector::at]); it reads [parts[i]] past the end of [parts], which
    [operator[]] leaves undefined; or it never leaves the loop of [split]. *)
Inductive outcome (A : Type) : Type :=
  | Returns (a : A)
  | Raises (e : error)
  | Undefined
  | Endless.
Arguments Returns {A} a.
Arguments Raises {A} e.
Arguments Undefined {A}.
Arguments Endless {A}.

#[global] Instance outcome_ret : MRet outcome := λ A a, Returns a.
#[global] Instance outcome_bind : MBind outcome := λ A B f m,
  match m with
  | Returns a => f a
  | Raises e => Raises e
  | Undefined => Undefined
  | Endless => Endless
  end.

Definition checked {A} (r : result A) : outcome A :=
  match r with
  | Ok a => Returns a
  | Err e => Raises e
  end.

(** [CHECK_LE(a, b) << msg] on a size and an [int32] flag: the two are
    compared as [size_t], 64 bits wide, where a negative flag reads as a
    large number. *)
Definition CHECK_LE (a : nat) (b : Z) (msg : string) : result unit :=
  if decide (Z.of_nat a ≤ b `mod` 2 ^ 64)%Z then Ok tt else Err (check_failure msg).

(** The aggregates that the two parsers build, field by field in the order
    of their initialisers. *)
Record Touchpoint : Type := mkTouchpoint {
  tp_id : Z;
  tp_isClick : bool;
  tp_adId : Z;
  tp_ts : Z;
  tp_campaignMetadata : Z
}.

Record Conversion : Type := mkConversion {
  conv_ts : Z;
  conv_value : Z;
  conv_metadata : Z
}.

(** The local arrays of [parseTouchpoints] and of [parseConversions]. *)
Record TouchpointArrays : Type := mkTouchpointArrays {
  adIds : list Z;
  timestamps : list Z;
  isClicks : list Z;
  campaignMetadata : list Z
}.

Record ConversionArrays : Type := mkConversionArrays {
  convTimestamps : list Z;
  convValues : list Z;
  convMetadata : list Z
}.

(** [for (i = 0; i < header.size(); ++i) { auto column = header[i]; auto
    value = parts[i]; ... }]: [header] is what is left of the header from
    index [i] on. *)
Fixpoint columnLoop {A} (body : string → string → A → outcome A) (i : nat)
    (header parts : list string) (arrays : A) : outcome A :=
  match header with
  | [] => Returns arrays
  | column :: header' =>
      match parts !! i with
      | None => Undefined
      | Some value =>
          arrays' ← body column value arrays;
          columnLoop body (S i) header' parts arrays'
      end
  end.

Section Parsing.

(** [int64_t parsed = 0; std::istringstream iss{text}; iss >> parsed;]: the
    number that the extraction leaves in [parsed].  How the standard library
    reads a number is no part of the sources. *)
Variable extract : string → Z.

Variable FLAGS_max_num_touchpoints : Z.
Variable FLAGS_max_num_conversions : Z.

Definition getInnerArray (str : string) : outcome (list Z) :=
  let innerString := str in
  let innerString := csv.erase "["%char innerString in
  let innerString := csv.erase "]"%char innerString in
  match csv.splitByComma innerString false with
  | None => Endless
  | Some (_, innerVals) =>
      Returns
        (foldl (λ out innerVal,
                  if decide (innerVal = EmptyString) then out else out ++ [extract innerVal])
           [] innerVals)
  end.

Definition touchpointColumn (column value : string) (arrays : TouchpointArrays)
    : outcome TouchpointArrays :=
  if decide (column = "ad_ids") then
    parsed ← getInnerArray value;
    mret (mkTouchpointArrays parsed (timestamps arrays) (isClicks arrays)
            (campaignMetadata arrays))
  else if decide (column = "timestamps") then
    parsed ← getInnerArray value;
    mret (mkTouchpointArrays (adIds arrays) parsed (isClicks arrays)
            (campaignMetadata arrays))
  else if decide (column = "is_click") then
    parsed ← getInnerArray value;
    mret (mkTouchpointArrays (adIds arrays) (timestamps arrays) parsed
            (campaignMetadata arrays))
  else if decide (column = "campaign_metadata") then
    parsed ← getInnerArray value;
    mret (mkTouchpointArrays (adIds arrays) (timestamps arrays) (isClicks arrays) parsed)
  else mret arrays.

Definition parseTouchpoints (lineNo : Z) (header parts : list string)
    : outcome (list Touchpoint) :=
  arrays ← columnLoop touchpointColumn 0 header parts (mkTouchpointArrays [] [] [] []);
  _ ← checked (CHECK_EQ (length (adIds arrays)) (length (timestamps arrays))
                 "Ad ids and timestamps arrays are not the same length.");
  _ ← checked (CHECK_EQ (length (adIds arrays)) (length (isClicks arrays))
                 "Ad ids and is_click arrays are not the same length.");
  _ ← checked (CHECK_LE (length (adIds arrays)) FLAGS_max_num_touchpoints
                 "Number of touchpoints exceeds the maximum allowed value.");
  _ ← checked (CHECK_EQ (length (adIds arrays)) (length (campaignMetadata arrays))
                 "Ad ids and campaign_metadata arrays are not the same length.");
  let unique_ids := Z.of_nat <$> seq 0 (length (timestamps arrays)) in
  let idSet : gset Z := list_to_set unique_ids in
  _ ← checked (CHECK_EQ (size idSet) (length (timestamps arrays))
                 ("Found non-unique id for line " +:+ pretty lineNo +:+ ". " +:+
                  "This implementation currently only supports unique touchpoint ids per user."));
  mapM (λ i,
          id ← checked (at_ unique_ids i);
          isClick ← checked (at_ (isClicks arrays) i);
          adId ← checked (at_ (adIds arrays) i);
          ts ← checked (at_ (timestamps arrays) i);
          metadata ← checked (at_ (campaignMetadata arrays) i);
          mret (mkTouchpoint id (bool_decide (isClick = 1%Z)) adId ts metadata))
    (seq 0 (length (adIds arrays))).

Definition conversionColumn (column value : string) (arrays : ConversionArrays)
    : outcome ConversionArrays :=
  if decide (column = "conversion_timestamps") then
    parsed ← getInnerArray value;
    mret (mkConversionArrays parsed (convValues arrays) (convMetadata arrays))
  else if decide (column = "conversion_values") then
    parsed ← getInnerArray value;
    mret (mkConversionArrays (convTimestamps arrays) parsed (convMetadata arrays))
  else if decide (column = "conversion_metadata") then
    parsed ← getInnerArray value;
    mret (mkConversionArrays (convTimestamps arrays) (convValues arrays) parsed)
  else mret arrays.

Definition parseConversions (header parts : list string) : outcome (list Conversion) :=
  arrays ← columnLoop conversionColumn 0 header parts (mkConversionArrays [] [] []);
  _ ← checked (CHECK_EQ (length (convTimestamps arrays)) (length (convValues arrays))
                 "Conversion timetamps and conversion value arrays are not the same length.");
  _ ← checked (CHECK_EQ (length (convTimestamps arrays)) (length (convMetadata arrays))
                 "Conversion timetamps and  arrays are not the same length.");
  _ ← checked (CHECK_LE (length (convTimestamps arrays)) FLAGS_max_num_conversions
                 "Number of conversions exceeds the maximum allowed value.");
  mapM (λ i,
          ts ← checked (at_ (convTimestamps arrays) i);
          value ← checked (at_ (convValues arrays) i);
          metadata ← checked (at_ (convMetadata arrays) i);
          mret (mkConversion ts value metadata))
    (seq 0 (length (convTimestamps arrays))).

End Parsing.

End metrics.

(** * Reading the engine's output *)

(** The bits of conversion [j] in the vector returned by
    computeAttributionsHelper: the output lists, conversion by conversion,
    one bit per touchpoint. *)
Definition conversionBits {usingBatch} (numTouchpoints j : nat)
    (attributions : list (SecBit usingBatch)) : list (SecBit usingBatch) :=
  take numTouchpoints (drop (j * numTouchpoints) attributions).

(** The number of touchpoints attributed in row [r] among [bits]. *)
Definition attributedCount {usingBatch} (r : nat) (bits : list (SecBit usingBatch)) : nat :=
  sum_list (Nat.b2n <$> (bit_row r <$> bits)).

(** Touchpoint [i] is attributed to conversion [j] in row [r]. *)
Definition attributedAt {usingBatch} (numTouchpoints : nat)
    (attributions : list (SecBit usingBatch)) (r j i : nat) : Prop :=
  bit_row r <$> attributions !! (j * numTouchpoints + i) = Some true.

(** Touchpoint [i] satisfies the rule's predicate against [conv] in row [r]. *)
Definition attributableAt {usingBatch} (touchpoints : list (PrivateTouchpoint usingBatch))
    (attributionRule : AttributionRule usingBatch)
    (thresholds : list (list (SecTimestamp usingBatch)))
    (conv : PrivateConversion usingBatch) (r i : nat) : Prop :=
  ∃ tp threshold, touchpoints !! i = Some tp ∧ thresholds !! i = Some threshold ∧
    bit_row r (isAttributable attributionRule tp conv threshold) = true.

(** A batch is well formed when every value carries one entry per row of the
    shard: the bits the rule answers with on the given arrays, and the ad ids
    of the touchpoints.  Outside batch mode there is nothing to ask. *)
Definition ruleSized {usingBatch} (touchpoints : list (PrivateTouchpoint usingBatch))
    (conversions : list (PrivateConversion usingBatch))
    (attributionRule : AttributionRule usingBatch)
    (thresholds : list (list (SecTimestamp usingBatch))) (batchSize : N) : Prop :=
  Forall (λ conv,
    Forall (sized usingBatch batchSize)
      (zip_with (λ tp threshold, isAttributable attributionRule tp conv threshold)
         touchpoints thresholds)) conversions.

Definition adIdsSized {usingBatch} (touchpoints : list (PrivateTouchpoint usingBatch))
    (batchSize : N) : Prop :=
  Forall (λ tp, sized usingBatch batchSize (ptp_adId tp)) touchpoints.

(** ** The scan performed for one conversion

    [scan] is the touchpoint loop on the list of predicate bits in the order
    of the visit; [scanV2] carries the ad id as well. *)
Fixpoint scan {usingBatch} (visited : list (SecBit usingBatch)) (has : SecBit usingBatch)
    : list (SecBit usingBatch) * SecBit usingBatch :=
  match visited with
  | [] => ([], has)
  | a :: rest =>
      let isAttributed := bit_and a (bit_not has) in
      let '(out, final) := scan rest (bit_or isAttributed has) in
      (isAttributed :: out, final)
  end.

Fixpoint scanV2 {usingBatch} (visited : list (SecBit usingBatch * SecAdId usingBatch))
    (has : SecBit usingBatch) (adId : SecAdId usingBatch)
    : SecBit usingBatch * SecAdId usingBatch :=
  match visited with
  | [] => (has, adId)
  | (a, tpAdId) :: rest =>
      let isAttributed := bit_and a (bit_not has) in
      scanV2 rest (bit_or isAttributed has) (adid_mux adId isAttributed tpAdId)
  end.

(** The predicate bits of a conversion, one per touchpoint, in array order. *)
Definition attributableBits {usingBatch} (touchpoints : list (PrivateTouchpoint usingBatch))
    (attributionRule : AttributionRule usingBatch)
    (thresholds : list (list (SecTimestamp usingBatch)))
    (conv : PrivateConversion usingBatch) : list (SecBit usingBatch) :=
  zip_with (λ tp threshold, isAttributable attributionRule tp conv threshold)
    touchpoints thresholds.

Definition attributableBitsV2 {usingBatch} (touchpoints : list (PrivateTouchpoint usingBatch))
    (attributionRule : AttributionRule usingBatch)
    (thresholds : list (list (SecTimestamp usingBatch)))
    (conv : PrivateConversion usingBatch) : list (SecBit usingBatch * SecAdId usingBatch) :=
  zip_with (λ tp threshold, (isAttributable attributionRule tp conv threshold, ptp_adId tp))
    touchpoints thresholds.

(** The row of one conversion in the output of V1, and its record in V2. *)
Definition attributionRow {usingBatch} (touchpoints : list (PrivateTouchpoint usingBatch))
    (attributionRule : AttributionRule usingBatch)
    (thresholds : list (list (SecTimestamp usingBatch))) (batchSize : N)
    (conv : PrivateConversion usingBatch) : list (SecBit usingBatch) :=
  reverse (scan (reverse (attributableBits touchpoints attributionRule thresholds conv))
             (public_bit usingBatch batchSize false)).1.

Definition attributionRecord {usingBatch} (touchpoints : list (PrivateTouchpoint usingBatch))
    (attributionRule : AttributionRule usingBatch)
    (thresholds : list (list (SecTimestamp usingBatch))) (batchSize : N)
    (conv : PrivateConversion usingBatch) : AttributionReformattedOutputFmt usingBatch :=
  let '(has, adId) :=
    scanV2 (reverse (attributableBitsV2 touchpoints attributionRule thresholds conv))
      (public_bit usingBatch batchSize false) (public_adid usingBatch batchSize 0%N) in
  {| ad_id := adId; conv_value := pc_convValue conv; is_attributed := has |}.

(** ** Sample data *)

Definition rowTouchpoint (ts adId : N) (isClick : bool) : PrivateTouchpoint false :=
  mkPrivateTouchpoint (usingBatch:=false) isClick ts adId.

Definition rowConversion (ts value : N) : PrivateConversion false :=
  mkPrivateConversion (usingBatch:=false) ts value.

(** A last-touch rule with a one-day window: the touchpoint precedes the
    conversion, which falls before the threshold [ts + 86400]; padding
    (timestamp 0) never matches. *)
Definition sampleLastTouch : AttributionRule false :=
  mkAttributionRule (usingBatch:=false) 1%N "last_touch_1d"
    (λ tp conv threshold,
       match threshold with
       | t :: _ => (0 <? ptp_ts tp)%N && (ptp_ts tp <? pc_ts conv)%N && (pc_ts conv <=? t)%N
       | [] => false
       end)
    (λ tp, [(tp_ts tp + 86400)%N])
    (λ tp _ _, [(ptp_ts tp + 86400)%N]).

Definition sampleTouchpoints : list (PrivateTouchpoint false) :=
  [rowTouchpoint 100 7 false; rowTouchpoint 200 8 false; rowTouchpoint 300 9 false;
   rowTouchpoint 0 0 false].

Definition sampleThresholds : list (list (SecTimestamp false)) :=
  [[86500%N]; [86600%N]; [86700%N]; [86400%N]].

Definition sampleConversions : list (PrivateConversion false) :=
  [rowConversion 50 1; rowConversion 350 5].

(** A shard of two users in batch mode: every field holds one entry per user.
    User 0 saw the ads at 100 and 300 and converted at 350; user 1 saw one ad
    at 200 and converted at 150. *)
Definition batchTouchpoint (ts adId : list N) : PrivateTouchpoint true :=
  mkPrivateTouchpoint (usingBatch:=true) (replicate (length ts) false) ts adId.

Definition batchConversion (ts value : list N) : PrivateConversion true :=
  mkPrivateConversion (usingBatch:=true) ts value.

Definition sampleLastTouchBatch : AttributionRule true :=
  mkAttributionRule (usingBatch:=true) 1%N "last_touch_1d"
    (λ tp conv threshold,
       match threshold with
       | t :: _ =>
           zip_with andb
             (zip_with (λ tpts cts, (0 <? tpts)%N && (tpts <? cts)%N) (ptp_ts tp) (pc_ts conv))
             (zip_with N.leb (pc_ts conv) t)
       | [] => replicate (length (ptp_ts tp)) false
       end)
    (λ tp, [(λ ts, (ts + 86400)%N) <$> tp_ts tp])
    (λ tp _ _, [(λ ts, (ts + 86400)%N) <$> ptp_ts tp]).

Definition sampleBatchTouchpoints : list (PrivateTouchpoint true) :=
  [batchTouchpoint [100; 200]%N [7; 8]%N; batchTouchpoint [300; 0]%N [9; 0]%N].

Definition sampleBatchThresholds : list (list (SecTimestamp true)) :=
  [[[86500; 86600]%N]; [[86700; 86400]%N]].

Definition sampleBatchConversions : list (PrivateConversion true) :=
  [batchConversion [350; 150]%N [5; 3]%N].

(** The touchpoints that the rule accepts for [conv] appear in ascending
    order of timestamp (padding, which no rule accepts, may follow them). *)
Definition attributableAscending {usingBatch}
    (touchpoints : list (PrivateTouchpoint usingBatch))
    (attributionRule : AttributionRule usingBatch)
    (thresholds : list (list (SecTimestamp usingBatch)))
    (conv : PrivateConversion usingBatch) (r : nat) : Prop :=
  ∀ i1 i2 tp1 tp2, i1 ≤ i2 →
    touchpoints !! i1 = Some tp1 → touchpoints !! i2 = Some tp2 →
    attributableAt touchpoints attributionRule thresholds conv r i1 →
    attributableAt touchpoints attributionRule thresholds conv r i2 →
    (num_row r (ptp_ts tp1) ≤ num_row r (ptp_ts tp2))%N.

Definition sampleBatchRecord : AttributionReformattedOutputFmt true :=
  mkAttributionReformattedOutputFmt (usingBatch:=true) [9; 0]%N [5; 3]%N [true; false].

(** The operation ends with [std::invalid_argument]. *)
Definition raises_invalid_argument {A} (m : result A) : Prop :=
  ∃ what, m = Err (invalid_argument what).

Definition sampleBatchPlainTouchpoints : list (TouchpointT true) :=
  [mkTouchpoint (usingBatch:=true) [0; 0]%N [false; false] [100; 200]%N [500; 17]%N [0; 0]%N].

(** A catalog in the shape the spec describes: four rules, ids 1 to 4. *)
Definition sampleRule (id : N) (name : string) : AttributionRule false :=
  mkAttributionRule (usingBatch:=false) id name
    (isAttributable sampleLastTouch)
    (computeThresholdsPlaintext sampleLastTouch)
    (computeThresholdsPrivate sampleLastTouch).

Definition sampleCatalog : list (AttributionRule false) :=
  [sampleRule 1 "last_click_1d"; sampleRule 2 "last_touch_1d";
   sampleRule 3 "last_click_28d"; sampleRule 4 "last_touch_28d"].

(** ** Reading the trace of computeAttributions *)

Definition helperCalls (calls : list Call) : nat :=
  length (filter (λ c, is_helper_call c = true) calls).

Definition thresholdCalls (calls : list Call) : nat :=
  length (filter (λ c, is_helper_call c = false) calls).

(** The number of rows a rule's result holds. *)
Definition resultRows {usingBatch} (res : AttributionResult usingBatch) : nat :=
  match res with
  | AttributionOutput _ attributions => length attributions
  | AttributionReformattedOutput _ attributionsReformatted => length attributionsReformatted
  end.

Definition isReformatted {usingBatch} (res : AttributionResult usingBatch) : bool :=
  match res with
  | AttributionOutput _ _ => false
  | AttributionReformattedOutput _ _ => true
  end.

(** [run m P Q]: from any trace, [m] appends calls that all satisfy [P], and
    when it returns [a] the appended calls satisfy [Q a]. *)
Definition run {A} (m : Traced A) (P : Call → Prop) (Q : A → list Call → Prop) : Prop :=
  ∀ trace, ∃ calls,
    (m trace).2 = trace ++ calls ∧ Forall P calls ∧
    ∀ a, (m trace).1 = Ok a → Q a calls.

Definition sampleInput : AttributionInputMetrics false :=
  mkAttributionInputMetrics (usingBatch:=false) [11%Z; 12%Z]
    [[mkTouchpoint (usingBatch:=false) 0%N false 100%N 500%N 0%N];
     [mkTouchpoint (usingBatch:=false) 0%N false 200%N 17%N 0%N]]
    [[mkConversion (usingBatch:=false) 150%N 5%N];
     [mkConversion (usingBatch:=false) 250%N 3%N]]
    ["last_touch_1d"].

Definition sampleShareTouchpoint (b : bool) (tp : Touchpoint b) : PrivateTouchpoint b :=
  mkPrivateTouchpoint (tp_isClick tp) (tp_ts tp) (tp_adId tp).

Definition sampleShareConversion (b : bool) (conv : Conversion b) : PrivateConversion b :=
  mkPrivateConversion (conv_ts conv) (conv_value_in conv).

(** What a rule's entry of the output looks like: under the format name, a
    result of the configured format which, outside batch mode, holds one row
    per id. *)
Definition goodEntry {usingBatch} (use_new_output_format : bool) (numIds : N)
    (out : gmap string (gmap string (AttributionResult usingBatch))) (name : string) : Prop :=
  ∃ metrics res,
    out !! name = Some metrics ∧ metrics !! attributionFormat = Some res ∧
    isReformatted res = use_new_output_format ∧
    (usingBatch = false → resultRows res = N.to_nat numIds).

(** The call was handed [numIds] as its batch size. *)
Definition carries (numIds : N) (c : Call) : Prop := call_batchSize c = numIds.

(** One call on the whole shard in batch mode, one call per id otherwise. *)
Definition helperCallsPerRule (usingBatch : bool) (numIds : N) : nat :=
  if usingBatch then 1 else N.to_nat numIds.

(** ** Row [r] of the arrays the scan runs over *)

Definition pair_row {usingBatch} (r : nat) (p : SecBit usingBatch * SecAdId usingBatch)
    : bool * N :=
  (bit_row r p.1, num_row r p.2).

(** The rule's verdict on every touchpoint, in row [r]. *)
Definition rowBits {usingBatch} (touchpoints : list (PrivateTouchpoint usingBatch))
    (attributionRule : AttributionRule usingBatch)
    (thresholds : list (list (SecTimestamp usingBatch))) (r : nat)
    (conv : PrivateConversion usingBatch) : list bool :=
  bit_row r <$> attributableBits touchpoints attributionRule thresholds conv.

(** The rule's verdict and the ad id of every touchpoint, in row [r]. *)
Definition rowPairs {usingBatch} (touchpoints : list (PrivateTouchpoint usingBatch))
    (attributionRule : AttributionRule usingBatch)
    (thresholds : list (list (SecTimestamp usingBatch))) (r : nat)
    (conv : PrivateConversion usingBatch) : list (bool * N) :=
  pair_row r <$> attributableBitsV2 touchpoints attributionRule thresholds conv.

(** ** Reading the touchpoint arrays event by event *)

(** The original ad ids of all events, in array order. *)
Definition originalAdIds (usingBatch : bool) : list (TouchpointT usingBatch) → list N :=
  match usingBatch with
  | true => λ touchpoints, touchpoints ≫= tp_originalAdId (usingBatch:=true)
  | false => λ touchpoints,
      touchpoints ≫= fmap (M:=list) (tp_originalAdId (usingBatch:=false))
  end.

(** The pair (original ad id, ad id) of every event, in array order. *)
Definition adIdPairs (usingBatch : bool) : list (TouchpointT usingBatch) → list (N * N) :=
  match usingBatch with
  | true => λ touchpoints,
      touchpoints ≫= λ tp : Touchpoint true, zip (tp_originalAdId tp) (tp_adId tp)
  | false => λ touchpoints,
      touchpoints ≫= fmap (M:=list) (λ tp : Touchpoint false, (tp_originalAdId tp, tp_adId tp))
  end.

(** The ad ids as the input arrives: no event carries one yet.  The loader
    of the game (MainUtil.h) builds every touchpoint with the compressed ad
    id 0. *)
Definition adIdsUnset (usingBatch : bool) (touchpoints : list (TouchpointT usingBatch))
    : Prop :=
  Forall (λ pair : N * N, pair.2 = 0%N) (adIdPairs usingBatch touchpoints).

(** The touchpoints as retrieveValidOriginalAdIds leaves them: the original ad
    id of every event replaced by what was opened to the publisher. *)
Definition revealedTouchpoints (inputEncryption : InputEncryption) (openToPublisher : N → N)
    (usingBatch : bool) : list (TouchpointT usingBatch) → list (TouchpointT usingBatch) :=
  match usingBatch with
  | true => fmap (M:=list) (λ tp : Touchpoint true,
      set_originalAdId (usingBatch:=true)
        (revealAdId inputEncryption openToPublisher <$> tp_originalAdId tp) tp)
  | false => fmap (M:=list) (fmap (M:=list) (λ tp : Touchpoint false,
      set_originalAdId (usingBatch:=false)
        (revealAdId inputEncryption openToPublisher (tp_originalAdId tp)) tp))
  end.

(** The input of the spec's example, original ad ids 500, 17, 500, 0, 42, as
    one batched touchpoint over five users and as rows of single events. *)
Definition exampleBatch : list (TouchpointT true) :=
  [mkTouchpoint (usingBatch:=true) [0; 0; 0; 0; 0]%N [false; false; false; false; false]
     [100; 200; 300; 0; 400]%N [500; 17; 500; 0; 42]%N [0; 0; 0; 0; 0]%N].

Definition exampleEvent (originalAdId : N) : Touchpoint false :=
  mkTouchpoint (usingBatch:=false) 0%N false 100%N originalAdId 0%N.

Definition exampleRows : list (TouchpointT false) :=
  [[exampleEvent 500; exampleEvent 17]; [exampleEvent 500; exampleEvent 0; exampleEvent 42]].

(** One batched touchpoint over [n] users whose original ad ids are
    [1, 2, ..., n]. *)
Fixpoint countFrom (fuel : nat) (start : N) : list N :=
  match fuel with
  | O => []
  | S fuel' => start :: countFrom fuel' (start + 1)%N
  end.

Definition distinctAdIds (n : N) : list (TouchpointT true) :=
  [mkTouchpoint (usingBatch:=true) [] [] [] (countFrom (N.to_nat n) 1%N) []].

(** What the rewriting did to an event: a positive original id is looked up
    in the map, the id 0 gets [fallback]. *)
Definition rewritten (m : gmap N N) (fallback : option N) (p : N * N) : Prop :=
  ((0 < p.1)%N → m !! p.1 = Some p.2) ∧
  (p.1 = 0%N → ∀ a, fallback = Some a → p.2 = a).

(** The example after compression: 17 → 1, 42 → 2, 500 → 3, and 0 stays 0. *)
Definition exampleBatchCompressed : list (TouchpointT true) :=
  [mkTouchpoint (usingBatch:=true) [0; 0; 0; 0; 0]%N [false; false; false; false; false]
     [100; 200; 300; 0; 400]%N [500; 17; 500; 0; 42]%N [3; 1; 3; 0; 2]%N].

Definition exampleCompressedEvent (originalAdId adId : N) : Touchpoint false :=
  mkTouchpoint (usingBatch:=false) 0%N false 100%N originalAdId adId.

Definition exampleRowsCompressed : list (TouchpointT false) :=
  [[exampleCompressedEvent 500 3; exampleCompressedEvent 17 1];
   [exampleCompressedEvent 500 3; exampleCompressedEvent 0 0; exampleCompressedEvent 42 2]].

Definition exampleArtifact : gmap string N :=
  <["1" := 17%N]> (<["2" := 42%N]> (<["3" := 500%N]> ∅)).

(** The pair (original ad id, ad id) of the last event after compression. *)
Definition lastPair (r : result (list (TouchpointT true) * gmap string N)) : option (N * N) :=
  match r with
  | Ok (touchpoints, _) => last (adIdPairs true touchpoints)
  | Err _ => None
  end.

(** * Further readings of the engine's arguments and results *)

(** ** One user of a batch

    Row [r] of a batched touchpoint, conversion, threshold list and output
    record: what row-wise execution holds for that user. *)
Definition touchpointRow (r : nat) (tp : PrivateTouchpoint true) : PrivateTouchpoint false :=
  mkPrivateTouchpoint (usingBatch:=false)
    (bit_row r (ptp_isClick tp)) (num_row r (ptp_ts tp)) (num_row r (ptp_adId tp)).

Definition conversionRow (r : nat) (conv : PrivateConversion true) : PrivateConversion false :=
  mkPrivateConversion (usingBatch:=false) (num_row r (pc_ts conv)) (num_row r (pc_convValue conv)).

Definition thresholdRow (r : nat) (threshold : list (SecTimestamp true))
    : list (SecTimestamp false) :=
  num_row r <$> threshold.

Definition recordRow (r : nat) (rec : AttributionReformattedOutputFmt true)
    : AttributionReformattedOutputFmt false :=
  mkAttributionReformattedOutputFmt (usingBatch:=false)
    (num_row r (ad_id rec)) (num_row r (conv_value rec)) (bit_row r (is_attributed rec)).

(** The batched rule answers in row [r], on the given arrays, what the
    row-wise rule answers on row [r] of its arguments. *)
Definition rulesAgree (batchRule : AttributionRule true) (rowRule : AttributionRule false)
    (touchpoints : list (PrivateTouchpoint true)) (conversions : list (PrivateConversion true))
    (thresholds : list (list (SecTimestamp true))) (r : nat) : Prop :=
  Forall (λ conv,
    Forall (λ p : PrivateTouchpoint true * list (SecTimestamp true),
      bit_row r (isAttributable batchRule p.1 conv p.2) =
        isAttributable rowRule (touchpointRow r p.1) (conversionRow r conv)
          (thresholdRow r p.2))
      (zip touchpoints thresholds)) conversions.

(** How a helper's call ends when it does not return. *)
Definition zeroBatch (usingBatch : bool) (batchSize : N) : Prop :=
  usingBatch = true ∧ batchSize = 0%N.

Definition lengthMismatch {A B C} (conversions : list A) (touchpoints : list B)
    (thresholds : list C) : Prop :=
  conversions ≠ [] ∧ length touchpoints ≠ length thresholds.

Definition batchSizeError : error :=
  invalid_argument "Must provide positive batch size for batch execution!".

Definition lengthError : error :=
  check_failure "touchpoints and thresholds are not the same length.".

(** ** Thresholds *)

(** The thresholds of clear touchpoints, array by array. *)
Definition plaintextThresholds (usingBatch : bool) :
    AttributionRule usingBatch → list (TouchpointT usingBatch) →
    list (list (SecTimestampT usingBatch)) :=
  match usingBatch with
  | true => λ attributionRule touchpoints,
      computeThresholdsPlaintext attributionRule <$> touchpoints
  | false => λ attributionRule touchpoints,
      fmap (M:=list) (computeThresholdsPlaintext attributionRule) <$> touchpoints
  end.

(** The thresholds of one private touchpoint and the click flag of its clear
    counterpart. *)
Definition privateThreshold {usingBatch} (attributionRule : AttributionRule usingBatch)
    (batchSize : N) (ptp : PrivateTouchpoint usingBatch) (tp : Touchpoint usingBatch)
    : list (SecTimestamp usingBatch) :=
  computeThresholdsPrivate attributionRule ptp (tp_isClick tp) batchSize.

(** Row-wise, every private row finds a clear row at least as long under
    its index (an empty private row asks for nothing). *)
Definition rowsFit {A B} (privateTouchpoints : list (list A)) (touchpoints : list (list B))
    : Prop :=
  ∀ i privateRow, privateTouchpoints !! i = Some privateRow →
    length privateRow ≤ length (default [] (touchpoints !! i)).

(** The arrays a helper is called with line up: in batch mode the touchpoint
    and threshold arrays have one length; row-wise they have the same rows,
    and the two rows of a user have one length. *)
Definition helperArraysAgree (usingBatch : bool) :
    list (PrivateTouchpointT usingBatch) → list (list (SecTimestampT usingBatch)) → Prop :=
  match usingBatch with
  | true => λ tpArrays thresholdArrays, length tpArrays = length thresholdArrays
  | false => λ tpArrays thresholdArrays,
      Forall2 (λ (tpRow : list (PrivateTouchpoint false))
                 (thresholdRow : list (list (SecTimestamp false))),
                 length tpRow = length thresholdRow) tpArrays thresholdArrays
  end.

(** ** Ad-id compression *)

(** The touchpoints with their ad ids blanked: everything the rewriting is
    not meant to touch. *)
Definition withoutAdIds (usingBatch : bool) :
    list (TouchpointT usingBatch) → list (TouchpointT usingBatch) :=
  match usingBatch with
  | true => fmap (M:=list) (set_adId (usingBatch:=true) [])
  | false => fmap (M:=list) (fmap (M:=list) (set_adId (usingBatch:=false) 0%N))
  end.

(** The set of ids the compression stage maps: the positive original ad ids,
    as opened to the publisher. *)
Definition distinctOriginalAdIds (inputEncryption : InputEncryption)
    (openToPublisher : N → N) (usingBatch : bool)
    (touchpoints : list (TouchpointT usingBatch)) : gset N :=
  foldl insertValid ∅
    (revealAdId inputEncryption openToPublisher <$> originalAdIds usingBatch touchpoints).

Definition tooManyAdIds : error :=
  check_failure "Number of ad Ids cannot be more than 65,536.".

(** The example's ids in another order and another shape: two batched
    touchpoints over three users. *)
Definition exampleBatchShuffled : list (TouchpointT true) :=
  [mkTouchpoint (usingBatch:=true) [0; 0; 0]%N [false; false; false]
     [100; 200; 300]%N [42; 0; 500]%N [0; 0; 0]%N;
   mkTouchpoint (usingBatch:=true) [1; 1; 1]%N [false; false; false]
     [150; 250; 350]%N [17; 17; 42]%N [0; 0; 0]%N].

(** In batch mode a touchpoint carries one ad id per original ad id. *)
Definition adIdsAligned (usingBatch : bool) : list (TouchpointT usingBatch) → Prop :=
  match usingBatch with
  | true => Forall (λ tp : Touchpoint true,
                      length (tp_adId tp) = length (tp_originalAdId tp))
  | false => λ _, True
  end.

(** ** The result of computeAttributions *)

(** The traced computation ends with [r], whatever calls were recorded
    before it. *)
Definition yields {A} (m : Traced A) (r : result A) : Prop :=
  ∀ trace, (m trace).1 = r.

(** Row [i] of [rows], for every [i] below [n], is what [f] returns on the
    [i]-th entries of the three arrays. *)
Definition rowwise {A B C D} (f : A → B → C → result D)
    (tpArrays : list A) (convArrays : list B) (thresholdArrays : list C)
    (n : nat) (rows : list D) : Prop :=
  length rows = n ∧
  ∀ i row, rows !! i = Some row →
    ∃ tpRow convRow thresholdRow,
      tpArrays !! i = Some tpRow ∧ convArrays !! i = Some convRow ∧
      thresholdArrays !! i = Some thresholdRow ∧
      f tpRow convRow thresholdRow = Ok row.

(** What the driver stores for a rule in format V1: in batch mode the
    result of one call of the helper on the shard, row-wise the results of
    the helper on the arrays of each id. *)
Definition helperResults (usingBatch : bool) :
    list (PrivateTouchpointT usingBatch) → list (PrivateConversionT usingBatch) →
    AttributionRule usingBatch → list (list (SecTimestampT usingBatch)) → N →
    list (SecBitT usingBatch) → Prop :=
  match usingBatch with
  | true => λ tpArrays convArrays attributionRule thresholdArrays numIds attributions,
      computeAttributionsHelper tpArrays convArrays attributionRule thresholdArrays numIds
        = Ok attributions
  | false => λ tpArrays convArrays attributionRule thresholdArrays numIds attributions,
      rowwise (λ tpRow convRow thresholdRow,
                 computeAttributionsHelper tpRow convRow attributionRule thresholdRow numIds)
        tpArrays convArrays thresholdArrays (N.to_nat numIds) attributions
  end.

Definition helperResultsV2 (usingBatch : bool) :
    list (PrivateTouchpointT usingBatch) → list (PrivateConversionT usingBatch) →
    AttributionRule usingBatch → list (list (SecTimestampT usingBatch)) → N →
    list (AttributionReformattedOutputFmtT usingBatch) → Prop :=
  match usingBatch with
  | true => λ tpArrays convArrays attributionRule thresholdArrays numIds attributions,
      computeAttributionsHelperV2 tpArrays convArrays attributionRule thresholdArrays numIds
        = Ok attributions
  | false => λ tpArrays convArrays attributionRule thresholdArrays numIds attributions,
      rowwise (λ tpRow convRow thresholdRow,
                 computeAttributionsHelperV2 tpRow convRow attributionRule thresholdRow numIds)
        tpArrays convArrays thresholdArrays (N.to_nat numIds) attributions
  end.

(** [res] is what the rule loop reveals for [attributionRule]: the input ids
    and, in the configured format, the helper's results on the thresholds
    computed for that rule. *)
Definition ruleResult {usingBatch} (inputEncryption : InputEncryption)
    (use_new_output_format : bool) (ids : list Z) (numIds : N)
    (touchpoints : list (TouchpointT usingBatch))
    (tpArrays : list (PrivateTouchpointT usingBatch))
    (convArrays : list (PrivateConversionT usingBatch))
    (attributionRule : AttributionRule usingBatch) (res : AttributionResult usingBatch) : Prop :=
  ∃ thresholdArrays,
    privatelyShareThresholds usingBatch inputEncryption touchpoints tpArrays attributionRule
      numIds = Ok thresholdArrays ∧
    match res with
    | AttributionOutput ids' attributions =>
        use_new_output_format = false ∧ ids' = ids ∧
        helperResults usingBatch tpArrays convArrays attributionRule thresholdArrays numIds
          attributions
    | AttributionReformattedOutput ids' attributionsReformatted =>
        use_new_output_format = true ∧ ids' = ids ∧
        helperResultsV2 usingBatch tpArrays convArrays attributionRule thresholdArrays numIds
          attributionsReformatted
    end.

(** The shard can be processed: a batch is not empty; row-wise there is a
    row of touchpoints and a row of conversions for every id, given how many
    touchpoint arrays and conversion arrays the input holds. *)
Definition shardFits (usingBatch : bool) (numIds : N)
    (touchpointArrays conversionArrays : nat) : Prop :=
  if usingBatch then numIds ≠ 0%N
  else N.to_nat numIds ≤ touchpointArrays ∧ N.to_nat numIds ≤ conversionArrays.

(** How the rule loop ends when the shard cannot be processed. *)
Definition shardError (usingBatch : bool) : error :=
  if usingBatch then batchSizeError else out_of_range.

(** The rule is the last of the list to carry its name. *)
Definition lastNamed {usingBatch} (attributionRules : list (AttributionRule usingBatch))
    (attributionRule : AttributionRule usingBatch) : Prop :=
  ∃ before after,
    attributionRules = before ++ attributionRule :: after ∧
    Forall (λ later, rule_name later ≠ rule_name attributionRule) after.

(** The ids a rule's result is revealed with. *)
Definition resultIds {usingBatch} (res : AttributionResult usingBatch) : list Z :=
  match res with
  | AttributionOutput ids _ => ids
  | AttributionReformattedOutput ids _ => ids
  end.

(** The touchpoints the rule loop works on: the input's, or their rewriting
    by the compression stage when the new output format is configured; and
    the mapping that stage persists. *)
Definition stagedTouchpoints (inputEncryption : InputEncryption) (openToPublisher : N → N)
    {usingBatch} (use_new_output_format : bool) (myRole : nat)
    (inputData : AttributionInputMetrics usingBatch)
    : result (list (TouchpointT usingBatch) * option (gmap string N)) :=
  if use_new_output_format then
    '(touchpoints', map) ←
      compressAdIds inputEncryption openToPublisher usingBatch myRole
        (getTouchpointArrays inputData);
    Ok (touchpoints', Some map)
  else Ok (getTouchpointArrays inputData, None).

(** The compression stage is asked for and has more ids than it takes. *)
Definition tooManyIds (inputEncryption : InputEncryption) (openToPublisher : N → N)
    {usingBatch} (use_new_output_format : bool)
    (inputData : AttributionInputMetrics usingBatch) : Prop :=
  use_new_output_format = true ∧
  (65536 < N.of_nat (size (distinctOriginalAdIds inputEncryption openToPublisher usingBatch
                             (getTouchpointArrays inputData))))%N.

(** The sample input run by the publisher in the first output format. *)
Definition sampleRun :
    result (gmap string (gmap string (AttributionResult false)) * option (gmap string N)) :=
  (computeAttributions Plaintext id sampleCatalog sampleShareTouchpoint
     sampleShareConversion false PUBLISHER sampleInput [] []).1.

(** A shard of 2^32 users, each without an event: the number of its ids
    does not fit the 32 bits of [numIds]. *)
Definition overfullIds : list Z := replicate (N.to_nat 4294967296) 0%Z.

Definition overfullInput : AttributionInputMetrics false :=
  mkAttributionInputMetrics (usingBatch:=false) overfullIds
    (replicate (N.to_nat 4294967296) []) (replicate (N.to_nat 4294967296) [])
    ["last_touch_1d"].

(** * Reading the text that [split] is handed *)

Module text.
Import Stdlib.Strings.Ascii.

(** The character occurs in the text. *)
Fixpoint contains (c : ascii) (s : string) : bool :=
  match s with
  | EmptyString => false
  | String c' rest => if decide (c' = c) then true else contains c rest
  end.

(** The text is ASCII: a character is a byte, whatever encoding the pattern
    is matched in. *)
Fixpoint isAscii (s : string) : bool :=
  match s with
  | EmptyString => true
  | String c rest => (nat_of_ascii c <? 128) && isAscii rest
  end.

(** The longest prefix that holds no [c], and what follows it. *)
Fixpoint span (c : ascii) (s : string) : string * string :=
  match s with
  | EmptyString => (EmptyString, EmptyString)
  | String c' rest =>
      if decide (c' = c) then (EmptyString, s)
      else let '(run, after) := span c rest in (String c' run, after)
  end.

(** The repetition [[^c]+] spelled out: read on while there is no [c], and
    hand the rest to [k] at the farthest point that [k] accepts. *)
Fixpoint backtrack {R} (c : ascii) (input : string) (group : option string)
    (k : RE2.continuation (R:=R)) : option R :=
  match input with
  | String a rest =>
      if decide (a = c) then None
      else RE2.first_of (backtrack c rest group k) (k group rest)
  | EmptyString => None
  end.

(** What [Consume] hands back: the rest of the input and the token. *)
Definition matched (group : option string) (rest : string) : option (string * string) :=
  Some (rest, default EmptyString group).

(** The text without the comma it may start with. *)
Definition dropComma (s : string) : string :=
  match s with
  | String c rest => if decide (c = ","%char) then rest else s
  | EmptyString => EmptyString
  end.

(** What one [Consume] reads with the pattern of plain fields: a field that
    is not empty, and the comma behind it if there is one. *)
Definition consumeComma (input : string) : option (string * string) :=
  let '(run, after) := span ","%char input in
  match run with
  | EmptyString => None
  | _ => Some (dropComma after, run)
  end.

(** What one [Consume] reads with the pattern of bracketed fields: a
    bracketed group that is closed and not empty, or else a plain field. *)
Definition consumeBracket (input : string) : option (string * string) :=
  match input with
  | String c inside =>
      if decide (c = "["%char) then
        match span "]"%char inside with
        | (String _ _ as inner, String _ after) =>
            Some (dropComma after,
                  String "["%char (inner +:+ "]"))
        | _ => consumeComma input
        end
      else consumeComma input
  | EmptyString => None
  end.

(** A plain field: not empty, ASCII, and free of commas and spaces. *)
Definition plainField (field : string) : bool :=
  match field with
  | EmptyString => false
  | _ => isAscii field && negb (contains ","%char field) && negb (contains " "%char field)
  end.

(** A field that the pattern of bracketed fields gives back whole: a group
    in brackets that holds neither a closing bracket nor a space (commas are
    allowed, and so is the empty group), or a plain field that does not
    start with an opening bracket. *)
Definition bracketField (field : string) : bool :=
  match field with
  | String c rest =>
      if decide (c = "["%char) then
        match span "]"%char rest with
        | (inner, String _ EmptyString) =>
            isAscii inner && negb (contains " "%char inner)
        | _ => false
        end
      else plainField field
  | EmptyString => false
  end.

(** The fields of a line, separated by commas. *)
Definition joinFields (fields : list string) : string :=
  String.concat "," fields.

(** The tokens that the loop of [split] collects from a text, given what
    one [Consume] reads; [fuel] bounds the length of the text. *)
Fixpoint tokensBy (consume : string → option (string * string)) (fuel : nat)
    (input : string) : list string :=
  match fuel with
  | O => []
  | S fuel' =>
      match consume input with
      | Some (rest, token) => token :: tokensBy consume fuel' rest
      | None => []
      end
  end.

(** An element of an array: a plain field without brackets. *)
Definition arrayElement (field : string) : bool :=
  plainField field && negb (contains "["%char field) && negb (contains "]"%char field).

(** The tokens of a text that holds no space, with each pattern. *)
Definition plainTokens (input : string) : list string :=
  tokensBy consumeComma (S (String.length input)) input.

Definition bracketTokens (input : string) : list string :=
  tokensBy consumeBracket (S (String.length input)) input.

(** A token as [split] hands them out: not empty, without a space and,
    when brackets are not supported, without a comma. *)
Definition cleanToken (supportInnerBrackets : bool) (token : string) : Prop :=
  token ≠ EmptyString ∧ contains " "%char token = false ∧
  (supportInnerBrackets = false → contains ","%char token = false).

End text.

(** ** The arrays of a line

    The array that [parseTouchpoints] and [parseConversions] fill from the
    column of the given name; the other columns fill none. *)
Definition touchpointArray (column : string) (arrays : metrics.TouchpointArrays)
    : option (list Z) :=
  if decide (column = "ad_ids") then Some (metrics.adIds arrays)
  else if decide (column = "timestamps") then Some (metrics.timestamps arrays)
  else if decide (column = "is_click") then Some (metrics.isClicks arrays)
  else if decide (column = "campaign_metadata") then Some (metrics.campaignMetadata arrays)
  else None.

Definition conversionArray (column : string) (arrays : metrics.ConversionArrays)
    : option (list Z) :=
  if decide (column = "conversion_timestamps") then Some (metrics.convTimestamps arrays)
  else if decide (column = "conversion_values") then Some (metrics.convValues arrays)
  else if decide (column = "conversion_metadata") then Some (metrics.convMetadata arrays)
  else None.

(** The text of every part is ASCII. *)
Definition asciiParts (parts : list string) : Prop :=
  Forall (λ part, text.isAscii part = true) parts.

(** The array [vals] of the column [column] is read from the part under the
    last column of that name, or is empty when the header has no such
    column. *)
Definition filledBy (extract : string → Z) (header parts : list string) (column : string)
    (vals : list Z) : Prop :=
  (∃ i value,
     header !! i = Some column ∧ (∀ j, i < j → header !! j ≠ Some column) ∧
     parts !! i = Some value ∧
     metrics.getInnerArray extract value = metrics.Returns vals) ∨
  (column ∉ header ∧ vals = []).

(** * Proofs *)

(** The secret types of row-wise execution are the clear types; arithmetic
    on lengths wants to see them as such. *)
Ltac clear_sec :=
  change (SecAdId false) with N in *;
  change (SecBit false) with bool in *.

(** ** The result monad *)

Lemma bind_Ok {A B} (f : A → result B) (m : result A) (b : B) :
  m ≫= f = Ok b ↔ ∃ a, m = Ok a ∧ f a = Ok b.
Proof.
  destruct m as [a|e]; simpl; split.
  - eauto.
  - by intros (a' & [= ->] & ?).
  - discriminate.
  - by intros (? & ? & _).
Qed.

Lemma bind_Ok_l {A B} (f : A → result B) (a : A) : Ok a ≫= f = f a.
Proof. done. Qed.

Lemma at_Ok {A} (v : list A) i x : at_ v i = Ok x ↔ v !! i = Some x.
Proof. unfold at_. destruct (v !! i); split; congruence. Qed.

Lemma at_lookup {A} (v : list A) i x : v !! i = Some x → at_ v i = Ok x.
Proof. apply at_Ok. Qed.

Lemma CHECK_EQ_Ok a b msg : CHECK_EQ a b msg = Ok tt ↔ a = b.
Proof. unfold CHECK_EQ. case_decide; split; congruence. Qed.

Lemma requirePositiveBatchSize_Ok usingBatch batchSize :
  requirePositiveBatchSize usingBatch batchSize = Ok tt ↔
  (usingBatch = true → batchSize ≠ 0%N).
Proof.
  unfold requirePositiveBatchSize. destruct usingBatch; [|naive_solver].
  destruct (N.eqb_spec batchSize 0); naive_solver.
Qed.

(** ** The loops compute the scan *)

Section LoopsAreScans.
Context {usingBatch : bool}.
Variable touchpoints : list (PrivateTouchpoint usingBatch).
Variable attributionRule : AttributionRule usingBatch.
Variable thresholds : list (list (SecTimestamp usingBatch)).
Variable batchSize : N.
Hypothesis same_length : length touchpoints = length thresholds.

Let bits := attributableBits touchpoints attributionRule thresholds.
Let bitsV2 := attributableBitsV2 touchpoints attributionRule thresholds.

Lemma length_attributableBits conv : length (bits conv) = length touchpoints.
Proof. unfold bits, attributableBits. rewrite length_zip_with. lia. Qed.

Lemma take_S_attributableBits conv i tp threshold :
  touchpoints !! i = Some tp → thresholds !! i = Some threshold →
  reverse (take (S i) (bits conv)) =
    isAttributable attributionRule tp conv threshold :: reverse (take i (bits conv)).
Proof.
  intros Htp Hth.
  rewrite (take_S_r _ _ (isAttributable attributionRule tp conv threshold)).
  - by rewrite reverse_snoc.
  - unfold bits, attributableBits. rewrite lookup_zip_with, Htp. simpl. by rewrite Hth.
Qed.

Lemma touchpointLoop_scan conv i has attributions :
  i ≤ length touchpoints →
  touchpointLoop touchpoints attributionRule thresholds conv i has attributions =
    let '(out, final) := scan (reverse (take i (bits conv))) has in
    Ok (final, attributions ++ out).
Proof.
  revert has attributions. induction i as [|i IH]; intros has attributions Hi.
  - simpl. by rewrite app_nil_r.
  - destruct (lookup_lt_is_Some_2 touchpoints i) as [tp Htp]; [lia|].
    destruct (lookup_lt_is_Some_2 thresholds i) as [th Hth]; [lia|].
    rewrite (take_S_attributableBits conv i tp th) by done.
    simpl. rewrite (at_lookup _ _ _ Htp), (at_lookup _ _ _ Hth). simpl.
    rewrite IH by lia.
    destruct (scan _ _) as [out final]. by rewrite <-app_assoc.
Qed.

Lemma take_S_attributableBitsV2 conv i tp threshold :
  touchpoints !! i = Some tp → thresholds !! i = Some threshold →
  reverse (take (S i) (bitsV2 conv)) =
    (isAttributable attributionRule tp conv threshold, ptp_adId tp)
      :: reverse (take i (bitsV2 conv)).
Proof.
  intros Htp Hth.
  rewrite (take_S_r _ _ (isAttributable attributionRule tp conv threshold, ptp_adId tp)).
  - by rewrite reverse_snoc.
  - unfold bitsV2, attributableBitsV2. rewrite lookup_zip_with, Htp. simpl. by rewrite Hth.
Qed.

Lemma touchpointLoopV2_scan conv i has adId :
  i ≤ length touchpoints →
  touchpointLoopV2 touchpoints attributionRule thresholds conv i has adId =
    Ok (scanV2 (reverse (take i (bitsV2 conv))) has adId).
Proof.
  revert has adId. induction i as [|i IH]; intros has adId Hi; [done|].
  destruct (lookup_lt_is_Some_2 touchpoints i) as [tp Htp]; [lia|].
  destruct (lookup_lt_is_Some_2 thresholds i) as [th Hth]; [lia|].
  rewrite (take_S_attributableBitsV2 conv i tp th) by done.
  simpl. rewrite (at_lookup _ _ _ Htp), (at_lookup _ _ _ Hth). simpl.
  by rewrite IH by lia.
Qed.

Lemma conversionLoop_scan reversed attributions :
  conversionLoop touchpoints attributionRule thresholds batchSize reversed attributions =
    Ok (attributions ++
        (reversed ≫= λ conv,
           (scan (reverse (bits conv)) (public_bit usingBatch batchSize false)).1)).
Proof.
  revert attributions. induction reversed as [|conv rest IH]; intros attributions.
  - simpl. by rewrite app_nil_r.
  - cbn [conversionLoop]. unfold CHECK_EQ. rewrite decide_True by done. simpl.
    rewrite touchpointLoop_scan by done.
    rewrite take_ge by (rewrite length_attributableBits; lia).
    destruct (scan _ _) as [out final]. simpl. rewrite IH.
    by rewrite <-app_assoc.
Qed.

Lemma conversionLoopV2_scan reversed output :
  conversionLoopV2 touchpoints attributionRule thresholds batchSize reversed output =
    Ok (output ++
        (attributionRecord touchpoints attributionRule thresholds batchSize <$> reversed)).
Proof.
  revert output. induction reversed as [|conv rest IH]; intros output.
  - simpl. by rewrite app_nil_r.
  - cbn [conversionLoopV2]. unfold CHECK_EQ. rewrite decide_True by done.
    rewrite bind_Ok_l, touchpointLoopV2_scan by done.
    rewrite take_ge
      by (unfold bitsV2, attributableBitsV2; rewrite length_zip_with; lia).
    rewrite fmap_cons, bind_Ok_l. unfold attributionRecord at 1. fold (bitsV2 conv).
    destruct (scanV2 _ _ _) as [has adId]. rewrite IH.
    by rewrite <-app_assoc.
Qed.

End LoopsAreScans.

Lemma reverse_bind {A B} (f : A → list B) (l : list A) :
  reverse (l ≫= f) = reverse l ≫= (λ x, reverse (f x)).
Proof.
  induction l as [|x l IH]; [done|].
  rewrite bind_cons, reverse_app, IH, reverse_cons, bind_app. simpl.
  by rewrite app_nil_r.
Qed.

(** The conversion loop fails on its first turn when the two arrays differ in
    length, whatever else it was given. *)
Lemma conversionLoop_mismatch {usingBatch} touchpoints
    (attributionRule : AttributionRule usingBatch) thresholds batchSize conv rest attributions :
  length touchpoints ≠ length thresholds →
  conversionLoop touchpoints attributionRule thresholds batchSize (conv :: rest) attributions =
    Err (check_failure "touchpoints and thresholds are not the same length.").
Proof. intros Hne. cbn [conversionLoop]. unfold CHECK_EQ. by rewrite decide_False. Qed.

Lemma conversionLoopV2_mismatch {usingBatch} touchpoints
    (attributionRule : AttributionRule usingBatch) thresholds batchSize conv rest output :
  length touchpoints ≠ length thresholds →
  conversionLoopV2 touchpoints attributionRule thresholds batchSize (conv :: rest) output =
    Err (check_failure "touchpoints and thresholds are not the same length.").
Proof. intros Hne. cbn [conversionLoopV2]. unfold CHECK_EQ. by rewrite decide_False. Qed.

(** *** What the two helpers return, and when *)

Lemma computeAttributionsHelper_Ok {usingBatch} touchpoints conversions
    (attributionRule : AttributionRule usingBatch) thresholds batchSize attributions :
  computeAttributionsHelper touchpoints conversions attributionRule thresholds batchSize
    = Ok attributions ↔
  (usingBatch = true → batchSize ≠ 0%N) ∧
  (conversions ≠ [] → length touchpoints = length thresholds) ∧
  attributions =
    conversions ≫= attributionRow touchpoints attributionRule thresholds batchSize.
Proof.
  unfold computeAttributionsHelper.
  destruct (requirePositiveBatchSize usingBatch batchSize) as [[]|e] eqn:Hbs; simpl.
  2:{ split; [done|]. intros (Hpos & _). apply requirePositiveBatchSize_Ok in Hpos.
      congruence. }
  pose proof (proj1 (requirePositiveBatchSize_Ok _ _) Hbs) as Hpos.
  destruct (decide (length touchpoints = length thresholds)) as [Hlen|Hlen].
  - rewrite conversionLoop_scan by done. simpl.
    rewrite reverse_bind, reverse_involutive. unfold attributionRow.
    split; [intros [= <-]|intros (_ & _ & ->)]; done.
  - destruct conversions as [|conv conversions _] using rev_ind.
    + simpl. split; [intros [= <-]|intros (_ & _ & ->)]; done.
    + rewrite reverse_snoc, conversionLoop_mismatch by done. simpl.
      split; [done|]. intros (_ & Hl & _). destruct Hlen. apply Hl.
      by destruct conversions.
Qed.

Lemma computeAttributionsHelperV2_Ok {usingBatch} touchpoints conversions
    (attributionRule : AttributionRule usingBatch) thresholds batchSize output :
  computeAttributionsHelperV2 touchpoints conversions attributionRule thresholds batchSize
    = Ok output ↔
  (usingBatch = true → batchSize ≠ 0%N) ∧
  (conversions ≠ [] → length touchpoints = length thresholds) ∧
  output = attributionRecord touchpoints attributionRule thresholds batchSize <$> conversions.
Proof.
  unfold computeAttributionsHelperV2.
  destruct (requirePositiveBatchSize usingBatch batchSize) as [[]|e] eqn:Hbs; simpl.
  2:{ split; [done|]. intros (Hpos & _). apply requirePositiveBatchSize_Ok in Hpos.
      congruence. }
  pose proof (proj1 (requirePositiveBatchSize_Ok _ _) Hbs) as Hpos.
  destruct (decide (length touchpoints = length thresholds)) as [Hlen|Hlen].
  - rewrite conversionLoopV2_scan by done. simpl.
    rewrite <-fmap_reverse, reverse_involutive.
    split; [intros [= <-]|intros (_ & _ & ->)]; done.
  - destruct conversions as [|conv conversions _] using rev_ind.
    + simpl. split; [intros [= <-]|intros (_ & _ & ->)]; done.
    + rewrite reverse_snoc, conversionLoopV2_mismatch by done. simpl.
      split; [done|]. intros (_ & Hl & _). destruct Hlen. apply Hl.
      by destruct conversions.
Qed.

Lemma scan_cons {usingBatch} (a : SecBit usingBatch) rest has :
  scan (a :: rest) has =
    (bit_and a (bit_not has) :: (scan rest (bit_or (bit_and a (bit_not has)) has)).1,
     (scan rest (bit_or (bit_and a (bit_not has)) has)).2).
Proof. simpl. by destruct (scan rest _). Qed.

(** ** Reading a batch row by row

    On values that carry one entry per row of the shard, every gate acts on
    row [r] as the boolean gate does. *)

Section Sized.
Context {usingBatch : bool}.
Variable batchSize : N.

Lemma sized_bit_and (a b : SecBit usingBatch) :
  sized usingBatch batchSize a → sized usingBatch batchSize b →
  sized usingBatch batchSize (bit_and a b).
Proof.
  destruct usingBatch; [|done]. simpl. intros Ha Hb.
  rewrite length_zip_with. lia.
Qed.

Lemma sized_bit_or (a b : SecBit usingBatch) :
  sized usingBatch batchSize a → sized usingBatch batchSize b →
  sized usingBatch batchSize (bit_or a b).
Proof.
  destruct usingBatch; [|done]. simpl. intros Ha Hb.
  rewrite length_zip_with. lia.
Qed.

Lemma sized_bit_not (a : SecBit usingBatch) :
  sized usingBatch batchSize a → sized usingBatch batchSize (bit_not a).
Proof. destruct usingBatch; [|done]. simpl. by rewrite length_fmap. Qed.

Lemma sized_adid_mux (self other : SecAdId usingBatch) (choice : SecBit usingBatch) :
  sized usingBatch batchSize self → sized usingBatch batchSize choice →
  sized usingBatch batchSize other →
  sized usingBatch batchSize (adid_mux self choice other).
Proof.
  destruct usingBatch; [|done]. simpl. intros Hs Hc Ho.
  rewrite length_zip_with, length_zip. lia.
Qed.

Lemma sized_public_bit b : sized usingBatch batchSize (public_bit usingBatch batchSize b).
Proof. destruct usingBatch; [|done]. simpl. by rewrite length_replicate. Qed.

Lemma sized_public_adid v : sized usingBatch batchSize (public_adid usingBatch batchSize v).
Proof. destruct usingBatch; [|done]. simpl. by rewrite length_replicate. Qed.

End Sized.

Section Rows.
Context {usingBatch : bool}.
Variable batchSize : N.
Variable r : nat.
Hypothesis row_ok : valid_row usingBatch batchSize r.

Lemma bit_row_and (a b : SecBit usingBatch) :
  sized usingBatch batchSize a → sized usingBatch batchSize b →
  bit_row r (bit_and a b) = bit_row r a && bit_row r b.
Proof.
  unfold bit_row. destruct usingBatch; [|done]. simpl in *. intros Ha Hb.
  destruct (lookup_lt_is_Some_2 a r) as [x Hx]; [lia|].
  destruct (lookup_lt_is_Some_2 b r) as [y Hy]; [lia|].
  by rewrite lookup_zip_with, Hx, Hy.
Qed.

Lemma bit_row_or (a b : SecBit usingBatch) :
  sized usingBatch batchSize a → sized usingBatch batchSize b →
  bit_row r (bit_or a b) = bit_row r a || bit_row r b.
Proof.
  unfold bit_row. destruct usingBatch; [|done]. simpl in *. intros Ha Hb.
  destruct (lookup_lt_is_Some_2 a r) as [x Hx]; [lia|].
  destruct (lookup_lt_is_Some_2 b r) as [y Hy]; [lia|].
  by rewrite lookup_zip_with, Hx, Hy.
Qed.

Lemma bit_row_not (a : SecBit usingBatch) :
  sized usingBatch batchSize a → bit_row r (bit_not a) = negb (bit_row r a).
Proof.
  unfold bit_row. destruct usingBatch; [|done]. simpl in *. intros Ha.
  destruct (lookup_lt_is_Some_2 a r) as [x Hx]; [lia|].
  by rewrite list_lookup_fmap, Hx.
Qed.

Lemma num_row_mux (self other : SecAdId usingBatch) (choice : SecBit usingBatch) :
  sized usingBatch batchSize self → sized usingBatch batchSize choice →
  sized usingBatch batchSize other →
  num_row r (adid_mux self choice other) =
    mux1 (num_row r self) (bit_row r choice) (num_row r other).
Proof.
  unfold num_row, bit_row. destruct usingBatch; [|done]. simpl in *. intros Hs Hc Ho.
  destruct (lookup_lt_is_Some_2 self r) as [x Hx]; [lia|].
  destruct (lookup_lt_is_Some_2 choice r) as [c Hc']; [lia|].
  destruct (lookup_lt_is_Some_2 other r) as [y Hy]; [lia|].
  rewrite lookup_zip_with, lookup_zip_with, Hx. simpl. by rewrite Hy, Hc'.
Qed.

Lemma bit_row_public b : bit_row r (public_bit usingBatch batchSize b) = b.
Proof.
  unfold bit_row. destruct usingBatch; [|done]. simpl in *.
  by rewrite lookup_replicate_2.
Qed.

Lemma num_row_public v : num_row r (public_adid usingBatch batchSize v) = v.
Proof.
  unfold num_row. destruct usingBatch; [|done]. simpl in *.
  by rewrite lookup_replicate_2.
Qed.

(** Row [r] of the scan is the boolean scan of row [r]. *)
Lemma scan_row (visited : list (SecBit usingBatch)) (has : SecBit usingBatch) :
  Forall (sized usingBatch batchSize) visited → sized usingBatch batchSize has →
  bit_row r <$> (scan visited has).1 =
    (scan (usingBatch:=false) (bit_row r <$> visited) (bit_row r has)).1 ∧
  bit_row r (scan visited has).2 =
    (scan (usingBatch:=false) (bit_row r <$> visited) (bit_row r has)).2.
Proof.
  intros Hv. revert has. induction Hv as [|a rest Ha _ IH]; intros has Hhas; [done|].
  rewrite fmap_cons, !scan_cons. cbn [fst snd].
  pose proof (sized_bit_not _ _ Hhas) as Hn.
  pose proof (sized_bit_and _ _ _ Ha Hn) as Hand.
  pose proof (sized_bit_or _ _ _ Hand Hhas) as Hor.
  destruct (IH _ Hor) as [IH1 IH2].
  rewrite bit_row_or, bit_row_and, bit_row_not in IH1, IH2 by done.
  rewrite fmap_cons, IH1, IH2, bit_row_and, bit_row_not by done.
  by rewrite (scan_cons (usingBatch:=false)).
Qed.

Lemma scanV2_row (visited : list (SecBit usingBatch * SecAdId usingBatch))
    (has : SecBit usingBatch) (adId : SecAdId usingBatch) :
  Forall (λ p, sized usingBatch batchSize p.1 ∧ sized usingBatch batchSize p.2) visited →
  sized usingBatch batchSize has → sized usingBatch batchSize adId →
  pair_row r (scanV2 visited has adId) =
    scanV2 (usingBatch:=false) (pair_row r <$> visited) (bit_row r has) (num_row r adId).
Proof.
  intros Hv. revert has adId.
  induction Hv as [|[a x] rest [Ha Hx] _ IH]; intros has adId Hhas Had; [done|].
  cbn [scanV2 fmap list_fmap]. simpl in Ha, Hx.
  pose proof (sized_bit_not _ _ Hhas) as Hn.
  pose proof (sized_bit_and _ _ _ Ha Hn) as Hand.
  pose proof (sized_bit_or _ _ _ Hand Hhas) as Hor.
  pose proof (sized_adid_mux _ _ _ _ Had Hand Hx) as Hmux.
  rewrite (IH _ _ Hor Hmux).
  rewrite bit_row_or, num_row_mux, bit_row_and, bit_row_not by done.
  done.
Qed.

End Rows.

(** ** The boolean scan

    With one bit per touchpoint, the scan marks the first [true] of the visit
    and nothing else. *)

Section BooleanScan.
Local Abbreviation bscan := (scan (usingBatch:=false)).
Local Abbreviation bscanV2 := (scanV2 (usingBatch:=false)).
Implicit Types (l : list bool) (has : bool).

Lemma bscan_cons (a : bool) l has :
  bscan (a :: l) has =
    (a && negb has :: (bscan l (a && negb has || has)).1,
     (bscan l (a && negb has || has)).2).
Proof. apply (scan_cons (usingBatch:=false)). Qed.

Lemma bscan_length l has : length (bscan l has).1 = length l.
Proof.
  revert has. induction l as [|a l IH]; intros has; [done|].
  rewrite bscan_cons. cbn [fst length]. by rewrite IH.
Qed.

Lemma bscan_saturated l :
  (bscan l true).1 = replicate (length l) false ∧ (bscan l true).2 = true.
Proof.
  induction l as [|a l [IH1 IH2]]; [done|].
  rewrite bscan_cons. cbn [fst snd negb length replicate].
  rewrite andb_false_r. cbn [orb]. by rewrite IH1, IH2.
Qed.

Lemma bscan_count l has : sum_list (Nat.b2n <$> (bscan l has).1) + Nat.b2n has ≤ 1.
Proof.
  revert has. induction l as [|a l IH]; intros has.
  - destruct has; simpl; lia.
  - rewrite bscan_cons. cbn [fst]. rewrite fmap_cons.
    change (sum_list (?x :: ?k)) with (x + sum_list k).
    specialize (IH (a && negb has || has)).
    destruct a, has; cbn [andb orb negb Nat.b2n] in *; lia.
Qed.

Lemma bscan_final l has : (bscan l has).2 = has || foldr orb false l.
Proof.
  revert has. induction l as [|a l IH]; intros has.
  - simpl. by rewrite orb_false_r.
  - rewrite bscan_cons. cbn [snd foldr]. rewrite IH.
    by destruct a, has.
Qed.

Lemma bscan_or l has :
  (bscan l has).2 = has || foldr orb false (bscan l has).1.
Proof.
  revert has. induction l as [|a l IH]; intros has.
  - simpl. by rewrite orb_false_r.
  - rewrite bscan_cons. cbn [fst snd foldr]. rewrite IH.
    by destruct a, has.
Qed.

Lemma bscan_lookup l has k :
  (bscan l has).1 !! k = Some true ↔
  has = false ∧ l !! k = Some true ∧ ∀ k', k' < k → l !! k' = Some false.
Proof.
  revert has k. induction l as [|a l IH]; intros has k.
  - cbn [scan fst]. rewrite lookup_nil. naive_solver.
  - rewrite bscan_cons. cbn [fst]. destruct k as [|k].
    + cbn [lookup list_lookup].
      destruct a, has; cbn [andb negb]; split; try naive_solver lia.
    + cbn [lookup list_lookup]. rewrite IH. split.
      * intros (Hor & Hk & Hbefore).
        destruct a, has; cbn [andb orb negb] in Hor; try done.
        split; [done|]. split; [done|]. intros [|k'] ?; [done|].
        cbn [lookup list_lookup]. apply Hbefore. lia.
      * intros (-> & Hk & Hbefore).
        pose proof (Hbefore 0 ltac:(lia)) as H0. injection H0 as ->.
        split; [done|]. split; [done|]. intros k' ?.
        apply (Hbefore (S k')). lia.
Qed.

Lemma bscanV2_cons (a : bool) (x : N) (l : list (bool * N)) has adId :
  bscanV2 ((a, x) :: l) has adId =
    bscanV2 l (a && negb has || has) (mux1 adId (a && negb has) x).
Proof. done. Qed.

Lemma bscanV2_has (l : list (bool * N)) has adId :
  (bscanV2 l has adId).1 = (bscan l.*1 has).2.
Proof.
  revert has adId. induction l as [|[a x] l IH]; intros has adId; [done|].
  rewrite fmap_cons, bscan_cons, bscanV2_cons. cbn [snd fst]. by rewrite IH.
Qed.

Lemma bscanV2_saturated (l : list (bool * N)) adId : (bscanV2 l true adId).2 = adId.
Proof.
  revert adId. induction l as [|[a x] l IH]; intros adId; [done|].
  rewrite bscanV2_cons. cbn [negb]. rewrite andb_false_r. cbn [orb mux1].
  by rewrite IH.
Qed.

(** The ad id carried out of the scan is that of the marked entry. *)
Lemma bscanV2_selected (l : list (bool * N)) has adId k a x :
  (bscan l.*1 has).1 !! k = Some true → l !! k = Some (a, x) →
  (bscanV2 l has adId).2 = x.
Proof.
  revert has adId k. induction l as [|[a' x'] l IH]; intros has adId k; [done|].
  rewrite fmap_cons, bscan_cons, bscanV2_cons. cbn [fst]. destruct k as [|k].
  - intros [= Hand] [= -> ->]. rewrite Hand. cbn [orb mux1].
    apply bscanV2_saturated.
  - cbn [lookup list_lookup]. apply IH.
Qed.

(** Nothing marked: the ad id is the one the scan started from. *)
Lemma bscanV2_unselected (l : list (bool * N)) has adId :
  (∀ k, (bscan l.*1 has).1 !! k ≠ Some true) →
  (bscanV2 l has adId).2 = adId.
Proof.
  revert has adId. induction l as [|[a' x'] l IH]; intros has adId Hnone; [done|].
  rewrite fmap_cons, bscan_cons in Hnone. cbn [fst] in Hnone.
  rewrite bscanV2_cons.
  pose proof (Hnone 0) as H0. cbn in H0.
  destruct (a' && negb has) eqn:Hand; [done|]. cbn [mux1].
  apply IH. intros k. apply (Hnone (S k)).
Qed.

(** Not attributed at the end: the ad id never moved. *)
Lemma bscanV2_unattributed (l : list (bool * N)) has adId :
  (bscanV2 l has adId).1 = false → (bscanV2 l has adId).2 = adId.
Proof.
  revert has adId. induction l as [|[a' x'] l IH]; intros has adId; [done|].
  rewrite bscanV2_cons. intros Hfinal. rewrite IH by done.
  rewrite bscanV2_has, bscan_final in Hfinal.
  by destruct a', has.
Qed.

End BooleanScan.

(** ** From the scan to the output of the helpers *)

Lemma scan_length {usingBatch} (l : list (SecBit usingBatch)) has :
  length (scan l has).1 = length l.
Proof.
  revert has. induction l as [|a l IH]; intros has; [done|].
  rewrite scan_cons. cbn [fst length]. by rewrite IH.
Qed.

Lemma foldr_orb_true (l : list bool) :
  foldr orb false l = true ↔ ∃ k, l !! k = Some true.
Proof.
  induction l as [|a l IH]; simpl.
  - split; [done|]. by intros [k ?].
  - rewrite orb_true_iff, IH. split.
    + intros [->|[k Hk]]; [by exists 0|by exists (S k)].
    + intros [[|k] Hk]; simpl in Hk; [left; congruence|right; eauto].
Qed.

(** A list made of blocks of one length: block [j] starts at [j * n]. *)
Section Blocks.
Context {A B : Type} (f : A → list B) (n : nat).

Lemma bind_blocks_drop (l : list A) j :
  Forall (λ x, length (f x) = n) l →
  drop (j * n) (l ≫= f) = drop j l ≫= f.
Proof.
  intros Hl. revert j. induction Hl as [|x l Hx _ IH]; intros j.
  - change ([] ≫= f) with (@nil B). by rewrite !drop_nil.
  - destruct j as [|j]; [done|].
    rewrite bind_cons. cbn [drop]. rewrite <-IH.
    replace (S j * n) with (length (f x) + j * n) by lia.
    by rewrite drop_app_add.
Qed.

Lemma bind_blocks_take (l : list A) j x :
  Forall (λ x, length (f x) = n) l → l !! j = Some x →
  take n (drop (j * n) (l ≫= f)) = f x.
Proof.
  intros Hl Hj. rewrite bind_blocks_drop by done.
  rewrite (drop_S _ _ _ Hj), bind_cons.
  rewrite Forall_lookup in Hl. rewrite take_app_length'; [done|].
  symmetry. by eapply Hl.
Qed.

Lemma bind_blocks_lookup (l : list A) j i x :
  Forall (λ x, length (f x) = n) l → l !! j = Some x → i < n →
  (l ≫= f) !! (j * n + i) = f x !! i.
Proof.
  intros Hl Hj Hi. rewrite <-lookup_drop, <-(lookup_take_lt _ n) by done.
  by rewrite (bind_blocks_take _ _ x).
Qed.

Lemma bind_blocks_length (l : list A) :
  Forall (λ x, length (f x) = n) l → length (l ≫= f) = length l * n.
Proof.
  induction 1 as [|x l Hx _ IH]; [done|].
  rewrite bind_cons, length_app, IH, Hx. simpl. lia.
Qed.
End Blocks.

Section Output.
Context {usingBatch : bool}.
Variable touchpoints : list (PrivateTouchpoint usingBatch).
Variable attributionRule : AttributionRule usingBatch.
Variable thresholds : list (list (SecTimestamp usingBatch)).
Variable batchSize : N.
Variable r : nat.
Hypothesis same_length : length touchpoints = length thresholds.
Hypothesis row_ok : valid_row usingBatch batchSize r.

Lemma length_rowBits conv : length (rowBits touchpoints attributionRule thresholds r conv) = length touchpoints.
Proof. unfold rowBits. by rewrite length_fmap, length_attributableBits. Qed.

Lemma length_attributionRow conv :
  length (attributionRow touchpoints attributionRule thresholds batchSize conv)
    = length touchpoints.
Proof.
  unfold attributionRow.
  by rewrite length_reverse, scan_length, length_reverse, length_attributableBits.
Qed.

Lemma rowBits_lookup conv i :
  rowBits touchpoints attributionRule thresholds r conv !! i = Some true ↔
  attributableAt touchpoints attributionRule thresholds conv r i.
Proof.
  unfold rowBits, attributableAt, attributableBits.
  rewrite list_lookup_fmap, fmap_Some. split.
  - intros (b & Hb & Hr). apply lookup_zip_with_Some in Hb as (tp & th & -> & ? & ?).
    eauto.
  - intros (tp & th & Htp & Hth & Hr).
    exists (isAttributable attributionRule tp conv th). split; [|done].
    apply lookup_zip_with_Some. eauto.
Qed.

Lemma attributionRow_row conv :
  Forall (sized usingBatch batchSize)
    (attributableBits touchpoints attributionRule thresholds conv) →
  bit_row r <$> attributionRow touchpoints attributionRule thresholds batchSize conv =
    reverse (scan (usingBatch:=false) (reverse (rowBits touchpoints attributionRule thresholds r conv)) false).1.
Proof.
  intros Hsized. unfold attributionRow, rowBits.
  rewrite fmap_reverse.
  destruct (scan_row batchSize r row_ok
              (reverse (attributableBits touchpoints attributionRule thresholds conv))
              (public_bit usingBatch batchSize false)) as [-> _].
  - by apply Forall_reverse.
  - apply sized_public_bit.
  - by rewrite fmap_reverse, bit_row_public.
Qed.

End Output.

(** The first [true] of the reversed list is the last [true] of the list. *)
Lemma last_true_lookup (rb : list bool) i :
  i < length rb →
  reverse (scan (usingBatch:=false) (reverse rb) false).1 !! i = Some true ↔
  rb !! i = Some true ∧ ∀ i', i < i' → i' < length rb → rb !! i' = Some false.
Proof.
  intros Hi.
  rewrite reverse_lookup by (rewrite bscan_length, length_reverse; lia).
  rewrite bscan_length, length_reverse, bscan_lookup.
  rewrite reverse_lookup by lia.
  replace (length rb - S (length rb - S i)) with i by lia.
  split.
  - intros (_ & Hi' & Hbefore). split; [done|]. intros i' ? ?.
    specialize (Hbefore (length rb - S i') ltac:(lia)).
    rewrite reverse_lookup in Hbefore by lia.
    by replace (length rb - S (length rb - S i')) with i' in Hbefore by lia.
  - intros (Hi' & Hafter). split; [done|]. split; [done|]. intros k ?.
    rewrite reverse_lookup by lia. apply Hafter; lia.
Qed.

(** What an accepted call tells about its arguments and its result, for the
    row of one conversion. *)
Lemma helper_accepted {usingBatch} touchpoints conversions
    (attributionRule : AttributionRule usingBatch) thresholds batchSize attributions j conv :
  computeAttributionsHelper touchpoints conversions attributionRule thresholds batchSize
    = Ok attributions →
  conversions !! j = Some conv →
  length touchpoints = length thresholds ∧
  conversionBits (length touchpoints) j attributions =
    attributionRow touchpoints attributionRule thresholds batchSize conv ∧
  ∀ i, i < length touchpoints →
    attributions !! (j * length touchpoints + i) =
      attributionRow touchpoints attributionRule thresholds batchSize conv !! i.
Proof.
  intros (_ & Hlen & ->)%computeAttributionsHelper_Ok Hj.
  assert (length touchpoints = length thresholds) as Hsame.
  { apply Hlen. intros ->. by rewrite lookup_nil in Hj. }
  assert (Forall (λ c, length (attributionRow touchpoints attributionRule thresholds
                                 batchSize c) = length touchpoints) conversions) as Hblocks.
  { apply Forall_forall. intros c _. by apply length_attributionRow. }
  split; [done|]. split.
  - unfold conversionBits. by apply bind_blocks_take.
  - intros i Hi. by apply bind_blocks_lookup.
Qed.

(** ** The claims on the matching engine *)

(** C1.  At most one attribution: whenever computeAttributionsHelper accepts
    its arguments, then for every conversion [j] and in every row [r] of the
    shard, the bits computed for the touchpoints against that conversion sum
    to at most 1.  (In batch mode the rule is taken to answer with one bit
    per row of the shard.) *)
Theorem at_most_one_attribution {usingBatch} touchpoints conversions
    (attributionRule : AttributionRule usingBatch) thresholds batchSize attributions r j :
  computeAttributionsHelper touchpoints conversions attributionRule thresholds batchSize
    = Ok attributions →
  ruleSized touchpoints conversions attributionRule thresholds batchSize →
  valid_row usingBatch batchSize r →
  j < length conversions →
  attributedCount r (conversionBits (length touchpoints) j attributions) ≤ 1.
Proof.
  intros Hok Hrule Hrow Hj.
  destruct (lookup_lt_is_Some_2 conversions j Hj) as [conv Hconv].
  destruct (helper_accepted _ _ _ _ _ _ _ _ Hok Hconv) as (Hsame & -> & _).
  unfold attributedCount.
  rewrite (attributionRow_row _ _ _ _ r Hrow)
    by apply (Forall_lookup_1 _ _ _ _ Hrule Hconv).
  rewrite fmap_reverse, sum_list_with_reverse.
  pose proof (bscan_count (reverse (rowBits touchpoints attributionRule thresholds r conv))
                false) as Hcount.
  cbn [Nat.b2n] in Hcount. by rewrite Nat.add_0_r in Hcount.
Qed.

Lemma at_most_one_attribution_witness :
  attributedCount 0
    (conversionBits (usingBatch:=false) (length sampleTouchpoints) 1
       [false; false; false; false; false; false; true; false]) ≤ 1 ∧
  attributedCount 1
    (conversionBits (usingBatch:=true) (length sampleBatchTouchpoints) 0
       [[false; false]; [true; false]]) ≤ 1.
Proof.
  split.
  - apply (at_most_one_attribution sampleTouchpoints sampleConversions sampleLastTouch
             sampleThresholds 0%N).
    + reflexivity.
    + repeat constructor.
    + exact I.
    + simpl. lia.
  - apply (at_most_one_attribution sampleBatchTouchpoints sampleBatchConversions
             sampleLastTouchBatch sampleBatchThresholds 2%N).
    + reflexivity.
    + repeat constructor.
    + simpl. lia.
    + simpl. lia.
Defined.

Lemma last_true_exists (rb : list bool) :
  (∃ i, rb !! i = Some true) →
  ∃ i, i < length rb ∧
    reverse (scan (usingBatch:=false) (reverse rb) false).1 !! i = Some true.
Proof.
  intros [i Hi].
  pose proof (bscan_or (reverse rb) false) as Hor.
  rewrite bscan_final in Hor. cbn [orb] in Hor.
  assert (foldr orb false (reverse rb) = true) as Htrue.
  { apply foldr_orb_true. exists (length rb - S i).
    pose proof (lookup_lt_Some _ _ _ Hi).
    rewrite reverse_lookup by lia.
    by replace (length rb - S (length rb - S i)) with i by lia. }
  rewrite Htrue in Hor. symmetry in Hor.
  apply foldr_orb_true in Hor as [k Hk].
  pose proof (lookup_lt_Some _ _ _ Hk) as Hlt.
  rewrite bscan_length, length_reverse in Hlt.
  exists (length rb - S k). split; [lia|].
  rewrite reverse_lookup by (rewrite bscan_length, length_reverse; lia).
  rewrite bscan_length, length_reverse.
  by replace (length rb - S (length rb - S k)) with k by lia.
Qed.

(** The bit of touchpoint [i] for conversion [j], read in row [r]. *)
Lemma attributedAt_row {usingBatch} touchpoints conversions
    (attributionRule : AttributionRule usingBatch) thresholds batchSize attributions
    r j conv i :
  computeAttributionsHelper touchpoints conversions attributionRule thresholds batchSize
    = Ok attributions →
  ruleSized touchpoints conversions attributionRule thresholds batchSize →
  valid_row usingBatch batchSize r →
  conversions !! j = Some conv → i < length touchpoints →
  bit_row r <$> attributions !! (j * length touchpoints + i) =
    reverse (scan (usingBatch:=false)
               (reverse (rowBits touchpoints attributionRule thresholds r conv)) false).1
      !! i.
Proof.
  intros Hok Hrule Hrow Hconv Hi.
  destruct (helper_accepted _ _ _ _ _ _ _ _ Hok Hconv) as (Hsame & _ & Hlookup).
  rewrite Hlookup, <-list_lookup_fmap by done.
  by rewrite (attributionRow_row _ _ _ _ r Hrow)
    by apply (Forall_lookup_1 _ _ _ _ Hrule Hconv).
Qed.

(** Which touchpoint carries the bit: the last one, in array order, that the
    rule accepts. *)
Lemma attributedAt_iff {usingBatch} touchpoints conversions
    (attributionRule : AttributionRule usingBatch) thresholds batchSize attributions
    r j conv i :
  computeAttributionsHelper touchpoints conversions attributionRule thresholds batchSize
    = Ok attributions →
  ruleSized touchpoints conversions attributionRule thresholds batchSize →
  valid_row usingBatch batchSize r →
  conversions !! j = Some conv → i < length touchpoints →
  attributedAt (length touchpoints) attributions r j i ↔
  attributableAt touchpoints attributionRule thresholds conv r i ∧
  ∀ i', i < i' → ¬ attributableAt touchpoints attributionRule thresholds conv r i'.
Proof.
  intros Hok Hrule Hrow Hconv Hi.
  destruct (helper_accepted _ _ _ _ _ _ _ _ Hok Hconv) as (Hsame & _ & _).
  set (rb := rowBits touchpoints attributionRule thresholds r conv).
  assert (length rb = length touchpoints) as Hrb by by apply length_rowBits.
  unfold attributedAt.
  rewrite (attributedAt_row _ _ _ _ _ _ _ _ _ _ Hok Hrule Hrow Hconv Hi).
  fold rb. rewrite last_true_lookup by lia. unfold rb.
  rewrite rowBits_lookup. split; intros [Hin Hafter]; (split; [done|]).
  - intros i' Hlt Hacc. pose proof Hacc as (tp & _ & Htp & _).
    apply lookup_lt_Some in Htp. apply rowBits_lookup in Hacc.
    rewrite Hafter in Hacc; [done|lia|fold rb; lia].
  - intros i' Hlt Hlen.
    destruct (lookup_lt_is_Some_2 (rowBits touchpoints attributionRule thresholds r conv) i')
      as [[] Hb]; [done| |done].
    apply rowBits_lookup in Hb. by destruct (Hafter i' Hlt).
Qed.

Lemma attributedAt_unique {usingBatch} touchpoints conversions
    (attributionRule : AttributionRule usingBatch) thresholds batchSize attributions
    r j i1 i2 :
  computeAttributionsHelper touchpoints conversions attributionRule thresholds batchSize
    = Ok attributions →
  ruleSized touchpoints conversions attributionRule thresholds batchSize →
  valid_row usingBatch batchSize r →
  j < length conversions → i1 < length touchpoints → i2 < length touchpoints →
  attributedAt (length touchpoints) attributions r j i1 →
  attributedAt (length touchpoints) attributions r j i2 →
  i1 = i2.
Proof.
  intros Hok Hrule Hrow Hj H1 H2.
  destruct (lookup_lt_is_Some_2 conversions j Hj) as [conv Hconv].
  rewrite !(attributedAt_iff _ _ _ _ _ _ _ _ conv _ Hok Hrule Hrow Hconv) by done.
  intros [Hacc1 Hafter1] [Hacc2 Hafter2].
  destruct (Nat.lt_trichotomy i1 i2) as [Hlt|[->|Hlt]]; [|done|].
  - by destruct (Hafter1 i2 Hlt).
  - by destruct (Hafter2 i1 Hlt).
Qed.

(** C2.  Last-touch selection: for a conversion [j] and a row [r], touchpoint
    [i] is attributed exactly when the rule accepts it and accepts no
    touchpoint after it, the touchpoint visited first in the reverse scan; if
    the rule accepts any touchpoint, one is attributed; and when the accepted
    touchpoints are in ascending order of timestamp, the attributed one
    carries the largest timestamp among them while every other accepted
    touchpoint gets the bit [false]. *)
Theorem last_touch_selection {usingBatch} touchpoints conversions
    (attributionRule : AttributionRule usingBatch) thresholds batchSize attributions
    r j conv :
  computeAttributionsHelper touchpoints conversions attributionRule thresholds batchSize
    = Ok attributions →
  ruleSized touchpoints conversions attributionRule thresholds batchSize →
  valid_row usingBatch batchSize r →
  conversions !! j = Some conv →
  (∀ i, i < length touchpoints →
     attributedAt (length touchpoints) attributions r j i ↔
     attributableAt touchpoints attributionRule thresholds conv r i ∧
     ∀ i', i < i' → ¬ attributableAt touchpoints attributionRule thresholds conv r i') ∧
  ((∃ i, attributableAt touchpoints attributionRule thresholds conv r i) →
   ∃ i, i < length touchpoints ∧ attributedAt (length touchpoints) attributions r j i) ∧
  (attributableAscending touchpoints attributionRule thresholds conv r →
   ∀ i tp, i < length touchpoints → touchpoints !! i = Some tp →
     attributedAt (length touchpoints) attributions r j i →
     ∀ i' tp', touchpoints !! i' = Some tp' →
       attributableAt touchpoints attributionRule thresholds conv r i' →
       (num_row r (ptp_ts tp') ≤ num_row r (ptp_ts tp))%N ∧
       (i' ≠ i →
        bit_row r <$> attributions !! (j * length touchpoints + i') = Some false)).
Proof.
  intros Hok Hrule Hrow Hconv.
  destruct (helper_accepted _ _ _ _ _ _ _ _ Hok Hconv) as (Hsame & _ & _).
  set (rb := rowBits touchpoints attributionRule thresholds r conv).
  assert (length rb = length touchpoints) as Hrb by by apply length_rowBits.
  pose proof (λ i, attributedAt_iff _ _ _ _ _ _ r j conv i Hok Hrule Hrow Hconv) as Hiff.
  split; [done|]. split.
  - intros [i Hacc]. apply rowBits_lookup in Hacc.
    destruct (last_true_exists _ (ex_intro _ i Hacc)) as (i0 & Hi0 & Hattr).
    fold rb in Hi0. exists i0. split; [lia|]. unfold attributedAt.
    by rewrite (attributedAt_row _ _ _ _ _ _ _ _ _ _ Hok Hrule Hrow Hconv) by lia.
  - intros Hasc i tp Hi Htp Hattr i' tp' Htp' Hacc'.
    apply Hiff in Hattr as [Hacc Hafter]; [|done].
    assert (i' ≤ i) as Hle.
    { destruct (decide (i' ≤ i)); [done|]. destruct (Hafter i'); [lia|done]. }
    split; [by eapply Hasc|].
    intros Hne. pose proof (lookup_lt_Some _ _ _ Htp') as Hi'.
    destruct (bit_row r <$> attributions !! (j * length touchpoints + i')) as [[]|] eqn:Hbit.
    + apply Hiff in Hbit as [_ Hafter']; [|done]. destruct (Hafter' i); [lia|done].
    + done.
    + rewrite (attributedAt_row _ _ _ _ _ _ _ _ _ _ Hok Hrule Hrow Hconv Hi') in Hbit.
      apply lookup_ge_None in Hbit.
      rewrite length_reverse, bscan_length, length_reverse in Hbit. fold rb in Hbit. lia.
Qed.

Lemma last_touch_selection_witness :
  attributedAt (usingBatch:=false) (length sampleTouchpoints)
    [false; false; false; false; false; false; true; false] 0 1 2.
Proof.
  destruct (last_touch_selection sampleTouchpoints sampleConversions sampleLastTouch
              sampleThresholds 0%N
              [false; false; false; false; false; false; true; false] 0 1
              (rowConversion 350 5)) as (Hiff & _ & _).
  - reflexivity.
  - repeat constructor.
  - exact I.
  - reflexivity.
  - apply Hiff; [simpl; lia|]. split.
    + exists (rowTouchpoint 300 9 false), [86700%N]. repeat split.
    + intros i' Hlt (tp & threshold & Htp & Hth & Hbit).
      destruct i' as [|[|[|[|i']]]]; try lia; simpl in Htp, Hth.
      * injection Htp as <-. injection Hth as <-. discriminate Hbit.
      * discriminate Htp.
Defined.

(** ** The reformatted output *)

Section OutputV2.
Context {usingBatch : bool}.
Variable touchpoints : list (PrivateTouchpoint usingBatch).
Variable attributionRule : AttributionRule usingBatch.
Variable thresholds : list (list (SecTimestamp usingBatch)).
Variable batchSize : N.
Variable r : nat.
Hypothesis row_ok : valid_row usingBatch batchSize r.
Hypothesis adIds_ok : adIdsSized touchpoints batchSize.

Lemma rowPairs_fst conv :
  (rowPairs touchpoints attributionRule thresholds r conv).*1 = rowBits touchpoints attributionRule thresholds r conv.
Proof.
  unfold rowPairs, rowBits, attributableBitsV2, attributableBits.
  apply list_eq. intros i. rewrite !list_lookup_fmap, !lookup_zip_with.
  by destruct (touchpoints !! i), (thresholds !! i).
Qed.

Lemma rowPairs_lookup conv i tp :
  i < length thresholds → touchpoints !! i = Some tp →
  ∃ b, rowPairs touchpoints attributionRule thresholds r conv !! i = Some (b, num_row r (ptp_adId tp)).
Proof.
  intros Hi Htp. destruct (lookup_lt_is_Some_2 thresholds i Hi) as [th Hth].
  exists (bit_row r (isAttributable attributionRule tp conv th)).
  unfold rowPairs, attributableBitsV2.
  rewrite list_lookup_fmap, lookup_zip_with, Htp. simpl. by rewrite Hth.
Qed.

Lemma attributableBitsV2_sized conv :
  Forall (sized usingBatch batchSize)
    (attributableBits touchpoints attributionRule thresholds conv) →
  Forall (λ p, sized usingBatch batchSize p.1 ∧ sized usingBatch batchSize p.2)
    (attributableBitsV2 touchpoints attributionRule thresholds conv).
Proof.
  intros Hbits. apply Forall_lookup. intros i [b x]. unfold attributableBitsV2.
  rewrite lookup_zip_with_Some. intros (tp & th & [= -> ->] & Htp & Hth). split.
  - eapply (Forall_lookup_1 _ _ i _ Hbits). unfold attributableBits.
    apply lookup_zip_with_Some. eauto.
  - apply (Forall_lookup_1 _ _ _ _ adIds_ok Htp).
Qed.

Lemma attributionRecord_row conv :
  Forall (sized usingBatch batchSize)
    (attributableBits touchpoints attributionRule thresholds conv) →
  let rec := attributionRecord touchpoints attributionRule thresholds batchSize conv in
  (bit_row r (is_attributed rec), num_row r (ad_id rec)) =
    scanV2 (usingBatch:=false) (reverse (rowPairs touchpoints attributionRule thresholds r conv)) false 0%N.
Proof.
  intros Hbits. cbn zeta. unfold attributionRecord, rowPairs.
  pose proof (scanV2_row batchSize r row_ok
    (reverse (attributableBitsV2 touchpoints attributionRule thresholds conv))
    (public_bit usingBatch batchSize false) (public_adid usingBatch batchSize 0%N)) as Hrow.
  rewrite fmap_reverse, bit_row_public, num_row_public in Hrow by done.
  rewrite <-Hrow.
  - by destruct (scanV2 _ _ _).
  - by apply Forall_reverse, attributableBitsV2_sized.
  - apply sized_public_bit.
  - apply sized_public_adid.
Qed.

End OutputV2.

Lemma foldr_orb_reverse (l : list bool) :
  foldr orb false (reverse l) = foldr orb false l.
Proof.
  apply eq_true_iff_eq. rewrite !foldr_orb_true. split; intros [k Hk].
  - pose proof (lookup_lt_Some _ _ _ Hk) as Hlt. rewrite length_reverse in Hlt.
    rewrite reverse_lookup in Hk by done. eauto.
  - pose proof (lookup_lt_Some _ _ _ Hk) as Hlt. exists (length l - S k).
    rewrite reverse_lookup by lia.
    by replace (length l - S (length l - S k)) with k by lia.
Qed.

(** The record of conversion [j] in an accepted call of V2. *)
Lemma helperV2_accepted {usingBatch} touchpoints conversions
    (attributionRule : AttributionRule usingBatch) thresholds batchSize output j rec :
  computeAttributionsHelperV2 touchpoints conversions attributionRule thresholds batchSize
    = Ok output →
  output !! j = Some rec →
  length touchpoints = length thresholds ∧
  ∃ conv, conversions !! j = Some conv ∧
    rec = attributionRecord touchpoints attributionRule thresholds batchSize conv.
Proof.
  intros (_ & Hlen & ->)%computeAttributionsHelperV2_Ok Hj.
  apply list_lookup_fmap_Some in Hj as (conv & -> & Hconv).
  split; [|eauto]. apply Hlen. intros ->. by rewrite lookup_nil in Hconv.
Qed.

(** The two helpers accept the same arguments. *)
Lemma helpers_accept_alike {usingBatch} touchpoints conversions
    (attributionRule : AttributionRule usingBatch) thresholds batchSize :
  is_ok (computeAttributionsHelper touchpoints conversions attributionRule thresholds
           batchSize) =
  is_ok (computeAttributionsHelperV2 touchpoints conversions attributionRule thresholds
           batchSize).
Proof.
  destruct (computeAttributionsHelper _ _ _ _ _) as [atts|e] eqn:H1,
           (computeAttributionsHelperV2 _ _ _ _ _) as [recs|e'] eqn:H2; try done.
  - apply computeAttributionsHelper_Ok in H1 as (Hpos & Hlen & _).
    assert (computeAttributionsHelperV2 touchpoints conversions attributionRule thresholds
              batchSize = Ok (attributionRecord touchpoints attributionRule thresholds
                                batchSize <$> conversions)) as Hother
      by by apply computeAttributionsHelperV2_Ok.
    congruence.
  - apply computeAttributionsHelperV2_Ok in H2 as (Hpos & Hlen & _).
    assert (computeAttributionsHelper touchpoints conversions attributionRule thresholds
              batchSize = Ok (conversions ≫= attributionRow touchpoints attributionRule
                                thresholds batchSize)) as Hother
      by by apply computeAttributionsHelper_Ok.
    congruence.
Qed.

(** C3.  The two output formats agree: whenever V1 returns its bits, V2
    returns one record per conversion, and in every row [r] the record of
    conversion [j] has [is_attributed] equal to the disjunction of the bits V1
    computed for [j], and [ad_id] equal to the ad id of the touchpoint whose
    bit is set (there is at most one), or to 0 when no bit is set. *)
Theorem formats_agree {usingBatch} touchpoints conversions
    (attributionRule : AttributionRule usingBatch) thresholds batchSize attributions r :
  computeAttributionsHelper touchpoints conversions attributionRule thresholds batchSize
    = Ok attributions →
  ruleSized touchpoints conversions attributionRule thresholds batchSize →
  adIdsSized touchpoints batchSize →
  valid_row usingBatch batchSize r →
  ∃ output,
    computeAttributionsHelperV2 touchpoints conversions attributionRule thresholds batchSize
      = Ok output ∧
    length output = length conversions ∧
    ∀ j rec, output !! j = Some rec →
      bit_row r (is_attributed rec) =
        foldr orb false (bit_row r <$> conversionBits (length touchpoints) j attributions) ∧
      (∀ i1 i2, i1 < length touchpoints → i2 < length touchpoints →
         attributedAt (length touchpoints) attributions r j i1 →
         attributedAt (length touchpoints) attributions r j i2 → i1 = i2) ∧
      (∀ i tp, touchpoints !! i = Some tp →
         attributedAt (length touchpoints) attributions r j i →
         num_row r (ad_id rec) = num_row r (ptp_adId tp)) ∧
      ((∀ i, i < length touchpoints →
          ¬ attributedAt (length touchpoints) attributions r j i) →
       num_row r (ad_id rec) = 0%N).
Proof.
  intros Hok Hrule HadIds Hrow.
  pose proof (helpers_accept_alike touchpoints conversions attributionRule thresholds
                batchSize) as Halike.
  rewrite Hok in Halike.
  destruct (computeAttributionsHelperV2 _ _ _ _ _) as [output|] eqn:HV2; [|done].
  exists output. split; [done|]. split.
  { apply computeAttributionsHelperV2_Ok in HV2 as (_ & _ & ->). by rewrite length_fmap. }
  intros j rec Hrec.
  destruct (helperV2_accepted _ _ _ _ _ _ _ _ HV2 Hrec) as (Hsame & conv & Hconv & ->).
  destruct (helper_accepted _ _ _ _ _ _ _ _ Hok Hconv) as (_ & Hbits & _).
  pose proof (Forall_lookup_1 _ _ _ _ Hrule Hconv) as Hsized.
  pose proof (attributionRecord_row touchpoints attributionRule thresholds batchSize r
                Hrow HadIds conv Hsized) as Hpair.
  cbn zeta in Hpair.
  set (rb := rowBits touchpoints attributionRule thresholds r conv).
  set (rp := rowPairs touchpoints attributionRule thresholds r conv) in *.
  assert (rp.*1 = rb) as Hfst by apply rowPairs_fst.
  assert (length rb = length touchpoints) as Hrb by by apply length_rowBits.
  assert (∀ i, i < length touchpoints →
            attributedAt (length touchpoints) attributions r j i ↔
            (scan (usingBatch:=false) (reverse rp).*1 false).1 !! (length rb - S i)
              = Some true) as Hat.
  { intros i Hi. unfold attributedAt.
    rewrite (attributedAt_row _ _ _ _ _ _ _ _ _ _ Hok Hrule Hrow Hconv Hi). fold rb.
    rewrite reverse_lookup by (rewrite bscan_length, length_reverse; lia).
    by rewrite bscan_length, length_reverse, fmap_reverse, Hfst. }
  apply (f_equal fst) in Hpair as Hhas. apply (f_equal snd) in Hpair as Had.
  cbn [fst snd] in Hhas, Had. rewrite Hhas, Had. clear Hpair Hhas Had.
  split; [|split; [|split]].
  - rewrite bscanV2_has, bscan_or. cbn [orb].
    rewrite Hbits, (attributionRow_row _ _ _ _ r Hrow) by done. fold rb.
    by rewrite foldr_orb_reverse, fmap_reverse, Hfst.
  - intros i1 i2 H1 H2. apply (attributedAt_unique _ _ _ _ _ _ _ _ _ _ Hok Hrule Hrow);
      [by eapply lookup_lt_Some|done|done].
  - intros i tp Htp Hattr. pose proof (lookup_lt_Some _ _ _ Htp) as Hi.
    apply Hat in Hattr; [|done].
    destruct (rowPairs_lookup touchpoints attributionRule thresholds r conv i tp)
      as [b Hb]; [lia|done|]. fold rp in Hb.
    assert (length rp = length rb) as Hrp by by rewrite <-Hfst, length_fmap.
    apply (bscanV2_selected _ _ _ (length rb - S i) b); [done|].
    rewrite reverse_lookup by (clear_sec; lia). clear_sec. rewrite Hrp.
    by replace (length rb - S (length rb - S i)) with i by lia.
  - intros Hnone. apply bscanV2_unselected. intros k Hk.
    pose proof (lookup_lt_Some _ _ _ Hk) as Hlt.
    rewrite bscan_length, fmap_reverse, length_reverse, Hfst in Hlt.
    apply (Hnone (length rb - S k)); [lia|]. apply Hat; [lia|].
    by replace (length rb - S (length rb - S k)) with k by lia.
Qed.

Lemma formats_agree_witness :
  ∃ output,
    computeAttributionsHelperV2 sampleTouchpoints sampleConversions sampleLastTouch
      sampleThresholds 0%N = Ok output ∧
    (λ rec, (is_attributed rec, ad_id rec)) <$> output = [(false, 0%N); (true, 9%N)].
Proof.
  destruct (formats_agree sampleTouchpoints sampleConversions sampleLastTouch
              sampleThresholds 0%N
              [false; false; false; false; false; false; true; false] 0)
    as (output & Hok & _ & _).
  - reflexivity.
  - repeat constructor.
  - repeat constructor.
  - exact I.
  - exists output. split; [exact Hok|].
    injection Hok as <-. reflexivity.
Defined.

(** C9.  An unattributed record carries no ad id: in every record returned by
    computeAttributionsHelperV2 and in every row [r], [is_attributed = false]
    implies [ad_id = 0]. *)
Theorem unattributed_has_no_ad_id {usingBatch} touchpoints conversions
    (attributionRule : AttributionRule usingBatch) thresholds batchSize output r j rec :
  computeAttributionsHelperV2 touchpoints conversions attributionRule thresholds batchSize
    = Ok output →
  ruleSized touchpoints conversions attributionRule thresholds batchSize →
  adIdsSized touchpoints batchSize →
  valid_row usingBatch batchSize r →
  output !! j = Some rec →
  bit_row r (is_attributed rec) = false →
  num_row r (ad_id rec) = 0%N.
Proof.
  intros HV2 Hrule HadIds Hrow Hrec Hfalse.
  destruct (helperV2_accepted _ _ _ _ _ _ _ _ HV2 Hrec) as (Hsame & conv & Hconv & ->).
  pose proof (Forall_lookup_1 _ _ _ _ Hrule Hconv) as Hsized.
  pose proof (attributionRecord_row touchpoints attributionRule thresholds batchSize r
                Hrow HadIds conv Hsized) as Hpair.
  cbn zeta in Hpair.
  apply (f_equal fst) in Hpair as Hhas. apply (f_equal snd) in Hpair as Had.
  cbn [fst snd] in Hhas, Had. rewrite Had. apply bscanV2_unattributed.
  rewrite Hhas in Hfalse. exact Hfalse.
Qed.

Lemma unattributed_has_no_ad_id_witness :
  num_row 1 (ad_id sampleBatchRecord) = 0%N.
Proof.
  apply (unattributed_has_no_ad_id sampleBatchTouchpoints sampleBatchConversions
           sampleLastTouchBatch sampleBatchThresholds 2%N [sampleBatchRecord] 1 0).
  - reflexivity.
  - repeat constructor.
  - repeat constructor.
  - simpl. lia.
  - reflexivity.
  - reflexivity.
Defined.

(** ** Empty capacity *)

Lemma bind_all_nil {A B} (f : A → list B) (l : list A) :
  (∀ x, f x = []) → l ≫= f = [].
Proof.
  intros Hf. induction l as [|x l IH]; [done|]. by rewrite bind_cons, Hf, IH.
Qed.

Lemma bit_row_public_false usingBatch batchSize r :
  bit_row r (public_bit usingBatch batchSize false) = false.
Proof.
  unfold bit_row. destruct usingBatch; [|done]. simpl.
  destruct (replicate (N.to_nat batchSize) false !! r) as [b|] eqn:Hb; [|done].
  by apply lookup_replicate in Hb as [-> _].
Qed.

(** C8, as the code has it.  With an empty touchpoint array or an empty
    conversion array both helpers return without error, provided the batch
    size is positive in batch mode and the threshold array has the length of
    the touchpoint array when there is a conversion to scan: V1 returns the
    empty vector, V2 returns one record per conversion, each holding the
    initial values ([is_attributed] false in every row, [ad_id] 0). *)
Theorem empty_capacity {usingBatch} touchpoints conversions
    (attributionRule : AttributionRule usingBatch) thresholds batchSize :
  touchpoints = [] ∨ conversions = [] →
  (usingBatch = true → batchSize ≠ 0%N) →
  (conversions ≠ [] → length touchpoints = length thresholds) →
  computeAttributionsHelper touchpoints conversions attributionRule thresholds batchSize
    = Ok [] ∧
  ∃ output,
    computeAttributionsHelperV2 touchpoints conversions attributionRule thresholds batchSize
      = Ok output ∧
    length output = length conversions ∧
    ∀ rec, rec ∈ output →
      is_attributed rec = public_bit usingBatch batchSize false ∧
      ad_id rec = public_adid usingBatch batchSize 0%N ∧
      ∀ r, bit_row r (is_attributed rec) = false.
Proof.
  intros Hempty Hpos Hlen. split.
  - apply computeAttributionsHelper_Ok. split; [done|]. split; [done|].
    destruct Hempty as [->| ->]; [|done].
    symmetry. apply bind_all_nil. intros conv. unfold attributionRow, attributableBits.
    by destruct thresholds.
  - exists (attributionRecord touchpoints attributionRule thresholds batchSize <$> conversions).
    split; [by apply computeAttributionsHelperV2_Ok|].
    split; [by rewrite length_fmap|].
    intros rec (conv & -> & Hconv)%list_elem_of_fmap.
    destruct Hempty as [->| ->]; [|by apply elem_of_nil in Hconv].
    unfold attributionRecord, attributableBitsV2. cbn.
    split; [done|]. split; [done|]. intros r. apply bit_row_public_false.
Qed.

Lemma empty_capacity_witness :
  computeAttributionsHelper [] sampleBatchConversions sampleLastTouchBatch [] 2%N = Ok [] ∧
  ∃ output,
    computeAttributionsHelperV2 [] sampleBatchConversions sampleLastTouchBatch [] 2%N
      = Ok output ∧
    length output = 1.
Proof.
  destruct (empty_capacity [] sampleBatchConversions sampleLastTouchBatch [] 2%N)
    as (HV1 & output & HV2 & Hlength & _).
  - left. reflexivity.
  - intros _. discriminate.
  - reflexivity.
  - split; [exact HV1|]. exists output. split; [exact HV2|exact Hlength].
Defined.

(** C8 as stated fails: with nothing to scan, a batch size of 0 still ends
    the batched helper with [std::invalid_argument], and an empty touchpoint
    array next to a threshold array that is not empty fails the length check
    at the first conversion. *)
Lemma empty_capacity_counterexample :
  computeAttributionsHelper (usingBatch:=true) [] [] sampleLastTouchBatch [] 0%N
    = Err (invalid_argument "Must provide positive batch size for batch execution!") ∧
  computeAttributionsHelperV2 (usingBatch:=true) [] [] sampleLastTouchBatch [] 0%N
    = Err (invalid_argument "Must provide positive batch size for batch execution!") ∧
  computeAttributionsHelper [] sampleConversions sampleLastTouch sampleThresholds 0%N
    = Err (check_failure "touchpoints and thresholds are not the same length.").
Proof. repeat split. Qed.

(** ** The batch-size check *)

Lemma bind_raises {A B} (m : result A) (f : A → result B) :
  raises_invalid_argument (m ≫= f) →
  raises_invalid_argument m ∨ ∃ a, m = Ok a ∧ raises_invalid_argument (f a).
Proof.
  destruct m as [a|e]; intros Hr; [right; eauto|left].
  destruct Hr as [what [= ->]]. by exists what.
Qed.

Lemma at_never_raises {A} (v : list A) i : ¬ raises_invalid_argument (at_ v i).
Proof. unfold at_. by destruct (v !! i); intros [what ?]. Qed.

Lemma mapM_never_raises {A B} (f : A → result B) (l : list A) :
  (∀ x, ¬ raises_invalid_argument (f x)) → ¬ raises_invalid_argument (mapM f l).
Proof.
  intros Hf. induction l as [|x l IH]; [by intros [what ?]|].
  cbn [mapM]. intros [Hx|(y & _ & Hrest)]%bind_raises; [by apply (Hf x)|].
  apply bind_raises in Hrest as [Hrest|(k & _ & [what ?])]; [by apply IH|done].
Qed.

Lemma forIndex_never_raises {A} n (body : nat → result A) :
  (∀ i, ¬ raises_invalid_argument (body i)) → ¬ raises_invalid_argument (forIndex n body).
Proof. apply mapM_never_raises. Qed.

Lemma requirePositiveBatchSize_raises usingBatch batchSize :
  raises_invalid_argument (requirePositiveBatchSize usingBatch batchSize) ↔
  usingBatch = true ∧ batchSize = 0%N.
Proof.
  unfold requirePositiveBatchSize, raises_invalid_argument.
  destruct usingBatch; [|naive_solver].
  destruct (N.eqb_spec batchSize 0); naive_solver.
Qed.

(** The helpers raise [std::invalid_argument] exactly on a batch of size 0. *)
Lemma computeAttributionsHelper_raises {usingBatch} touchpoints conversions
    (attributionRule : AttributionRule usingBatch) thresholds batchSize :
  raises_invalid_argument
    (computeAttributionsHelper touchpoints conversions attributionRule thresholds batchSize)
  ↔ usingBatch = true ∧ batchSize = 0%N.
Proof.
  rewrite <-requirePositiveBatchSize_raises. unfold computeAttributionsHelper. split.
  - intros [Hbs|([] & Hbs & Hloop)]%bind_raises; [done|]. exfalso.
    destruct (decide (length touchpoints = length thresholds)) as [Hlen|Hlen].
    + rewrite conversionLoop_scan in Hloop by done. by destruct Hloop.
    + destruct conversions as [|conv conversions _] using rev_ind; [by destruct Hloop|].
      rewrite reverse_snoc, conversionLoop_mismatch in Hloop by done.
      by destruct Hloop.
  - intros [what Hwhat]. rewrite Hwhat. by exists what.
Qed.

Lemma computeAttributionsHelperV2_raises {usingBatch} touchpoints conversions
    (attributionRule : AttributionRule usingBatch) thresholds batchSize :
  raises_invalid_argument
    (computeAttributionsHelperV2 touchpoints conversions attributionRule thresholds batchSize)
  ↔ usingBatch = true ∧ batchSize = 0%N.
Proof.
  rewrite <-requirePositiveBatchSize_raises. unfold computeAttributionsHelperV2. split.
  - intros [Hbs|([] & Hbs & Hloop)]%bind_raises; [done|]. exfalso.
    destruct (decide (length touchpoints = length thresholds)) as [Hlen|Hlen].
    + rewrite conversionLoopV2_scan in Hloop by done. by destruct Hloop.
    + destruct conversions as [|conv conversions _] using rev_ind; [by destruct Hloop|].
      rewrite reverse_snoc, conversionLoopV2_mismatch in Hloop by done.
      by destruct Hloop.
  - intros [what Hwhat]. rewrite Hwhat. by exists what.
Qed.

(** Threshold computation raises it exactly on a batch of size 0 whose input
    is XOR-shared. *)
Lemma privatelyShareThresholds_raises usingBatch inputEncryption touchpoints
    privateTouchpoints (attributionRule : AttributionRule usingBatch) batchSize :
  raises_invalid_argument
    (privatelyShareThresholds usingBatch inputEncryption touchpoints privateTouchpoints
       attributionRule batchSize)
  ↔ usingBatch = true ∧ inputEncryption = Xor ∧ batchSize = 0%N.
Proof.
  destruct usingBatch; cbn [privatelyShareThresholds]; case_decide as Henc.
  - split; [|naive_solver]. intros Hraises. exfalso. revert Hraises.
    apply forIndex_never_raises. intros i [Hat|(tp & _ & [what ?])]%bind_raises; [|done].
    by apply at_never_raises in Hat.
  - split.
    + intros [Hbs|([] & _ & Hloop)]%bind_raises.
      * by apply requirePositiveBatchSize_raises in Hbs as [_ ->].
      * exfalso. revert Hloop. apply forIndex_never_raises.
        intros i [Hat|(ptp & _ & Hrest)]%bind_raises; [by apply at_never_raises in Hat|].
        apply bind_raises in Hrest as [Hat|(c & _ & [what ?])]; [|done].
        by apply at_never_raises in Hat.
    + intros (_ & _ & ->). by eexists.
  - split; [|naive_solver]. intros Hraises. exfalso. revert Hraises.
    apply forIndex_never_raises. intros i [Hat|(row & _ & Hrow)]%bind_raises;
      [by apply at_never_raises in Hat|].
    revert Hrow. apply forIndex_never_raises.
    intros k [Hat|(tp & _ & [what ?])]%bind_raises; [|done].
    by apply at_never_raises in Hat.
  - split; [|naive_solver]. intros Hraises. exfalso. revert Hraises.
    apply forIndex_never_raises. intros i [Hat|(row & _ & Hrow)]%bind_raises;
      [by apply at_never_raises in Hat|].
    revert Hrow. apply forIndex_never_raises.
    intros k [Hat|(ptp & _ & Hrest)]%bind_raises; [by apply at_never_raises in Hat|].
    apply bind_raises in Hrest as [Hat|(clicks & _ & Hrest)];
      [by apply at_never_raises in Hat|].
    apply bind_raises in Hrest as [Hat|(c & _ & [what ?])]; [|done].
    by apply at_never_raises in Hat.
Qed.

(** C7, as the code has it.  [std::invalid_argument] is raised by either
    attribution helper exactly when it runs in batch mode with batch size 0,
    and by threshold computation exactly when it runs in batch mode with batch
    size 0 on XOR-shared input; with a positive batch size, or outside batch
    mode, none of the three raises it, and threshold computation on input
    that is not XOR-shared never looks at the batch size. *)
Theorem batch_size_check (usingBatch : bool) (inputEncryption : InputEncryption)
    (plainTouchpoints : list (TouchpointT usingBatch))
    (privateTouchpoints : list (PrivateTouchpointT usingBatch))
    (touchpoints : list (PrivateTouchpoint usingBatch))
    (conversions : list (PrivateConversion usingBatch))
    (attributionRule : AttributionRule usingBatch)
    (thresholds : list (list (SecTimestamp usingBatch))) (batchSize : N) :
  (raises_invalid_argument
     (computeAttributionsHelper touchpoints conversions attributionRule thresholds batchSize)
   ↔ usingBatch = true ∧ batchSize = 0%N) ∧
  (raises_invalid_argument
     (computeAttributionsHelperV2 touchpoints conversions attributionRule thresholds
        batchSize)
   ↔ usingBatch = true ∧ batchSize = 0%N) ∧
  (raises_invalid_argument
     (privatelyShareThresholds usingBatch inputEncryption plainTouchpoints
        privateTouchpoints attributionRule batchSize)
   ↔ usingBatch = true ∧ inputEncryption = Xor ∧ batchSize = 0%N).
Proof.
  split; [|split].
  - apply computeAttributionsHelper_raises.
  - apply computeAttributionsHelperV2_raises.
  - apply privatelyShareThresholds_raises.
Qed.

(** C7 as stated fails: in batch mode, on input that is not XOR-shared,
    threshold computation with batch size 0 returns the thresholds. *)
Lemma batch_size_check_counterexample :
  privatelyShareThresholds true Plaintext sampleBatchPlainTouchpoints []
    sampleLastTouchBatch 0%N = Ok [[[86500; 86600]%N]].
Proof. reflexivity. Qed.

(** ** Rule negotiation *)

Section Negotiation.
Context {usingBatch : bool}.
Variable catalog : list (AttributionRule usingBatch).
Hypothesis ids_unique : NoDup (rule_id <$> catalog).
Hypothesis ids_fit : ∀ rule, rule ∈ catalog → (rule_id rule < 2 ^ attributionRuleIdWidth)%N.









End Negotiation.


(** ** The batch size of computeAttributions *)

Lemma helperCalls_app c1 c2 : helperCalls (c1 ++ c2) = helperCalls c1 + helperCalls c2.
Proof. unfold helperCalls. by rewrite filter_app, length_app. Qed.

Lemma thresholdCalls_app c1 c2 :
  thresholdCalls (c1 ++ c2) = thresholdCalls c1 + thresholdCalls c2.
Proof. unfold thresholdCalls. by rewrite filter_app, length_app. Qed.

Lemma run_ret {A} (a : A) P : run (mret a) P (λ a' calls, a' = a ∧ calls = []).
Proof.
  intros trace. exists []. cbn. rewrite app_nil_r.
  split; [done|]. split; [done|]. by intros a' [= <-].
Qed.

Lemma run_lift {A} (m : result A) P : run (lift m) P (λ a calls, m = Ok a ∧ calls = []).
Proof.
  intros trace. exists []. cbn. rewrite app_nil_r.
  split; [done|]. split; [done|]. by intros a ->.
Qed.

Lemma run_record c (P : Call → Prop) : P c → run (record c) P (λ _ calls, calls = [c]).
Proof. intros Hc trace. exists [c]. cbn. split; [done|]. split; [|done]. by constructor. Qed.

Lemma run_bind {A B} (m : Traced A) (f : A → Traced B) P Q R :
  run m P Q → (∀ a, run (f a) P (R a)) →
  run (m ≫= f) P (λ b calls, ∃ a c1 c2, calls = c1 ++ c2 ∧ Q a c1 ∧ R a b c2).
Proof.
  intros Hm Hf trace. destruct (Hm trace) as (c1 & Htrace & HP1 & HQ).
  unfold mbind, traced_bind. destruct (m trace) as [[a|e] trace1]; cbn in *.
  - subst trace1. destruct (Hf a (trace ++ c1)) as (c2 & Htrace2 & HP2 & HR).
    exists (c1 ++ c2). rewrite Htrace2, app_assoc. split; [done|].
    split; [by apply Forall_app|]. intros b Hb. exists a, c1, c2. eauto.
  - exists c1. split; [done|]. split; [done|]. by intros b.
Qed.

Lemma run_weaken {A} (m : Traced A) P (Q Q' : A → list Call → Prop) :
  run m P Q → (∀ a calls, Q a calls → Q' a calls) → run m P Q'.
Proof.
  intros Hm HQ trace. destruct (Hm trace) as (calls & ? & ? & Hpost).
  exists calls. split; [done|]. split; [done|]. intros a Ha. by apply HQ, Hpost.
Qed.

(** A loop of [n] turns, each making one helper call. *)
Lemma run_mapM_helper {A B} (f : A → Traced B) (l : list A) P :
  (∀ x, run (f x) P (λ _ calls, helperCalls calls = 1 ∧ thresholdCalls calls = 0)) →
  run (mapM f l) P (λ ys calls,
    length ys = length l ∧ helperCalls calls = length l ∧ thresholdCalls calls = 0).
Proof.
  intros Hf. induction l as [|x l IH]; cbn [mapM].
  - eapply run_weaken; [apply run_ret|]. by intros ys calls [-> ->].
  - eapply run_weaken.
    { eapply run_bind; [apply Hf|]. intros y.
      eapply run_bind; [apply IH|]. intros ys. apply run_ret. }
    intros ys calls (y & c1 & c2 & -> & [H1 H1'] & ys' & c3 & c4 & -> & (Hl & H2 & H2') & -> & ->).
    rewrite app_nil_r, !helperCalls_app, !thresholdCalls_app.
    cbn [length]. rewrite H1, H1', H2, H2', Hl. done.
Qed.

Section GameTrace.
Variable inputEncryption : InputEncryption.
Context {usingBatch : bool}.
Variable numIds : N.

Lemma run_call_privatelyShareThresholds touchpoints privateTouchpoints
    (attributionRule : AttributionRule usingBatch) :
  run (call_privatelyShareThresholds inputEncryption touchpoints privateTouchpoints
         attributionRule numIds)
    (carries numIds) (λ _ calls, helperCalls calls = 0 ∧ thresholdCalls calls = 1).
Proof.
  eapply run_weaken.
  { eapply run_bind; [by apply run_record|]. intros ?. apply run_lift. }
  by intros a calls (? & c1 & c2 & -> & -> & _ & ->).
Qed.

Lemma run_call_computeAttributionsHelper {b} touchpoints conversions
    (attributionRule : AttributionRule b) thresholds :
  run (call_computeAttributionsHelper touchpoints conversions attributionRule thresholds
         numIds)
    (carries numIds) (λ _ calls, helperCalls calls = 1 ∧ thresholdCalls calls = 0).
Proof.
  eapply run_weaken.
  { eapply run_bind; [by apply run_record|]. intros ?. apply run_lift. }
  by intros a calls (? & c1 & c2 & -> & -> & _ & ->).
Qed.

Lemma run_call_computeAttributionsHelperV2 {b} touchpoints conversions
    (attributionRule : AttributionRule b) thresholds :
  run (call_computeAttributionsHelperV2 touchpoints conversions attributionRule thresholds
         numIds)
    (carries numIds) (λ _ calls, helperCalls calls = 1 ∧ thresholdCalls calls = 0).
Proof.
  eapply run_weaken.
  { eapply run_bind; [by apply run_record|]. intros ?. apply run_lift. }
  by intros a calls (? & c1 & c2 & -> & -> & _ & ->).
Qed.

Lemma run_row_body {A B C D} (tpArrays : list A) (convArrays : list B)
    (thresholdArrays : list C) (call : A → B → C → Traced D) i :
  (∀ tpRow convRow thresholdRow,
     run (call tpRow convRow thresholdRow) (carries numIds)
       (λ _ calls, helperCalls calls = 1 ∧ thresholdCalls calls = 0)) →
  run (tpRow ← lift (at_ tpArrays i);
       convRow ← lift (at_ convArrays i);
       thresholdRow ← lift (at_ thresholdArrays i);
       call tpRow convRow thresholdRow)
    (carries numIds) (λ _ calls, helperCalls calls = 1 ∧ thresholdCalls calls = 0).
Proof.
  intros Hcall. eapply run_weaken.
  { eapply run_bind; [apply run_lift|]. intros tpRow.
    eapply run_bind; [apply run_lift|]. intros convRow.
    eapply run_bind; [apply run_lift|]. intros thresholdRow. apply Hcall. }
  intros d calls (? & ? & ? & -> & [_ ->] & ? & ? & ? & -> & [_ ->] & ? & ? & ? & ->
                  & [_ ->] & ?).
  done.
Qed.

Lemma run_runHelper tpArrays convArrays (attributionRule : AttributionRule usingBatch)
    thresholdArrays :
  run (runHelper tpArrays convArrays attributionRule thresholdArrays numIds)
    (carries numIds) (λ attributions calls,
      helperCalls calls = helperCallsPerRule usingBatch numIds ∧ thresholdCalls calls = 0 ∧
      (usingBatch = false → length attributions = N.to_nat numIds)).
Proof.
  unfold helperCallsPerRule, runHelper. destruct usingBatch.
  - eapply run_weaken; [apply run_call_computeAttributionsHelper|]. naive_solver.
  - eapply run_weaken.
    { apply run_mapM_helper. intros i.
      apply (run_row_body tpArrays convArrays thresholdArrays
               (λ tpRow convRow thresholdRow,
                  call_computeAttributionsHelper tpRow convRow attributionRule thresholdRow
                    numIds)).
      intros. apply run_call_computeAttributionsHelper. }
    intros rows calls. rewrite length_seq. naive_solver.
Qed.

Lemma run_runHelperV2 tpArrays convArrays (attributionRule : AttributionRule usingBatch)
    thresholdArrays :
  run (runHelperV2 tpArrays convArrays attributionRule thresholdArrays numIds)
    (carries numIds) (λ attributions calls,
      helperCalls calls = helperCallsPerRule usingBatch numIds ∧ thresholdCalls calls = 0 ∧
      (usingBatch = false → length attributions = N.to_nat numIds)).
Proof.
  unfold helperCallsPerRule, runHelperV2. destruct usingBatch.
  - eapply run_weaken; [apply run_call_computeAttributionsHelperV2|]. naive_solver.
  - eapply run_weaken.
    { apply run_mapM_helper. intros i.
      apply (run_row_body tpArrays convArrays thresholdArrays
               (λ tpRow convRow thresholdRow,
                  call_computeAttributionsHelperV2 tpRow convRow attributionRule
                    thresholdRow numIds)).
      intros. apply run_call_computeAttributionsHelperV2. }
    intros rows calls. rewrite length_seq. naive_solver.
Qed.

Lemma run_revealed (use_new_output_format : bool) ids tpArrays convArrays
    (attributionRule : AttributionRule usingBatch) thresholdArrays :
  run (if use_new_output_format then
         attributionsReformatted ←
           runHelperV2 tpArrays convArrays attributionRule thresholdArrays numIds;
         mret (AttributionReformattedOutput ids attributionsReformatted)
       else
         attributions ←
           runHelper tpArrays convArrays attributionRule thresholdArrays numIds;
         mret (AttributionOutput ids attributions))
    (carries numIds) (λ revealed calls,
      helperCalls calls = helperCallsPerRule usingBatch numIds ∧ thresholdCalls calls = 0 ∧
      isReformatted revealed = use_new_output_format ∧
      (usingBatch = false → resultRows revealed = N.to_nat numIds)).
Proof.
  destruct use_new_output_format.
  - eapply run_weaken.
    { eapply run_bind; [apply run_runHelperV2|]. intros ?. apply run_ret. }
    intros revealed calls (rows & c1 & c2 & -> & (H1 & H2 & H3) & -> & ->).
    by rewrite app_nil_r.
  - eapply run_weaken.
    { eapply run_bind; [apply run_runHelper|]. intros ?. apply run_ret. }
    intros revealed calls (rows & c1 & c2 & -> & (H1 & H2 & H3) & -> & ->).
    by rewrite app_nil_r.
Qed.

Lemma run_ruleLoop (use_new_output_format : bool) ids touchpoints tpArrays convArrays
    (attributionRules : list (AttributionRule usingBatch)) out0 :
  run (ruleLoop inputEncryption use_new_output_format ids numIds touchpoints tpArrays
         convArrays attributionRules out0)
    (carries numIds) (λ out calls,
      thresholdCalls calls = length attributionRules ∧
      helperCalls calls = helperCallsPerRule usingBatch numIds * length attributionRules ∧
      (∀ rule, rule ∈ attributionRules →
         goodEntry use_new_output_format numIds out (rule_name rule)) ∧
      (∀ name, goodEntry use_new_output_format numIds out0 name →
         goodEntry use_new_output_format numIds out name)).
Proof.
  revert out0. induction attributionRules as [|rule rest IH]; intros out0.
  - eapply run_weaken; [apply run_ret|]. intros out calls [-> ->].
    split; [done|]. split; [by rewrite Nat.mul_0_r|]. split; [|done].
    intros rule Hin. by apply elem_of_nil in Hin.
  - cbn [ruleLoop]. eapply run_weaken.
    { eapply run_bind; [apply run_call_privatelyShareThresholds|]. intros thresholdArrays.
      eapply run_bind; [apply run_lift|]. intros ?.
      eapply run_bind; [apply run_revealed|]. intros revealed. apply IH. }
    intros out calls
      (thresholdArrays & c1 & c2 & -> & [Hh1 Ht1] & ? & c3 & c4 & -> & [_ ->] &
       revealed & c5 & c6 & -> & (Hh5 & Ht5 & Hfmt & Hrows) & Ht6 & Hh6 & Hrest & Hkeep).
    rewrite !thresholdCalls_app, !helperCalls_app. cbn [app length].
    assert (goodEntry use_new_output_format numIds
              (<[rule_name rule := {[attributionFormat := revealed]}]> out0)
              (rule_name rule)) as Hnew.
    { exists {[attributionFormat := revealed]}, revealed.
      by rewrite lookup_insert_eq, lookup_singleton_eq. }
    change (thresholdCalls []) with 0. change (helperCalls []) with 0.
    split; [lia|].
    split; [rewrite Nat.mul_succ_r; lia|]. split.
    + intros rule' [->|Hin]%elem_of_cons; [by apply Hkeep|by apply Hrest].
    + intros name Hgood. apply Hkeep.
      destruct (decide (name = rule_name rule)) as [->|Hne]; [done|].
      destruct Hgood as (metrics & res & Hm & Hres). exists metrics, res.
      by rewrite lookup_insert_ne.
Qed.

End GameTrace.

(** Every call that a run makes to privatelyShareThresholds and to either
    helper is handed [numIds]; a run that returns has made one threshold
    call per rule and, per rule, one helper call in batch mode or [numIds]
    helper calls outside it. *)
Lemma run_computeAttributions (inputEncryption : InputEncryption) (openToPublisher : N → N)
    {usingBatch : bool} (catalog : list (AttributionRule usingBatch))
    (shareTouchpoint : ∀ b, Touchpoint b → PrivateTouchpoint b)
    (shareConversion : ∀ b, Conversion b → PrivateConversion b)
    (use_new_output_format : bool) (myRole : nat)
    (inputData : AttributionInputMetrics usingBatch) (publisherIds : list N) :
  run
    (computeAttributions inputEncryption openToPublisher catalog shareTouchpoint
       shareConversion use_new_output_format myRole inputData publisherIds)
    (carries (numIds_of (getIds inputData)))
    (λ result calls,
       ∃ attributionRules,
         shareAttributionRules catalog myRole (getAttributionRules inputData) publisherIds
           = Ok attributionRules ∧
         thresholdCalls calls = length attributionRules ∧
         helperCalls calls =
           helperCallsPerRule usingBatch (numIds_of (getIds inputData))
             * length attributionRules ∧
         ∀ rule, rule ∈ attributionRules →
           goodEntry use_new_output_format (numIds_of (getIds inputData)) result.1
             (rule_name rule)).
Proof.
  set (numIds := numIds_of (getIds inputData)).
  set (post := λ (result : gmap string (gmap string (AttributionResult usingBatch)) *
                          option (gmap string N)) (calls : list Call),
    ∃ attributionRules,
      shareAttributionRules catalog myRole (getAttributionRules inputData) publisherIds
        = Ok attributionRules ∧
      thresholdCalls calls = length attributionRules ∧
      helperCalls calls = helperCallsPerRule usingBatch numIds * length attributionRules ∧
      ∀ rule, rule ∈ attributionRules →
        goodEntry use_new_output_format numIds result.1 (rule_name rule)).
  assert (∀ touchpoints (mapping : option (gmap string N)), run
    (attributionRules ←
       lift (shareAttributionRules catalog myRole (getAttributionRules inputData)
               publisherIds);
     out ← ruleLoop inputEncryption use_new_output_format (getIds inputData) numIds
             touchpoints (privatelyShareTouchpoints shareTouchpoint touchpoints)
             (privatelyShareConversions shareConversion (getConversionArrays inputData))
             attributionRules ∅;
     mret (out, mapping))
    (carries numIds) post) as Htail.
  { intros touchpoints mapping. eapply run_weaken.
    { eapply run_bind; [apply run_lift|]. intros attributionRules.
      eapply run_bind; [apply run_ruleLoop|]. intros out. apply run_ret. }
    intros result calls
      (attributionRules & c3 & c4 & -> & [Hrules ->] & out & c5 & c6 & -> &
       (Ht & Hh & Hgood & _) & -> & ->).
    exists attributionRules. rewrite app_nil_r. cbn [app fst]. done. }
  unfold computeAttributions. eapply run_weaken.
  { eapply (run_bind _ _ _ _ (λ _, post)); [apply run_lift|].
    intros [touchpoints mapping]. apply Htail. }
  intros result calls (? & c1 & c2 & -> & [_ ->] & Hpost). exact Hpost.
Qed.

(** ** Ad-id compression *)

Lemma unordered_set_insert_union x (s : gset N) : unordered_set_insert x s = {[x]} ∪ s.
Proof.
  destruct s as [m]. unfold unordered_set_insert.
  change ({[x]} ∪ Mapset m) with (Mapset ({[x := tt]} ∪ m) : gset N).
  f_equal. apply insert_union_singleton_l.
Qed.

Lemma elem_of_insertValid x s adId :
  x ∈ insertValid s adId ↔ x ∈ s ∨ ((0 < x)%N ∧ x = adId).
Proof.
  unfold insertValid. destruct (N.ltb_spec 0 adId).
  - rewrite unordered_set_insert_union. set_solver.
  - split; [by left|]. intros [?|[? ->]]; [done|lia].
Qed.

Lemma elem_of_foldl_insertValid x s adIds :
  x ∈ foldl insertValid s adIds ↔ x ∈ s ∨ ((0 < x)%N ∧ x ∈ adIds).
Proof.
  revert s. induction adIds as [|adId adIds IH]; intros s; simpl.
  - set_solver.
  - rewrite IH, elem_of_insertValid, elem_of_cons. naive_solver.
Qed.

Section Retrieve.
Variable inputEncryption : InputEncryption.
Variable openToPublisher : N → N.

Local Abbreviation reveal := (revealAdId inputEncryption openToPublisher).
Local Abbreviation revealed := (revealedTouchpoints inputEncryption openToPublisher).

Lemma retrieveLoopBatch_spec touchpoints s :
  retrieveLoopBatch inputEncryption openToPublisher touchpoints s =
    (revealed true touchpoints,
     foldl insertValid s (originalAdIds true (revealed true touchpoints))).
Proof.
  revert s. induction touchpoints as [|tp tps IH]; intros s; [done|].
  cbn [retrieveLoopBatch]. rewrite IH. cbn. by rewrite foldl_app.
Qed.

Lemma retrieveRow_spec row s :
  retrieveRow inputEncryption openToPublisher row s =
    ((λ tp : Touchpoint false,
        set_originalAdId (usingBatch:=false) (reveal (tp_originalAdId tp)) tp) <$> row,
     foldl insertValid s (reveal ∘ tp_originalAdId (usingBatch:=false) <$> row)).
Proof.
  revert s. induction row as [|tp row IH]; intros s; [done|].
  cbn [retrieveRow]. by rewrite IH.
Qed.

Lemma retrieveLoopRows_spec touchpoints s :
  retrieveLoopRows inputEncryption openToPublisher touchpoints s =
    (revealed false touchpoints,
     foldl insertValid s (originalAdIds false (revealed false touchpoints))).
Proof.
  revert s. induction touchpoints as [|row rows IH]; intros s; [done|].
  cbn [retrieveLoopRows]. rewrite retrieveRow_spec, IH. cbn.
  rewrite foldl_app. do 2 f_equal. by rewrite <-list_fmap_compose.
Qed.

Lemma retrieveLoop_spec usingBatch touchpoints s :
  retrieveLoop inputEncryption openToPublisher usingBatch touchpoints s =
    (revealed usingBatch touchpoints,
     foldl insertValid s (originalAdIds usingBatch (revealed usingBatch touchpoints))).
Proof.
  destruct usingBatch; [apply retrieveLoopBatch_spec|apply retrieveLoopRows_spec].
Qed.

Lemma originalAdIds_revealed usingBatch touchpoints :
  originalAdIds usingBatch (revealed usingBatch touchpoints) =
    reveal <$> originalAdIds usingBatch touchpoints.
Proof.
  destruct usingBatch; cbn.
  - induction touchpoints as [|tp tps IH]; [done|].
    cbn. rewrite fmap_app. by f_equal.
  - induction touchpoints as [|row rows IH]; [done|].
    cbn. rewrite fmap_app. f_equal; [|done].
    by rewrite <-!list_fmap_compose.
Qed.

End Retrieve.

(** *** The sorted vector of valid ids *)

Lemma StronglySorted_le_lt (l : list N) :
  StronglySorted N.le l → NoDup l → StronglySorted N.lt l.
Proof.
  induction 1 as [|x l Hsorted IH Hx]; intros Hnodup; constructor.
  - apply IH. by apply NoDup_cons in Hnodup as [_ ?].
  - apply NoDup_cons in Hnodup as [Hnotin _].
    apply Forall_forall. intros y Hy.
    rewrite Forall_forall in Hx. specialize (Hx y Hy).
    assert (x ≠ y) by (by intros ->). lia.
Qed.

Lemma sorted_elements (s : gset N) :
  let valid := merge_sort N.le (elements s) in
  StronglySorted N.lt valid ∧ NoDup valid ∧
  (∀ x, x ∈ valid ↔ x ∈ s) ∧ length valid = size s ∧
  ∀ order, order ≡ₚ valid → merge_sort N.le order = valid.
Proof.
  intros valid.
  assert (valid ≡ₚ elements s) as Hperm by apply merge_sort_Permutation.
  assert (NoDup valid) as Hnodup by (rewrite Hperm; apply NoDup_elements).
  assert (StronglySorted N.le valid) as Hsorted by apply (StronglySorted_merge_sort _).
  split; [by apply StronglySorted_le_lt|]. split; [done|]. split; [|split].
  - intros x. by rewrite Hperm, elem_of_elements.
  - by rewrite Hperm.
  - intros order Horder. apply (StronglySorted_unique N.le); [|done|].
    + apply (StronglySorted_merge_sort _).
    + by rewrite merge_sort_Permutation.
Qed.

Lemma StronglySorted_lt_lookup (l : list N) i j x y :
  StronglySorted N.lt l → l !! i = Some x → l !! j = Some y → i < j → (x < y)%N.
Proof.
  intros Hsorted. revert i j. induction Hsorted as [|z l _ IH Hz]; intros i j Hi Hj Hlt.
  - by rewrite lookup_nil in Hi.
  - destruct j as [|j]; [lia|]. destruct i as [|i]; simpl in *.
    + injection Hi as ->. rewrite Forall_forall in Hz. apply Hz.
      by eapply list_elem_of_lookup_2.
    + apply (IH i j); [done|done|lia].
Qed.

(** *** The two maps, below the capacity of the 16-bit counter *)

Lemma uint16_incr_small c : (c + 1 < 2 ^ 16)%N → uint16_incr c = (c + 1)%N.
Proof. intros Hc. unfold uint16_incr. by apply N.mod_small. Qed.

Lemma buildCompressionMap_spec l c m :
  NoDup l → (∀ x, x ∈ l → m !! x = None) → (c + N.of_nat (length l) ≤ 2 ^ 16)%N →
  (∀ k o, l !! k = Some o →
     buildCompressionMap l c m !! o = Some (c + N.of_nat k)%N) ∧
  (∀ x, x ∉ l → buildCompressionMap l c m !! x = m !! x).
Proof.
  intros Hnodup. revert c m. induction Hnodup as [|o l Hnotin Hnodup IH];
    intros c m Hfresh Hroom.
  - split; [by intros k o; rewrite lookup_nil|done].
  - cbn [buildCompressionMap]. unfold unordered_map_insert.
    rewrite (Hfresh o) by left.
    destruct l as [|o' l'].
    + cbn [buildCompressionMap]. split.
      * intros [|k] o1 Hk; [|done]. injection Hk as <-.
        by rewrite lookup_insert_eq, N.add_0_r.
      * intros x Hx. rewrite lookup_insert_ne; [done|]. intros ->. apply Hx. left.
    + assert (uint16_incr c = (c + 1)%N) as ->.
      { apply uint16_incr_small. cbn [length] in Hroom. lia. }
      destruct (IH (c + 1)%N (<[o:=c]> m)) as [IHin IHout].
      * intros x Hx. rewrite lookup_insert_ne; [apply Hfresh; by right|].
        intros ->. by apply Hnotin.
      * cbn [length] in *. lia.
      * split.
        -- intros [|k] o1 Hk.
           ++ injection Hk as <-. rewrite IHout by done.
              by rewrite lookup_insert_eq, N.add_0_r.
           ++ rewrite (IHin k o1 Hk). f_equal. lia.
        -- intros x Hx. rewrite IHout by (intros ?; apply Hx; by right).
           rewrite lookup_insert_ne; [done|]. intros ->. apply Hx. left.
Qed.

Lemma buildPersistedMap_spec (l : list N) c (m : gmap string N) :
  (c + N.of_nat (length l) ≤ 2 ^ 16)%N →
  (∀ k o, l !! k = Some o →
     buildPersistedMap l c m !! pretty (c + N.of_nat k)%N = Some o) ∧
  (∀ key, (∀ k, k < length l → key ≠ pretty (c + N.of_nat k)%N) →
     buildPersistedMap l c m !! key = m !! key).
Proof.
  revert c m. induction l as [|o l IH]; intros c m Hroom.
  - split; [by intros k o; rewrite lookup_nil|done].
  - cbn [buildPersistedMap].
    destruct l as [|o' l'].
    + cbn [buildPersistedMap]. split.
      * intros [|k] o1 Hk; [|done]. injection Hk as <-.
        by rewrite N.add_0_r, lookup_insert_eq.
      * intros key Hkey. rewrite lookup_insert_ne; [done|].
        intros <-. apply (Hkey 0); [simpl; lia|]. by rewrite N.add_0_r.
    + assert (uint16_incr c = (c + 1)%N) as ->.
      { apply uint16_incr_small. cbn [length] in Hroom. lia. }
      destruct (IH (c + 1)%N (<[pretty c:=o]> m)) as [IHin IHout].
      { cbn [length] in *. lia. }
      split.
      * intros [|k] o1 Hk.
        -- injection Hk as <-. rewrite N.add_0_r, IHout.
           ++ by rewrite lookup_insert_eq.
           ++ intros k Hk Heq. apply (inj pretty) in Heq. lia.
        -- replace (c + N.of_nat (S k))%N with (c + 1 + N.of_nat k)%N by lia.
           by apply IHin.
      * intros key Hkey. rewrite IHout.
        -- rewrite lookup_insert_ne; [done|]. intros <-.
           apply (Hkey 0); [simpl; lia|]. by rewrite N.add_0_r.
        -- intros k Hk ->. apply (Hkey (S k)); [simpl in *; lia|]. f_equal. lia.
Qed.

(** *** Rewriting the touchpoints *)

Lemma mapM_result_Ok {A B} (f : A → result B) (l : list A) (k : list B) :
  mapM f l = Ok k ↔ Forall2 (λ x y, f x = Ok y) l k.
Proof.
  revert k. induction l as [|x l IH]; intros k; cbn [mapM].
  - split; [intros [= <-]; constructor|by inv 1].
  - split.
    + intros (y & Hy & (k' & Hk' & [= <-])%bind_Ok)%bind_Ok.
      constructor; [done|by apply IH].
    + inv 1 as [|? y ? k' Hy Hk']. rewrite Hy, bind_Ok_l.
      apply IH in Hk'. by rewrite Hk'.
Qed.

Lemma map_at_Ok (m : gmap N N) k v : map_at m k = Ok v ↔ m !! k = Some v.
Proof. unfold map_at. destruct (m !! k); split; congruence. Qed.

Lemma adIdPairs_batch_cons (tp : Touchpoint true) (tps : list (TouchpointT true)) :
  adIdPairs true (tp :: tps) = zip (tp_originalAdId tp) (tp_adId tp) ++ adIdPairs true tps.
Proof. done. Qed.

Lemma originalAdIds_batch_cons (tp : Touchpoint true) (tps : list (TouchpointT true)) :
  originalAdIds true (tp :: tps) = tp_originalAdId tp ++ originalAdIds true tps.
Proof. done. Qed.

Lemma adIdPairs_rows_cons (row : list (Touchpoint false)) (rows : list (TouchpointT false)) :
  adIdPairs false (row :: rows) =
    ((λ tp : Touchpoint false, (tp_originalAdId tp, tp_adId tp)) <$> row)
      ++ adIdPairs false rows.
Proof. done. Qed.

Lemma originalAdIds_rows_cons (row : list (Touchpoint false))
    (rows : list (TouchpointT false)) :
  originalAdIds false (row :: rows) =
    (tp_originalAdId (usingBatch:=false) <$> row) ++ originalAdIds false rows.
Proof. done. Qed.

Lemma replaceBatch_Ok m (tp tp' : Touchpoint true) :
  replaceBatch m tp = Ok tp' →
  tp_originalAdId tp' = tp_originalAdId tp ∧
  length (tp_adId tp') = length (tp_originalAdId tp) ∧
  Forall (rewritten m (Some 0%N)) (zip (tp_originalAdId tp') (tp_adId tp')).
Proof.
  unfold replaceBatch. intros (adIds & HadIds & [= <-])%bind_Ok. cbn.
  apply mapM_result_Ok in HadIds. split; [done|].
  split; [symmetry; by eapply Forall2_length|].
  induction HadIds as [|o a os adIds' Ha _ IH]; [constructor|].
  cbn [zip zip_with]. constructor; [|done]. split; cbn.
  - intros Ho. apply N.ltb_lt in Ho. rewrite Ho in Ha. by apply map_at_Ok.
  - intros -> a' [= <-]. by injection Ha as <-.
Qed.

Lemma replaceBatch_pairs m (touchpoints touchpoints' : list (TouchpointT true)) :
  mapM (replaceBatch m) touchpoints = Ok touchpoints' →
  (adIdPairs true touchpoints').*1 = originalAdIds true touchpoints ∧
  Forall (rewritten m (Some 0%N)) (adIdPairs true touchpoints').
Proof.
  intros Hall%mapM_result_Ok.
  induction Hall as [|tp tp' tps tps' Htp _ [IH1 IH2]]; [by split; [|constructor]|].
  apply replaceBatch_Ok in Htp as (Horig & Hlen & Hrew).
  rewrite adIdPairs_batch_cons, originalAdIds_batch_cons, fmap_app, IH1.
  split; [|by apply Forall_app].
  f_equal. rewrite fst_zip; [done|]. rewrite Horig, Hlen. done.
Qed.

Lemma replaceRowwise_Ok m (tp tp' : Touchpoint false) :
  replaceRowwise m tp = Ok tp' →
  tp_originalAdId tp' = tp_originalAdId tp ∧
  rewritten m (Some (tp_adId tp)) (tp_originalAdId tp', tp_adId tp').
Proof.
  unfold replaceRowwise, rewritten. destruct (N.ltb_spec 0 (tp_originalAdId tp)) as [Ho|Ho].
  - intros (adId & HadId%map_at_Ok & [= <-])%bind_Ok. cbn.
    split; [done|]. split; [done|]. lia.
  - intros [= <-]. split; [done|]. cbn. split; [lia|]. by intros _ a [= <-].
Qed.

Lemma replaceRows_pairs m (touchpoints touchpoints' : list (TouchpointT false)) :
  mapM (mapM (replaceRowwise m)) touchpoints = Ok touchpoints' →
  (adIdPairs false touchpoints').*1 = originalAdIds false touchpoints ∧
  Forall2 (λ before after, rewritten m (Some before.2) after)
    (adIdPairs false touchpoints) (adIdPairs false touchpoints').
Proof.
  intros Hall%mapM_result_Ok.
  induction Hall as [|row row' rows rows' Hrow _ [IH1 IH2]]; [by split; [|constructor]|].
  apply mapM_result_Ok in Hrow.
  rewrite !adIdPairs_rows_cons, originalAdIds_rows_cons, fmap_app, IH1. split.
  - f_equal. clear -Hrow. induction Hrow as [|tp tp' ? ? Htp _ IH]; [done|].
    apply replaceRowwise_Ok in Htp as [Horig _].
    rewrite !fmap_cons. cbn [fst]. by rewrite Horig, IH.
  - apply Forall2_app; [|done]. clear -Hrow.
    induction Hrow as [|tp tp' ? ? Htp _ IH]; [constructor|].
    apply replaceRowwise_Ok in Htp as [_ Hrew]. rewrite !fmap_cons. by constructor.
Qed.

Lemma adIdPairs_revealed_rows inputEncryption openToPublisher
    (touchpoints : list (TouchpointT false)) :
  adIdPairs false (revealedTouchpoints inputEncryption openToPublisher false touchpoints) =
    (λ p, (revealAdId inputEncryption openToPublisher p.1, p.2)) <$>
      adIdPairs false touchpoints.
Proof.
  induction touchpoints as [|row rows IH]; [done|].
  change (revealedTouchpoints inputEncryption openToPublisher false (row :: rows))
    with (((λ tp : Touchpoint false,
              set_originalAdId (usingBatch:=false)
                (revealAdId inputEncryption openToPublisher (tp_originalAdId tp)) tp)
             <$> row)
          :: revealedTouchpoints inputEncryption openToPublisher false rows).
  rewrite !adIdPairs_rows_cons, fmap_app, IH. f_equal.
  by rewrite <-!list_fmap_compose.
Qed.

Lemma compressAdIds_Ok inputEncryption openToPublisher usingBatch myRole
    (touchpoints touchpoints' : list (TouchpointT usingBatch)) (artifact : gmap string N) :
  compressAdIds inputEncryption openToPublisher usingBatch myRole touchpoints
    = Ok (touchpoints', artifact) →
  let revealed := revealedTouchpoints inputEncryption openToPublisher usingBatch touchpoints in
  let adIdSet := foldl insertValid ∅ (originalAdIds usingBatch revealed) in
  let valid := merge_sort N.le (elements adIdSet) in
  (N.of_nat (size adIdSet) ≤ 65536)%N ∧
  retrieveValidOriginalAdIds inputEncryption openToPublisher usingBatch myRole touchpoints
    = Ok (valid, revealed) ∧
  artifact = buildPersistedMap valid 1%N ∅ ∧
  replaceAdIdWithCompressedAdId usingBatch revealed valid = Ok touchpoints'.
Proof.
  unfold compressAdIds, retrieveValidOriginalAdIds.
  rewrite retrieveLoop_spec. unfold CHECK_LE_65536.
  destruct (N.leb_spec (N.of_nat (size (foldl insertValid ∅
              (originalAdIds usingBatch
                 (revealedTouchpoints inputEncryption openToPublisher usingBatch
                    touchpoints))))) 65536) as [Hsize|Hsize]; [|done].
  rewrite !bind_Ok_l. intros (tps & Hreplace & [= <- <-])%bind_Ok. done.
Qed.

(** Whenever the compression stage returns, the vector of valid ids holds
    exactly the positive original ad ids of the events, in strictly ascending
    order, whatever the order in which the set is enumerated; and when there
    are fewer than 65536 of them, the event whose original ad id is the
    [k]-th valid id (from 0) carries the dense id [k + 1], which the persisted
    map sends back to the original ad id. *)
Lemma compressAdIds_sound inputEncryption openToPublisher usingBatch myRole
    (touchpoints touchpoints' : list (TouchpointT usingBatch)) (artifact : gmap string N) :
  compressAdIds inputEncryption openToPublisher usingBatch myRole touchpoints
    = Ok (touchpoints', artifact) →
  ∃ valid,
    retrieveValidOriginalAdIds inputEncryption openToPublisher usingBatch myRole touchpoints
      = Ok (valid, revealedTouchpoints inputEncryption openToPublisher usingBatch touchpoints) ∧
    (adIdPairs usingBatch touchpoints').*1 =
      revealAdId inputEncryption openToPublisher <$> originalAdIds usingBatch touchpoints ∧
    StronglySorted N.lt valid ∧
    (∀ o, o ∈ valid ↔ (0 < o)%N ∧ o ∈ (adIdPairs usingBatch touchpoints').*1) ∧
    (∀ order, order ≡ₚ valid → merge_sort N.le order = valid) ∧
    ((N.of_nat (length valid) < 65536)%N →
     ∀ o a, (o, a) ∈ adIdPairs usingBatch touchpoints' → (0 < o)%N →
       ∃ k, valid !! k = Some o ∧ a = N.of_nat (S k) ∧ artifact !! pretty a = Some o) ∧
    (∀ p a, adIdPairs usingBatch touchpoints' !! p = Some (0%N, a) →
       (usingBatch = true → a = 0%N) ∧
       (usingBatch = false → ∃ o, adIdPairs usingBatch touchpoints !! p = Some (o, a))).
Proof.
  intros (Hsize & Hretrieve & -> & Hreplace)%compressAdIds_Ok.
  set (revealed := revealedTouchpoints inputEncryption openToPublisher usingBatch touchpoints)
    in *.
  set (adIdSet := foldl insertValid ∅ (originalAdIds usingBatch revealed)) in *.
  set (valid := merge_sort N.le (elements adIdSet)) in *.
  destruct (sorted_elements adIdSet) as (Hsorted & Hnodup & Hin & Hlength & Horder).
  fold valid in Hsorted, Hnodup, Hin, Hlength, Horder.
  assert (∀ o, o ∈ valid ↔ (0 < o)%N ∧ o ∈ originalAdIds usingBatch revealed) as Hvalid.
  { intros o. rewrite Hin. unfold adIdSet. rewrite elem_of_foldl_insertValid. set_solver. }
  set (m := buildCompressionMap valid 1%N ∅).
  assert ((adIdPairs usingBatch touchpoints').*1 = originalAdIds usingBatch revealed ∧
          (∀ o a, (o, a) ∈ adIdPairs usingBatch touchpoints' → (0 < o)%N →
             m !! o = Some a) ∧
          (∀ p a, adIdPairs usingBatch touchpoints' !! p = Some (0%N, a) →
             (usingBatch = true → a = 0%N) ∧
             (usingBatch = false →
                ∃ o, adIdPairs usingBatch revealed !! p = Some (o, a))))
    as (Hfst & Hpositive & Hzero).
  { clearbody revealed valid. clear -Hreplace. subst m. destruct usingBatch.
    - apply replaceBatch_pairs in Hreplace as [Hfst Hrew]. split; [done|]. split.
      + intros o a Hoa Ho. rewrite Forall_forall in Hrew.
        by apply (Hrew _ Hoa).
      + intros p a Hp. split; [|done]. intros _.
        rewrite Forall_forall in Hrew.
        by apply (Hrew (0%N, a) (list_elem_of_lookup_2 _ _ _ Hp)).
    - apply replaceRows_pairs in Hreplace as [Hfst Hrew]. split; [done|]. split.
      + intros o a [p Hp]%list_elem_of_lookup Ho.
        destruct (Forall2_lookup_r _ _ _ _ _ Hrew Hp) as (before & _ & Hafter).
        by apply Hafter.
      + intros p a Hp. split; [done|]. intros _.
        destruct (Forall2_lookup_r _ _ _ _ _ Hrew Hp) as ([o b] & Hbefore & Hafter).
        exists o. rewrite Hbefore. do 2 f_equal. symmetry.
        by apply (proj2 Hafter). }
  exists valid. split; [done|]. split.
  { rewrite Hfst. apply originalAdIds_revealed. }
  split; [done|]. split; [by rewrite Hfst|]. split; [done|]. split.
  - intros Hsmall o a Hoa Ho.
    assert (o ∈ valid) as [k Hk]%list_elem_of_lookup.
    { apply Hvalid. split; [done|]. rewrite <-Hfst.
      apply list_elem_of_fmap. by exists (o, a). }
    destruct (buildCompressionMap_spec valid 1%N ∅ Hnodup) as [Hm _]; [done|lia|].
    destruct (buildPersistedMap_spec valid 1%N ∅) as [Hartifact _]; [lia|].
    pose proof (Hpositive o a Hoa Ho) as Hlookup. unfold m in Hlookup.
    rewrite (Hm k o Hk) in Hlookup. injection Hlookup as <-.
    exists k. split; [done|].
    replace (1 + N.of_nat k)%N with (N.of_nat (S k)) in * by lia.
    split; [done|]. replace (N.of_nat (S k)) with (1 + N.of_nat k)%N by lia.
    by apply Hartifact.
  - intros p a Hp. destruct (Hzero p a Hp) as [Hbatch Hrows]. split; [done|].
    intros ->. destruct (Hrows eq_refl) as [o Ho]. clear -Ho.
    unfold revealed in Ho. rewrite adIdPairs_revealed_rows in Ho.
    apply list_lookup_fmap_Some in Ho as ([o' a'] & [= _ ->] & Hbefore).
    by exists o'.
Qed.

(** *** When the stage accepts its input *)

Lemma buildCompressionMap_dom l c m x :
  x ∈ l ∨ is_Some (m !! x) → is_Some (buildCompressionMap l c m !! x).
Proof.
  revert c m. induction l as [|o l IH]; intros c m.
  - intros [Hx|Hx]; [by apply elem_of_nil in Hx|done].
  - intros Hx. cbn [buildCompressionMap]. apply IH.
    unfold unordered_map_insert. destruct (m !! o) as [v|] eqn:Ho.
    + destruct Hx as [[->|Hx]%elem_of_cons|Hx]; [by right|by left|by right].
    + destruct Hx as [[->|Hx]%elem_of_cons|Hx].
      * right. by rewrite lookup_insert_eq.
      * by left.
      * right. destruct (decide (o = x)) as [->|Hne].
        -- by rewrite lookup_insert_eq.
        -- by rewrite lookup_insert_ne.
Qed.

Lemma mapM_result_accepts {A B} (f : A → result B) (l : list A) :
  Forall (λ x, ∃ y, f x = Ok y) l → ∃ k, mapM f l = Ok k.
Proof.
  induction 1 as [|x l [y Hy] _ [k Hk]]; [by exists []|].
  exists (y :: k). cbn [mapM]. by rewrite Hy, bind_Ok_l, Hk.
Qed.

Lemma replaceAdIdWithCompressedAdId_accepts usingBatch
    (touchpoints : list (TouchpointT usingBatch)) validOriginalAdIds :
  (∀ o, o ∈ originalAdIds usingBatch touchpoints → (0 < o)%N → o ∈ validOriginalAdIds) →
  ∃ touchpoints',
    replaceAdIdWithCompressedAdId usingBatch touchpoints validOriginalAdIds
      = Ok touchpoints'.
Proof.
  intros Hvalid.
  assert (∀ o, o ∈ originalAdIds usingBatch touchpoints → (0 < o)%N →
            ∃ a, map_at (buildCompressionMap validOriginalAdIds 1%N ∅) o = Ok a) as Hm.
  { intros o Ho Hpos.
    destruct (buildCompressionMap_dom validOriginalAdIds 1%N ∅ o) as [a Ha];
      [left; by apply Hvalid|].
    exists a. by apply map_at_Ok. }
  clear Hvalid. destruct usingBatch; cbn [replaceAdIdWithCompressedAdId].
  - apply mapM_result_accepts, Forall_forall. intros tp Htp. unfold replaceBatch.
    destruct (mapM_result_accepts
      (λ originalAdId,
         if (0 <? originalAdId)%N
         then map_at (buildCompressionMap validOriginalAdIds 1%N ∅) originalAdId
         else Ok 0%N) (tp_originalAdId tp)) as [adIds ->]; [|by eexists].
    apply Forall_forall. intros o Ho. destruct (N.ltb_spec 0 o); [|by eexists].
    apply Hm; [|done]. apply list_elem_of_bind. eauto.
  - apply mapM_result_accepts, Forall_forall. intros row Hrow.
    apply mapM_result_accepts, Forall_forall. intros tp Htp. unfold replaceRowwise.
    destruct (N.ltb_spec 0 (tp_originalAdId tp)); [|by eexists].
    destruct (Hm (tp_originalAdId tp)) as [a ->]; [|done|by eexists].
    apply list_elem_of_bind. exists row. split; [|done].
    apply list_elem_of_fmap. eauto.
Qed.

(** The stage returns exactly when the set holds at most 65536 ids. *)
Lemma compressAdIds_accepts inputEncryption openToPublisher usingBatch myRole
    (touchpoints : list (TouchpointT usingBatch)) :
  is_ok (compressAdIds inputEncryption openToPublisher usingBatch myRole touchpoints) = true ↔
  (N.of_nat (size (foldl insertValid ∅
     (revealAdId inputEncryption openToPublisher <$> originalAdIds usingBatch touchpoints)))
   ≤ 65536)%N.
Proof.
  rewrite <-originalAdIds_revealed.
  unfold compressAdIds, retrieveValidOriginalAdIds.
  rewrite retrieveLoop_spec. unfold CHECK_LE_65536.
  set (revealed := revealedTouchpoints inputEncryption openToPublisher usingBatch touchpoints).
  set (adIdSet := foldl insertValid ∅ (originalAdIds usingBatch revealed)).
  destruct (N.leb_spec (N.of_nat (size adIdSet)) 65536) as [Hsize|Hsize].
  - rewrite !bind_Ok_l. split; [done|]. intros _.
    destruct (replaceAdIdWithCompressedAdId_accepts usingBatch revealed
                (merge_sort N.le (elements adIdSet))) as [touchpoints' ->]; [|done].
    intros o Ho Hpos. rewrite merge_sort_Permutation, elem_of_elements.
    unfold adIdSet. rewrite elem_of_foldl_insertValid. by right.
  - split; [done|lia].
Qed.

(** C4, as the code has it.  For every touchpoint input with fewer than 65536
    distinct non-zero original ad ids the compression stage returns; the
    vector of valid ids holds exactly those ids in strictly ascending order,
    whatever the order in which the set is enumerated; the event whose
    original ad id is the [k]-th valid id (from 0) carries the dense id
    [k + 1], and the persisted map sends the decimal string of that dense id
    back to the original ad id; and 0 stays 0: on input that arrives with its
    ad ids unset, an event without an original ad id has the ad id 0.  An
    input with more than 65536 distinct non-zero original ad ids is rejected
    by the check on their number, in retrieveValidOriginalAdIds already:
    nothing is mapped or persisted. *)
Theorem compression_round_trip inputEncryption openToPublisher usingBatch myRole
    (touchpoints : list (TouchpointT usingBatch)) :
  ((N.of_nat (size (distinctOriginalAdIds inputEncryption openToPublisher usingBatch
                      touchpoints)) < 65536)%N →
   ∃ touchpoints' artifact valid,
     compressAdIds inputEncryption openToPublisher usingBatch myRole touchpoints
       = Ok (touchpoints', artifact) ∧
     retrieveValidOriginalAdIds inputEncryption openToPublisher usingBatch myRole touchpoints
       = Ok (valid,
             revealedTouchpoints inputEncryption openToPublisher usingBatch touchpoints) ∧
     (adIdPairs usingBatch touchpoints').*1 =
       revealAdId inputEncryption openToPublisher <$> originalAdIds usingBatch touchpoints ∧
     StronglySorted N.lt valid ∧
     (∀ o, o ∈ valid ↔ (0 < o)%N ∧ o ∈ (adIdPairs usingBatch touchpoints').*1) ∧
     (∀ order, order ≡ₚ valid → merge_sort N.le order = valid) ∧
     (∀ o a, (o, a) ∈ adIdPairs usingBatch touchpoints' → (0 < o)%N →
        ∃ k, valid !! k = Some o ∧ a = N.of_nat (S k) ∧ artifact !! pretty a = Some o) ∧
     (adIdsUnset usingBatch touchpoints →
      ∀ p a, adIdPairs usingBatch touchpoints' !! p = Some (0%N, a) → a = 0%N)) ∧
  ((65536 < N.of_nat (size (distinctOriginalAdIds inputEncryption openToPublisher usingBatch
                              touchpoints)))%N →
   retrieveValidOriginalAdIds inputEncryption openToPublisher usingBatch myRole touchpoints
     = Err tooManyAdIds ∧
   compressAdIds inputEncryption openToPublisher usingBatch myRole touchpoints
     = Err tooManyAdIds).
Proof.
  unfold distinctOriginalAdIds. split.
  - intros Hsize.
    destruct (compressAdIds inputEncryption openToPublisher usingBatch myRole touchpoints)
      as [[touchpoints' artifact]|e] eqn:Hcompress.
    2:{ assert (is_ok (compressAdIds inputEncryption openToPublisher usingBatch myRole
                         touchpoints) = true) as Hok by (apply compressAdIds_accepts; lia).
        by rewrite Hcompress in Hok. }
    pose proof Hcompress as (Hcheck & Hretrieve & _ & _)%compressAdIds_Ok.
    destruct (compressAdIds_sound _ _ _ _ _ _ _ Hcompress)
      as (valid & Hvalid & Hfst & Hsorted & Hin & Horder & Htrip & Hzero).
    exists touchpoints', artifact, valid.
    split; [done|]. split; [done|]. split; [done|]. split; [done|]. split; [done|].
    split; [done|]. split.
    + apply Htrip. rewrite Hretrieve in Hvalid. injection Hvalid as <-.
      destruct (sorted_elements (foldl insertValid ∅
                  (originalAdIds usingBatch
                     (revealedTouchpoints inputEncryption openToPublisher usingBatch
                        touchpoints)))) as (_ & _ & _ & -> & _).
      by rewrite originalAdIds_revealed.
    + intros Hunset p a Hp. destruct (Hzero p a Hp) as [Hbatch Hrows].
      destruct usingBatch; [by apply Hbatch|].
      destruct (Hrows eq_refl) as [o Ho]. unfold adIdsUnset in Hunset.
      rewrite Forall_forall in Hunset.
      apply (Hunset (o, a)). by eapply list_elem_of_lookup_2.
  - intros Hsize. rewrite <-originalAdIds_revealed in Hsize.
    unfold compressAdIds, retrieveValidOriginalAdIds.
    rewrite retrieveLoop_spec. unfold CHECK_LE_65536.
    destruct (N.leb_spec (N.of_nat (size (foldl insertValid ∅
                (originalAdIds usingBatch
                   (revealedTouchpoints inputEncryption openToPublisher usingBatch
                      touchpoints))))) 65536) as [Hle|_]; [lia|done].
Qed.

Lemma compression_round_trip_witness :
  compressAdIds Plaintext id true PUBLISHER exampleBatch
    = Ok (exampleBatchCompressed, exampleArtifact) ∧
  compressAdIds Plaintext id false PUBLISHER exampleRows
    = Ok (exampleRowsCompressed, exampleArtifact) ∧
  (∃ k, [17; 42; 500]%N !! k = Some 500%N ∧ 3%N = N.of_nat (S k) ∧
     exampleArtifact !! pretty 3%N = Some 500%N) ∧
  (∀ p a, adIdPairs false exampleRowsCompressed !! p = Some (0%N, a) → a = 0%N).
Proof.
  split; [vm_compute; reflexivity|]. split; [vm_compute; reflexivity|]. split.
  - destruct (proj1 (compression_round_trip Plaintext id true PUBLISHER exampleBatch))
      as (touchpoints' & artifact & valid & Hcompress & Hretrieve & _ & _ & _ & _ & Htrip & _).
    + vm_compute. reflexivity.
    + vm_compute in Hcompress. injection Hcompress as <- <-.
      vm_compute in Hretrieve. injection Hretrieve as <-.
      apply Htrip.
      * apply list_elem_of_lookup. exists 0. reflexivity.
      * reflexivity.
  - destruct (proj1 (compression_round_trip Plaintext id false PUBLISHER exampleRows))
      as (touchpoints' & artifact & valid & Hcompress & _ & _ & _ & _ & _ & _ & Hzero).
    + vm_compute. reflexivity.
    + vm_compute in Hcompress. injection Hcompress as <- <-.
      apply Hzero. repeat constructor.
Defined.

(** *** At the capacity of the 16-bit counter *)

(** With the 65536 distinct ids 1..65536 the check passes, the counter wraps
    after 65535, and the event with the largest original id carries the dense
    id 0. *)
Lemma compress_at_capacity :
  lastPair (compressAdIds Plaintext id true PUBLISHER (distinctAdIds 65536))
    = Some (65536%N, 0%N).
Proof. vm_compute. reflexivity. Qed.

(** C4 as stated fails: 65537 distinct ids are rejected by the check, so that
    nothing is mapped or persisted; and with exactly 65536 distinct ids the
    largest one is mapped to 0, not to 65536. *)
Lemma compression_round_trip_counterexample :
  compressAdIds Plaintext id true PUBLISHER (distinctAdIds 65537)
    = Err (check_failure "Number of ad Ids cannot be more than 65,536.") ∧
  lastPair (compressAdIds Plaintext id true PUBLISHER (distinctAdIds 65536))
    = Some (65536%N, 0%N).
Proof. split; [vm_compute; reflexivity|exact compress_at_capacity]. Qed.

(** C5: the code at the failing input.  65536 distinct non-zero ids are
    accepted, and the largest of them, the 65536-th in ascending order, is
    assigned the dense id 0, the id reserved for none/padding. *)
Theorem dense_id_wraps_at_capacity :
  N.of_nat (size (foldl insertValid ∅ (originalAdIds true (distinctAdIds 65536))))
    = 65536%N ∧
  is_ok (compressAdIds Plaintext id true PUBLISHER (distinctAdIds 65536)) = true ∧
  lastPair (compressAdIds Plaintext id true PUBLISHER (distinctAdIds 65536))
    = Some (65536%N, 0%N).
Proof.
  split; [vm_compute; reflexivity|]. split; [|exact compress_at_capacity].
  pose proof compress_at_capacity as Hlast.
  by destruct (compressAdIds Plaintext id true PUBLISHER (distinctAdIds 65536)).
Qed.

(** * Further properties of the engine *)

(** ** How the helpers end *)

Lemma scan_sized {usingBatch} batchSize (visited : list (SecBit usingBatch)) has :
  Forall (sized usingBatch batchSize) visited → sized usingBatch batchSize has →
  Forall (sized usingBatch batchSize) (scan visited has).1 ∧
  sized usingBatch batchSize (scan visited has).2.
Proof.
  intros Hv. revert has. induction Hv as [|a rest Ha _ IH]; intros has Hhas; [by split|].
  rewrite scan_cons. cbn [fst snd].
  pose proof (sized_bit_not _ _ Hhas) as Hn.
  pose proof (sized_bit_and _ _ _ Ha Hn) as Hand.
  pose proof (sized_bit_or _ _ _ Hand Hhas) as Hor.
  destruct (IH _ Hor) as [IH1 IH2]. split; [by constructor|done].
Qed.

Lemma scanV2_sized {usingBatch} batchSize
    (visited : list (SecBit usingBatch * SecAdId usingBatch)) has adId :
  Forall (λ p, sized usingBatch batchSize p.1 ∧ sized usingBatch batchSize p.2) visited →
  sized usingBatch batchSize has → sized usingBatch batchSize adId →
  sized usingBatch batchSize (scanV2 visited has adId).1 ∧
  sized usingBatch batchSize (scanV2 visited has adId).2.
Proof.
  intros Hv. revert has adId.
  induction Hv as [|[a x] rest [Ha Hx] _ IH]; intros has adId Hhas Had; [by split|].
  cbn [scanV2]. simpl in Ha, Hx.
  pose proof (sized_bit_not _ _ Hhas) as Hn.
  pose proof (sized_bit_and _ _ _ Ha Hn) as Hand.
  pose proof (sized_bit_or _ _ _ Hand Hhas) as Hor.
  pose proof (sized_adid_mux _ _ _ _ Had Hand Hx) as Hmux.
  by apply IH.
Qed.

Lemma requirePositiveBatchSize_Err usingBatch batchSize e :
  requirePositiveBatchSize usingBatch batchSize = Err e ↔
  zeroBatch usingBatch batchSize ∧ e = batchSizeError.
Proof.
  unfold requirePositiveBatchSize, zeroBatch, batchSizeError.
  destruct usingBatch; [|naive_solver].
  destruct (N.eqb_spec batchSize 0); naive_solver.
Qed.

Lemma computeAttributionsHelper_Err {usingBatch} touchpoints conversions
    (attributionRule : AttributionRule usingBatch) thresholds batchSize e :
  computeAttributionsHelper touchpoints conversions attributionRule thresholds batchSize
    = Err e →
  (zeroBatch usingBatch batchSize ∧ e = batchSizeError) ∨
  (¬ zeroBatch usingBatch batchSize ∧ lengthMismatch conversions touchpoints thresholds ∧
   e = lengthError).
Proof.
  unfold computeAttributionsHelper.
  destruct (requirePositiveBatchSize usingBatch batchSize) as [[]|e'] eqn:Hbs; simpl.
  2:{ intros [= <-]. left. by apply requirePositiveBatchSize_Err. }
  assert (¬ zeroBatch usingBatch batchSize) as Hpos.
  { intros [Hb Hz]. by apply requirePositiveBatchSize_Ok in Hbs. }
  destruct (decide (length touchpoints = length thresholds)) as [Hlen|Hlen].
  { by rewrite conversionLoop_scan by done. }
  destruct conversions as [|conv conversions _] using rev_ind; [done|].
  rewrite reverse_snoc, conversionLoop_mismatch by done. simpl.
  intros [= <-]. right. split; [done|]. split; [|done]. split; [|done].
  by destruct conversions.
Qed.

Lemma computeAttributionsHelperV2_Err {usingBatch} touchpoints conversions
    (attributionRule : AttributionRule usingBatch) thresholds batchSize e :
  computeAttributionsHelperV2 touchpoints conversions attributionRule thresholds batchSize
    = Err e →
  (zeroBatch usingBatch batchSize ∧ e = batchSizeError) ∨
  (¬ zeroBatch usingBatch batchSize ∧ lengthMismatch conversions touchpoints thresholds ∧
   e = lengthError).
Proof.
  unfold computeAttributionsHelperV2.
  destruct (requirePositiveBatchSize usingBatch batchSize) as [[]|e'] eqn:Hbs; simpl.
  2:{ intros [= <-]. left. by apply requirePositiveBatchSize_Err. }
  assert (¬ zeroBatch usingBatch batchSize) as Hpos.
  { intros [Hb Hz]. by apply requirePositiveBatchSize_Ok in Hbs. }
  destruct (decide (length touchpoints = length thresholds)) as [Hlen|Hlen].
  { by rewrite conversionLoopV2_scan by done. }
  destruct conversions as [|conv conversions _] using rev_ind; [done|].
  rewrite reverse_snoc, conversionLoopV2_mismatch by done. simpl.
  intros [= <-]. right. split; [done|]. split; [|done]. split; [|done].
  by destruct conversions.
Qed.

Lemma length_helper_output {usingBatch} touchpoints conversions
    (attributionRule : AttributionRule usingBatch) thresholds batchSize :
  (conversions ≠ [] → length touchpoints = length thresholds) →
  length (conversions ≫= attributionRow touchpoints attributionRule thresholds batchSize)
    = length conversions * length touchpoints.
Proof.
  intros Hlen. destruct conversions as [|conv conversions]; [done|].
  apply bind_blocks_length, Forall_forall. intros c _.
  apply length_attributionRow. by apply Hlen.
Qed.

(** X1.  Either helper ends in one of three ways.  It throws
    [std::invalid_argument] when it runs in batch mode with batch size 0, a
    test made before anything else; it fails the length check when, that test
    passed, there is a conversion to scan and the touchpoint and threshold
    arrays differ in length; it returns otherwise.  In particular no
    [vector::at] of the loops is ever out of range.  V1 returns one bit per
    pair of a conversion and a touchpoint, V2 one record per conversion. *)
Theorem helper_outcomes {usingBatch} touchpoints conversions
    (attributionRule : AttributionRule usingBatch) thresholds batchSize :
  match computeAttributionsHelper touchpoints conversions attributionRule thresholds
          batchSize with
  | Ok attributions =>
      ¬ zeroBatch usingBatch batchSize ∧
      ¬ lengthMismatch conversions touchpoints thresholds ∧
      length attributions = length conversions * length touchpoints
  | Err e =>
      (zeroBatch usingBatch batchSize ∧ e = batchSizeError) ∨
      (¬ zeroBatch usingBatch batchSize ∧
       lengthMismatch conversions touchpoints thresholds ∧ e = lengthError)
  end ∧
  match computeAttributionsHelperV2 touchpoints conversions attributionRule thresholds
          batchSize with
  | Ok output =>
      ¬ zeroBatch usingBatch batchSize ∧
      ¬ lengthMismatch conversions touchpoints thresholds ∧
      length output = length conversions
  | Err e =>
      (zeroBatch usingBatch batchSize ∧ e = batchSizeError) ∨
      (¬ zeroBatch usingBatch batchSize ∧
       lengthMismatch conversions touchpoints thresholds ∧ e = lengthError)
  end.
Proof.
  split.
  - destruct (computeAttributionsHelper _ _ _ _ _) as [attributions|e] eqn:Hrun.
    + apply computeAttributionsHelper_Ok in Hrun as (Hpos & Hlen & ->).
      split; [by intros [Hb Hz]; apply Hpos|].
      split; [by intros [Hne Hdiff]; apply Hdiff, Hlen|].
      by apply length_helper_output.
    + by apply computeAttributionsHelper_Err in Hrun.
  - destruct (computeAttributionsHelperV2 _ _ _ _ _) as [output|e] eqn:Hrun.
    + apply computeAttributionsHelperV2_Ok in Hrun as (Hpos & Hlen & ->).
      split; [by intros [Hb Hz]; apply Hpos|].
      split; [by intros [Hne Hdiff]; apply Hdiff, Hlen|].
      by rewrite length_fmap.
    + by apply computeAttributionsHelperV2_Err in Hrun.
Qed.

Lemma conv_value_attributionRecord {usingBatch} touchpoints
    (attributionRule : AttributionRule usingBatch) thresholds batchSize conv :
  conv_value (attributionRecord touchpoints attributionRule thresholds batchSize conv)
    = pc_convValue conv.
Proof. unfold attributionRecord. by destruct (scanV2 _ _ _). Qed.

(** X2.  V2 lists its records in the order of the conversions, and the record of
    a conversion carries that conversion's value untouched. *)
Theorem helperV2_keeps_conversion_values {usingBatch} touchpoints conversions
    (attributionRule : AttributionRule usingBatch) thresholds batchSize output :
  computeAttributionsHelperV2 touchpoints conversions attributionRule thresholds batchSize
    = Ok output →
  conv_value <$> output = pc_convValue <$> conversions.
Proof.
  intros (_ & _ & ->)%computeAttributionsHelperV2_Ok.
  rewrite <-list_fmap_compose. apply list_fmap_ext. intros _ conv _. simpl.
  apply conv_value_attributionRecord.
Qed.

Lemma helperV2_keeps_conversion_values_witness :
  ∃ output,
    computeAttributionsHelperV2 sampleTouchpoints sampleConversions sampleLastTouch
      sampleThresholds 0%N = Ok output ∧
    conv_value <$> output = [1%N; 5%N].
Proof.
  eexists. split; [reflexivity|].
  apply (helperV2_keeps_conversion_values sampleTouchpoints sampleConversions
           sampleLastTouch sampleThresholds 0%N).
  reflexivity.
Defined.

(** ** One conversion at a time *)

Lemma helperV2_on_one {usingBatch} touchpoints
    (attributionRule : AttributionRule usingBatch) thresholds batchSize conv :
  (usingBatch = true → batchSize ≠ 0%N) →
  length touchpoints = length thresholds →
  computeAttributionsHelperV2 touchpoints [conv] attributionRule thresholds batchSize
    = Ok [attributionRecord touchpoints attributionRule thresholds batchSize conv].
Proof. intros Hpos Hlen. by apply computeAttributionsHelperV2_Ok. Qed.

(** X3.  Conversions do not compete for touchpoints: the flag that closes a
    conversion is reset for the next one, so that what a helper returns for
    conversion [j] of the array is what it returns when handed that
    conversion alone. *)
Theorem conversions_are_attributed_independently {usingBatch} touchpoints conversions
    (attributionRule : AttributionRule usingBatch) thresholds batchSize attributions j conv :
  computeAttributionsHelper touchpoints conversions attributionRule thresholds batchSize
    = Ok attributions →
  conversions !! j = Some conv →
  computeAttributionsHelper touchpoints [conv] attributionRule thresholds batchSize
    = Ok (conversionBits (length touchpoints) j attributions) ∧
  ∃ output rec,
    computeAttributionsHelperV2 touchpoints conversions attributionRule thresholds batchSize
      = Ok output ∧
    output !! j = Some rec ∧
    computeAttributionsHelperV2 touchpoints [conv] attributionRule thresholds batchSize
      = Ok [rec].
Proof.
  intros Hok Hconv.
  destruct (helper_accepted _ _ _ _ _ _ _ _ Hok Hconv) as (Hsame & -> & _).
  apply computeAttributionsHelper_Ok in Hok as (Hpos & Hlen & ->).
  split.
  - apply computeAttributionsHelper_Ok. split; [done|]. split; [done|].
    by rewrite bind_cons, app_nil_r.
  - exists (attributionRecord touchpoints attributionRule thresholds batchSize <$> conversions),
      (attributionRecord touchpoints attributionRule thresholds batchSize conv).
    split; [by apply computeAttributionsHelperV2_Ok|].
    split; [by rewrite list_lookup_fmap, Hconv|].
    by apply helperV2_on_one.
Qed.

Lemma conversions_are_attributed_independently_witness :
  computeAttributionsHelper sampleTouchpoints [rowConversion 350 5] sampleLastTouch
    sampleThresholds 0%N = Ok [false; false; true; false] ∧
  ∃ output rec,
    computeAttributionsHelperV2 sampleTouchpoints sampleConversions sampleLastTouch
      sampleThresholds 0%N = Ok output ∧
    output !! 1 = Some rec ∧
    computeAttributionsHelperV2 sampleTouchpoints [rowConversion 350 5] sampleLastTouch
      sampleThresholds 0%N = Ok [rec].
Proof.
  apply (conversions_are_attributed_independently sampleTouchpoints sampleConversions
           sampleLastTouch sampleThresholds 0%N
           [false; false; false; false; false; false; true; false] 1 (rowConversion 350 5)).
  - reflexivity.
  - reflexivity.
Defined.

(** ** Batch mode, user by user *)

Lemma attributableBits_row (batchRule : AttributionRule true) (rowRule : AttributionRule false)
    touchpoints thresholds conv r :
  Forall (λ p : PrivateTouchpoint true * list (SecTimestamp true),
    bit_row r (isAttributable batchRule p.1 conv p.2) =
      isAttributable rowRule (touchpointRow r p.1) (conversionRow r conv)
        (thresholdRow r p.2))
    (zip touchpoints thresholds) →
  rowBits touchpoints batchRule thresholds r conv =
    attributableBits (touchpointRow r <$> touchpoints) rowRule (thresholdRow r <$> thresholds)
      (conversionRow r conv).
Proof.
  unfold rowBits, attributableBits. revert thresholds.
  induction touchpoints as [|tp touchpoints IH]; intros [|th thresholds] Hagree; try done.
  apply Forall_cons in Hagree as [Hhead Htail].
  cbn [zip_with fmap list_fmap]. f_equal; [exact Hhead|]. by apply IH.
Qed.

Lemma attributableBitsV2_row (batchRule : AttributionRule true)
    (rowRule : AttributionRule false) touchpoints thresholds conv r :
  Forall (λ p : PrivateTouchpoint true * list (SecTimestamp true),
    bit_row r (isAttributable batchRule p.1 conv p.2) =
      isAttributable rowRule (touchpointRow r p.1) (conversionRow r conv)
        (thresholdRow r p.2))
    (zip touchpoints thresholds) →
  rowPairs touchpoints batchRule thresholds r conv =
    attributableBitsV2 (touchpointRow r <$> touchpoints) rowRule
      (thresholdRow r <$> thresholds) (conversionRow r conv).
Proof.
  unfold rowPairs, attributableBitsV2. revert thresholds.
  induction touchpoints as [|tp touchpoints IH]; intros [|th thresholds] Hagree; try done.
  apply Forall_cons in Hagree as [Hhead Htail].
  cbn [zip_with fmap list_fmap]. f_equal; [|by apply IH].
  unfold pair_row. cbn [fst snd] in *. by rewrite Hhead.
Qed.

Lemma attributionRecord_rowwise touchpoints (attributionRule : AttributionRule false)
    thresholds batchSize conv :
  attributionRecord touchpoints attributionRule thresholds batchSize conv =
    let p := scanV2 (usingBatch:=false)
               (reverse (attributableBitsV2 touchpoints attributionRule thresholds conv))
               false 0%N in
    mkAttributionReformattedOutputFmt (usingBatch:=false) p.2 (pc_convValue conv) p.1.
Proof.
  unfold attributionRecord.
  change (public_bit false batchSize false) with false.
  change (public_adid false batchSize 0%N) with 0%N.
  by destruct (scanV2 _ _ _).
Qed.

(** X4.  Batch mode computes for every user what row-wise mode computes for that
    user alone: when the batched rule answers row by row as the row-wise rule
    does, row [r] of the bits (V1) and of the records (V2) returned for a
    shard is what the row-wise helper returns on row [r] of the touchpoints,
    conversions and thresholds. *)
Theorem batch_rows_are_rowwise_runs touchpoints conversions
    (batchRule : AttributionRule true) (rowRule : AttributionRule false)
    thresholds batchSize attributions r (rowSize : N) :
  computeAttributionsHelper touchpoints conversions batchRule thresholds batchSize
    = Ok attributions →
  ruleSized touchpoints conversions batchRule thresholds batchSize →
  adIdsSized touchpoints batchSize →
  r < N.to_nat batchSize →
  rulesAgree batchRule rowRule touchpoints conversions thresholds r →
  computeAttributionsHelper (touchpointRow r <$> touchpoints) (conversionRow r <$> conversions)
    rowRule (thresholdRow r <$> thresholds) rowSize = Ok (bit_row r <$> attributions) ∧
  ∃ output,
    computeAttributionsHelperV2 touchpoints conversions batchRule thresholds batchSize
      = Ok output ∧
    computeAttributionsHelperV2 (touchpointRow r <$> touchpoints)
      (conversionRow r <$> conversions) rowRule (thresholdRow r <$> thresholds) rowSize
      = Ok (recordRow r <$> output).
Proof.
  intros Hok Hsized HadIds Hr Hagree.
  apply computeAttributionsHelper_Ok in Hok as (Hpos & Hlen & ->).
  assert (conversionRow r <$> conversions ≠ [] →
          length (touchpointRow r <$> touchpoints) = length (thresholdRow r <$> thresholds))
    as Hlen'.
  { intros Hne. rewrite !length_fmap. apply Hlen. by intros ->. }
  split.
  - apply (computeAttributionsHelper_Ok (usingBatch:=false)).
    split; [done|]. split; [done|].
    destruct conversions as [|c0 conversions0] eqn:Hconvs; [done|]. rewrite <-Hconvs in *.
    assert (length touchpoints = length thresholds) as Hsame by (apply Hlen; by subst).
    clear Hconvs. unfold ruleSized, rulesAgree in *.
    induction conversions as [|conv conversions IH]; [done|].
    apply Forall_cons in Hsized as [Hs Hsized]. apply Forall_cons in Hagree as [Ha Hagree].
    rewrite fmap_cons, !bind_cons, fmap_app. f_equal.
    + rewrite (attributionRow_row touchpoints batchRule thresholds batchSize r Hr conv Hs).
      rewrite (attributableBits_row batchRule rowRule) by done. done.
    + apply IH; try done. intros _. by rewrite !length_fmap.
  - exists (attributionRecord touchpoints batchRule thresholds batchSize <$> conversions).
    split; [by apply computeAttributionsHelperV2_Ok|].
    apply (computeAttributionsHelperV2_Ok (usingBatch:=false)).
    split; [done|]. split; [done|].
    rewrite <-!list_fmap_compose. unfold ruleSized, rulesAgree in *.
    apply list_eq. intros j. rewrite !list_lookup_fmap.
    destruct (conversions !! j) as [conv|] eqn:Hconv; [|done]. simpl. f_equal.
    pose proof (Forall_lookup_1 _ _ _ _ Hsized Hconv) as Hs.
    pose proof (Forall_lookup_1 _ _ _ _ Hagree Hconv) as Ha.
    pose proof (attributionRecord_row touchpoints batchRule thresholds batchSize r Hr
                  HadIds conv Hs) as Hrow.
    cbn zeta in Hrow.
    rewrite (attributableBitsV2_row batchRule rowRule) in Hrow by done.
    rewrite attributionRecord_rowwise. cbn zeta.
    set (p := scanV2 _ _ _).
    assert (p = (bit_row r (is_attributed (attributionRecord touchpoints batchRule
                                             thresholds batchSize conv)),
                 num_row r (ad_id (attributionRecord touchpoints batchRule
                                     thresholds batchSize conv)))) as ->
      by (symmetry; exact Hrow).
    unfold recordRow. cbn [fst snd]. by rewrite conv_value_attributionRecord.
Qed.

Lemma batch_rows_are_rowwise_runs_witness :
  computeAttributionsHelper
    [rowTouchpoint 200 8 false; rowTouchpoint 0 0 false] [rowConversion 150 3]
    sampleLastTouch [[86600%N]; [86400%N]] 0%N = Ok [false; false] ∧
  ∃ output,
    computeAttributionsHelperV2 sampleBatchTouchpoints sampleBatchConversions
      sampleLastTouchBatch sampleBatchThresholds 2%N = Ok output ∧
    computeAttributionsHelperV2
      [rowTouchpoint 200 8 false; rowTouchpoint 0 0 false] [rowConversion 150 3]
      sampleLastTouch [[86600%N]; [86400%N]] 0%N = Ok (recordRow 1 <$> output).
Proof.
  apply (batch_rows_are_rowwise_runs sampleBatchTouchpoints sampleBatchConversions
           sampleLastTouchBatch sampleLastTouch sampleBatchThresholds 2%N
           [[false; false]; [true; false]] 1 0%N).
  - reflexivity.
  - repeat constructor.
  - repeat constructor.
  - simpl. lia.
  - repeat constructor.
Defined.

(** X5.  In batch mode every value the helpers return spans the shard: when the
    rule answers with one bit per user and the touchpoints carry one ad id
    per user, each bit vector of V1 and the [is_attributed] and [ad_id]
    vectors of each record of V2 hold exactly [batchSize] entries. *)
Theorem batch_outputs_span_the_shard touchpoints conversions
    (attributionRule : AttributionRule true) thresholds batchSize :
  ruleSized touchpoints conversions attributionRule thresholds batchSize →
  adIdsSized touchpoints batchSize →
  (∀ attributions,
     computeAttributionsHelper touchpoints conversions attributionRule thresholds batchSize
       = Ok attributions →
     Forall (λ bits : list bool, length bits = N.to_nat batchSize) attributions) ∧
  (∀ output,
     computeAttributionsHelperV2 touchpoints conversions attributionRule thresholds batchSize
       = Ok output →
     Forall (λ rec : AttributionReformattedOutputFmt true,
               length (is_attributed rec : list bool) = N.to_nat batchSize ∧
               length (ad_id rec : list N) = N.to_nat batchSize) output).
Proof.
  intros Hsized HadIds. unfold ruleSized in Hsized. split.
  - intros attributions (_ & _ & ->)%computeAttributionsHelper_Ok.
    apply Forall_forall. intros bits (conv & Hbits & Hconv)%list_elem_of_bind.
    rewrite Forall_forall in Hsized. specialize (Hsized conv Hconv).
    unfold attributionRow in Hbits. rewrite elem_of_reverse in Hbits.
    destruct (scan_sized batchSize
                (reverse (attributableBits touchpoints attributionRule thresholds conv))
                (public_bit true batchSize false)) as [Hall _].
    + by apply Forall_reverse.
    + apply sized_public_bit.
    + rewrite Forall_forall in Hall. by apply (Hall bits).
  - intros output (_ & _ & ->)%computeAttributionsHelperV2_Ok.
    apply Forall_forall. intros rec (conv & -> & Hconv)%list_elem_of_fmap.
    rewrite Forall_forall in Hsized. specialize (Hsized conv Hconv).
    destruct (scanV2_sized batchSize
                (reverse (attributableBitsV2 touchpoints attributionRule thresholds conv))
                (public_bit true batchSize false) (public_adid true batchSize 0%N))
      as [Hhas HadId].
    + apply Forall_reverse. by apply (attributableBitsV2_sized _ _ _ _ HadIds).
    + apply sized_public_bit.
    + apply sized_public_adid.
    + unfold attributionRecord. by destruct (scanV2 _ _ _).
Qed.

Lemma batch_outputs_span_the_shard_witness :
  Forall (λ bits : list bool, length bits = 2) [[false; false]; [true; false]] ∧
  Forall (λ rec : AttributionReformattedOutputFmt true,
            length (is_attributed rec : list bool) = 2 ∧ length (ad_id rec : list N) = 2)
    [sampleBatchRecord].
Proof.
  destruct (batch_outputs_span_the_shard sampleBatchTouchpoints sampleBatchConversions
              sampleLastTouchBatch sampleBatchThresholds 2%N) as [HV1 HV2].
  - repeat constructor.
  - repeat constructor.
  - split.
    + apply (HV1 [[false; false]; [true; false]]). reflexivity.
    + apply (HV2 [sampleBatchRecord]). reflexivity.
Defined.

(** ** Threshold computation *)

(** The array types of the two modes, as the types they stand for. *)
Ltac clear_arrays :=
  change (TouchpointT true) with (Touchpoint true) in *;
  change (TouchpointT false) with (list (Touchpoint false)) in *;
  change (PrivateTouchpointT true) with (PrivateTouchpoint true) in *;
  change (PrivateTouchpointT false) with (list (PrivateTouchpoint false)) in *;
  change (PrivateConversionT true) with (PrivateConversion true) in *;
  change (PrivateConversionT false) with (list (PrivateConversion false)) in *;
  change (SecTimestampT true) with (SecTimestamp true) in *;
  change (SecTimestampT false) with (list (SecTimestamp false)) in *.

Lemma mapM_result_fmap {A B} (g : A → B) (l : list A) :
  mapM (λ x, Ok (g x)) l = Ok (g <$> l).
Proof.
  induction l as [|x l IH]; [done|]. cbn [mapM]. by rewrite bind_Ok_l, IH.
Qed.

Lemma mapM_result_ext {A B} (f g : A → result B) (l : list A) :
  (∀ x, x ∈ l → f x = g x) → mapM f l = mapM g l.
Proof.
  induction l as [|x l IH]; intros Hfg; [done|]. cbn [mapM].
  rewrite (Hfg x) by apply list_elem_of_here. rewrite IH; [done|].
  intros y Hy. apply Hfg. by apply list_elem_of_further.
Qed.

Lemma mapM_result_Err {A B} (f : A → result B) (l : list A) e :
  mapM f l = Err e → ∃ x, x ∈ l ∧ f x = Err e.
Proof.
  induction l as [|x l IH]; [done|]. cbn [mapM].
  destruct (f x) as [y|e'] eqn:Hx; simpl.
  - destruct (mapM f l) as [k|e'']; [done|]. simpl. intros [= <-].
    destruct IH as (x' & ? & ?); [done|]. exists x'. split; [by apply list_elem_of_further|done].
  - intros [= <-]. exists x. split; [apply list_elem_of_here|done].
Qed.

(** A loop over the indices of [v] that starts each turn with [v.at(i)] is a
    loop over the elements of [v]. *)
Lemma forIndex_at {A B} (v : list A) (h : nat → A → result B) :
  forIndex (length v) (λ i, x ← at_ v i; h i x) = mapM (λ p, h p.1 p.2) (imap pair v).
Proof.
  unfold forIndex.
  assert (∀ pre, mapM (λ i, x ← at_ (pre ++ v) i; h i x) (seq (length pre) (length v))
                 = mapM (λ p, h p.1 p.2) (imap (λ i, pair (length pre + i)) v)) as Hgen.
  { induction v as [|x v IH]; intros pre; [done|].
    cbn [length seq mapM imap].
    rewrite (at_lookup (pre ++ x :: v) (length pre) x) by apply list_lookup_middle, eq_refl.
    rewrite bind_Ok_l, Nat.add_0_r. cbn [fst snd].
    specialize (IH (pre ++ [x])). rewrite length_app in IH. cbn [length] in IH.
    rewrite <-app_assoc in IH. cbn [app] in IH.
    rewrite Nat.add_1_r in IH. rewrite IH.
    rewrite (imap_ext ((λ i, pair (length pre + i)) ∘ S) (λ i, pair (S (length pre) + i)) v);
      [done|].
    intros i y _. simpl. f_equal. lia. }
  apply (Hgen []).
Qed.

Lemma forIndex_at_mapM {A B} (v : list A) (h : A → result B) :
  forIndex (length v) (λ i, x ← at_ v i; h x) = mapM h v.
Proof.
  rewrite (forIndex_at v (λ _, h)). cbn [fst snd].
  assert (∀ (f : nat → A → nat * A), (∀ i x, (f i x).2 = x) →
            mapM (λ p : nat * A, h p.2) (imap f v) = mapM h v) as Hgen.
  { induction v as [|x v IH]; intros f Hf; [done|].
    cbn [imap mapM]. rewrite Hf. f_equal. rewrite IH; [done|]. intros i y. apply Hf. }
  by apply Hgen.
Qed.

Lemma at_Err {A} (v : list A) i e : at_ v i = Err e → e = out_of_range ∧ length v ≤ i.
Proof.
  unfold at_. destruct (v !! i) eqn:Hi; [done|]. intros [= <-].
  split; [done|]. by apply lookup_ge_None.
Qed.

(** A loop that reads two arrays under one index. *)
Lemma mapM_at2 {A B C} (v : list A) (w : list B) (f : A → B → C) k n :
  k + n ≤ length v → k + n ≤ length w →
  mapM (λ i, a ← at_ v i; b ← at_ w i; Ok (f a b)) (seq k n)
    = Ok (take n (drop k (zip_with f v w))).
Proof.
  revert k. induction n as [|n IH]; intros k Hv Hw; [done|].
  destruct (lookup_lt_is_Some_2 v k) as [a Ha]; [lia|].
  destruct (lookup_lt_is_Some_2 w k) as [b Hb]; [lia|].
  cbn [seq mapM]. rewrite (at_lookup _ _ _ Ha), bind_Ok_l, (at_lookup _ _ _ Hb), !bind_Ok_l.
  rewrite IH by lia. rewrite bind_Ok_l.
  rewrite (drop_S _ (f a b) k) by (rewrite lookup_zip_with, Ha; simpl; by rewrite Hb).
  done.
Qed.

Lemma mapM_at2_out_of_range {A B C} (v : list A) (w : list B) (f : A → B → C) k n :
  n ≠ 0 → length v < k + n ∨ length w < k + n →
  mapM (λ i, a ← at_ v i; b ← at_ w i; Ok (f a b)) (seq k n) = Err out_of_range.
Proof.
  revert k. induction n as [|n IH]; intros k Hn Hshort; [done|].
  cbn [seq mapM].
  destruct (at_ v k) as [a|e] eqn:Ha; [|by apply at_Err in Ha as [-> _]].
  rewrite bind_Ok_l.
  destruct (at_ w k) as [b|e] eqn:Hb; [|by apply at_Err in Hb as [-> _]].
  rewrite !bind_Ok_l.
  apply at_Ok, lookup_lt_Some in Ha. apply at_Ok, lookup_lt_Some in Hb.
  rewrite IH; [done|lia|lia].
Qed.

Lemma forIndex_at2 {A B C} (v : list A) (w : list B) (f : A → B → C) :
  forIndex (length v) (λ i, a ← at_ v i; b ← at_ w i; Ok (f a b)) =
    if decide (length v ≤ length w) then Ok (zip_with f v w) else Err out_of_range.
Proof.
  unfold forIndex. case_decide as Hlen.
  - rewrite mapM_at2 by (simpl; lia). rewrite drop_0.
    rewrite take_ge; [done|]. rewrite length_zip_with. lia.
  - apply mapM_at2_out_of_range; [|lia]. destruct v; simpl in *; lia.
Qed.

Lemma privatelyShareThresholds_plaintext usingBatch inputEncryption
    (touchpoints : list (TouchpointT usingBatch))
    (privateTouchpoints : list (PrivateTouchpointT usingBatch))
    (attributionRule : AttributionRule usingBatch) (batchSize : N) :
  inputEncryption ≠ Xor →
  privatelyShareThresholds usingBatch inputEncryption touchpoints privateTouchpoints
    attributionRule batchSize
    = Ok (plaintextThresholds usingBatch attributionRule touchpoints).
Proof.
  intros Henc.
  destruct usingBatch; cbn [privatelyShareThresholds plaintextThresholds];
    rewrite decide_True by done.
  - etrans; [|apply mapM_result_fmap].
    exact (forIndex_at_mapM (A:=Touchpoint true) touchpoints
             (λ tp, Ok (computeThresholdsPlaintext attributionRule tp))).
  - etrans.
    { exact (forIndex_at_mapM (A:=list (Touchpoint false)) touchpoints
               (λ touchpointRow, forIndex (length touchpointRow) (λ j,
                  tp ← at_ touchpointRow j;
                  Ok (computeThresholdsPlaintext attributionRule tp)))). }
    etrans; [|apply mapM_result_fmap].
    apply mapM_result_ext. intros row _.
    etrans; [|apply mapM_result_fmap].
    exact (forIndex_at_mapM row (λ tp, Ok (computeThresholdsPlaintext attributionRule tp))).
Qed.

(** X6.  On input that is not XOR-shared the thresholds are computed from the
    clear touchpoints alone: the call always returns, with the thresholds of
    every touchpoint in the shape of the touchpoint arrays, whatever the
    private touchpoints and the batch size it is handed. *)
Theorem plaintext_thresholds usingBatch inputEncryption
    (touchpoints : list (TouchpointT usingBatch))
    (privateTouchpoints : list (PrivateTouchpointT usingBatch))
    (attributionRule : AttributionRule usingBatch) (batchSize : N) :
  inputEncryption ≠ Xor →
  privatelyShareThresholds usingBatch inputEncryption touchpoints privateTouchpoints
    attributionRule batchSize
    = Ok (plaintextThresholds usingBatch attributionRule touchpoints).
Proof. apply privatelyShareThresholds_plaintext. Qed.

Lemma plaintext_thresholds_witness :
  privatelyShareThresholds true Plaintext sampleBatchPlainTouchpoints [] sampleLastTouchBatch
    0%N = Ok [[[86500; 86600]%N]].
Proof.
  apply (plaintext_thresholds true Plaintext sampleBatchPlainTouchpoints []
           sampleLastTouchBatch 0%N).
  discriminate.
Defined.

Lemma privatelyShareThresholds_xor_batch (touchpoints : list (TouchpointT true))
    (privateTouchpoints : list (PrivateTouchpointT true))
    (attributionRule : AttributionRule true) (batchSize : N) :
  privatelyShareThresholds true Xor touchpoints privateTouchpoints attributionRule batchSize =
    if (batchSize =? 0)%N then Err batchSizeError
    else if decide (length touchpoints ≤ length privateTouchpoints)
    then Ok (zip_with (λ tp ptp, privateThreshold attributionRule batchSize ptp tp)
               touchpoints privateTouchpoints)
    else Err out_of_range.
Proof.
  cbn [privatelyShareThresholds]. rewrite decide_False by (by intros ?).
  unfold requirePositiveBatchSize. destruct (batchSize =? 0)%N; [done|].
  rewrite bind_Ok_l. unfold privateIsClickArray. clear_arrays.
  assert (∀ i, i ∈ seq 0 (length touchpoints) →
     (ptp ← at_ privateTouchpoints i;
      isClick ← at_ (tp_isClick <$> touchpoints) i;
      Ok (computeThresholdsPrivate attributionRule ptp isClick batchSize)) =
     (tp ← at_ touchpoints i;
      ptp ← at_ privateTouchpoints i;
      Ok (privateThreshold attributionRule batchSize ptp tp))) as Hbody.
  { intros i [_ Hi]%elem_of_seq. simpl in Hi.
    destruct (lookup_lt_is_Some_2 touchpoints i Hi) as [tp Htp].
    rewrite (at_lookup _ _ _ Htp), bind_Ok_l.
    destruct (at_ privateTouchpoints i) as [ptp|e]; [|done]. rewrite !bind_Ok_l.
    rewrite (at_lookup (tp_isClick <$> touchpoints) i (tp_isClick tp))
      by (by rewrite list_lookup_fmap, Htp).
    done. }
  unfold forIndex at 1. etrans; [exact (mapM_result_ext _ _ _ Hbody)|].
  exact (forIndex_at2 touchpoints privateTouchpoints
           (λ tp ptp, privateThreshold attributionRule batchSize ptp tp)).
Qed.

(** The inner loop of the row-wise branch, for private row [i]. *)
Lemma xor_threshold_row (attributionRule : AttributionRule false) batchSize
    (touchpoints : list (list (Touchpoint false))) i
    (privateRow : list (PrivateTouchpoint false)) :
  forIndex (length privateRow) (λ j,
    ptp ← at_ privateRow j;
    clickRow ← at_ (privateIsClickArray <$> touchpoints) i;
    isClick ← at_ clickRow j;
    Ok (computeThresholdsPrivate attributionRule ptp isClick batchSize)) =
  if decide (length privateRow ≤ length (default [] (touchpoints !! i)))
  then Ok (zip_with (privateThreshold attributionRule batchSize) privateRow
             (default [] (touchpoints !! i)))
  else Err out_of_range.
Proof.
  destruct (touchpoints !! i) as [row|] eqn:Hrow; cbn [default from_option]; unfold id.
  - unfold forIndex at 1. rewrite (mapM_result_ext _
      (λ j, ptp ← at_ privateRow j; isClick ← at_ (tp_isClick <$> row) j;
            Ok (computeThresholdsPrivate attributionRule ptp isClick batchSize))).
    2:{ intros j _. destruct (at_ privateRow j); [|done]. rewrite !bind_Ok_l.
        rewrite (at_lookup (privateIsClickArray <$> touchpoints) i (tp_isClick <$> row));
          [done|]. by rewrite list_lookup_fmap, Hrow. }
    etrans.
    { exact (forIndex_at2 privateRow (tp_isClick <$> row)
               (λ ptp isClick, computeThresholdsPrivate attributionRule ptp isClick batchSize)). }
    rewrite length_fmap. case_decide; [|done]. f_equal.
    by rewrite zip_with_fmap_r.
  - destruct privateRow as [|ptp privateRow]; [done|].
    rewrite decide_False by (simpl; lia).
    unfold forIndex. cbn [length seq mapM]. cbn [at_ lookup list_lookup]. rewrite bind_Ok_l.
    assert (at_ (privateIsClickArray <$> touchpoints) i = Err out_of_range) as ->; [|done].
    unfold at_. by rewrite list_lookup_fmap, Hrow.
Qed.

Lemma privatelyShareThresholds_xor_rows (touchpoints : list (TouchpointT false))
    (privateTouchpoints : list (PrivateTouchpointT false))
    (attributionRule : AttributionRule false) (batchSize : N) :
  (rowsFit privateTouchpoints touchpoints →
   privatelyShareThresholds false Xor touchpoints privateTouchpoints attributionRule batchSize
     = Ok (imap (λ i privateRow,
                   zip_with (privateThreshold attributionRule batchSize) privateRow
                     (default [] (touchpoints !! i)))
             privateTouchpoints)) ∧
  (¬ rowsFit privateTouchpoints touchpoints →
   privatelyShareThresholds false Xor touchpoints privateTouchpoints attributionRule batchSize
     = Err out_of_range).
Proof.
  pose (inner := λ (i : nat) (privateRow : list (PrivateTouchpoint false)),
    forIndex (length privateRow) (λ j,
      ptp ← at_ privateRow j;
      clickRow ← at_ (privateIsClickArray <$> touchpoints) i;
      isClick ← at_ clickRow j;
      Ok (computeThresholdsPrivate attributionRule ptp isClick batchSize))).
  assert (privatelyShareThresholds false Xor touchpoints privateTouchpoints attributionRule
            batchSize
          = mapM (λ p, inner p.1 p.2) (imap pair privateTouchpoints)) as ->.
  { cbn [privatelyShareThresholds]. rewrite decide_False by (by intros ?).
    exact (forIndex_at (A:=list (PrivateTouchpoint false)) privateTouchpoints inner). }
  clear_arrays.
  split.
  - intros Hfit.
    rewrite (mapM_result_ext _
      (λ p, Ok (zip_with (privateThreshold attributionRule batchSize) p.2
                  (default [] (touchpoints !! p.1))))).
    + rewrite mapM_result_fmap, fmap_imap. done.
    + intros [i privateRow] (i' & x & [= <- <-] & Hi)%elem_of_lookup_imap_1. cbn [fst snd].
      unfold inner. rewrite xor_threshold_row. rewrite decide_True; [done|].
      by apply Hfit.
  - intros Hfit.
    destruct (mapM _ _) as [out|e] eqn:Hrun.
    + destruct Hfit. intros i privateRow Hi.
      apply mapM_result_Ok in Hrun.
      destruct (Forall2_lookup_l _ _ _ i (i, privateRow) Hrun) as (y & _ & Hinner).
      { by rewrite list_lookup_imap, Hi. }
      cbn [fst snd] in Hinner. unfold inner in Hinner.
      rewrite xor_threshold_row in Hinner. by case_decide.
    + apply mapM_result_Err in Hrun as ([i privateRow] & _ & Hinner).
      cbn [fst snd] in Hinner. unfold inner in Hinner.
      rewrite xor_threshold_row in Hinner. case_decide; congruence.
Qed.

(** X7.  On XOR-shared input the two modes bound their loops differently.  In
    batch mode the batch size is tested first; the loop then runs over the
    clear touchpoints and reads the private ones under the same index, so a
    private array shorter than the clear one ends the call with
    [std::out_of_range], and otherwise there is one threshold list per clear
    touchpoint.  Row-wise the loops run over the private touchpoints and read
    the click flags of the clear ones: the call returns, with one threshold
    list per private touchpoint, when every private row finds a clear row at
    least as long, and ends with [std::out_of_range] otherwise. *)
Theorem xor_thresholds_bounds :
  (∀ (touchpoints : list (TouchpointT true))
     (privateTouchpoints : list (PrivateTouchpointT true))
     (attributionRule : AttributionRule true) (batchSize : N),
     privatelyShareThresholds true Xor touchpoints privateTouchpoints attributionRule
       batchSize =
       if (batchSize =? 0)%N then Err batchSizeError
       else if decide (length touchpoints ≤ length privateTouchpoints)
       then Ok (zip_with (λ tp ptp, privateThreshold attributionRule batchSize ptp tp)
                  touchpoints privateTouchpoints)
       else Err out_of_range) ∧
  (∀ (touchpoints : list (TouchpointT false))
     (privateTouchpoints : list (PrivateTouchpointT false))
     (attributionRule : AttributionRule false) (batchSize : N),
     (rowsFit privateTouchpoints touchpoints →
      privatelyShareThresholds false Xor touchpoints privateTouchpoints attributionRule
        batchSize
        = Ok (imap (λ i privateRow,
                      zip_with (privateThreshold attributionRule batchSize) privateRow
                        (default [] (touchpoints !! i)))
                privateTouchpoints)) ∧
     (¬ rowsFit privateTouchpoints touchpoints →
      privatelyShareThresholds false Xor touchpoints privateTouchpoints attributionRule
        batchSize = Err out_of_range)).
Proof.
  split.
  - apply privatelyShareThresholds_xor_batch.
  - apply privatelyShareThresholds_xor_rows.
Qed.

Lemma imap_Forall2 {A B} (P : A → B → Prop) (f : nat → A → B) (l : list A) :
  (∀ i x, l !! i = Some x → P x (f i x)) → Forall2 P l (imap f l).
Proof.
  revert f. induction l as [|x l IH]; intros f Hf; [constructor|].
  cbn [imap]. constructor; [by apply (Hf 0)|].
  apply IH. intros i y Hy. by apply (Hf (S i)).
Qed.

Lemma privatelyShareThresholds_shared {usingBatch} inputEncryption
    (shareTouchpoint : ∀ b, Touchpoint b → PrivateTouchpoint b)
    (touchpoints : list (TouchpointT usingBatch))
    (attributionRule : AttributionRule usingBatch) (batchSize : N) :
  match privatelyShareThresholds usingBatch inputEncryption touchpoints
          (privatelyShareTouchpoints shareTouchpoint touchpoints) attributionRule batchSize
  with
  | Ok thresholdArrays =>
      ¬ (zeroBatch usingBatch batchSize ∧ inputEncryption = Xor) ∧
      length thresholdArrays
        = length (privatelyShareTouchpoints shareTouchpoint touchpoints) ∧
      helperArraysAgree usingBatch (privatelyShareTouchpoints shareTouchpoint touchpoints)
        thresholdArrays
  | Err e => zeroBatch usingBatch batchSize ∧ inputEncryption = Xor ∧ e = batchSizeError
  end.
Proof.
  destruct (decide (inputEncryption = Xor)) as [->|Henc].
  - destruct usingBatch.
    + rewrite privatelyShareThresholds_xor_batch. unfold zeroBatch.
      destruct (N.eqb_spec batchSize 0) as [->|Hpos]; [done|].
      cbn [privatelyShareTouchpoints]. rewrite decide_True by (by rewrite length_fmap).
      split; [naive_solver|]. cbn [helperArraysAgree].
      rewrite length_zip_with, !length_fmap. lia.
    + destruct (privatelyShareThresholds_xor_rows touchpoints
                  (privatelyShareTouchpoints shareTouchpoint touchpoints)
                  attributionRule batchSize) as [-> _].
      * split; [by intros [[? _] _]|]. split; [by rewrite length_imap|].
        cbn [helperArraysAgree]. apply imap_Forall2. intros i privateRow.
        cbn [privatelyShareTouchpoints]. clear_arrays. rewrite list_lookup_fmap.
        destruct (touchpoints !! i) as [row|]; [|done]. intros [= <-]. simpl.
        rewrite length_zip_with, length_fmap. lia.
      * intros i privateRow. cbn [privatelyShareTouchpoints]. clear_arrays.
        rewrite list_lookup_fmap. destruct (touchpoints !! i) as [row|]; [|done].
        intros [= <-]. simpl. by rewrite length_fmap.
  - rewrite privatelyShareThresholds_plaintext by done.
    split; [by intros [_ ?]|].
    destruct usingBatch; cbn [privatelyShareTouchpoints plaintextThresholds helperArraysAgree].
    + by rewrite !length_fmap.
    + split; [by rewrite !length_fmap|].
      apply Forall2_fmap, Forall_Forall2_diag, Forall_forall. intros row _.
      by rewrite !length_fmap.
Qed.

(** X8.  The driver hands threshold computation the clear touchpoints together
    with their shared counterparts, and then nothing can go out of range:
    the call fails only on the batch-size test of XOR-shared batch input,
    and what it returns has one entry per touchpoint array and lines up with
    the shared touchpoints, so that neither the driver's length check nor
    the helpers' can fire on it. *)
Theorem thresholds_fit_shared_touchpoints {usingBatch} inputEncryption
    (shareTouchpoint : ∀ b, Touchpoint b → PrivateTouchpoint b)
    (touchpoints : list (TouchpointT usingBatch))
    (attributionRule : AttributionRule usingBatch) (batchSize : N) :
  match privatelyShareThresholds usingBatch inputEncryption touchpoints
          (privatelyShareTouchpoints shareTouchpoint touchpoints) attributionRule batchSize
  with
  | Ok thresholdArrays =>
      ¬ (zeroBatch usingBatch batchSize ∧ inputEncryption = Xor) ∧
      length thresholdArrays
        = length (privatelyShareTouchpoints shareTouchpoint touchpoints) ∧
      helperArraysAgree usingBatch (privatelyShareTouchpoints shareTouchpoint touchpoints)
        thresholdArrays
  | Err e => zeroBatch usingBatch batchSize ∧ inputEncryption = Xor ∧ e = batchSizeError
  end.
Proof. apply privatelyShareThresholds_shared. Qed.

(** ** Ad-id compression *)

Lemma buildCompressionMap_dom_inv l c m x :
  is_Some (buildCompressionMap l c m !! x) → x ∈ l ∨ is_Some (m !! x).
Proof.
  revert c m. induction l as [|o l IH]; intros c m Hx; [by right|].
  cbn [buildCompressionMap] in Hx. apply IH in Hx as [Hx|Hx]; [left; by right|].
  unfold unordered_map_insert in Hx. destruct (m !! o) as [v|] eqn:Ho; [by right|].
  destruct (decide (o = x)) as [->|Hne]; [left; by left|].
  rewrite lookup_insert_ne in Hx by done. by right.
Qed.

Lemma compressAdIds_Err inputEncryption openToPublisher usingBatch myRole
    (touchpoints : list (TouchpointT usingBatch)) e :
  compressAdIds inputEncryption openToPublisher usingBatch myRole touchpoints = Err e →
  e = tooManyAdIds ∧
  (65536 < N.of_nat (size (distinctOriginalAdIds inputEncryption openToPublisher usingBatch
                             touchpoints)))%N.
Proof.
  unfold distinctOriginalAdIds. rewrite <-originalAdIds_revealed.
  unfold compressAdIds, retrieveValidOriginalAdIds.
  rewrite retrieveLoop_spec. unfold CHECK_LE_65536.
  set (revealed := revealedTouchpoints inputEncryption openToPublisher usingBatch touchpoints).
  set (adIdSet := foldl insertValid ∅ (originalAdIds usingBatch revealed)).
  destruct (N.leb_spec (N.of_nat (size adIdSet)) 65536) as [Hsize|Hsize].
  - rewrite !bind_Ok_l.
    destruct (replaceAdIdWithCompressedAdId_accepts usingBatch revealed
                (merge_sort N.le (elements adIdSet))) as [touchpoints' ->]; [|done].
    intros o Ho Hpos. rewrite merge_sort_Permutation, elem_of_elements.
    unfold adIdSet. rewrite elem_of_foldl_insertValid. by right.
  - by intros [= <-].
Qed.

(** X9.  The compression stage returns exactly when the touchpoints hold at most
    65536 distinct positive original ad ids, and otherwise fails the check
    on their number: the map lookups of the rewriting never miss, because
    every id they ask for was collected from the same touchpoints. *)
Theorem compression_outcomes inputEncryption openToPublisher usingBatch myRole
    (touchpoints : list (TouchpointT usingBatch)) :
  match compressAdIds inputEncryption openToPublisher usingBatch myRole touchpoints with
  | Ok _ =>
      (N.of_nat (size (distinctOriginalAdIds inputEncryption openToPublisher usingBatch
                         touchpoints)) ≤ 65536)%N
  | Err e =>
      e = tooManyAdIds ∧
      (65536 < N.of_nat (size (distinctOriginalAdIds inputEncryption openToPublisher
                                 usingBatch touchpoints)))%N
  end.
Proof.
  destruct (compressAdIds _ _ _ _ _) as [out|e] eqn:Hrun.
  - apply (compressAdIds_accepts inputEncryption openToPublisher usingBatch myRole).
    by rewrite Hrun.
  - by apply compressAdIds_Err in Hrun.
Qed.

Lemma map_at_Err (m : gmap N N) k e :
  map_at m k = Err e → e = out_of_range ∧ m !! k = None.
Proof. unfold map_at. destruct (m !! k); [done|]. by intros [= <-]. Qed.

Lemma replaceBatch_Err m (tp : Touchpoint true) e :
  replaceBatch m tp = Err e →
  e = out_of_range ∧ ∃ o, o ∈ tp_originalAdId tp ∧ (0 < o)%N ∧ m !! o = None.
Proof.
  unfold replaceBatch.
  destruct (mapM _ (tp_originalAdId tp)) as [adIds|e'] eqn:Hrun; [done|].
  intros [= <-]. apply mapM_result_Err in Hrun as (o & Ho & Hlookup).
  destruct (N.ltb_spec 0 o) as [Hpos|]; [|done].
  apply map_at_Err in Hlookup as [-> ?]. eauto.
Qed.

Lemma replaceRowwise_Err m (tp : Touchpoint false) e :
  replaceRowwise m tp = Err e →
  e = out_of_range ∧ (0 < tp_originalAdId tp)%N ∧ m !! tp_originalAdId tp = None.
Proof.
  unfold replaceRowwise. destruct (N.ltb_spec 0 (tp_originalAdId tp)) as [Hpos|]; [|done].
  destruct (map_at m (tp_originalAdId tp)) as [a|e'] eqn:Hm; [done|].
  intros [= <-]. by apply map_at_Err in Hm as [-> ?].
Qed.

Lemma replaceAdIdWithCompressedAdId_Err usingBatch
    (touchpoints : list (TouchpointT usingBatch)) validOriginalAdIds e :
  replaceAdIdWithCompressedAdId usingBatch touchpoints validOriginalAdIds = Err e →
  e = out_of_range ∧
  ∃ o, o ∈ originalAdIds usingBatch touchpoints ∧ (0 < o)%N ∧ o ∉ validOriginalAdIds.
Proof.
  assert (∀ o, buildCompressionMap validOriginalAdIds 1%N ∅ !! o = None →
               o ∉ validOriginalAdIds) as Hmiss.
  { intros o Hnone Hin.
    destruct (buildCompressionMap_dom validOriginalAdIds 1%N ∅ o) as [a Ha]; [by left|].
    congruence. }
  destruct usingBatch; cbn [replaceAdIdWithCompressedAdId originalAdIds].
  - intros (tp & Htp & (-> & o & Ho & Hpos & Hnone)%replaceBatch_Err)%mapM_result_Err.
    split; [done|]. exists o. split; [|by auto].
    apply list_elem_of_bind. eauto.
  - intros (row & Hrow & (tp & Htp & Herr)%mapM_result_Err)%mapM_result_Err.
    apply replaceRowwise_Err in Herr as (-> & Hpos & Hnone).
    split; [done|]. exists (tp_originalAdId tp). split; [|by auto].
    apply list_elem_of_bind. exists row. split; [|done].
    apply list_elem_of_fmap. eauto.
Qed.

Lemma replaceAdIdWithCompressedAdId_covered usingBatch
    (touchpoints touchpoints' : list (TouchpointT usingBatch)) validOriginalAdIds :
  replaceAdIdWithCompressedAdId usingBatch touchpoints validOriginalAdIds = Ok touchpoints' →
  ∀ o, o ∈ originalAdIds usingBatch touchpoints → (0 < o)%N → o ∈ validOriginalAdIds.
Proof.
  intros Hrun o Ho Hpos.
  assert (is_Some (buildCompressionMap validOriginalAdIds 1%N ∅ !! o)) as Hsome.
  { destruct usingBatch; cbn [replaceAdIdWithCompressedAdId] in Hrun.
    - apply replaceBatch_pairs in Hrun as [Hfst Hrew].
      rewrite <-Hfst in Ho. apply list_elem_of_fmap in Ho as ([o' a] & -> & Hpair).
      rewrite Forall_forall in Hrew. destruct (Hrew _ Hpair) as [Hlookup _].
      exists a. by apply Hlookup.
    - apply replaceRows_pairs in Hrun as [Hfst Hrew].
      rewrite <-Hfst in Ho. apply list_elem_of_fmap in Ho as ([o' a] & -> & Hpair).
      apply list_elem_of_lookup in Hpair as [p Hp].
      destruct (Forall2_lookup_r _ _ _ _ _ Hrew Hp) as (before & _ & [Hlookup _]).
      exists a. by apply Hlookup. }
  apply buildCompressionMap_dom_inv in Hsome as [?|[? Hempty]]; [done|].
  by rewrite lookup_empty in Hempty.
Qed.

(** X10.  Handed a vector of valid ids of its own, the rewriting depends on it
    holding every positive original ad id of the touchpoints: it returns when
    it does, and ends with [std::out_of_range], thrown by the lookup in the
    compression map, as soon as one is missing. *)
Theorem rewriting_needs_every_id usingBatch
    (touchpoints : list (TouchpointT usingBatch)) (validOriginalAdIds : list N) :
  match replaceAdIdWithCompressedAdId usingBatch touchpoints validOriginalAdIds with
  | Ok _ =>
      ∀ o, o ∈ originalAdIds usingBatch touchpoints → (0 < o)%N → o ∈ validOriginalAdIds
  | Err e =>
      e = out_of_range ∧
      ∃ o, o ∈ originalAdIds usingBatch touchpoints ∧ (0 < o)%N ∧ o ∉ validOriginalAdIds
  end.
Proof.
  destruct (replaceAdIdWithCompressedAdId _ _ _) as [touchpoints'|e] eqn:Hrun.
  - by eapply replaceAdIdWithCompressedAdId_covered.
  - by apply replaceAdIdWithCompressedAdId_Err in Hrun.
Qed.

Lemma replaceBatch_frame m (tp tp' : Touchpoint true) :
  replaceBatch m tp = Ok tp' →
  set_adId (usingBatch:=true) [] tp' = set_adId (usingBatch:=true) [] tp ∧
  length (tp_adId tp') = length (tp_originalAdId tp').
Proof.
  intros Hrun. destruct (replaceBatch_Ok _ _ _ Hrun) as (Horig & Hlen & _).
  split; [|by rewrite Horig].
  unfold replaceBatch in Hrun. apply bind_Ok in Hrun as (adIds & _ & [= <-]). done.
Qed.

Lemma replaceRowwise_frame m (tp tp' : Touchpoint false) :
  replaceRowwise m tp = Ok tp' →
  set_adId (usingBatch:=false) 0%N tp' = set_adId (usingBatch:=false) 0%N tp.
Proof.
  unfold replaceRowwise. destruct (0 <? tp_originalAdId tp)%N.
  - by intros (adId & _ & [= <-])%bind_Ok.
  - by intros [= <-].
Qed.

(** X11.  The rewriting changes the ad ids and nothing else: the arrays keep their
    shape, and every event keeps its id, its click flag, its timestamp and
    its original ad id; in batch mode the new vector of ad ids is as long as
    the vector of original ad ids. *)
Theorem rewriting_touches_only_ad_ids usingBatch
    (touchpoints touchpoints' : list (TouchpointT usingBatch)) (validOriginalAdIds : list N) :
  replaceAdIdWithCompressedAdId usingBatch touchpoints validOriginalAdIds = Ok touchpoints' →
  withoutAdIds usingBatch touchpoints' = withoutAdIds usingBatch touchpoints ∧
  adIdsAligned usingBatch touchpoints'.
Proof.
  destruct usingBatch; cbn [replaceAdIdWithCompressedAdId withoutAdIds adIdsAligned].
  - intros Hall%mapM_result_Ok.
    induction Hall as [|tp tp' tps tps' Htp _ [IH1 IH2]]; [by split|].
    apply replaceBatch_frame in Htp as [Hframe Hlen].
    split; [|by constructor]. rewrite !fmap_cons. by f_equal.
  - intros Hall%mapM_result_Ok. split; [|done].
    induction Hall as [|row row' rows rows' Hrow _ IH]; [done|].
    rewrite !fmap_cons. f_equal; [|done].
    apply mapM_result_Ok in Hrow. clear -Hrow.
    induction Hrow as [|tp tp' ? ? Htp _ IH]; [done|].
    apply replaceRowwise_frame in Htp. rewrite !fmap_cons. by f_equal.
Qed.

Lemma rewriting_touches_only_ad_ids_witness :
  withoutAdIds true exampleBatchCompressed = withoutAdIds true exampleBatch ∧
  adIdsAligned true exampleBatchCompressed.
Proof.
  apply (rewriting_touches_only_ad_ids true exampleBatch exampleBatchCompressed
           [17; 42; 500]%N).
  reflexivity.
Defined.

Lemma valid_of_compressAdIds inputEncryption openToPublisher usingBatch myRole
    (touchpoints touchpoints' : list (TouchpointT usingBatch)) (artifact : gmap string N)
    valid rest :
  compressAdIds inputEncryption openToPublisher usingBatch myRole touchpoints
    = Ok (touchpoints', artifact) →
  retrieveValidOriginalAdIds inputEncryption openToPublisher usingBatch myRole touchpoints
    = Ok (valid, rest) →
  valid = merge_sort N.le (elements (distinctOriginalAdIds inputEncryption openToPublisher
                                       usingBatch touchpoints)) ∧
  artifact = buildPersistedMap valid 1%N ∅.
Proof.
  intros (_ & Hretrieve & -> & _)%compressAdIds_Ok Hvalid.
  rewrite Hretrieve in Hvalid. injection Hvalid as <- <-.
  unfold distinctOriginalAdIds. by rewrite <-originalAdIds_revealed.
Qed.

(** X12.  Below the capacity of the counter the dense ids are a faithful renaming:
    every event with a positive original ad id gets a dense id between 1 and
    the number of distinct ids, two events get the same dense id exactly when
    they have the same original ad id, and dense ids are ordered as the
    original ad ids are. *)
Theorem dense_ids_preserve_order inputEncryption openToPublisher usingBatch myRole
    (touchpoints touchpoints' : list (TouchpointT usingBatch)) (artifact : gmap string N)
    o1 a1 o2 a2 :
  compressAdIds inputEncryption openToPublisher usingBatch myRole touchpoints
    = Ok (touchpoints', artifact) →
  (N.of_nat (size (distinctOriginalAdIds inputEncryption openToPublisher usingBatch
                     touchpoints)) < 65536)%N →
  (o1, a1) ∈ adIdPairs usingBatch touchpoints' → (0 < o1)%N →
  (o2, a2) ∈ adIdPairs usingBatch touchpoints' → (0 < o2)%N →
  (1 ≤ a1 ≤ N.of_nat (size (distinctOriginalAdIds inputEncryption openToPublisher usingBatch
                              touchpoints)))%N ∧
  (o1 = o2 ↔ a1 = a2) ∧
  ((o1 < o2)%N ↔ (a1 < a2)%N).
Proof.
  intros Hrun Hsmall H1 Hpos1 H2 Hpos2.
  destruct (compressAdIds_sound _ _ _ _ _ _ _ Hrun)
    as (valid & Hretrieve & _ & Hsorted & _ & _ & Hdense & _).
  destruct (valid_of_compressAdIds _ _ _ _ _ _ _ _ _ Hrun Hretrieve) as [Hvalid _].
  assert (length valid = size (distinctOriginalAdIds inputEncryption openToPublisher
                                 usingBatch touchpoints)) as Hlength.
  { rewrite Hvalid. by destruct (sorted_elements (distinctOriginalAdIds inputEncryption
                                   openToPublisher usingBatch touchpoints))
      as (_ & _ & _ & ? & _). }
  rewrite <-Hlength in *.
  destruct (Hdense Hsmall o1 a1 H1 Hpos1) as (k1 & Hk1 & -> & _).
  destruct (Hdense Hsmall o2 a2 H2 Hpos2) as (k2 & Hk2 & -> & _).
  pose proof (lookup_lt_Some _ _ _ Hk1) as Hlt1.
  split; [lia|].
  destruct (Nat.lt_trichotomy k1 k2) as [Hlt|[->|Hlt]].
  - pose proof (StronglySorted_lt_lookup _ _ _ _ _ Hsorted Hk1 Hk2 Hlt). split; lia.
  - assert (o1 = o2) by congruence. split; [done|]. lia.
  - pose proof (StronglySorted_lt_lookup _ _ _ _ _ Hsorted Hk2 Hk1 Hlt). split; lia.
Qed.

Lemma dense_ids_preserve_order_witness :
  (1 ≤ 1 ≤ 3)%N ∧ (17%N = 500%N ↔ 1%N = 3%N) ∧ ((17 < 500)%N ↔ (1 < 3)%N).
Proof.
  apply (dense_ids_preserve_order Plaintext id true PUBLISHER exampleBatch
           exampleBatchCompressed exampleArtifact 17%N 1%N 500%N 3%N).
  - reflexivity.
  - vm_compute. reflexivity.
  - apply (bool_decide_unpack _). vm_compute. exact I.
  - reflexivity.
  - apply (bool_decide_unpack _). vm_compute. exact I.
  - reflexivity.
Defined.

Lemma retrieval_unchanged inputEncryption openToPublisher usingBatch
    (touchpoints : list (TouchpointT usingBatch)) :
  inputEncryption ≠ Xor →
  revealedTouchpoints inputEncryption openToPublisher usingBatch touchpoints = touchpoints.
Proof.
  intros Henc.
  assert (∀ adId, revealAdId inputEncryption openToPublisher adId = adId) as Hreveal.
  { intros adId. unfold revealAdId. by rewrite decide_False. }
  destruct usingBatch; cbn [revealedTouchpoints].
  - rewrite <-(list_fmap_id touchpoints) at 2. apply list_fmap_ext. intros _ tp _.
    rewrite (list_fmap_ext _ id (tp_originalAdId tp)) by (intros; apply Hreveal).
    rewrite list_fmap_id. by destruct tp.
  - rewrite <-(list_fmap_id touchpoints) at 2. apply list_fmap_ext. intros _ row _.
    rewrite <-(list_fmap_id row) at 2. apply list_fmap_ext. intros _ tp _.
    rewrite Hreveal. by destruct tp.
Qed.

(** X13.  Collecting the ad ids rewrites the touchpoints only to open XOR-shared
    ids: on input that is not XOR-shared the call hands the touchpoints back
    as they were, next to a vector of at most 65536 ids that holds exactly
    the positive original ad ids of the events; it fails only on the check
    of their number. *)
Theorem retrieval_of_clear_input inputEncryption openToPublisher usingBatch myRole
    (touchpoints : list (TouchpointT usingBatch)) :
  inputEncryption ≠ Xor →
  match retrieveValidOriginalAdIds inputEncryption openToPublisher usingBatch myRole
          touchpoints with
  | Ok (validOriginalAdIds, touchpoints') =>
      touchpoints' = touchpoints ∧
      (N.of_nat (length validOriginalAdIds) ≤ 65536)%N ∧
      ∀ o, o ∈ validOriginalAdIds ↔ (0 < o)%N ∧ o ∈ originalAdIds usingBatch touchpoints
  | Err e => e = tooManyAdIds
  end.
Proof.
  intros Henc. unfold retrieveValidOriginalAdIds. rewrite retrieveLoop_spec.
  rewrite retrieval_unchanged by done. unfold CHECK_LE_65536.
  set (adIdSet := foldl insertValid ∅ (originalAdIds usingBatch touchpoints)).
  destruct (sorted_elements adIdSet) as (_ & _ & Hin & Hlength & _).
  destruct (N.leb_spec (N.of_nat (size adIdSet)) 65536) as [Hsize|Hsize]; [|done].
  rewrite bind_Ok_l. split; [done|]. split; [by rewrite Hlength|].
  intros o. rewrite Hin. unfold adIdSet. rewrite elem_of_foldl_insertValid. set_solver.
Qed.

Lemma retrieval_of_clear_input_witness :
  retrieveValidOriginalAdIds Plaintext id true PUBLISHER exampleBatch
    = Ok ([17; 42; 500]%N, exampleBatch).
Proof.
  pose proof (retrieval_of_clear_input Plaintext id true PUBLISHER exampleBatch) as Hclear.
  destruct (retrieveValidOriginalAdIds Plaintext id true PUBLISHER exampleBatch)
    as [[valid touchpoints']|e] eqn:Hrun.
  - destruct Hclear as (-> & _); [discriminate|]. vm_compute in Hrun. exact (eq_sym Hrun).
  - vm_compute in Hrun. discriminate Hrun.
Defined.

(** X14.  The persisted mapping depends on the set of positive original ad ids and
    on nothing else: two inputs that hold the same ids, in whatever order,
    multiplicity and mode, are given the same mapping. *)
Theorem mapping_depends_only_on_the_ids inputEncryption openToPublisher
    usingBatch1 usingBatch2 myRole1 myRole2
    (touchpoints1 : list (TouchpointT usingBatch1))
    (touchpoints2 : list (TouchpointT usingBatch2))
    touchpoints1' touchpoints2' (artifact1 artifact2 : gmap string N) :
  compressAdIds inputEncryption openToPublisher usingBatch1 myRole1 touchpoints1
    = Ok (touchpoints1', artifact1) →
  compressAdIds inputEncryption openToPublisher usingBatch2 myRole2 touchpoints2
    = Ok (touchpoints2', artifact2) →
  distinctOriginalAdIds inputEncryption openToPublisher usingBatch1 touchpoints1 =
    distinctOriginalAdIds inputEncryption openToPublisher usingBatch2 touchpoints2 →
  artifact1 = artifact2.
Proof.
  intros (_ & _ & -> & _)%compressAdIds_Ok (_ & _ & -> & _)%compressAdIds_Ok.
  unfold distinctOriginalAdIds. rewrite <-!originalAdIds_revealed. by intros ->.
Qed.

Lemma mapping_depends_only_on_the_ids_witness :
  ∃ touchpoints',
    compressAdIds Plaintext id true PARTNER exampleBatchShuffled
      = Ok (touchpoints', exampleArtifact).
Proof.
  destruct (compressAdIds Plaintext id true PARTNER exampleBatchShuffled)
    as [[touchpoints' artifact]|e] eqn:Hrun.
  - exists touchpoints'. do 2 f_equal.
    apply (mapping_depends_only_on_the_ids Plaintext id true true PARTNER PUBLISHER
             exampleBatchShuffled exampleBatch touchpoints' exampleBatchCompressed
             artifact exampleArtifact).
    + exact Hrun.
    + vm_compute. reflexivity.
    + vm_compute. reflexivity.
  - vm_compute in Hrun. discriminate Hrun.
Defined.

(** ** The driver *)

Lemma yields_ret {A} (a : A) : yields (mret a) (Ok a).
Proof. by intros trace. Qed.

Lemma yields_lift {A} (m : result A) : yields (lift m) m.
Proof. by intros trace. Qed.

Lemma yields_record c : yields (record c) (Ok tt).
Proof. by intros trace. Qed.

Lemma yields_bind {A B} (m : Traced A) (f : A → Traced B) r (g : A → result B) :
  yields m r → (∀ a, r = Ok a → yields (f a) (g a)) → yields (m ≫= f) (r ≫= g).
Proof.
  intros Hm Hf trace. unfold mbind at 1, traced_bind. specialize (Hm trace).
  destruct (m trace) as [[a|e] trace']; simpl in Hm; subst r; simpl; [by apply Hf|done].
Qed.

Lemma yields_mapM {A B} (f : A → Traced B) (g : A → result B) (l : list A) :
  (∀ x, x ∈ l → yields (f x) (g x)) → yields (mapM f l) (mapM g l).
Proof.
  induction l as [|x l IH]; intros Hfg; [apply yields_ret|].
  cbn [mapM]. apply yields_bind; [apply Hfg, list_elem_of_here|].
  intros y _. apply yields_bind.
  - apply IH. intros z Hz. by apply Hfg, list_elem_of_further.
  - intros k _. apply yields_ret.
Qed.

Lemma yields_call_computeAttributionsHelper {b} touchpoints conversions
    (attributionRule : AttributionRule b) thresholds batchSize :
  yields (call_computeAttributionsHelper touchpoints conversions attributionRule thresholds
            batchSize)
    (computeAttributionsHelper touchpoints conversions attributionRule thresholds batchSize).
Proof.
  unfold call_computeAttributionsHelper.
  apply (yields_bind _ _ (Ok tt) (λ _, computeAttributionsHelper touchpoints conversions
                                        attributionRule thresholds batchSize)).
  - apply yields_record.
  - intros _ _. apply yields_lift.
Qed.

Lemma yields_call_computeAttributionsHelperV2 {b} touchpoints conversions
    (attributionRule : AttributionRule b) thresholds batchSize :
  yields (call_computeAttributionsHelperV2 touchpoints conversions attributionRule thresholds
            batchSize)
    (computeAttributionsHelperV2 touchpoints conversions attributionRule thresholds batchSize).
Proof.
  unfold call_computeAttributionsHelperV2.
  apply (yields_bind _ _ (Ok tt) (λ _, computeAttributionsHelperV2 touchpoints conversions
                                        attributionRule thresholds batchSize)).
  - apply yields_record.
  - intros _ _. apply yields_lift.
Qed.

(** *** The loop over the rows of a shard *)

Section RowLoop.
Context {A B C D : Type}.
Variable f : A → B → C → result D.
Variable tpArrays : list A.
Variable convArrays : list B.
Variable thresholdArrays : list C.

Let body (i : nat) : result D :=
  tpRow ← at_ tpArrays i;
  convRow ← at_ convArrays i;
  thresholdRow ← at_ thresholdArrays i;
  f tpRow convRow thresholdRow.

Lemma yields_rowLoop (call : A → B → C → Traced D) n :
  (∀ a b c, yields (call a b c) (f a b c)) →
  yields (mapM (λ i,
            tpRow ← lift (at_ tpArrays i);
            convRow ← lift (at_ convArrays i);
            thresholdRow ← lift (at_ thresholdArrays i);
            call tpRow convRow thresholdRow) (seq 0 n))
    (mapM body (seq 0 n)).
Proof.
  intros Hcall. apply yields_mapM. intros i _. unfold body.
  apply yields_bind; [apply yields_lift|]. intros a _.
  apply yields_bind; [apply yields_lift|]. intros b _.
  apply yields_bind; [apply yields_lift|]. intros c _. apply Hcall.
Qed.

Lemma rowLoop_Ok n rows :
  mapM body (seq 0 n) = Ok rows → rowwise f tpArrays convArrays thresholdArrays n rows.
Proof.
  intros Hall%mapM_result_Ok. split.
  - apply Forall2_length in Hall. by rewrite length_seq in Hall.
  - intros i row Hrow.
    destruct (Forall2_lookup_r _ _ _ _ _ Hall Hrow) as (i' & Hi' & Hbody).
    apply lookup_seq in Hi' as [-> _]. simpl in Hbody. unfold body in Hbody.
    apply bind_Ok in Hbody as (a & ?%at_Ok & Hbody).
    apply bind_Ok in Hbody as (b & ?%at_Ok & Hbody).
    apply bind_Ok in Hbody as (c & ?%at_Ok & Hbody).
    by exists a, b, c.
Qed.

Lemma rowLoop_Err n e :
  mapM body (seq 0 n) = Err e →
  (e = out_of_range ∧
   (length tpArrays < n ∨ length convArrays < n ∨ length thresholdArrays < n)) ∨
  ∃ i a b c, tpArrays !! i = Some a ∧ convArrays !! i = Some b ∧
    thresholdArrays !! i = Some c ∧ f a b c = Err e.
Proof.
  intros (i & [_ Hi]%elem_of_seq & Hbody)%mapM_result_Err. simpl in Hi.
  unfold body in Hbody.
  destruct (at_ tpArrays i) as [a|e'] eqn:Ha.
  2:{ injection Hbody as <-. apply at_Err in Ha as [-> ?]. left. split; [done|]. lia. }
  destruct (at_ convArrays i) as [b|e'] eqn:Hb.
  2:{ injection Hbody as <-. apply at_Err in Hb as [-> ?]. left. split; [done|]. lia. }
  destruct (at_ thresholdArrays i) as [c|e'] eqn:Hc.
  2:{ injection Hbody as <-. apply at_Err in Hc as [-> ?]. left. split; [done|]. lia. }
  right. exists i, a, b, c. by rewrite <-!at_Ok.
Qed.

Lemma rowLoop_bounds n rows :
  mapM body (seq 0 n) = Ok rows →
  n ≤ length tpArrays ∧ n ≤ length convArrays ∧ n ≤ length thresholdArrays.
Proof.
  intros [Hlength Hrows]%rowLoop_Ok. destruct n as [|n]; [lia|].
  destruct (lookup_lt_is_Some_2 rows n) as [row Hrow]; [lia|].
  destruct (Hrows n row Hrow) as (a & b & c & Ha & Hb & Hc & _).
  apply lookup_lt_Some in Ha, Hb, Hc. lia.
Qed.

End RowLoop.

(** *** One rule *)

Lemma helperArraysAgree_lookup (tpArrays : list (PrivateTouchpointT false))
    (thresholdArrays : list (list (SecTimestampT false))) i tpRow thresholdRow :
  helperArraysAgree false tpArrays thresholdArrays →
  tpArrays !! i = Some tpRow → thresholdArrays !! i = Some thresholdRow →
  length tpRow = length thresholdRow.
Proof.
  cbn [helperArraysAgree]. intros Hagree Htp Hth.
  by apply (Forall2_lookup_lr _ _ _ _ _ _ Hagree Htp Hth).
Qed.

Lemma runHelper_outcome {usingBatch} (tpArrays : list (PrivateTouchpointT usingBatch))
    (convArrays : list (PrivateConversionT usingBatch))
    (attributionRule : AttributionRule usingBatch)
    (thresholdArrays : list (list (SecTimestampT usingBatch))) (numIds : N) :
  helperArraysAgree usingBatch tpArrays thresholdArrays →
  ∃ r, yields (runHelper tpArrays convArrays attributionRule thresholdArrays numIds) r ∧
    match r with
    | Ok attributions =>
        shardFits usingBatch numIds (length tpArrays) (length convArrays) ∧
        helperResults usingBatch tpArrays convArrays attributionRule thresholdArrays numIds
          attributions
    | Err e =>
        ¬ shardFits usingBatch numIds (length tpArrays) (length convArrays) ∧
        e = shardError usingBatch
    end.
Proof.
  destruct usingBatch; cbn [helperArraysAgree runHelper shardFits helperResults shardError];
    intros Hagree.
  - eexists. split; [apply yields_call_computeAttributionsHelper|].
    destruct (computeAttributionsHelper _ _ _ _ _) as [attributions|e] eqn:Hrun.
    + split; [|done]. apply computeAttributionsHelper_Ok in Hrun as (Hpos & _). by apply Hpos.
    + apply computeAttributionsHelper_Err in Hrun as [[[_ ->] ->]|(_ & [_ Hdiff] & _)]; [|done].
      split; [by intros ?|done].
  - eexists. split.
    { apply (yields_rowLoop
               (λ tpRow convRow thresholdRow,
                  computeAttributionsHelper tpRow convRow attributionRule thresholdRow numIds)).
      intros a b c. apply yields_call_computeAttributionsHelper. }
    destruct (mapM _ _) as [rows|e] eqn:Hrun.
    + split; [|by apply rowLoop_Ok]. apply rowLoop_bounds in Hrun. clear_arrays. lia.
    + apply Forall2_length in Hagree as Hlength.
      apply rowLoop_Err in Hrun as [[-> Hshort]|(i & a & b & c & Ha & Hb & Hc & Hrun)].
      * split; [|done]. clear_arrays. lia.
      * apply computeAttributionsHelper_Err in Hrun
          as [[[? _] _]|(_ & [_ Hdiff] & _)]; [done|].
        destruct Hdiff. by apply (helperArraysAgree_lookup tpArrays thresholdArrays i).
Qed.

Lemma runHelperV2_outcome {usingBatch} (tpArrays : list (PrivateTouchpointT usingBatch))
    (convArrays : list (PrivateConversionT usingBatch))
    (attributionRule : AttributionRule usingBatch)
    (thresholdArrays : list (list (SecTimestampT usingBatch))) (numIds : N) :
  helperArraysAgree usingBatch tpArrays thresholdArrays →
  ∃ r, yields (runHelperV2 tpArrays convArrays attributionRule thresholdArrays numIds) r ∧
    match r with
    | Ok attributionsReformatted =>
        shardFits usingBatch numIds (length tpArrays) (length convArrays) ∧
        helperResultsV2 usingBatch tpArrays convArrays attributionRule thresholdArrays numIds
          attributionsReformatted
    | Err e =>
        ¬ shardFits usingBatch numIds (length tpArrays) (length convArrays) ∧
        e = shardError usingBatch
    end.
Proof.
  destruct usingBatch;
    cbn [helperArraysAgree runHelperV2 shardFits helperResultsV2 shardError];
    intros Hagree.
  - eexists. split; [apply yields_call_computeAttributionsHelperV2|].
    destruct (computeAttributionsHelperV2 _ _ _ _ _) as [output|e] eqn:Hrun.
    + split; [|done]. apply computeAttributionsHelperV2_Ok in Hrun as (Hpos & _).
      by apply Hpos.
    + apply computeAttributionsHelperV2_Err in Hrun
        as [[[_ ->] ->]|(_ & [_ Hdiff] & _)]; [|done].
      split; [by intros ?|done].
  - eexists. split.
    { apply (yields_rowLoop
               (λ tpRow convRow thresholdRow,
                  computeAttributionsHelperV2 tpRow convRow attributionRule thresholdRow
                    numIds)).
      intros a b c. apply yields_call_computeAttributionsHelperV2. }
    destruct (mapM _ _) as [rows|e] eqn:Hrun.
    + split; [|by apply rowLoop_Ok]. apply rowLoop_bounds in Hrun. clear_arrays. lia.
    + apply Forall2_length in Hagree as Hlength.
      apply rowLoop_Err in Hrun as [[-> Hshort]|(i & a & b & c & Ha & Hb & Hc & Hrun)].
      * split; [|done]. clear_arrays. lia.
      * apply computeAttributionsHelperV2_Err in Hrun
          as [[[? _] _]|(_ & [_ Hdiff] & _)]; [done|].
        destruct Hdiff. by apply (helperArraysAgree_lookup tpArrays thresholdArrays i).
Qed.

Lemma yields_bind_Ok {A B} (m : Traced A) (f : A → Traced B) a r :
  yields m (Ok a) → yields (f a) r → yields (m ≫= f) r.
Proof.
  intros Hm Hf. apply (yields_bind m f (Ok a) (λ _, r)); [done|].
  by intros a' [= <-].
Qed.

Lemma yields_bind_Err {A B} (m : Traced A) (f : A → Traced B) e :
  yields m (Err e) → yields (m ≫= f) (Err e).
Proof. intros Hm. by apply (yields_bind m f (Err e) (λ _, Err e)). Qed.

Lemma yields_call_privatelyShareThresholds inputEncryption {usingBatch}
    (touchpoints : list (TouchpointT usingBatch)) privateTouchpoints
    (attributionRule : AttributionRule usingBatch) batchSize :
  yields (call_privatelyShareThresholds inputEncryption touchpoints privateTouchpoints
            attributionRule batchSize)
    (privatelyShareThresholds usingBatch inputEncryption touchpoints privateTouchpoints
       attributionRule batchSize).
Proof.
  unfold call_privatelyShareThresholds.
  apply (yields_bind_Ok _ _ tt); [apply yields_record|apply yields_lift].
Qed.

Lemma lastNamed_cons {usingBatch} (rule : AttributionRule usingBatch) rest target :
  lastNamed (rule :: rest) target →
  (target = rule ∧ Forall (λ later, rule_name later ≠ rule_name rule) rest) ∨
  lastNamed rest target.
Proof.
  intros ([|first before] & after & Heq & Hafter).
  - injection Heq as <- <-. by left.
  - injection Heq as <- ->. right. by exists before, after.
Qed.

Lemma lastNamed_exists {usingBatch} (rules : list (AttributionRule usingBatch)) name :
  Exists (λ rule, rule_name rule = name) rules →
  ∃ target, lastNamed rules target ∧ rule_name target = name.
Proof.
  induction rules as [|first rest IH]; [by intros ?%Exists_nil|].
  destruct (decide (Exists (λ later, rule_name later = name) rest)) as [Hex|Hno].
  - intros _. destruct (IH Hex) as (target & (before & after & -> & Hafter) & Htarget).
    exists target. split; [|done]. by exists (first :: before), after.
  - intros [Hfirst|Hrest]%Exists_cons; [|done].
    exists first. split; [|done]. exists [], rest. split; [done|].
    apply Forall_forall. intros later Hlater Hname. apply Hno, Exists_exists.
    exists later. split; [done|]. congruence.
Qed.

Lemma lastNamed_elem_of {usingBatch} (rules : list (AttributionRule usingBatch)) rule :
  lastNamed rules rule → rule ∈ rules.
Proof.
  intros (before & after & -> & _). apply elem_of_app. right. apply list_elem_of_here.
Qed.

Section RuleLoopResult.
Variable inputEncryption : InputEncryption.
Context {usingBatch : bool}.
Variable shareTouchpoint : ∀ b, Touchpoint b → PrivateTouchpoint b.
Variable use_new_output_format : bool.
Variable ids : list Z.
Variable numIds : N.
Variable touchpoints : list (TouchpointT usingBatch).
Variable convArrays : list (PrivateConversionT usingBatch).

Local Abbreviation tpArrays := (privatelyShareTouchpoints shareTouchpoint touchpoints).
Local Abbreviation fits :=
  (shardFits usingBatch numIds
     (length (privatelyShareTouchpoints shareTouchpoint touchpoints)) (length convArrays)).

Lemma revealed_outcome (attributionRule : AttributionRule usingBatch) thresholdArrays :
  privatelyShareThresholds usingBatch inputEncryption touchpoints tpArrays attributionRule
    numIds = Ok thresholdArrays →
  helperArraysAgree usingBatch tpArrays thresholdArrays →
  ∃ r,
    yields
      (if use_new_output_format then
         attributionsReformatted ←
           runHelperV2 tpArrays convArrays attributionRule thresholdArrays numIds;
         mret (AttributionReformattedOutput ids attributionsReformatted)
       else
         attributions ←
           runHelper tpArrays convArrays attributionRule thresholdArrays numIds;
         mret (AttributionOutput ids attributions)) r ∧
    match r with
    | Ok res =>
        fits ∧
        ruleResult inputEncryption use_new_output_format ids numIds touchpoints tpArrays
          convArrays attributionRule res
    | Err e => ¬ fits ∧ e = shardError usingBatch
    end.
Proof.
  intros Hthresholds Hagree. destruct use_new_output_format.
  - destruct (runHelperV2_outcome tpArrays convArrays attributionRule thresholdArrays
                numIds Hagree) as ([output|e] & Hyields & Hr).
    + exists (Ok (AttributionReformattedOutput ids output)).
      split; [by eapply yields_bind_Ok; [done|apply yields_ret]|].
      destruct Hr as [Hfits Hresults]. split; [done|]. by exists thresholdArrays.
    + exists (Err e). split; [by apply yields_bind_Err|done].
  - destruct (runHelper_outcome tpArrays convArrays attributionRule thresholdArrays
                numIds Hagree) as ([attributions|e] & Hyields & Hr).
    + exists (Ok (AttributionOutput ids attributions)).
      split; [by eapply yields_bind_Ok; [done|apply yields_ret]|].
      destruct Hr as [Hfits Hresults]. split; [done|]. by exists thresholdArrays.
    + exists (Err e). split; [by apply yields_bind_Err|done].
Qed.

Lemma ruleLoop_outcome (attributionRules : list (AttributionRule usingBatch))
    (ruleToMetrics : gmap string (gmap string (AttributionResult usingBatch))) :
  ∃ r,
    yields (ruleLoop inputEncryption use_new_output_format ids numIds touchpoints tpArrays
              convArrays attributionRules ruleToMetrics) r ∧
    match r with
    | Ok out =>
        (attributionRules ≠ [] → fits) ∧
        (∀ name, (∀ rule, rule ∈ attributionRules → rule_name rule ≠ name) →
           out !! name = ruleToMetrics !! name) ∧
        (∀ rule, lastNamed attributionRules rule →
           ∃ res, out !! rule_name rule = Some {[attributionFormat := res]} ∧
             ruleResult inputEncryption use_new_output_format ids numIds touchpoints tpArrays
               convArrays rule res)
    | Err e => attributionRules ≠ [] ∧ ¬ fits ∧ e = shardError usingBatch
    end.
Proof.
  revert ruleToMetrics.
  induction attributionRules as [|rule rest IH]; intros ruleToMetrics.
  { exists (Ok ruleToMetrics). split; [apply yields_ret|].
    split; [done|]. split; [done|].
    intros rule ([|? ?] & after & Heq & _); discriminate Heq. }
  cbn [ruleLoop].
  pose proof (privatelyShareThresholds_shared inputEncryption shareTouchpoint touchpoints
                rule numIds) as Hshared.
  pose proof (yields_call_privatelyShareThresholds inputEncryption touchpoints tpArrays
                rule numIds) as Hcall.
  destruct (privatelyShareThresholds usingBatch inputEncryption touchpoints tpArrays rule
              numIds) as [thresholdArrays|e] eqn:Hthresholds.
  2:{ exists (Err e). split; [by apply yields_bind_Err|].
      destruct Hshared as ([-> ->] & _ & ->). split; [done|]. split; [|done].
      by intros ?. }
  destruct Hshared as (_ & Hlength & Hagree).
  destruct (revealed_outcome rule thresholdArrays Hthresholds Hagree)
    as ([res|e] & Hrevealed & Hr).
  2:{ exists (Err e). split; [|by destruct Hr].
      eapply yields_bind_Ok; [done|].
      eapply (yields_bind_Ok _ _ tt).
      { unfold CHECK_EQ. rewrite decide_True by done. apply yields_lift. }
      by apply yields_bind_Err. }
  destruct Hr as [Hfits Hres].
  destruct (IH (<[rule_name rule := {[attributionFormat := res]}]> ruleToMetrics))
    as (r & Hrest & Hr).
  exists r. split.
  { eapply yields_bind_Ok; [done|].
    eapply (yields_bind_Ok _ _ tt).
    { unfold CHECK_EQ. rewrite decide_True by done. apply yields_lift. }
    by eapply yields_bind_Ok. }
  destruct r as [out|e]; [|by destruct Hr as (_ & ? & ?)].
  destruct Hr as (_ & Hother & Hlast). split; [done|]. split.
  - intros name Hname. rewrite Hother.
    + apply lookup_insert_ne. apply Hname, list_elem_of_here.
    + intros later Hlater. by apply Hname, list_elem_of_further.
  - intros target [[-> Hafter]|Htarget]%lastNamed_cons; [|by apply Hlast].
    exists res. split; [|done]. rewrite Hother.
    + apply lookup_insert_eq.
    + intros later Hlater. rewrite Forall_forall in Hafter. by apply Hafter.
Qed.

End RuleLoopResult.

(** *** The whole run *)

Lemma length_privatelyShareTouchpoints {usingBatch}
    (shareTouchpoint : ∀ b, Touchpoint b → PrivateTouchpoint b)
    (touchpoints : list (TouchpointT usingBatch)) :
  length (privatelyShareTouchpoints shareTouchpoint touchpoints) = length touchpoints.
Proof. destruct usingBatch; cbn [privatelyShareTouchpoints]; by rewrite length_fmap. Qed.

Lemma length_privatelyShareConversions {usingBatch}
    (shareConversion : ∀ b, Conversion b → PrivateConversion b)
    (conversions : list (ConversionT usingBatch)) :
  length (privatelyShareConversions shareConversion conversions) = length conversions.
Proof. destruct usingBatch; cbn [privatelyShareConversions]; by rewrite length_fmap. Qed.

Lemma length_compressAdIds inputEncryption openToPublisher usingBatch myRole
    (touchpoints touchpoints' : list (TouchpointT usingBatch)) (artifact : gmap string N) :
  compressAdIds inputEncryption openToPublisher usingBatch myRole touchpoints
    = Ok (touchpoints', artifact) →
  length touchpoints' = length touchpoints.
Proof.
  intros (_ & _ & _ & Hreplace)%compressAdIds_Ok.
  transitivity (length (revealedTouchpoints inputEncryption openToPublisher usingBatch
                          touchpoints)).
  - destruct usingBatch; cbn [replaceAdIdWithCompressedAdId] in Hreplace;
      apply mapM_result_Ok, Forall2_length in Hreplace; by symmetry.
  - destruct usingBatch; cbn [revealedTouchpoints]; by rewrite length_fmap.
Qed.

Lemma stagedTouchpoints_outcome inputEncryption openToPublisher {usingBatch}
    use_new_output_format myRole (inputData : AttributionInputMetrics usingBatch) :
  match stagedTouchpoints inputEncryption openToPublisher use_new_output_format myRole
          inputData with
  | Ok (touchpoints', mapping) =>
      ¬ tooManyIds inputEncryption openToPublisher use_new_output_format inputData ∧
      length touchpoints' = length (getTouchpointArrays inputData) ∧
      (if use_new_output_format then
         ∃ artifact,
           compressAdIds inputEncryption openToPublisher usingBatch myRole
             (getTouchpointArrays inputData) = Ok (touchpoints', artifact) ∧
           mapping = Some artifact
       else touchpoints' = getTouchpointArrays inputData ∧ mapping = None)
  | Err e =>
      tooManyIds inputEncryption openToPublisher use_new_output_format inputData ∧
      e = tooManyAdIds
  end.
Proof.
  unfold stagedTouchpoints, tooManyIds. destruct use_new_output_format.
  - destruct (compressAdIds _ _ _ _ _) as [[touchpoints' artifact]|e] eqn:Hrun; simpl.
    + split.
      * intros [_ Hmany].
        pose proof (proj1 (compressAdIds_accepts inputEncryption openToPublisher usingBatch
                             myRole (getTouchpointArrays inputData))) as Hle.
        rewrite Hrun in Hle. specialize (Hle eq_refl).
        unfold distinctOriginalAdIds in Hmany. lia.
      * split; [by eapply length_compressAdIds|]. by exists artifact.
    + by apply compressAdIds_Err in Hrun as [-> ?].
  - split; [by intros [? _]|done].
Qed.

Lemma computeAttributions_result inputEncryption openToPublisher {usingBatch}
    (catalog : list (AttributionRule usingBatch))
    (shareTouchpoint : ∀ b, Touchpoint b → PrivateTouchpoint b)
    (shareConversion : ∀ b, Conversion b → PrivateConversion b)
    use_new_output_format myRole (inputData : AttributionInputMetrics usingBatch)
    publisherIds trace :
  let numIds := numIds_of (getIds inputData) in
  let fits :=
    shardFits usingBatch numIds (length (getTouchpointArrays inputData))
      (length (getConversionArrays inputData)) in
  let staged :=
    stagedTouchpoints inputEncryption openToPublisher use_new_output_format myRole
      inputData in
  let negotiated :=
    shareAttributionRules catalog myRole (getAttributionRules inputData) publisherIds in
  match (computeAttributions inputEncryption openToPublisher catalog shareTouchpoint
           shareConversion use_new_output_format myRole inputData publisherIds trace).1 with
  | Ok (out, mapping) =>
      ∃ touchpoints' attributionRules,
        staged = Ok (touchpoints', mapping) ∧
        negotiated = Ok attributionRules ∧
        (attributionRules ≠ [] → fits) ∧
        (∀ name, (∀ rule, rule ∈ attributionRules → rule_name rule ≠ name) →
           out !! name = None) ∧
        (∀ rule, lastNamed attributionRules rule →
           ∃ res, out !! rule_name rule = Some {[attributionFormat := res]} ∧
             ruleResult inputEncryption use_new_output_format (getIds inputData) numIds
               touchpoints' (privatelyShareTouchpoints shareTouchpoint touchpoints')
               (privatelyShareConversions shareConversion (getConversionArrays inputData))
               rule res)
  | Err e =>
      staged = Err e ∨
      (is_ok staged = true ∧ negotiated = Err e) ∨
      (is_ok staged = true ∧
       ∃ attributionRules, negotiated = Ok attributionRules ∧ attributionRules ≠ [] ∧
         ¬ fits ∧ e = shardError usingBatch)
  end.
Proof.
  intros numIds fits staged negotiated.
  assert (∃ r,
    yields (computeAttributions inputEncryption openToPublisher catalog shareTouchpoint
              shareConversion use_new_output_format myRole inputData publisherIds) r ∧
    match r with
    | Ok (out, mapping) =>
        ∃ touchpoints' attributionRules,
          staged = Ok (touchpoints', mapping) ∧
          negotiated = Ok attributionRules ∧
          (attributionRules ≠ [] → fits) ∧
          (∀ name, (∀ rule, rule ∈ attributionRules → rule_name rule ≠ name) →
             out !! name = None) ∧
          (∀ rule, lastNamed attributionRules rule →
             ∃ res, out !! rule_name rule = Some {[attributionFormat := res]} ∧
               ruleResult inputEncryption use_new_output_format (getIds inputData) numIds
                 touchpoints' (privatelyShareTouchpoints shareTouchpoint touchpoints')
                 (privatelyShareConversions shareConversion (getConversionArrays inputData))
                 rule res)
    | Err e =>
        staged = Err e ∨
        (is_ok staged = true ∧ negotiated = Err e) ∨
        (is_ok staged = true ∧
         ∃ attributionRules, negotiated = Ok attributionRules ∧ attributionRules ≠ [] ∧
           ¬ fits ∧ e = shardError usingBatch)
    end) as (r & Hyields & Hr); [|by rewrite (Hyields trace)].
  unfold computeAttributions. fold numIds.
  change (if use_new_output_format then _ else _) with staged.
  pose proof (stagedTouchpoints_outcome inputEncryption openToPublisher
                use_new_output_format myRole inputData) as Hstaged.
  fold staged in Hstaged.
  destruct staged as [[touchpoints' mapping]|e] eqn:Hst.
  2:{ exists (Err e). split; [|by left]. apply yields_bind_Err, yields_lift. }
  destruct Hstaged as (_ & Hlength & _).
  subst negotiated.
  destruct (shareAttributionRules catalog myRole (getAttributionRules inputData)
              publisherIds) as [attributionRules|e] eqn:Hneg.
  2:{ exists (Err e). split; [|right; by left].
      eapply yields_bind_Ok; [apply yields_lift|]. cbn beta iota.
      apply yields_bind_Err, yields_lift. }
  destruct (ruleLoop_outcome inputEncryption shareTouchpoint use_new_output_format
              (getIds inputData) numIds touchpoints'
              (privatelyShareConversions shareConversion (getConversionArrays inputData))
              attributionRules ∅) as (r & Hloop & Hr).
  rewrite length_privatelyShareTouchpoints, length_privatelyShareConversions, Hlength in Hr.
  fold fits in Hr.
  destruct r as [out|e].
  - exists (Ok (out, mapping)). split.
    + eapply yields_bind_Ok; [apply yields_lift|]. cbn beta iota.
      eapply yields_bind_Ok; [apply yields_lift|].
      eapply yields_bind_Ok; [exact Hloop|]. apply yields_ret.
    + destruct Hr as (Hfits & Hother & Hlast).
      exists touchpoints', attributionRules. split; [done|]. split; [done|].
      split; [done|]. split; [|done]. intros name Hname. by rewrite Hother.
  - exists (Err e). split.
    + eapply yields_bind_Ok; [apply yields_lift|]. cbn beta iota.
      eapply yields_bind_Ok; [apply yields_lift|].
      by apply yields_bind_Err.
    + destruct Hr as (Hne & Hfits & ->). right. right. split; [done|].
      by exists attributionRules.
Qed.

(** ** The batch size of computeAttributions *)

(** C10, as the code has it.  On an input of fewer than 2^32 id rows the
    batch size used everywhere by computeAttributions is the number of id
    rows.  Every call a run makes to privatelyShareThresholds and to either
    helper receives that number.  When the run returns it has made one
    threshold call per rule and, per rule, one helper call in batch mode and
    one per id row outside it; and what it stores for a rule is computed
    with that batch size: the thresholds are those of
    privatelyShareThresholds called with it, and the result is that of the
    helper called with it, on the whole shard in batch mode and, outside
    batch mode, in exactly one row per id, row [i] being the helper's result
    on the touchpoints, conversions and thresholds of id [i].  (A rule whose
    name a later rule carries too has its entry overwritten.) *)
Theorem batch_size_is_numIds (inputEncryption : InputEncryption) (openToPublisher : N → N)
    {usingBatch : bool} (catalog : list (AttributionRule usingBatch))
    (shareTouchpoint : ∀ b, Touchpoint b → PrivateTouchpoint b)
    (shareConversion : ∀ b, Conversion b → PrivateConversion b)
    (use_new_output_format : bool) (myRole : nat)
    (inputData : AttributionInputMetrics usingBatch) (publisherIds : list N)
    (trace : list Call) :
  (N.of_nat (length (getIds inputData)) < 2 ^ 32)%N →
  ∃ calls,
    (computeAttributions inputEncryption openToPublisher catalog shareTouchpoint
       shareConversion use_new_output_format myRole inputData publisherIds trace).2
      = trace ++ calls ∧
    Forall (carries (N.of_nat (length (getIds inputData)))) calls ∧
    ∀ out mapping,
      (computeAttributions inputEncryption openToPublisher catalog shareTouchpoint
         shareConversion use_new_output_format myRole inputData publisherIds trace).1
        = Ok (out, mapping) →
      ∃ touchpoints' attributionRules,
        stagedTouchpoints inputEncryption openToPublisher use_new_output_format myRole
          inputData = Ok (touchpoints', mapping) ∧
        shareAttributionRules catalog myRole (getAttributionRules inputData) publisherIds
          = Ok attributionRules ∧
        thresholdCalls calls = length attributionRules ∧
        helperCalls calls =
          (if usingBatch then 1 else length (getIds inputData)) * length attributionRules ∧
        ∀ rule, lastNamed attributionRules rule →
          ∃ res thresholdArrays,
            out !! rule_name rule = Some {[attributionFormat := res]} ∧
            privatelyShareThresholds usingBatch inputEncryption touchpoints'
              (privatelyShareTouchpoints shareTouchpoint touchpoints') rule
              (N.of_nat (length (getIds inputData))) = Ok thresholdArrays ∧
            (usingBatch = false → resultRows res = length (getIds inputData)) ∧
            match res with
            | AttributionOutput ids attributions =>
                use_new_output_format = false ∧ ids = getIds inputData ∧
                helperResults usingBatch
                  (privatelyShareTouchpoints shareTouchpoint touchpoints')
                  (privatelyShareConversions shareConversion (getConversionArrays inputData))
                  rule thresholdArrays (N.of_nat (length (getIds inputData))) attributions
            | AttributionReformattedOutput ids attributionsReformatted =>
                use_new_output_format = true ∧ ids = getIds inputData ∧
                helperResultsV2 usingBatch
                  (privatelyShareTouchpoints shareTouchpoint touchpoints')
                  (privatelyShareConversions shareConversion (getConversionArrays inputData))
                  rule thresholdArrays (N.of_nat (length (getIds inputData)))
                  attributionsReformatted
            end.
Proof.
  intros Hsmall.
  assert (numIds_of (getIds inputData) = N.of_nat (length (getIds inputData))) as HnumIds.
  { unfold numIds_of. by apply N.mod_small. }
  destruct (run_computeAttributions inputEncryption openToPublisher catalog shareTouchpoint
              shareConversion use_new_output_format myRole inputData publisherIds trace)
    as (calls & Htrace & Hcarries & Hpost).
  exists calls. rewrite HnumIds in Hcarries. split; [done|]. split; [done|].
  intros out mapping Hok.
  destruct (Hpost _ Hok) as (attributionRules & Hrules & Hthresholds & Hhelpers & _).
  pose proof (computeAttributions_result inputEncryption openToPublisher catalog
                shareTouchpoint shareConversion use_new_output_format myRole inputData
                publisherIds trace) as Hresult.
  cbn zeta in Hresult. rewrite Hok in Hresult.
  destruct Hresult as (touchpoints' & rules' & Hstaged & Hnegotiated & _ & _ & Hlast).
  rewrite Hrules in Hnegotiated. injection Hnegotiated as <-.
  exists touchpoints', attributionRules.
  split; [done|]. split; [done|]. split; [done|]. split.
  { rewrite Hhelpers. unfold helperCallsPerRule. by rewrite HnumIds, Nat2N.id. }
  intros rule Hrule.
  destruct (Hlast rule Hrule) as (res & Hentry & thresholdArrays & Hshared & Hres).
  rewrite HnumIds in Hshared, Hres.
  exists res, thresholdArrays. split; [done|]. split; [done|]. split; [|done].
  intros ->. destruct res as [ids rows|ids rows]; destruct Hres as (_ & _ & [Hlength _]);
    cbn [resultRows]; (etrans; [exact Hlength|apply Nat2N.id]).
Qed.

Lemma batch_size_is_numIds_witness :
  (computeAttributions Plaintext id sampleCatalog sampleShareTouchpoint
     sampleShareConversion false PUBLISHER sampleInput [] []).2
    = [CallShareThresholds 2; CallHelper 2; CallHelper 2] ∧
  Forall (carries 2%N) [CallShareThresholds 2; CallHelper 2; CallHelper 2] ∧
  ∃ out mapping res thresholdArrays,
    sampleRun = Ok (out, mapping) ∧
    out !! "last_touch_1d" = Some {[attributionFormat := res]} ∧
    privatelyShareThresholds false Plaintext (getTouchpointArrays sampleInput)
      (privatelyShareTouchpoints sampleShareTouchpoint (getTouchpointArrays sampleInput))
      (sampleRule 2 "last_touch_1d") 2%N = Ok thresholdArrays ∧
    resultRows res = 2 ∧
    helperResults false
      (privatelyShareTouchpoints sampleShareTouchpoint (getTouchpointArrays sampleInput))
      (privatelyShareConversions sampleShareConversion (getConversionArrays sampleInput))
      (sampleRule 2 "last_touch_1d") thresholdArrays 2%N
      match res with
      | AttributionOutput _ attributions => attributions
      | AttributionReformattedOutput _ _ => []
      end.
Proof.
  destruct (batch_size_is_numIds Plaintext id sampleCatalog sampleShareTouchpoint
              sampleShareConversion false PUBLISHER sampleInput [] [])
    as (calls & Htrace & Hcarries & Hreturned).
  { reflexivity. }
  assert (calls = [CallShareThresholds 2; CallHelper 2; CallHelper 2]) as ->.
  { symmetry. exact Htrace. }
  split; [reflexivity|]. split; [exact Hcarries|].
  unfold sampleRun.
  destruct (computeAttributions Plaintext id sampleCatalog sampleShareTouchpoint
              sampleShareConversion false PUBLISHER sampleInput [] []).1
    as [[out mapping]|e] eqn:Hrun.
  - destruct (Hreturned out mapping eq_refl)
      as (touchpoints' & attributionRules & Hstaged & Hrules & _ & _ & Hlast).
    injection Hstaged as <- <-.
    vm_compute in Hrules. injection Hrules as <-.
    destruct (Hlast (sampleRule 2 "last_touch_1d"))
      as (res & thresholdArrays & Hentry & Hshared & Hrows & Hres).
    { exists [], []. split; [reflexivity|constructor]. }
    exists out, None, res, thresholdArrays.
    split; [done|]. split; [exact Hentry|]. split; [exact Hshared|].
    split; [by apply Hrows|].
    destruct res as [ids rows|ids rows]; [by destruct Hres as (_ & _ & ?)|].
    by destruct Hres as [? _].
  - vm_compute in Hrun. discriminate Hrun.
Defined.

(** A run in row-wise mode whose [numIds] is 0 processes no row: it makes
    the threshold call of its rule with batch size 0, calls no helper, and
    reveals the ids with no result. *)
Lemma run_without_rows (ids : list Z) (touchpoints : list (TouchpointT false))
    (conversions : list (ConversionT false)) (trace : list Call) :
  numIds_of ids = 0%N →
  computeAttributions Plaintext id sampleCatalog sampleShareTouchpoint sampleShareConversion
    false PUBLISHER
    (mkAttributionInputMetrics (usingBatch:=false) ids touchpoints conversions
       ["last_touch_1d"]) [] trace
  = (Ok ({["last_touch_1d" := {[attributionFormat := AttributionOutput ids []]}]}, None),
     trace ++ [CallShareThresholds 0]).
Proof.
  intros HnumIds. unfold computeAttributions.
  cbn [getIds getTouchpointArrays getConversionArrays getAttributionRules].
  cbn zeta. rewrite HnumIds.
  replace (shareAttributionRules sampleCatalog PUBLISHER ["last_touch_1d"] [])
    with (Ok [sampleRule 2 "last_touch_1d"]) by (vm_compute; reflexivity).
  unfold mbind, traced_bind, lift. cbn [ruleLoop].
  unfold call_privatelyShareThresholds, mbind, traced_bind, lift, record.
  rewrite privatelyShareThresholds_plaintext by done.
  unfold CHECK_EQ. rewrite decide_True.
  2:{ rewrite length_privatelyShareTouchpoints. unfold plaintextThresholds.
      by rewrite length_fmap. }
  unfold runHelper. change (N.to_nat 0) with 0. cbn [seq mapM]. unfold mret, traced_ret.
  cbv beta iota zeta. cbn [rule_name sampleRule].
  by rewrite insert_empty.
Qed.

(** C10 as stated fails: [numIds] is a 32-bit number.  On a shard of 2^32
    users the batch size is 0: the threshold call of the rule receives 0,
    no helper is called, and the rule's result holds no row for the 2^32
    ids it is revealed with. *)
Lemma batch_size_is_numIds_counterexample :
  length (getIds overfullInput) = N.to_nat 4294967296 ∧
  length (getTouchpointArrays overfullInput) = N.to_nat 4294967296 ∧
  length (getConversionArrays overfullInput) = N.to_nat 4294967296 ∧
  numIds_of (getIds overfullInput) = 0%N ∧
  computeAttributions Plaintext id sampleCatalog sampleShareTouchpoint sampleShareConversion
    false PUBLISHER overfullInput [] []
  = (Ok ({["last_touch_1d" :=
             {[attributionFormat := AttributionOutput (getIds overfullInput) []]}]}, None),
     [CallShareThresholds 0]).
Proof.
  assert (numIds_of overfullIds = 0%N) as HnumIds.
  { unfold numIds_of, overfullIds. rewrite length_replicate, N2Nat.id. reflexivity. }
  split; [apply length_replicate|]. split; [apply length_replicate|].
  split; [apply length_replicate|]. split; [exact HnumIds|].
  exact (run_without_rows overfullIds _ _ [] HnumIds).
Qed.


(** X16.  What a run returns is keyed by the names of the negotiated rules and by
    nothing else; each rule's entry holds one result, under the format name
    ["default"], revealed with the ids of the input and in the configured
    output format; and a mapping is persisted exactly when the new output
    format is configured. *)
Theorem output_is_keyed_by_rule_names inputEncryption openToPublisher {usingBatch}
    (catalog : list (AttributionRule usingBatch))
    (shareTouchpoint : ∀ b, Touchpoint b → PrivateTouchpoint b)
    (shareConversion : ∀ b, Conversion b → PrivateConversion b)
    use_new_output_format myRole (inputData : AttributionInputMetrics usingBatch)
    publisherIds trace out mapping :
  (computeAttributions inputEncryption openToPublisher catalog shareTouchpoint
     shareConversion use_new_output_format myRole inputData publisherIds trace).1
    = Ok (out, mapping) →
  ∃ attributionRules,
    shareAttributionRules catalog myRole (getAttributionRules inputData) publisherIds
      = Ok attributionRules ∧
    (∀ name, is_Some (out !! name) ↔
       ∃ rule, rule ∈ attributionRules ∧ rule_name rule = name) ∧
    (∀ name metrics, out !! name = Some metrics →
       ∃ res, metrics = {[attributionFormat := res]} ∧
         resultIds res = getIds inputData ∧
         isReformatted res = use_new_output_format) ∧
    (is_Some mapping ↔ use_new_output_format = true).
Proof.
  intros Hout.
  pose proof (computeAttributions_result inputEncryption openToPublisher catalog
                shareTouchpoint shareConversion use_new_output_format myRole inputData
                publisherIds trace) as Hrun.
  cbn zeta in Hrun. rewrite Hout in Hrun.
  destruct Hrun as (touchpoints' & attributionRules & Hst & Hneg & _ & Hother & Hlast).
  exists attributionRules. split; [done|].
  assert (∀ name, is_Some (out !! name) →
            ∃ target, lastNamed attributionRules target ∧ rule_name target = name) as Hkey.
  { intros name Hsome.
    destruct (decide (Exists (λ rule, rule_name rule = name) attributionRules))
      as [Hex|Hno]; [by apply lastNamed_exists|].
    rewrite Hother in Hsome; [by destruct Hsome|].
    intros rule Hrule Hname. apply Hno, Exists_exists. eauto. }
  split; [|split].
  - intros name. split.
    + intros (target & Htarget & Hname)%Hkey. exists target.
      split; [by apply lastNamed_elem_of|done].
    + intros (rule & Hrule & <-).
      destruct (lastNamed_exists attributionRules (rule_name rule))
        as (target & Htarget & Hname); [apply Exists_exists; eauto|].
      destruct (Hlast target Htarget) as (res & Hres & _).
      rewrite <-Hname, Hres. by eexists.
  - intros name metrics Hmetrics.
    destruct (Hkey name) as (target & Htarget & <-); [by rewrite Hmetrics|].
    destruct (Hlast target Htarget) as (res & Hres & thresholdArrays & _ & Hformat).
    rewrite Hmetrics in Hres. injection Hres as ->. exists res. split; [done|].
    destruct res as [ids attributions|ids attributions];
      destruct Hformat as (-> & -> & _); done.
  - pose proof (stagedTouchpoints_outcome inputEncryption openToPublisher
                  use_new_output_format myRole inputData) as Hstaged.
    rewrite Hst in Hstaged. destruct Hstaged as (_ & _ & Hmapping).
    destruct use_new_output_format.
    + destruct Hmapping as (artifact & _ & ->). split; [done|]. by eexists.
    + destruct Hmapping as [_ ->]. split; [by intros [? ?]|done].
Qed.


Lemma output_is_keyed_by_rule_names_witness :
  ∃ out mapping attributionRules,
    sampleRun = Ok (out, mapping) ∧
    shareAttributionRules sampleCatalog PUBLISHER (getAttributionRules sampleInput) []
      = Ok attributionRules ∧
    (∀ name, is_Some (out !! name) ↔
       ∃ rule, rule ∈ attributionRules ∧ rule_name rule = name) ∧
    (∀ name metrics, out !! name = Some metrics →
       ∃ res, metrics = {[attributionFormat := res]} ∧
         resultIds res = getIds sampleInput ∧ isReformatted res = false) ∧
    (is_Some mapping ↔ false = true).
Proof.
  destruct sampleRun as [[out mapping]|e] eqn:Hrun.
  - destruct (output_is_keyed_by_rule_names Plaintext id sampleCatalog
                sampleShareTouchpoint sampleShareConversion false PUBLISHER sampleInput
                [] [] out mapping Hrun) as (attributionRules & Hrest).
    by exists out, mapping, attributionRules.
  - vm_compute in Hrun. discriminate Hrun.
Defined.


(** * Reading comma-separated lines *)

Import Stdlib.Strings.Ascii.

(** ** Text *)

Lemma append_cons x (a b : string) : String x a +:+ b = String x (a +:+ b).
Proof. done. Qed.

Lemma length_append (a b : string) :
  String.length (a +:+ b) = String.length a + String.length b.
Proof.
  induction a as [|c a IH]; [done|]. rewrite append_cons. cbn [String.length]. by rewrite IH.
Qed.

Lemma substring_append (a b : string) : String.substring 0 (String.length a) (a +:+ b) = a.
Proof.
  induction a as [|c a IH]; [by destruct b|].
  rewrite append_cons. cbn [String.length String.substring]. by rewrite IH.
Qed.

Lemma consumed_append (a b : string) : RE2.consumed (a +:+ b) b = a.
Proof.
  unfold RE2.consumed. rewrite length_append.
  replace (String.length a + String.length b - String.length b) with (String.length a) by lia.
  apply substring_append.
Qed.

Lemma append_assoc (a b c : string) : (a +:+ b) +:+ c = a +:+ (b +:+ c).
Proof. induction a as [|x a IH]; [done|]. by rewrite !append_cons, IH. Qed.

Lemma append_nil_r (a : string) : a +:+ "" = a.
Proof. induction a as [|x a IH]; [done|]. by rewrite append_cons, IH. Qed.

Lemma span_append c s : (text.span c s).1 +:+ (text.span c s).2 = s.
Proof.
  induction s as [|a s IH]; [done|]. cbn [text.span]. case_decide; [done|].
  destruct (text.span c s) as [run after]. cbn [fst snd] in *.
  by rewrite append_cons, IH.
Qed.

Lemma span_after c s :
  (text.span c s).2 = "" ∨ ∃ rest, (text.span c s).2 = String c rest.
Proof.
  induction s as [|a s IH]; [by left|]. simpl. case_decide as Hc.
  - right. exists s. by rewrite Hc.
  - destruct (text.span c s) as [run after]. done.
Qed.

Lemma span_run c s : text.contains c (text.span c s).1 = false.
Proof.
  induction s as [|a s IH]; [done|]. simpl. case_decide; [done|].
  destruct (text.span c s) as [run after]. simpl in *. by rewrite decide_False.
Qed.

Lemma span_nil c s : (text.span c s).1 = "" → (text.span c s).2 = s.
Proof.
  destruct s as [|a s]; [done|]. simpl. case_decide; [done|].
  by destruct (text.span c s).
Qed.

(** A text without [c], followed by [c]: the span stops there. *)
Lemma span_stop c (s rest : string) :
  text.contains c s = false → text.span c (s +:+ String c rest) = (s, String c rest).
Proof.
  induction s as [|a s IH]; simpl.
  - by rewrite decide_True.
  - case_decide; [done|]. intros Hs. by rewrite IH.
Qed.

Lemma span_all c (s : string) : text.contains c s = false → text.span c s = (s, "").
Proof.
  induction s as [|a s IH]; [done|]. simpl. case_decide; [done|].
  intros Hs. by rewrite IH.
Qed.

(** ** One repetition of a negated class *)

Lemma iterate_NotChar {R} c fuel input group (k : RE2.continuation (R:=R)) :
  String.length input ≤ S fuel →
  RE2.iterate (RE2.mtch (RE2.NotChar c)) fuel input group k = text.backtrack c input group k.
Proof.
  revert input. induction fuel as [|fuel IH]; intros [|a rest] Hlength; try done.
  - cbn [RE2.iterate RE2.mtch text.backtrack]. case_decide; [done|].
    destruct rest; [done|]. simpl in Hlength. lia.
  - cbn [RE2.iterate RE2.mtch text.backtrack]. case_decide; [done|].
    simpl in Hlength. simpl String.length.
    destruct (Nat.ltb_spec (String.length rest) (S (String.length rest))); [|lia].
    rewrite IH by lia. done.
Qed.

Lemma backtrack_total {R} c input group (k : RE2.continuation (R:=R)) :
  (∀ rest, is_Some (k group rest)) →
  text.backtrack c input group k =
    match (text.span c input).1 with
    | EmptyString => None
    | String _ _ => k group (text.span c input).2
    end.
Proof.
  intros Hk. induction input as [|a input IH]; [done|].
  simpl. case_decide; [done|]. rewrite IH.
  pose proof (span_nil c input) as Hnil.
  destruct (text.span c input) as [[|b run] after]; simpl in *.
  - by rewrite Hnil.
  - by destruct (Hk after) as [x ->].
Qed.

Lemma backtrack_then_char {R} c input group (k : RE2.continuation (R:=R)) :
  text.backtrack c input group
    (λ group' rest,
       match rest with
       | String c' rest' => if decide (c' = c) then k group' rest' else None
       | EmptyString => None
       end) =
    match text.span c input with
    | (String _ _, String _ rest') => k group rest'
    | _ => None
    end.
Proof.
  induction input as [|a input IH]; [done|].
  simpl. case_decide as Ha; [done|]. rewrite IH.
  pose proof (span_nil c input) as Hnil. pose proof (span_after c input) as Hafter.
  destruct (text.span c input) as [[|b run] after] eqn:Hspan; cbn [fst snd] in *.
  - rewrite Hnil by done. destruct input as [|c' rest']; [done|].
    destruct Hafter as [Hempty|[rest Hrest]].
    + by rewrite Hnil in Hempty.
    + rewrite Hnil in Hrest by done. injection Hrest as -> ->. by rewrite decide_True.
  - assert (∀ rest'', input ≠ String c rest'') as Hstart.
    { intros rest'' ->. cbn [text.span] in Hspan. by rewrite decide_True in Hspan. }
    destruct after as [|c' rest'].
    + cbn [RE2.first_of]. destruct input as [|c' rest']; [done|].
      case_decide as Hc'; [|done]. subst c'. by destruct (Hstart rest').
    + destruct (k group rest') as [x|] eqn:Hx; [done|]. cbn [RE2.first_of].
      destruct input as [|c'' rest'']; [done|]. case_decide as Hc''; [|done]. subst c''.
      by destruct (Hstart rest'').
Qed.

(** ** One [Consume] with each pattern *)

(** The tail of both patterns, [,?], in front of the end of the match. *)
Lemma optional_comma group rest :
  RE2.first_of (RE2.mtch (RE2.Char ",") rest group text.matched) (text.matched group rest)
    = Some (text.dropComma rest, default "" group).
Proof.
  destruct rest as [|c rest]; [done|]. cbn [RE2.mtch text.dropComma].
  by case_decide.
Qed.

Lemma mtch_Plus {R} r input group (k : RE2.continuation (R:=R)) :
  RE2.mtch (RE2.Plus r) input group k =
    RE2.iterate (RE2.mtch r) (String.length input) input group k.
Proof. done. Qed.

Lemma plain_field_consumed input :
  RE2.mtch (RE2.Plus (RE2.NotChar ",")) input None
    (λ _ rest,
       RE2.first_of
         (RE2.mtch (RE2.Char ",") rest (Some (RE2.consumed input rest)) text.matched)
         (text.matched (Some (RE2.consumed input rest)) rest))
    = text.consumeComma input.
Proof.
  rewrite mtch_Plus, iterate_NotChar by lia.
  rewrite backtrack_total by (intros rest; rewrite optional_comma; by eexists).
  unfold text.consumeComma. pose proof (span_append "," input) as Happ.
  destruct (text.span "," input) as [[|b run] after]; cbn [fst snd] in *; [done|].
  rewrite optional_comma. cbn [default]. do 3 f_equal.
  rewrite <-Happ at 1. apply consumed_append.
Qed.

Lemma Consume_commaPattern input :
  RE2.Consume input csv.commaPattern = text.consumeComma input.
Proof. exact (plain_field_consumed input). Qed.

(** The first alternative of the bracket pattern: an opening bracket, what
    is not a closing bracket, and a closing bracket. *)
Lemma bracket_group_consumed (input : string) :
  RE2.mtch
    (RE2.Seq (RE2.Char "[") (RE2.Seq (RE2.Plus (RE2.NotChar "]")) (RE2.Char "]")))
    input None
    (λ _ rest,
       RE2.first_of
         (RE2.mtch (RE2.Char ",") rest (Some (RE2.consumed input rest)) text.matched)
         (text.matched (Some (RE2.consumed input rest)) rest))
    = match input with
      | String c inside =>
          if decide (c = "["%char) then
            match text.span "]" inside with
            | (String _ _ as inner, String _ after) =>
                Some (text.dropComma after, String "[" (inner +:+ "]"))
            | _ => None
            end
          else None
      | EmptyString => None
      end.
Proof.
  destruct input as [|c inside]; [done|].
  change (RE2.mtch (RE2.Seq (RE2.Char "[") _) (String c inside) None ?k)
    with (if decide (c = "["%char)
          then RE2.mtch (RE2.Plus (RE2.NotChar "]")) inside None
                 (λ group' rest,
                    match rest with
                    | String c' rest' => if decide (c' = "]"%char) then k group' rest' else None
                    | EmptyString => None
                    end)
          else None).
  case_decide as Hc; [|done]. subst c.
  rewrite mtch_Plus, iterate_NotChar by lia.
  rewrite (backtrack_then_char "]" inside None
             (λ _ rest,
                RE2.first_of
                  (RE2.mtch (RE2.Char ",") rest
                     (Some (RE2.consumed (String "[" inside) rest)) text.matched)
                  (text.matched (Some (RE2.consumed (String "[" inside) rest)) rest))).
  pose proof (span_append "]" inside) as Happ. pose proof (span_after "]" inside) as Hafter.
  destruct (text.span "]" inside) as [[|b inner] [|c after]]; cbn [fst snd] in *; try done.
  rewrite optional_comma. cbn [default]. do 3 f_equal.
  destruct Hafter as [?|[rest [= -> <-]]]; [done|].
  rewrite <-Happ.
  replace (String "[" (String b inner +:+ String "]" after))
    with ((String "[" (String b inner +:+ "]")) +:+ after).
  - apply consumed_append.
  - rewrite !append_cons. f_equal. f_equal. by rewrite append_assoc.
Qed.

Lemma Consume_bracketPattern input :
  RE2.Consume input csv.bracketPattern = text.consumeBracket input.
Proof.
  change (RE2.Consume input csv.bracketPattern) with
    (RE2.first_of
       (RE2.mtch
          (RE2.Seq (RE2.Char "[") (RE2.Seq (RE2.Plus (RE2.NotChar "]")) (RE2.Char "]")))
          input None
          (λ _ rest,
             RE2.first_of
               (RE2.mtch (RE2.Char ",") rest (Some (RE2.consumed input rest)) text.matched)
               (text.matched (Some (RE2.consumed input rest)) rest)))
       (RE2.mtch (RE2.Plus (RE2.NotChar ",")) input None
          (λ _ rest,
             RE2.first_of
               (RE2.mtch (RE2.Char ",") rest (Some (RE2.consumed input rest)) text.matched)
               (text.matched (Some (RE2.consumed input rest)) rest)))).
  rewrite bracket_group_consumed, plain_field_consumed.
  destruct input as [|c inside]; [done|]. cbn [text.consumeBracket].
  case_decide; [|done].
  by destruct (text.span "]" inside) as [[|b inner] [|c' after]].
Qed.

(** ** What one [Consume] leaves *)

Lemma contains_append c (a b : string) :
  text.contains c (a +:+ b) = text.contains c a || text.contains c b.
Proof.
  induction a as [|x a IH]; [done|]. rewrite append_cons. cbn [text.contains].
  by case_decide.
Qed.

Lemma contains_erase c (s : string) : text.contains c (csv.erase c s) = false.
Proof.
  induction s as [|x s IH]; [done|]. cbn [csv.erase]. case_decide as Hx; [done|].
  cbn [text.contains]. by rewrite decide_False.
Qed.

Lemma erase_clean c (s : string) : text.contains c s = false → csv.erase c s = s.
Proof.
  induction s as [|x s IH]; [done|]. cbn [text.contains csv.erase].
  case_decide; [done|]. intros Hs. by rewrite IH.
Qed.

Lemma erase_append c (a b : string) : csv.erase c (a +:+ b) = csv.erase c a +:+ csv.erase c b.
Proof.
  induction a as [|x a IH]; [done|]. rewrite append_cons. cbn [csv.erase].
  case_decide; [done|]. by rewrite append_cons, IH.
Qed.

Lemma dropComma_separator (after : string) :
  ∃ sep, (sep = "" ∨ sep = ",") ∧ after = sep +:+ text.dropComma after.
Proof.
  destruct after as [|c rest]; [exists ""; by split; [left|]|].
  cbn [text.dropComma]. case_decide as Hc.
  - subst c. exists ",". by split; [right|].
  - exists "". by split; [left|].
Qed.

Lemma consumeComma_Some input rest token :
  text.consumeComma input = Some (rest, token) →
  token ≠ "" ∧ text.contains "," token = false ∧
  ∃ sep, (sep = "" ∨ sep = ",") ∧ input = token +:+ sep +:+ rest.
Proof.
  unfold text.consumeComma. pose proof (span_append "," input) as Happ.
  pose proof (span_run "," input) as Hrun.
  destruct (text.span "," input) as [[|b run] after]; cbn [fst snd] in *; [done|].
  intros [= <- <-]. split; [done|]. split; [done|].
  destruct (dropComma_separator after) as (sep & Hsep & Hafter).
  exists sep. split; [done|]. by rewrite <-Hafter.
Qed.

Lemma consumeBracket_Some input rest token :
  text.consumeBracket input = Some (rest, token) →
  token ≠ "" ∧ ∃ sep, (sep = "" ∨ sep = ",") ∧ input = token +:+ sep +:+ rest.
Proof.
  assert (text.consumeComma input = Some (rest, token) →
          token ≠ "" ∧ ∃ sep, (sep = "" ∨ sep = ",") ∧ input = token +:+ sep +:+ rest)
    as Hplain.
  { intros (? & _ & ?)%consumeComma_Some. done. }
  destruct input as [|c inside]; [done|]. cbn [text.consumeBracket].
  case_decide as Hc; [|done]. subst c.
  pose proof (span_append "]" inside) as Happ. pose proof (span_after "]" inside) as Hafter.
  destruct (text.span "]" inside) as [[|b inner] [|c after]]; cbn [fst snd] in *; try done.
  intros [= <- <-]. split; [done|].
  destruct Hafter as [?|[rest' [= -> <-]]]; [done|].
  destruct (dropComma_separator after) as (sep & Hsep & Hdrop).
  exists sep. split; [done|]. rewrite <-Hdrop, <-Happ.
  rewrite !append_cons. f_equal. f_equal. by rewrite append_assoc.
Qed.

Lemma separated_shorter (input token sep rest : string) :
  token ≠ "" → input = token +:+ sep +:+ rest → String.length rest < String.length input.
Proof.
  intros Htoken ->. rewrite !length_append. destruct token; [done|]. simpl. lia.
Qed.

Lemma consumeComma_progress input rest token :
  text.consumeComma input = Some (rest, token) → String.length rest < String.length input.
Proof. intros (? & _ & sep & _ & ?)%consumeComma_Some. by eapply separated_shorter. Qed.

Lemma consumeBracket_progress input rest token :
  text.consumeBracket input = Some (rest, token) → String.length rest < String.length input.
Proof. intros (? & sep & _ & ?)%consumeBracket_Some. by eapply separated_shorter. Qed.

(** ** The loop of [split] *)

Section SplitLoop.
Variable rgx : RE2.regex.
Variable consume : string → option (string * string).
Hypothesis consume_spec : ∀ input, RE2.Consume input rgx = consume input.
Hypothesis consume_progress : ∀ input rest token,
  consume input = Some (rest, token) → String.length rest < String.length input.

Lemma consumeLoop_tokensBy fuel input tokens :
  String.length input < fuel →
  csv.consumeLoop fuel input rgx tokens = Some (tokens ++ text.tokensBy consume fuel input).
Proof.
  revert input tokens. induction fuel as [|fuel IH]; intros input tokens Hfuel; [lia|].
  cbn [csv.consumeLoop text.tokensBy]. rewrite consume_spec.
  destruct (consume input) as [[rest token]|] eqn:Hconsume.
  - apply consume_progress in Hconsume. rewrite IH by lia. by rewrite <-app_assoc.
  - by rewrite app_nil_r.
Qed.

Lemma tokensBy_fuel fuel fuel' input :
  String.length input < fuel → String.length input < fuel' →
  text.tokensBy consume fuel input = text.tokensBy consume fuel' input.
Proof.
  revert fuel' input. induction fuel as [|fuel IH]; intros [|fuel'] input Hfuel Hfuel';
    try lia.
  cbn [text.tokensBy]. destruct (consume input) as [[rest token]|] eqn:Hconsume; [|done].
  apply consume_progress in Hconsume. f_equal. apply IH; lia.
Qed.

Lemma tokensBy_step input :
  text.tokensBy consume (S (String.length input)) input =
    match consume input with
    | Some (rest, token) => token :: text.tokensBy consume (S (String.length rest)) rest
    | None => []
    end.
Proof.
  change (text.tokensBy consume (S (String.length input)) input) with
    (match consume input with
     | Some (rest, token) => token :: text.tokensBy consume (String.length input) rest
     | None => []
     end).
  destruct (consume input) as [[rest token]|] eqn:Hconsume; [|done].
  apply consume_progress in Hconsume. f_equal. apply tokensBy_fuel; lia.
Qed.

Lemma split_tokensBy str :
  csv.split str rgx =
    Some (csv.erase " " str,
          text.tokensBy consume (S (String.length (csv.erase " " str))) (csv.erase " " str)).
Proof. unfold csv.split. cbn zeta. by rewrite consumeLoop_tokensBy by lia. Qed.

End SplitLoop.

Lemma split_commaPattern str :
  csv.split str csv.commaPattern =
    Some (csv.erase " " str,
          text.tokensBy text.consumeComma (S (String.length (csv.erase " " str)))
            (csv.erase " " str)).
Proof.
  apply split_tokensBy; [apply Consume_commaPattern|apply consumeComma_progress].
Qed.

Lemma split_bracketPattern str :
  csv.split str csv.bracketPattern =
    Some (csv.erase " " str,
          text.tokensBy text.consumeBracket (S (String.length (csv.erase " " str)))
            (csv.erase " " str)).
Proof.
  apply split_tokensBy; [apply Consume_bracketPattern|apply consumeBracket_progress].
Qed.

Lemma plainTokens_step input :
  text.plainTokens input =
    match text.consumeComma input with
    | Some (rest, token) => token :: text.plainTokens rest
    | None => []
    end.
Proof. apply (tokensBy_step _ consumeComma_progress). Qed.

Lemma bracketTokens_step input :
  text.bracketTokens input =
    match text.consumeBracket input with
    | Some (rest, token) => token :: text.bracketTokens rest
    | None => []
    end.
Proof. apply (tokensBy_step _ consumeBracket_progress). Qed.

Lemma splitByComma_tokens str supportInnerBrackets :
  csv.splitByComma str supportInnerBrackets =
    Some (csv.erase " " str,
          if supportInnerBrackets then text.bracketTokens (csv.erase " " str)
          else text.plainTokens (csv.erase " " str)).
Proof.
  unfold csv.splitByComma. destruct supportInnerBrackets.
  - apply split_bracketPattern.
  - apply split_commaPattern.
Qed.

(** ** The tokens *)

Lemma separated_contains c (input token sep rest : string) :
  input = token +:+ sep +:+ rest → text.contains c input = false →
  text.contains c token = false ∧ text.contains c rest = false.
Proof.
  intros -> Hinput. rewrite !contains_append in Hinput.
  by apply orb_false_elim in Hinput as [? [_ ?]%orb_false_elim].
Qed.

(** Induction along the texts that one [Consume] after the other leaves. *)
Lemma consume_ind (consume : string → option (string * string))
    (Hprogress : ∀ input rest token,
       consume input = Some (rest, token) → String.length rest < String.length input)
    (P : string → Prop) :
  (∀ input, (∀ rest token, consume input = Some (rest, token) → P rest) → P input) →
  ∀ input, P input.
Proof.
  intros Hstep input.
  remember (String.length input) as n eqn:Hn. revert input Hn.
  induction n as [n IH] using lt_wf_ind. intros input ->.
  apply Hstep. intros rest token Hconsume.
  eapply IH; [|done]. by eapply Hprogress.
Qed.

Lemma plainTokens_clean input :
  text.contains " " input = false → Forall (text.cleanToken false) (text.plainTokens input).
Proof.
  induction input as [input IH] using (consume_ind _ consumeComma_progress).
  intros Hspace. rewrite plainTokens_step.
  destruct (text.consumeComma input) as [[rest token]|] eqn:Hconsume; [|constructor].
  pose proof Hconsume as (Htoken & Hcomma & sep & _ & Hinput)%consumeComma_Some.
  destruct (separated_contains " " _ _ _ _ Hinput Hspace) as [? ?].
  constructor; [done|]. by eapply IH.
Qed.

Lemma bracketTokens_clean input :
  text.contains " " input = false → Forall (text.cleanToken true) (text.bracketTokens input).
Proof.
  induction input as [input IH] using (consume_ind _ consumeBracket_progress).
  intros Hspace. rewrite bracketTokens_step.
  destruct (text.consumeBracket input) as [[rest token]|] eqn:Hconsume; [|constructor].
  pose proof Hconsume as (Htoken & sep & _ & Hinput)%consumeBracket_Some.
  destruct (separated_contains " " _ _ _ _ Hinput Hspace) as [? ?].
  constructor; [done|]. by eapply IH.
Qed.

(** ** Fields that come back whole *)

Lemma consumeComma_field (field rest : string) :
  field ≠ "" → text.contains "," field = false →
  text.consumeComma (field +:+ "," +:+ rest) = Some (rest, field).
Proof.
  intros Hfield Hcomma. unfold text.consumeComma.
  change ("," +:+ rest) with (String "," rest). rewrite span_stop by done.
  destruct field; [done|]. cbn [text.dropComma]. by rewrite decide_True.
Qed.

Lemma consumeComma_last (field : string) :
  field ≠ "" → text.contains "," field = false →
  text.consumeComma field = Some ("", field).
Proof.
  intros Hfield Hcomma. unfold text.consumeComma. rewrite span_all by done.
  by destruct field.
Qed.

Lemma plainField_spec field :
  text.plainField field = true →
  field ≠ "" ∧ text.isAscii field = true ∧ text.contains "," field = false ∧
  text.contains " " field = false.
Proof.
  destruct field as [|c field]; [done|]. unfold text.plainField.
  intros [[? ?%negb_true_iff]%andb_true_iff ?%negb_true_iff]%andb_true_iff. done.
Qed.

Lemma bracketField_spec field :
  text.bracketField field = true →
  (∃ inner, field = String "[" (inner +:+ "]") ∧
            text.contains "]" inner = false ∧ text.contains " " inner = false ∧
            text.isAscii inner = true) ∨
  (text.plainField field = true ∧ ∀ rest, field ≠ String "[" rest).
Proof.
  destruct field as [|c field]; [done|]. cbn [text.bracketField].
  case_decide as Hc; [|intros; right; split; [done|]; by intros rest [= ? _]].
  subst c. pose proof (span_append "]" field) as Happ.
  pose proof (span_run "]" field) as Hrun.
  pose proof (span_after "]" field) as Hafter.
  destruct (text.span "]" field) as [inner [|c [|? ?]]]; cbn [fst snd] in *; try done.
  intros [? ?%negb_true_iff]%andb_true_iff. left.
  destruct Hafter as [?|[rest' [= -> <-]]]; [done|].
  exists inner. by rewrite Happ.
Qed.

Lemma consumeBracket_plain (input : string) :
  (∀ rest, input ≠ String "[" rest) →
  text.consumeBracket input = text.consumeComma input.
Proof.
  destruct input as [|c inside]; [done|]. intros Hopen. cbn [text.consumeBracket].
  case_decide as Hc; [|done]. subst c. by destruct (Hopen inside).
Qed.

Lemma consumeBracket_unopened (after : string) :
  text.consumeBracket ("[]" +:+ after) = text.consumeComma ("[]" +:+ after).
Proof. done. Qed.

Lemma consumeBracket_group (inner after : string) :
  inner ≠ "" → text.contains "]" inner = false →
  text.consumeBracket (String "[" (inner +:+ "]") +:+ after) =
    Some (text.dropComma after, String "[" (inner +:+ "]")).
Proof.
  intros Hinner Hclose. rewrite append_cons, append_assoc.
  cbn [text.consumeBracket]. rewrite decide_True by done.
  change ("]" +:+ after) with (String "]" after). rewrite span_stop by done.
  by destruct inner.
Qed.

Lemma consumeBracket_field (field rest : string) :
  text.bracketField field = true →
  text.consumeBracket (field +:+ "," +:+ rest) = Some (rest, field) ∧
  text.consumeBracket field = Some ("", field).
Proof.
  intros [(inner & -> & Hclose & _)|[Hplain Hopen]]%bracketField_spec.
  - destruct (decide (inner = "")) as [->|Hinner].
    { split; [|done]. change ("[" +:+ "]") with "[]".
      rewrite consumeBracket_unopened by done. by apply consumeComma_field. }
    split.
    + rewrite consumeBracket_group by done. change ("," +:+ rest) with (String "," rest).
      cbn [text.dropComma]. by rewrite decide_True.
    + rewrite <-(append_nil_r (String "[" (inner +:+ "]"))) at 1.
      by rewrite consumeBracket_group.
  - apply plainField_spec in Hplain as (Hfield & _ & Hcomma & _).
    rewrite !consumeBracket_plain; [|done|].
    + by rewrite consumeComma_field, consumeComma_last.
    + intros rest'. destruct field as [|c field]; [done|]. rewrite append_cons.
      intros [= -> _]. by destruct (Hopen field).
Qed.

Lemma bracketField_clean field :
  text.bracketField field = true →
  field ≠ "" ∧ text.contains " " field = false ∧ text.isAscii field = true.
Proof.
  intros [(inner & -> & _ & Hspace & Hascii)|[Hplain _]]%bracketField_spec.
  - split; [done|]. split.
    + cbn [text.contains]. rewrite decide_False by done. rewrite contains_append, Hspace. done.
    + cbn [text.isAscii]. rewrite andb_true_iff. split; [done|].
      clear -Hascii. induction inner as [|c inner IH]; [done|].
      rewrite append_cons. cbn [text.isAscii] in *.
      apply andb_true_iff in Hascii as [-> ?]. by apply IH.
  - by apply plainField_spec in Hplain as (? & ? & _ & ?).
Qed.

(** The loop of [split] gives the fields of a joined line back when one
    [Consume] reads one field and its comma. *)
Section JoinedFields.
Variable consume : string → option (string * string).
Variable field : string → Prop.
Hypothesis consume_progress : ∀ input rest token,
  consume input = Some (rest, token) → String.length rest < String.length input.
Hypothesis consume_end : consume "" = None.
Hypothesis consume_field : ∀ f rest,
  field f → consume (f +:+ "," +:+ rest) = Some (rest, f) ∧ consume f = Some ("", f).

Lemma tokensBy_joinFields fields :
  Forall field fields →
  text.tokensBy consume (S (String.length (text.joinFields fields))) (text.joinFields fields)
    = fields.
Proof.
  induction 1 as [|f fields Hf _ IH].
  - cbn. by rewrite consume_end.
  - rewrite (tokensBy_step _ consume_progress).
    destruct (consume_field f (text.joinFields fields) Hf) as [Hnext Hlast].
    destruct fields as [|f' fields].
    + cbn [text.joinFields String.concat]. rewrite Hlast. cbn. by rewrite consume_end.
    + change (text.joinFields (f :: f' :: fields))
        with (f +:+ "," +:+ text.joinFields (f' :: fields)).
      rewrite Hnext. by rewrite IH.
Qed.

End JoinedFields.

Lemma contains_joinFields c (fields : list string) :
  c ≠ ","%char → Forall (λ f, text.contains c f = false) fields →
  text.contains c (text.joinFields fields) = false.
Proof.
  intros Hc. induction 1 as [|f fields Hf _ IH]; [done|].
  destruct fields as [|f' fields]; [done|].
  change (text.joinFields (f :: f' :: fields))
    with (f +:+ "," +:+ text.joinFields (f' :: fields)).
  rewrite !contains_append, Hf, IH. cbn. by rewrite decide_False.
Qed.

Lemma plainTokens_joinFields fields :
  Forall (λ f, text.plainField f = true) fields →
  text.plainTokens (text.joinFields fields) = fields.
Proof.
  intros Hfields.
  apply (tokensBy_joinFields _ (λ f, text.plainField f = true));
    [apply consumeComma_progress|done| |done].
  intros f rest (? & _ & ? & _)%plainField_spec.
  by rewrite consumeComma_field, consumeComma_last.
Qed.

Lemma bracketTokens_joinFields fields :
  Forall (λ f, text.bracketField f = true) fields →
  text.bracketTokens (text.joinFields fields) = fields.
Proof.
  intros Hfields.
  apply (tokensBy_joinFields _ (λ f, text.bracketField f = true));
    [apply consumeBracket_progress|done| |done].
  intros f rest Hf. by apply consumeBracket_field.
Qed.

Lemma splitByComma_plain_fields fields :
  Forall (λ f, text.plainField f = true) fields →
  csv.splitByComma (text.joinFields fields) false = Some (text.joinFields fields, fields).
Proof.
  intros Hfields. rewrite splitByComma_tokens. rewrite erase_clean.
  - by rewrite plainTokens_joinFields.
  - apply contains_joinFields; [done|].
    eapply Forall_impl; [done|]. by intros f (_ & _ & _ & ?)%plainField_spec.
Qed.

Lemma splitByComma_bracket_fields fields :
  Forall (λ f, text.bracketField f = true) fields →
  csv.splitByComma (text.joinFields fields) true = Some (text.joinFields fields, fields).
Proof.
  intros Hfields. rewrite splitByComma_tokens. rewrite erase_clean.
  - by rewrite bracketTokens_joinFields.
  - apply contains_joinFields; [done|].
    eapply Forall_impl; [done|]. by intros f (_ & ? & _)%bracketField_clean.
Qed.

(** ** An empty field *)

Lemma span_before c (s rest : string) :
  text.span c (s +:+ String c rest) = ((text.span c s).1, (text.span c s).2 +:+ String c rest).
Proof.
  induction s as [|a s IH].
  - change ("" +:+ String c rest) with (String c rest). cbn [text.span fst snd].
    by rewrite decide_True.
  - rewrite append_cons. cbn [text.span]. case_decide; [done|].
    rewrite IH. by destruct (text.span c s).
Qed.

Lemma plainTokens_comma rest : text.plainTokens (String "," rest) = [].
Proof.
  rewrite plainTokens_step. unfold text.consumeComma. cbn [text.span].
  by rewrite decide_True.
Qed.

Lemma plainTokens_truncated (before after : string) :
  text.plainTokens (before +:+ ",," +:+ after) = text.plainTokens before.
Proof.
  induction before as [before IH] using (consume_ind _ consumeComma_progress).
  rewrite (plainTokens_step before), plainTokens_step.
  unfold text.consumeComma in *.
  change (",," +:+ after) with (String "," (String "," after)).
  rewrite span_before.
  pose proof (span_after "," before) as Hafter.
  destruct (text.span "," before) as [[|b run] behind]; cbn [fst snd] in *; [done|].
  f_equal. destruct Hafter as [->|[rest ->]].
  - change (text.dropComma ("" +:+ String "," (String "," after))) with (String "," after).
    rewrite plainTokens_comma. by rewrite plainTokens_step.
  - rewrite append_cons.
    change (text.dropComma (String "," ?s)) with s. by eapply IH.
Qed.

(** ** Lines without a closing bracket *)

Lemma bracketTokens_unclosed input :
  text.contains "]" input = false → text.bracketTokens input = text.plainTokens input.
Proof.
  induction input as [input IH] using (consume_ind _ consumeComma_progress).
  intros Hclose. rewrite plainTokens_step, bracketTokens_step.
  assert (text.consumeBracket input = text.consumeComma input) as ->.
  { destruct input as [|c inside]; [done|]. cbn [text.consumeBracket].
    case_decide as Hc; [|done]. subst c. cbn [text.contains] in Hclose.
    rewrite decide_False in Hclose by done. rewrite span_all by done.
    by destruct inside. }
  destruct (text.consumeComma input) as [[rest token]|] eqn:Hconsume; [|done].
  pose proof Hconsume as (_ & _ & sep & _ & Hinput)%consumeComma_Some.
  destruct (separated_contains "]" _ _ _ _ Hinput Hclose) as [_ ?].
  f_equal. by eapply IH.
Qed.

Lemma contains_erase_other c c' (s : string) :
  text.contains c s = false → text.contains c (csv.erase c' s) = false.
Proof.
  induction s as [|x s IH]; [done|]. cbn [text.contains csv.erase].
  case_decide; [done|]. intros Hs. case_decide; [by apply IH|].
  cbn [text.contains]. rewrite decide_False by done. by apply IH.
Qed.

(** ** The lines of a file *)

Lemma readLines_fields {State} (readLine : list string → list string → State → State)
    header (rows : list (list string)) state :
  Forall (Forall (λ f, text.bracketField f = true)) rows →
  csv.readLines readLine header (text.joinFields <$> rows) state =
    Some (foldl (λ state parts, readLine header parts state) state rows).
Proof.
  intros Hrows. revert state. induction Hrows as [|row rows Hrow _ IH]; intros state; [done|].
  cbn [fmap list_fmap csv.readLines]. rewrite splitByComma_bracket_fields by done.
  cbn. apply IH.
Qed.

Lemma readLines_returns {State} (readLine : list string → list string → State → State)
    header (lines : list string) state :
  ∃ state', csv.readLines readLine header lines state = Some state'.
Proof.
  revert state. induction lines as [|line lines IH]; intros state; [by eexists|].
  cbn [csv.readLines]. rewrite splitByComma_tokens. cbn [mbind option_bind]. apply IH.
Qed.

(** ** What the callers of Csv.cpp can rely on *)

(** X18.  [splitByComma] returns on every ASCII text, with or without support for
    brackets: the loop of [split] ends, the text is left without its spaces,
    and every token is a piece of it that is not empty and holds no space;
    without support for brackets a token holds no comma either. *)
Theorem splitByComma_gives_clean_tokens (str : string) (supportInnerBrackets : bool) :
  text.isAscii str = true →
  ∃ tokens,
    csv.splitByComma str supportInnerBrackets = Some (csv.erase " " str, tokens) ∧
    Forall (text.cleanToken supportInnerBrackets) tokens.
Proof.
  intros _. rewrite splitByComma_tokens. eexists. split; [done|].
  destruct supportInnerBrackets.
  - apply bracketTokens_clean, contains_erase.
  - apply plainTokens_clean, contains_erase.
Qed.

Lemma splitByComma_gives_clean_tokens_witness :
  ∃ tokens,
    csv.splitByComma "id_, [1, 2] ,,x" true = Some (csv.erase " " "id_, [1, 2] ,,x", tokens) ∧
    Forall (text.cleanToken true) tokens.
Proof. apply (splitByComma_gives_clean_tokens "id_, [1, 2] ,,x" true). reflexivity. Defined.

(** X19.  Without support for brackets, splitting undoes joining: a line made of
    plain fields (ASCII, not empty, no comma, no space) with one comma
    between two neighbours is split into those fields, in order, and is left
    as it was. *)
Theorem plain_fields_round_trip (fields : list string) :
  Forall (λ field, text.plainField field = true) fields →
  csv.splitByComma (text.joinFields fields) false = Some (text.joinFields fields, fields).
Proof. apply splitByComma_plain_fields. Qed.

Lemma plain_fields_round_trip_witness :
  csv.splitByComma (text.joinFields ["id_"; "timestamps"; "is_click"]) false =
    Some (text.joinFields ["id_"; "timestamps"; "is_click"], ["id_"; "timestamps"; "is_click"]).
Proof.
  apply (plain_fields_round_trip ["id_"; "timestamps"; "is_click"]).
  repeat constructor.
Defined.

(** X20.  With support for brackets, splitting undoes joining also when fields are
    bracketed groups: a line made of fields that are either a group in
    brackets (no closing bracket and no space inside; commas allowed, and
    so is the empty group) or a plain field that does not open a bracket is
    split into those fields, in order. *)
Theorem bracket_fields_round_trip (fields : list string) :
  Forall (λ field, text.bracketField field = true) fields →
  csv.splitByComma (text.joinFields fields) true = Some (text.joinFields fields, fields).
Proof. apply splitByComma_bracket_fields. Qed.

Lemma bracket_fields_round_trip_witness :
  csv.splitByComma (text.joinFields ["7"; "[100,200]"; "[1,0]"]) true =
    Some (text.joinFields ["7"; "[100,200]"; "[1,0]"], ["7"; "[100,200]"; "[1,0]"]).
Proof.
  apply (bracket_fields_round_trip ["7"; "[100,200]"; "[1,0]"]).
  repeat constructor.
Defined.

(** X21.  An empty field ends the tokens.  Where two commas meet, the loop of
    [split] stops: what follows them gives no token, and the line is split
    as if it ended before them.  With support for brackets this holds for
    lines without a closing bracket. *)
Theorem empty_field_ends_the_tokens (before after : string) (supportInnerBrackets : bool) :
  text.isAscii (before +:+ ",," +:+ after) = true →
  (supportInnerBrackets = true → text.contains "]" (before +:+ after) = false) →
  snd <$> csv.splitByComma (before +:+ ",," +:+ after) supportInnerBrackets =
    snd <$> csv.splitByComma before supportInnerBrackets.
Proof.
  intros _ Hclose. rewrite !splitByComma_tokens. cbn [fmap option_fmap option_map snd].
  f_equal. rewrite !erase_append.
  change (csv.erase " " ",,") with ",,"%string.
  destruct supportInnerBrackets; [|apply plainTokens_truncated].
  specialize (Hclose eq_refl). rewrite contains_append in Hclose.
  apply orb_false_elim in Hclose as [Hbefore Hafter].
  rewrite !bracketTokens_unclosed.
  - apply plainTokens_truncated.
  - by apply contains_erase_other.
  - rewrite !contains_append.
    rewrite (contains_erase_other _ _ _ Hbefore), (contains_erase_other _ _ _ Hafter). done.
Qed.

Lemma empty_field_ends_the_tokens_witness :
  snd <$> csv.splitByComma ("1,2" +:+ ",," +:+ "3,4") true = snd <$> csv.splitByComma "1,2" true.
Proof.
  apply (empty_field_ends_the_tokens "1,2" "3,4" true); [reflexivity|].
  intros _. reflexivity.
Defined.

(** X22.  Brackets count only when they are closed: on a line without a closing
    bracket the two ways of splitting agree, so an opening bracket is an
    ordinary character there and the commas behind it separate fields. *)
Theorem unclosed_bracket_is_plain_text (str : string) :
  text.isAscii str = true → text.contains "]" str = false →
  csv.splitByComma str true = csv.splitByComma str false.
Proof.
  intros _ Hclose. rewrite !splitByComma_tokens. f_equal. f_equal.
  by apply bracketTokens_unclosed, contains_erase_other.
Qed.

Lemma unclosed_bracket_is_plain_text_witness :
  csv.splitByComma "7,[100,200" true = csv.splitByComma "7,[100,200" false.
Proof. apply (unclosed_bracket_is_plain_text "7,[100,200"); reflexivity. Defined.

(** X23.  [readCsv] refuses nothing it can open.  On a file of ASCII lines it
    returns true whatever the lines hold: a line that does not fit the
    header is handed to [readLine] as it was split, and no line makes the
    call fail or loop. *)
Theorem readCsv_reads_every_file {State} (readLine : list string → list string → State → State)
    (processHeader : list string → State → State) (lines : list string) (state : State) :
  Forall (λ line, text.isAscii line = true) lines →
  ∃ state', csv.readCsv readLine processHeader (Some lines) state = Some (true, state').
Proof.
  intros _. unfold csv.readCsv. cbn zeta. rewrite splitByComma_tokens.
  cbn [mbind option_bind].
  destruct (readLines_returns readLine (text.plainTokens (csv.erase " " (hd "" lines)))
              (tl lines)
              (processHeader (text.plainTokens (csv.erase " " (hd "" lines))) state))
    as [state' ->].
  by exists state'.
Qed.

Lemma readCsv_reads_every_file_witness :
  ∃ state',
    csv.readCsv (λ _ parts state, state ++ [parts]) (λ header _, [header])
      (Some ["a,b"; "1,,[2"; ""]) [] = Some (true, state').
Proof.
  apply (readCsv_reads_every_file (λ _ parts state, state ++ [parts]) (λ header _, [header])
           ["a,b"; "1,,[2"; ""] []).
  repeat constructor.
Defined.

(** X24.  Reading a well-formed file visits it in order: when the first line joins
    plain fields and every other line joins fields that the pattern of
    bracketed fields gives back whole, [processHeader] sees the header,
    [readLine] then sees the header and the fields of each line, first line
    first, and the call returns true. *)
Theorem readCsv_round_trip {State} (readLine : list string → list string → State → State)
    (processHeader : list string → State → State) (header : list string)
    (rows : list (list string)) (state : State) :
  Forall (λ field, text.plainField field = true) header →
  Forall (Forall (λ field, text.bracketField field = true)) rows →
  csv.readCsv readLine processHeader
    (Some (text.joinFields header :: (text.joinFields <$> rows))) state =
    Some (true, foldl (λ state parts, readLine header parts state)
                  (processHeader header state) rows).
Proof.
  intros Hheader Hrows. unfold csv.readCsv. cbn [hd tl].
  rewrite splitByComma_plain_fields by done. cbn.
  by rewrite readLines_fields.
Qed.

Lemma readCsv_round_trip_witness :
  csv.readCsv (λ _ parts state, state ++ [parts]) (λ header _, [header])
    (Some (text.joinFields ["id_"; "timestamps"] ::
           (text.joinFields <$> [["7"; "[100,200]"]; ["8"; "[300]"]]))) [] =
    Some (true, foldl (λ state parts, state ++ [parts]) [["id_"; "timestamps"]]
                  [["7"; "[100,200]"]; ["8"; "[300]"]]).
Proof.
  apply (readCsv_round_trip (λ _ parts state, state ++ [parts]) (λ header _, [header])
           ["id_"; "timestamps"] [["7"; "[100,200]"]; ["8"; "[300]"]] []);
    repeat constructor.
Defined.

(** * Parsing the lines of the input *)

(** ** Tokens keep what holds of the text *)

Lemma plainTokens_Forall (P : string → Prop) :
  (∀ token sep rest : string, P (token +:+ sep +:+ rest) → P token ∧ P rest) →
  ∀ input, P input → Forall P (text.plainTokens input).
Proof.
  intros Hpieces input.
  induction input as [input IH] using (consume_ind _ consumeComma_progress).
  intros Hinput. rewrite plainTokens_step.
  destruct (text.consumeComma input) as [[rest token]|] eqn:Hconsume; [|constructor].
  pose proof Hconsume as (_ & _ & sep & _ & ->)%consumeComma_Some.
  apply Hpieces in Hinput as [? ?]. constructor; [done|]. by eapply IH.
Qed.

Lemma isAscii_append (a b : string) :
  text.isAscii (a +:+ b) = text.isAscii a && text.isAscii b.
Proof.
  induction a as [|x a IH]; [done|]. rewrite append_cons. cbn [text.isAscii].
  by rewrite IH, andb_assoc.
Qed.

Lemma isAscii_erase c (s : string) : text.isAscii s = true → text.isAscii (csv.erase c s) = true.
Proof.
  induction s as [|x s IH]; [done|]. cbn [text.isAscii csv.erase].
  intros [Hx Hs]%andb_true_iff. case_decide; [by apply IH|].
  cbn [text.isAscii]. by rewrite Hx, IH.
Qed.

Lemma plainTokens_without c input :
  text.contains c input = false →
  Forall (λ token, text.contains c token = false) (text.plainTokens input).
Proof.
  apply (plainTokens_Forall (λ s, text.contains c s = false)).
  intros token sep rest. rewrite !contains_append.
  by intros [? [_ ?]%orb_false_elim]%orb_false_elim.
Qed.

Lemma plainTokens_ascii input :
  text.isAscii input = true →
  Forall (λ token, text.isAscii token = true) (text.plainTokens input).
Proof.
  apply (plainTokens_Forall (λ s, text.isAscii s = true)).
  intros token sep rest. rewrite !isAscii_append.
  by intros [? [_ ?]%andb_true_iff]%andb_true_iff.
Qed.

Lemma arrayElement_spec field :
  text.arrayElement field = true ↔
  text.cleanToken false field ∧ text.isAscii field = true ∧
  text.contains "[" field = false ∧ text.contains "]" field = false.
Proof.
  unfold text.arrayElement, text.cleanToken. rewrite !andb_true_iff, !negb_true_iff. split.
  - intros [[(? & ? & ? & ?)%plainField_spec ?] ?]. done.
  - intros ((Hfield & Hspace & Hcomma) & Hascii & ? & ?). split; [split|]; [|done..].
    destruct field as [|c field]; [done|]. unfold text.plainField.
    by rewrite Hascii, Hspace, Hcomma.
Qed.

(** ** getInnerArray *)

Lemma foldl_push (extract : string → Z) (tokens : list string) (out : list Z) :
  Forall (λ token, token ≠ "") tokens →
  foldl (λ out innerVal, if decide (innerVal = "") then out else out ++ [extract innerVal])
    out tokens = out ++ (extract <$> tokens).
Proof.
  intros Htokens. revert out.
  induction Htokens as [|token tokens Htoken _ IH]; intros out.
  - by rewrite app_nil_r.
  - cbn [foldl]. rewrite decide_False by done. rewrite IH.
    by rewrite <-app_assoc.
Qed.

(** What is left of a field when its brackets and spaces are taken out. *)
Lemma getInnerArray_tokens (extract : string → Z) (str : string) :
  metrics.getInnerArray extract str =
    metrics.Returns
      (extract <$> text.plainTokens (csv.erase " " (csv.erase "]" (csv.erase "[" str)))).
Proof.
  unfold metrics.getInnerArray. cbn zeta. rewrite splitByComma_tokens.
  f_equal. rewrite foldl_push; [done|].
  eapply Forall_impl; [apply plainTokens_clean, contains_erase|].
  by intros token (? & _).
Qed.

Lemma getInnerArray_elements (extract : string → Z) (str : string) :
  text.isAscii str = true →
  ∃ tokens,
    metrics.getInnerArray extract str = metrics.Returns (extract <$> tokens) ∧
    Forall (λ token, text.arrayElement token = true) tokens ∧
    csv.splitByComma (csv.erase "]" (csv.erase "[" str)) false =
      Some (csv.erase " " (csv.erase "]" (csv.erase "[" str)), tokens).
Proof.
  intros Hascii. rewrite getInnerArray_tokens, splitByComma_tokens.
  eexists. split; [done|]. split; [|done].
  set (inner := csv.erase " " (csv.erase "]" (csv.erase "[" str))).
  pose proof (plainTokens_clean inner (contains_erase _ _)) as Hclean.
  pose proof (plainTokens_ascii inner) as Hasciis.
  pose proof (plainTokens_without "[" inner) as Hopen.
  pose proof (plainTokens_without "]" inner) as Hclose.
  specialize (Hasciis ltac:(by do 3 apply isAscii_erase)).
  specialize (Hopen ltac:(by do 2 apply contains_erase_other; apply contains_erase)).
  specialize (Hclose ltac:(by apply contains_erase_other, contains_erase)).
  rewrite Forall_forall in *. intros token Htoken.
  apply arrayElement_spec. auto.
Qed.

Lemma getInnerArray_joined (extract : string → Z) (elements : list string) :
  Forall (λ element, text.arrayElement element = true) elements →
  metrics.getInnerArray extract (String "[" (text.joinFields elements +:+ "]")) =
    metrics.Returns (extract <$> elements).
Proof.
  intros Helements. rewrite getInnerArray_tokens. f_equal. f_equal.
  assert (∀ c, c ≠ ","%char → (c = " " ∨ c = "[" ∨ c = "]")%char →
               text.contains c (text.joinFields elements) = false) as Hjoined.
  { intros c Hc Hcases. apply contains_joinFields; [done|].
    eapply Forall_impl; [done|]. intros element (Hclean & _ & ? & ?)%arrayElement_spec.
    destruct Hclean as (_ & ? & _). by destruct Hcases as [->|[->| ->]]. }
  cbn [csv.erase]. rewrite decide_True by done. rewrite !erase_append.
  rewrite (erase_clean "[") by (apply Hjoined; [done|auto]).
  rewrite (erase_clean "]") by (apply Hjoined; [done|auto]).
  rewrite (erase_clean " ") by (apply Hjoined; [done|auto]).
  change (csv.erase " " (csv.erase "]" (csv.erase "[" "]"))) with ""%string.
  rewrite append_nil_r.
  apply plainTokens_joinFields.
  eapply Forall_impl; [done|].
  unfold text.arrayElement. by intros element [[? _]%andb_true_iff _]%andb_true_iff.
Qed.

(** ** The loop over the columns *)

Lemma columnLoop_Returns {A} (body : string → string → A → metrics.outcome A) i
    (header parts : list string) (arrays : A) :
  (∀ column value arrays, ∃ arrays', body column value arrays = metrics.Returns arrays') →
  header = [] ∨ i + length header ≤ length parts →
  ∃ arrays', metrics.columnLoop body i header parts arrays = metrics.Returns arrays'.
Proof.
  intros Hbody. revert i arrays.
  induction header as [|column header IH]; intros i arrays Hfits; [by eexists|].
  destruct Hfits as [?|Hfits]; [done|]. cbn [length] in Hfits. cbn [metrics.columnLoop].
  destruct (lookup_lt_is_Some_2 parts i ltac:(lia)) as [value ->].
  destruct (Hbody column value arrays) as [arrays' ->]. cbn.
  apply IH. right. lia.
Qed.

Lemma columnLoop_Undefined {A} (body : string → string → A → metrics.outcome A) i
    (header parts : list string) (arrays : A) :
  (∀ column value arrays, ∃ arrays', body column value arrays = metrics.Returns arrays') →
  header ≠ [] → length parts < i + length header →
  metrics.columnLoop body i header parts arrays = metrics.Undefined.
Proof.
  intros Hbody. revert i arrays.
  induction header as [|column header IH]; intros i arrays Hheader Hshort; [done|].
  cbn [length] in Hshort. cbn [metrics.columnLoop].
  destruct (parts !! i) as [value|] eqn:Hvalue; [|done].
  apply lookup_lt_Some in Hvalue.
  destruct (Hbody column value arrays) as [arrays' ->]. cbn.
  apply IH; [|lia]. intros ->. cbn [length] in Hshort. lia.
Qed.

Lemma touchpointColumn_Returns extract column value arrays :
  ∃ arrays', metrics.touchpointColumn extract column value arrays = metrics.Returns arrays'.
Proof.
  unfold metrics.touchpointColumn. rewrite getInnerArray_tokens.
  repeat case_decide; by eexists.
Qed.

Lemma conversionColumn_Returns extract column value arrays :
  ∃ arrays', metrics.conversionColumn extract column value arrays = metrics.Returns arrays'.
Proof.
  unfold metrics.conversionColumn. rewrite getInnerArray_tokens.
  repeat case_decide; by eexists.
Qed.

(** The loop is one of three things: undefined on a line that is shorter
    than the header, and a return otherwise. *)
Lemma columnLoop_cases {A} (body : string → string → A → metrics.outcome A)
    (header parts : list string) (arrays : A) :
  (∀ column value arrays, ∃ arrays', body column value arrays = metrics.Returns arrays') →
  (length header ≤ length parts ∧
   ∃ arrays', metrics.columnLoop body 0 header parts arrays = metrics.Returns arrays') ∨
  (length parts < length header ∧
   metrics.columnLoop body 0 header parts arrays = metrics.Undefined).
Proof.
  intros Hbody. destruct (decide (length header ≤ length parts)) as [Hfits|Hshort].
  - left. split; [done|]. apply columnLoop_Returns; [done|]. right. lia.
  - right. split; [lia|]. apply columnLoop_Undefined; [done| |lia].
    intros ->. cbn [length] in Hshort. lia.
Qed.

(** ** The rows that the parsers build *)

Lemma mapM_Returns {A B} (f : A → metrics.outcome B) (g : A → B) (l : list A) :
  Forall (λ x, f x = metrics.Returns (g x)) l → mapM f l = metrics.Returns (g <$> l).
Proof.
  induction 1 as [|x l Hx _ IH]; [done|]. cbn [mapM]. rewrite Hx, IH. done.
Qed.

Lemma at_nth (v : list Z) i : i < length v → at_ v i = Ok (nth i v 0%Z).
Proof.
  intros Hi. unfold at_. destruct (lookup_lt_is_Some_2 v i Hi) as [x Hx].
  rewrite Hx. f_equal. symmetry. by apply nth_lookup_Some.
Qed.

Lemma fmap_nth_seq (v : list Z) n :
  n = length v → (λ i, nth i v 0%Z) <$> seq 0 n = v.
Proof.
  intros ->. apply list_eq. intros i. rewrite list_lookup_fmap.
  destruct (decide (i < length v)) as [Hi|Hi].
  - rewrite lookup_seq_lt by done. cbn.
    destruct (lookup_lt_is_Some_2 v i Hi) as [x Hx]. rewrite Hx. f_equal.
    by apply nth_lookup_Some.
  - rewrite lookup_seq_ge by lia. cbn. symmetry. apply lookup_ge_None. lia.
Qed.

Lemma at_unique_ids n i : i < n → at_ (Z.of_nat <$> seq 0 n) i = Ok (Z.of_nat i).
Proof.
  intros Hi. unfold at_. rewrite list_lookup_fmap, lookup_seq_lt by done. done.
Qed.

Lemma size_unique_ids n : size (list_to_set (Z.of_nat <$> seq 0 n) : gset Z) = n.
Proof.
  rewrite size_list_to_set.
  - by rewrite length_fmap, length_seq.
  - apply NoDup_fmap_2; [apply _|apply NoDup_seq].
Qed.

Section Rows.
Variable extract : string → Z.
Variable FLAGS_max_num_touchpoints FLAGS_max_num_conversions : Z.

Lemma parseTouchpoints_rows lineNo header parts arrays :
  metrics.columnLoop (metrics.touchpointColumn extract) 0 header parts
    (metrics.mkTouchpointArrays [] [] [] []) = metrics.Returns arrays →
  length (metrics.adIds arrays) = length (metrics.timestamps arrays) →
  length (metrics.adIds arrays) = length (metrics.isClicks arrays) →
  (Z.of_nat (length (metrics.adIds arrays)) ≤ FLAGS_max_num_touchpoints `mod` 2 ^ 64)%Z →
  length (metrics.adIds arrays) = length (metrics.campaignMetadata arrays) →
  metrics.parseTouchpoints extract FLAGS_max_num_touchpoints lineNo header parts =
    metrics.Returns
      ((λ i, metrics.mkTouchpoint (Z.of_nat i)
               (bool_decide (nth i (metrics.isClicks arrays) 0%Z = 1%Z))
               (nth i (metrics.adIds arrays) 0%Z)
               (nth i (metrics.timestamps arrays) 0%Z)
               (nth i (metrics.campaignMetadata arrays) 0%Z))
         <$> seq 0 (length (metrics.adIds arrays))).
Proof.
  intros Hcolumns Hts Hclicks Hmax Hmeta. unfold metrics.parseTouchpoints.
  rewrite Hcolumns. cbn [mbind metrics.outcome_bind].
  unfold CHECK_EQ, metrics.CHECK_LE.
  rewrite (decide_True (P:=length _ = length (metrics.timestamps arrays))) by done.
  cbn [metrics.checked].
  rewrite (decide_True (P:=length _ = length (metrics.isClicks arrays))) by done.
  cbn [metrics.checked].
  rewrite (decide_True (P:=(_ ≤ _)%Z)) by done. cbn [metrics.checked].
  rewrite (decide_True (P:=length _ = length (metrics.campaignMetadata arrays))) by done.
  cbn [metrics.checked]. cbn zeta.
  rewrite (decide_True (P:=size _ = _)) by apply size_unique_ids.
  cbn [metrics.checked].
  apply mapM_Returns. apply Forall_forall. intros i [_ Hi]%elem_of_seq.
  rewrite at_unique_ids by lia. rewrite !at_nth by lia. done.
Qed.

Lemma parseConversions_rows header parts arrays :
  metrics.columnLoop (metrics.conversionColumn extract) 0 header parts
    (metrics.mkConversionArrays [] [] []) = metrics.Returns arrays →
  length (metrics.convTimestamps arrays) = length (metrics.convValues arrays) →
  length (metrics.convTimestamps arrays) = length (metrics.convMetadata arrays) →
  (Z.of_nat (length (metrics.convTimestamps arrays)) ≤ FLAGS_max_num_conversions `mod` 2 ^ 64)%Z →
  metrics.parseConversions extract FLAGS_max_num_conversions header parts =
    metrics.Returns
      ((λ i, metrics.mkConversion
               (nth i (metrics.convTimestamps arrays) 0%Z)
               (nth i (metrics.convValues arrays) 0%Z)
               (nth i (metrics.convMetadata arrays) 0%Z))
         <$> seq 0 (length (metrics.convTimestamps arrays))).
Proof.
  intros Hcolumns Hvalues Hmeta Hmax. unfold metrics.parseConversions.
  rewrite Hcolumns. cbn [mbind metrics.outcome_bind].
  unfold CHECK_EQ, metrics.CHECK_LE.
  rewrite (decide_True (P:=length _ = length (metrics.convValues arrays))) by done.
  cbn [metrics.checked].
  rewrite (decide_True (P:=length _ = length (metrics.convMetadata arrays))) by done.
  cbn [metrics.checked].
  rewrite (decide_True (P:=(_ ≤ _)%Z)) by done. cbn [metrics.checked].
  apply mapM_Returns. apply Forall_forall. intros i [_ Hi]%elem_of_seq.
  rewrite !at_nth by lia. done.
Qed.

End Rows.

(** The first check that is still to be made. *)
Ltac first_check :=
  lazymatch goal with
  | |- mbind _ (metrics.checked (if decide ?P is left _ then _ else _)) = _ =>
      destruct (decide P); cbn [metrics.checked mbind metrics.outcome_bind]
  | |- ∃ msg, mbind _ (metrics.checked (if decide ?P is left _ then _ else _)) = _ ∧ _ =>
      destruct (decide P); cbn [metrics.checked mbind metrics.outcome_bind]
  end.

Lemma parseTouchpoints_refused extract FLAGS_max_num_touchpoints lineNo header parts arrays :
  metrics.columnLoop (metrics.touchpointColumn extract) 0 header parts
    (metrics.mkTouchpointArrays [] [] [] []) = metrics.Returns arrays →
  ¬ (length (metrics.adIds arrays) = length (metrics.timestamps arrays) ∧
     length (metrics.adIds arrays) = length (metrics.isClicks arrays) ∧
     (Z.of_nat (length (metrics.adIds arrays)) ≤ FLAGS_max_num_touchpoints `mod` 2 ^ 64)%Z ∧
     length (metrics.adIds arrays) = length (metrics.campaignMetadata arrays)) →
  ∃ msg,
    metrics.parseTouchpoints extract FLAGS_max_num_touchpoints lineNo header parts =
      metrics.Raises (check_failure msg) ∧
    msg ∈ ["Ad ids and timestamps arrays are not the same length.";
           "Ad ids and is_click arrays are not the same length.";
           "Number of touchpoints exceeds the maximum allowed value.";
           "Ad ids and campaign_metadata arrays are not the same length."].
Proof.
  intros Hcolumns Hrefused. unfold metrics.parseTouchpoints.
  rewrite Hcolumns. cbn [mbind metrics.outcome_bind].
  unfold CHECK_EQ, metrics.CHECK_LE.
  first_check; [|eexists; split; [done|set_solver]].
  first_check; [|eexists; split; [done|set_solver]].
  first_check; [|eexists; split; [done|set_solver]].
  first_check; [|eexists; split; [done|set_solver]].
  by destruct Hrefused.
Qed.

Lemma parseConversions_refused extract FLAGS_max_num_conversions header parts arrays :
  metrics.columnLoop (metrics.conversionColumn extract) 0 header parts
    (metrics.mkConversionArrays [] [] []) = metrics.Returns arrays →
  ¬ (length (metrics.convTimestamps arrays) = length (metrics.convValues arrays) ∧
     length (metrics.convTimestamps arrays) = length (metrics.convMetadata arrays) ∧
     (Z.of_nat (length (metrics.convTimestamps arrays))
        ≤ FLAGS_max_num_conversions `mod` 2 ^ 64)%Z) →
  ∃ msg,
    metrics.parseConversions extract FLAGS_max_num_conversions header parts =
      metrics.Raises (check_failure msg) ∧
    msg ∈ ["Conversion timetamps and conversion value arrays are not the same length.";
           "Conversion timetamps and  arrays are not the same length.";
           "Number of conversions exceeds the maximum allowed value."].
Proof.
  intros Hcolumns Hrefused. unfold metrics.parseConversions.
  rewrite Hcolumns. cbn [mbind metrics.outcome_bind].
  unfold CHECK_EQ, metrics.CHECK_LE.
  first_check; [|eexists; split; [done|set_solver]].
  first_check; [|eexists; split; [done|set_solver]].
  first_check; [|eexists; split; [done|set_solver]].
  by destruct Hrefused.
Qed.

(** ** What the parsers of AttributionMetrics.cpp do with a line *)

(** X25.  [parseTouchpoints] on a line of ASCII parts ends in one of three ways.
    It returns when the four arrays of the line have one length and that
    length is within the flag read as an unsigned number: one touchpoint per
    ad id, numbered 0, 1, ... in the order of the arrays, a click where
    is_click holds 1.  It fails on one of its four checks of lengths, and on
    nothing else: the check of unique ids never fails and [at] never throws.
    It is undefined when the line has fewer parts than the header. *)
Theorem parseTouchpoints_outcomes (extract : string → Z) (FLAGS_max_num_touchpoints lineNo : Z)
    (header parts : list string) :
  asciiParts parts →
  match metrics.parseTouchpoints extract FLAGS_max_num_touchpoints lineNo header parts with
  | metrics.Returns tps =>
      ∃ arrays,
        metrics.columnLoop (metrics.touchpointColumn extract) 0 header parts
          (metrics.mkTouchpointArrays [] [] [] []) = metrics.Returns arrays ∧
        metrics.tp_id <$> tps = Z.of_nat <$> seq 0 (length tps) ∧
        metrics.tp_adId <$> tps = metrics.adIds arrays ∧
        metrics.tp_ts <$> tps = metrics.timestamps arrays ∧
        metrics.tp_isClick <$> tps = (λ v, bool_decide (v = 1%Z)) <$> metrics.isClicks arrays ∧
        metrics.tp_campaignMetadata <$> tps = metrics.campaignMetadata arrays ∧
        (Z.of_nat (length tps) ≤ FLAGS_max_num_touchpoints `mod` 2 ^ 64)%Z
  | metrics.Raises e =>
      ∃ arrays msg,
        metrics.columnLoop (metrics.touchpointColumn extract) 0 header parts
          (metrics.mkTouchpointArrays [] [] [] []) = metrics.Returns arrays ∧
        e = check_failure msg ∧
        msg ∈ ["Ad ids and timestamps arrays are not the same length.";
               "Ad ids and is_click arrays are not the same length.";
               "Number of touchpoints exceeds the maximum allowed value.";
               "Ad ids and campaign_metadata arrays are not the same length."] ∧
        ¬ (length (metrics.adIds arrays) = length (metrics.timestamps arrays) ∧
           length (metrics.adIds arrays) = length (metrics.isClicks arrays) ∧
           (Z.of_nat (length (metrics.adIds arrays))
              ≤ FLAGS_max_num_touchpoints `mod` 2 ^ 64)%Z ∧
           length (metrics.adIds arrays) = length (metrics.campaignMetadata arrays))
  | metrics.Undefined => length parts < length header
  | metrics.Endless => False
  end.
Proof.
  intros _.
  destruct (columnLoop_cases (metrics.touchpointColumn extract) header parts
              (metrics.mkTouchpointArrays [] [] [] []) (touchpointColumn_Returns extract))
    as [[_ [arrays Hcolumns]]|[Hshort Hcolumns]].
  - destruct (decide
      (length (metrics.adIds arrays) = length (metrics.timestamps arrays) ∧
       length (metrics.adIds arrays) = length (metrics.isClicks arrays) ∧
       (Z.of_nat (length (metrics.adIds arrays)) ≤ FLAGS_max_num_touchpoints `mod` 2 ^ 64)%Z ∧
       length (metrics.adIds arrays) = length (metrics.campaignMetadata arrays)))
      as [(Hts & Hclicks & Hmax & Hmeta)|Hrefused].
    + rewrite (parseTouchpoints_rows _ _ _ _ _ _ Hcolumns Hts Hclicks Hmax Hmeta).
      exists arrays. split; [done|].
      rewrite <-!list_fmap_compose, length_fmap, length_seq.
      split; [done|]. split; [by apply fmap_nth_seq|]. split; [by apply fmap_nth_seq|].
      split; [|split; [by apply fmap_nth_seq|done]].
      transitivity ((λ v, bool_decide (v = 1%Z)) <$>
                      ((λ i, nth i (metrics.isClicks arrays) 0%Z) <$>
                         seq 0 (length (metrics.adIds arrays)))).
      * by rewrite <-list_fmap_compose.
      * by rewrite (fmap_nth_seq (metrics.isClicks arrays) _ Hclicks).
    + destruct (parseTouchpoints_refused extract FLAGS_max_num_touchpoints lineNo _ _ _
                  Hcolumns Hrefused) as (msg & -> & Hmsg).
      by exists arrays, msg.
  - unfold metrics.parseTouchpoints. by rewrite Hcolumns.
Qed.

Lemma parseTouchpoints_outcomes_witness :
  match
    metrics.parseTouchpoints (λ text, Z.of_nat (String.length text)) 4 0
      ["id_"; "ad_ids"; "timestamps"; "is_click"; "campaign_metadata"]
      ["7"; "[11,12]"; "[100,200]"; "[1,0]"; "[5,5]"]
  with
  | metrics.Returns tps =>
      ∃ arrays,
        metrics.columnLoop (metrics.touchpointColumn (λ text, Z.of_nat (String.length text))) 0
          ["id_"; "ad_ids"; "timestamps"; "is_click"; "campaign_metadata"]
          ["7"; "[11,12]"; "[100,200]"; "[1,0]"; "[5,5]"]
          (metrics.mkTouchpointArrays [] [] [] []) = metrics.Returns arrays ∧
        metrics.tp_id <$> tps = Z.of_nat <$> seq 0 (length tps) ∧
        metrics.tp_adId <$> tps = metrics.adIds arrays ∧
        metrics.tp_ts <$> tps = metrics.timestamps arrays ∧
        metrics.tp_isClick <$> tps = (λ v, bool_decide (v = 1%Z)) <$> metrics.isClicks arrays ∧
        metrics.tp_campaignMetadata <$> tps = metrics.campaignMetadata arrays ∧
        (Z.of_nat (length tps) ≤ 4 `mod` 2 ^ 64)%Z
  | metrics.Raises e =>
      ∃ arrays msg,
        metrics.columnLoop (metrics.touchpointColumn (λ text, Z.of_nat (String.length text))) 0
          ["id_"; "ad_ids"; "timestamps"; "is_click"; "campaign_metadata"]
          ["7"; "[11,12]"; "[100,200]"; "[1,0]"; "[5,5]"]
          (metrics.mkTouchpointArrays [] [] [] []) = metrics.Returns arrays ∧
        e = check_failure msg ∧
        msg ∈ ["Ad ids and timestamps arrays are not the same length.";
               "Ad ids and is_click arrays are not the same length.";
               "Number of touchpoints exceeds the maximum allowed value.";
               "Ad ids and campaign_metadata arrays are not the same length."] ∧
        ¬ (length (metrics.adIds arrays) = length (metrics.timestamps arrays) ∧
           length (metrics.adIds arrays) = length (metrics.isClicks arrays) ∧
           (Z.of_nat (length (metrics.adIds arrays)) ≤ 4 `mod` 2 ^ 64)%Z ∧
           length (metrics.adIds arrays) = length (metrics.campaignMetadata arrays))
  | metrics.Undefined => 5 < 5
  | metrics.Endless => False
  end.
Proof.
  apply (parseTouchpoints_outcomes (λ text, Z.of_nat (String.length text)) 4 0
           ["id_"; "ad_ids"; "timestamps"; "is_click"; "campaign_metadata"]
           ["7"; "[11,12]"; "[100,200]"; "[1,0]"; "[5,5]"]).
  repeat constructor.
Defined.

(** X26.  [parseConversions] on a line of ASCII parts ends in one of three ways.
    It returns when the three arrays of the line have one length and that
    length is within the flag read as an unsigned number: one conversion per
    timestamp, in the order of the arrays.  It fails on one of its three
    checks and on nothing else: [at] never throws.  It is undefined when the
    line has fewer parts than the header. *)
Theorem parseConversions_outcomes (extract : string → Z) (FLAGS_max_num_conversions : Z)
    (header parts : list string) :
  asciiParts parts →
  match metrics.parseConversions extract FLAGS_max_num_conversions header parts with
  | metrics.Returns convs =>
      ∃ arrays,
        metrics.columnLoop (metrics.conversionColumn extract) 0 header parts
          (metrics.mkConversionArrays [] [] []) = metrics.Returns arrays ∧
        metrics.conv_ts <$> convs = metrics.convTimestamps arrays ∧
        metrics.conv_value <$> convs = metrics.convValues arrays ∧
        metrics.conv_metadata <$> convs = metrics.convMetadata arrays ∧
        (Z.of_nat (length convs) ≤ FLAGS_max_num_conversions `mod` 2 ^ 64)%Z
  | metrics.Raises e =>
      ∃ arrays msg,
        metrics.columnLoop (metrics.conversionColumn extract) 0 header parts
          (metrics.mkConversionArrays [] [] []) = metrics.Returns arrays ∧
        e = check_failure msg ∧
        msg ∈ ["Conversion timetamps and conversion value arrays are not the same length.";
               "Conversion timetamps and  arrays are not the same length.";
               "Number of conversions exceeds the maximum allowed value."] ∧
        ¬ (length (metrics.convTimestamps arrays) = length (metrics.convValues arrays) ∧
           length (metrics.convTimestamps arrays) = length (metrics.convMetadata arrays) ∧
           (Z.of_nat (length (metrics.convTimestamps arrays))
              ≤ FLAGS_max_num_conversions `mod` 2 ^ 64)%Z)
  | metrics.Undefined => length parts < length header
  | metrics.Endless => False
  end.
Proof.
  intros _.
  destruct (columnLoop_cases (metrics.conversionColumn extract) header parts
              (metrics.mkConversionArrays [] [] []) (conversionColumn_Returns extract))
    as [[_ [arrays Hcolumns]]|[Hshort Hcolumns]].
  - destruct (decide
      (length (metrics.convTimestamps arrays) = length (metrics.convValues arrays) ∧
       length (metrics.convTimestamps arrays) = length (metrics.convMetadata arrays) ∧
       (Z.of_nat (length (metrics.convTimestamps arrays))
          ≤ FLAGS_max_num_conversions `mod` 2 ^ 64)%Z))
      as [(Hvalues & Hmeta & Hmax)|Hrefused].
    + rewrite (parseConversions_rows _ _ _ _ _ Hcolumns Hvalues Hmeta Hmax).
      exists arrays. split; [done|].
      rewrite <-!list_fmap_compose, length_fmap, length_seq.
      split; [by apply fmap_nth_seq|]. split; [by apply fmap_nth_seq|].
      split; [by apply fmap_nth_seq|done].
    + destruct (parseConversions_refused extract FLAGS_max_num_conversions _ _ _
                  Hcolumns Hrefused) as (msg & -> & Hmsg).
      by exists arrays, msg.
  - unfold metrics.parseConversions. by rewrite Hcolumns.
Qed.

Lemma parseConversions_outcomes_witness :
  match
    metrics.parseConversions (λ text, Z.of_nat (String.length text)) 1
      ["id_"; "conversion_timestamps"; "conversion_values"; "conversion_metadata"]
      ["7"; "[150,250]"; "[20,30]"; "[0,0]"]
  with
  | metrics.Returns convs =>
      ∃ arrays,
        metrics.columnLoop (metrics.conversionColumn (λ text, Z.of_nat (String.length text))) 0
          ["id_"; "conversion_timestamps"; "conversion_values"; "conversion_metadata"]
          ["7"; "[150,250]"; "[20,30]"; "[0,0]"]
          (metrics.mkConversionArrays [] [] []) = metrics.Returns arrays ∧
        metrics.conv_ts <$> convs = metrics.convTimestamps arrays ∧
        metrics.conv_value <$> convs = metrics.convValues arrays ∧
        metrics.conv_metadata <$> convs = metrics.convMetadata arrays ∧
        (Z.of_nat (length convs) ≤ 1 `mod` 2 ^ 64)%Z
  | metrics.Raises e =>
      ∃ arrays msg,
        metrics.columnLoop (metrics.conversionColumn (λ text, Z.of_nat (String.length text))) 0
          ["id_"; "conversion_timestamps"; "conversion_values"; "conversion_metadata"]
          ["7"; "[150,250]"; "[20,30]"; "[0,0]"]
          (metrics.mkConversionArrays [] [] []) = metrics.Returns arrays ∧
        e = check_failure msg ∧
        msg ∈ ["Conversion timetamps and conversion value arrays are not the same length.";
               "Conversion timetamps and  arrays are not the same length.";
               "Number of conversions exceeds the maximum allowed value."] ∧
        ¬ (length (metrics.convTimestamps arrays) = length (metrics.convValues arrays) ∧
           length (metrics.convTimestamps arrays) = length (metrics.convMetadata arrays) ∧
           (Z.of_nat (length (metrics.convTimestamps arrays)) ≤ 1 `mod` 2 ^ 64)%Z)
  | metrics.Undefined => 4 < 4
  | metrics.Endless => False
  end.
Proof.
  apply (parseConversions_outcomes (λ text, Z.of_nat (String.length text)) 1
           ["id_"; "conversion_timestamps"; "conversion_values"; "conversion_metadata"]
           ["7"; "[150,250]"; "[20,30]"; "[0,0]"]).
  repeat constructor.
Defined.

(** X27.  A line with fewer parts than the header has columns is read past its
    end: both parsers index [parts] with the positions of the header and
    check nothing first, so their behaviour is undefined, whatever the
    names of the columns are. *)
Theorem short_line_is_read_past_its_end (extract : string → Z)
    (FLAGS_max_num_touchpoints FLAGS_max_num_conversions lineNo : Z)
    (header parts : list string) :
  asciiParts parts → length parts < length header →
  metrics.parseTouchpoints extract FLAGS_max_num_touchpoints lineNo header parts =
    metrics.Undefined ∧
  metrics.parseConversions extract FLAGS_max_num_conversions header parts =
    metrics.Undefined.
Proof.
  intros _ Hshort.
  assert (header ≠ []) as Hheader by (intros ->; cbn [length] in Hshort; lia).
  unfold metrics.parseTouchpoints, metrics.parseConversions.
  rewrite !columnLoop_Undefined;
    [done|apply conversionColumn_Returns|done|lia|apply touchpointColumn_Returns|done|lia].
Qed.

Lemma short_line_is_read_past_its_end_witness :
  metrics.parseTouchpoints (λ text, Z.of_nat (String.length text)) 4 0
    ["id_"; "ad_ids"; "timestamps"] ["7"; "[11,12]"] = metrics.Undefined ∧
  metrics.parseConversions (λ text, Z.of_nat (String.length text)) 4
    ["id_"; "ad_ids"; "timestamps"] ["7"; "[11,12]"] = metrics.Undefined.
Proof.
  apply (short_line_is_read_past_its_end (λ text, Z.of_nat (String.length text)) 4 4 0
           ["id_"; "ad_ids"; "timestamps"] ["7"; "[11,12]"]).
  - repeat constructor.
  - cbn [length]. lia.
Defined.

(** ** Which part fills which array *)

Section NamedColumns.
Context {A : Type}.
Variable extract : string → Z.
Variable body : string → string → A → metrics.outcome A.
Variable array : string → A → option (list Z).
Hypothesis body_fills : ∀ column value arrays arrays' vals,
  body column value arrays = metrics.Returns arrays' →
  array column arrays' = Some vals →
  metrics.getInnerArray extract value = metrics.Returns vals.
Hypothesis body_keeps : ∀ column value arrays arrays' other,
  body column value arrays = metrics.Returns arrays' →
  other ≠ column → array other arrays' = array other arrays.

Lemma columnLoop_named i (header parts : list string) (arrays0 arrays : A) column vals :
  metrics.columnLoop body i header parts arrays0 = metrics.Returns arrays →
  array column arrays = Some vals →
  (∃ k value,
     header !! k = Some column ∧ (∀ j, k < j → header !! j ≠ Some column) ∧
     parts !! (i + k) = Some value ∧
     metrics.getInnerArray extract value = metrics.Returns vals) ∨
  (column ∉ header ∧ array column arrays0 = Some vals).
Proof.
  revert i arrays0. induction header as [|c header IH]; intros i arrays0 Hloop Harray.
  - injection Hloop as ->. right. split; [apply not_elem_of_nil|done].
  - cbn [metrics.columnLoop] in Hloop.
    destruct (parts !! i) as [value|] eqn:Hvalue; [|done].
    destruct (body c value arrays0) as [arrays1| | |] eqn:Hbody; try done.
    cbn [mbind metrics.outcome_bind] in Hloop.
    destruct (IH _ _ Hloop Harray) as [(k & value' & Hk & Hlast & Hpart & Hinner)|[Hnot Hkept]].
    + left. exists (S k), value'. split; [done|]. split.
      * intros [|j] Hj; [lia|]. apply Hlast. lia.
      * split; [|done]. by rewrite <-Nat.add_succ_comm.
    + destruct (decide (column = c)) as [->|Hother].
      * left. exists 0, value. split; [done|]. split.
        { intros [|j] Hj; [lia|]. cbn. intros Hj'%list_elem_of_lookup_2. done. }
        split; [by rewrite Nat.add_0_r|]. by eapply body_fills.
      * right. split; [by apply not_elem_of_cons|].
        by rewrite <-(body_keeps _ _ _ _ _ Hbody Hother).
Qed.

End NamedColumns.

Lemma touchpointColumn_fills extract column value arrays arrays' vals :
  metrics.touchpointColumn extract column value arrays = metrics.Returns arrays' →
  touchpointArray column arrays' = Some vals →
  metrics.getInnerArray extract value = metrics.Returns vals.
Proof.
  unfold metrics.touchpointColumn, touchpointArray.
  destruct (metrics.getInnerArray extract value) as [parsed| | |] eqn:Hparsed;
    repeat case_decide; cbn; try done; by intros [= <-] [= <-].
Qed.

Lemma touchpointColumn_keeps extract column value arrays arrays' other :
  metrics.touchpointColumn extract column value arrays = metrics.Returns arrays' →
  other ≠ column → touchpointArray other arrays' = touchpointArray other arrays.
Proof.
  unfold metrics.touchpointColumn, touchpointArray.
  destruct (metrics.getInnerArray extract value) as [parsed| | |] eqn:Hparsed;
    repeat case_decide; cbn; try done; intros [= <-] ?; by simplify_eq.
Qed.

Lemma conversionColumn_fills extract column value arrays arrays' vals :
  metrics.conversionColumn extract column value arrays = metrics.Returns arrays' →
  conversionArray column arrays' = Some vals →
  metrics.getInnerArray extract value = metrics.Returns vals.
Proof.
  unfold metrics.conversionColumn, conversionArray.
  destruct (metrics.getInnerArray extract value) as [parsed| | |] eqn:Hparsed;
    repeat case_decide; cbn; try done; by intros [= <-] [= <-].
Qed.

Lemma conversionColumn_keeps extract column value arrays arrays' other :
  metrics.conversionColumn extract column value arrays = metrics.Returns arrays' →
  other ≠ column → conversionArray other arrays' = conversionArray other arrays.
Proof.
  unfold metrics.conversionColumn, conversionArray.
  destruct (metrics.getInnerArray extract value) as [parsed| | |] eqn:Hparsed;
    repeat case_decide; cbn; try done; intros [= <-] ?; by simplify_eq.
Qed.

(** X28.  The arrays of a line are filled by name, and the last column of a name
    wins.  Whatever [parseTouchpoints] holds in one of its four arrays, and
    [parseConversions] in one of its three, after the loop over the header
    is [getInnerArray] of the part that stands under the last column of
    the array's name; an array whose name is not in the header is empty. *)
Theorem arrays_are_filled_by_name (extract : string → Z) (header parts : list string)
    (column : string) (vals : list Z) :
  asciiParts parts →
  (∀ arrays,
     metrics.columnLoop (metrics.touchpointColumn extract) 0 header parts
       (metrics.mkTouchpointArrays [] [] [] []) = metrics.Returns arrays →
     touchpointArray column arrays = Some vals →
     filledBy extract header parts column vals) ∧
  (∀ arrays,
     metrics.columnLoop (metrics.conversionColumn extract) 0 header parts
       (metrics.mkConversionArrays [] [] []) = metrics.Returns arrays →
     conversionArray column arrays = Some vals →
     filledBy extract header parts column vals).
Proof.
  intros _. split; intros arrays Hloop Harray.
  - destruct (columnLoop_named extract _ touchpointArray (touchpointColumn_fills extract)
                (touchpointColumn_keeps extract) _ _ _ _ _ _ _ Hloop Harray)
      as [(k & value & ? & ? & ? & ?)|[? Hempty]].
    + left. by exists k, value.
    + right. split; [done|]. unfold touchpointArray in Hempty.
      repeat case_decide; by simplify_eq.
  - destruct (columnLoop_named extract _ conversionArray (conversionColumn_fills extract)
                (conversionColumn_keeps extract) _ _ _ _ _ _ _ Hloop Harray)
      as [(k & value & ? & ? & ? & ?)|[? Hempty]].
    + left. by exists k, value.
    + right. split; [done|]. unfold conversionArray in Hempty.
      repeat case_decide; by simplify_eq.
Qed.

Lemma arrays_are_filled_by_name_witness :
  (∀ arrays,
     metrics.columnLoop (metrics.touchpointColumn (λ text, Z.of_nat (String.length text))) 0
       ["timestamps"; "id_"; "timestamps"] ["[1]"; "7"; "[22,333]"]
       (metrics.mkTouchpointArrays [] [] [] []) = metrics.Returns arrays →
     touchpointArray "timestamps" arrays = Some [2; 3]%Z →
     filledBy (λ text, Z.of_nat (String.length text))
       ["timestamps"; "id_"; "timestamps"] ["[1]"; "7"; "[22,333]"] "timestamps" [2; 3]%Z) ∧
  (∀ arrays,
     metrics.columnLoop (metrics.conversionColumn (λ text, Z.of_nat (String.length text))) 0
       ["timestamps"; "id_"; "timestamps"] ["[1]"; "7"; "[22,333]"]
       (metrics.mkConversionArrays [] [] []) = metrics.Returns arrays →
     conversionArray "timestamps" arrays = Some [2; 3]%Z →
     filledBy (λ text, Z.of_nat (String.length text))
       ["timestamps"; "id_"; "timestamps"] ["[1]"; "7"; "[22,333]"] "timestamps" [2; 3]%Z).
Proof.
  apply (arrays_are_filled_by_name (λ text, Z.of_nat (String.length text))
           ["timestamps"; "id_"; "timestamps"] ["[1]"; "7"; "[22,333]"] "timestamps" [2; 3]%Z).
  repeat constructor.
Defined.

(** ** What getInnerArray reads *)

(** X29.  [getInnerArray] opens a bracketed field into its elements: on a group in
    brackets whose elements are plain fields without brackets, separated by
    single commas, it returns one number per element, in order, each read
    from the text of its element; on the empty group it returns no number. *)
Theorem getInnerArray_opens_an_array (extract : string → Z) (elements : list string) :
  Forall (λ element, text.arrayElement element = true) elements →
  metrics.getInnerArray extract (String "[" (text.joinFields elements +:+ "]")) =
    metrics.Returns (extract <$> elements).
Proof. apply getInnerArray_joined. Qed.

Lemma getInnerArray_opens_an_array_witness :
  metrics.getInnerArray (λ text, Z.of_nat (String.length text))
    (String "[" (text.joinFields ["100"; "20"] +:+ "]")) =
    metrics.Returns ((λ text, Z.of_nat (String.length text)) <$> ["100"; "20"]).
Proof.
  apply (getInnerArray_opens_an_array (λ text, Z.of_nat (String.length text)) ["100"; "20"]).
  repeat constructor.
Defined.

(** X30.  [getInnerArray] returns on every ASCII text, and what it hands to the
    reader of numbers is always an element: a text that is not empty and
    holds no comma, no space and no bracket.  So its test for an empty token
    never drops one, and brackets count nowhere in the field: nested or
    unbalanced, they are taken out before the field is split. *)
Theorem getInnerArray_reads_elements (extract : string → Z) (str : string) :
  text.isAscii str = true →
  ∃ tokens,
    metrics.getInnerArray extract str = metrics.Returns (extract <$> tokens) ∧
    Forall (λ token, text.arrayElement token = true) tokens ∧
    csv.splitByComma (csv.erase "]" (csv.erase "[" str)) false =
      Some (csv.erase " " (csv.erase "]" (csv.erase "[" str)), tokens).
Proof.
  intros Hascii. destruct (getInnerArray_elements extract str Hascii) as (tokens & ? & ? & ?).
  by exists tokens.
Qed.

Lemma getInnerArray_reads_elements_witness :
  ∃ tokens,
    metrics.getInnerArray (λ text, Z.of_nat (String.length text)) "[[1, 22],,[333]" =
      metrics.Returns ((λ text, Z.of_nat (String.length text)) <$> tokens) ∧
    Forall (λ token, text.arrayElement token = true) tokens ∧
    csv.splitByComma (csv.erase "]" (csv.erase "[" "[[1, 22],,[333]")) false =
      Some (csv.erase " " (csv.erase "]" (csv.erase "[" "[[1, 22],,[333]")), tokens).
Proof.
  apply (getInnerArray_reads_elements (λ text, Z.of_nat (String.length text))
           "[[1, 22],,[333]").
  reflexivity.
Defined.
